(** * PdfObjectModel: the tree-table adapter of PoDoFoBrowser

    A shallow embedding of [pdfobjectmodel.cpp]: the model tree
    ([PdfObjectModelTree]), its nodes ([PdfObjectModelNode]) and the Qt
    adapter ([PdfObjectModel]), together with the properties of the
    alias index, lazy child population and the edit protocol.

    The C++ free store is explicit: nodes live in a finite map from
    addresses to node records, and the PDF document the tree points to
    is a value that the operations read and update in place.
    Assertions are compiled in, as in a build without NDEBUG. The
    destructor of a node recurses into its children; the model gives
    that recursion a budget and the proofs show which budget suffices. *)

From stdpp Require Import base gmap list strings.
From Stdlib Require Import ZArith Lia DecimalString.

Local Open Scope Z_scope.
Set Warnings "-register-all".

(** ** Outcomes of a C++ call

    A call runs on a state (the free store and the document). It
    returns, or an exception leaves it, in both cases with the state
    reached so far; or the program is gone. *)

Inductive exception :=
| invalid_argument (what : string)
| logic_error (what : string)
| PdfError (code : nat).

Inductive outcome (S A : Type) :=
| Return (a : A) (s : S)        (* normal completion *)
| Throw (e : exception) (s : S) (* a C++ exception leaves the call *)
| AssertFail                    (* an assertion is false: abort() *)
| Undefined                     (* null or dangling dereference, iterator
                                   past the end, signed overflow *)
| OutOfFuel.                    (* recursion budget of the model exhausted *)
Arguments Return {S A} a s.
Arguments Throw {S A} e s.
Arguments AssertFail {S A}.
Arguments Undefined {S A}.
Arguments OutOfFuel {S A}.

Definition M (S A : Type) : Type := S → outcome S A.

Definition ret {S A} (a : A) : M S A := λ s, Return a s.

Definition bind {S A B} (m : M S A) (k : A → M S B) : M S B := λ s,
  match m s with
  | Return a s' => k a s'
  | Throw e s' => Throw e s'
  | AssertFail => AssertFail
  | Undefined => Undefined
  | OutOfFuel => OutOfFuel
  end.

#[global] Instance M_ret {S} : MRet (M S) := λ A, ret.
#[global] Instance M_bind {S} : MBind (M S) := λ A B k m, bind m k.

Definition throw {S A} (e : exception) : M S A := λ s, Throw e s.
Definition get {S} : M S S := λ s, Return s s.
Definition gets {S A} (f : S → A) : M S A := λ s, Return (f s) s.
Definition modify {S} (f : S → S) : M S unit := λ s, Return tt (f s).
Definition undefined {S A} : M S A := λ _, Undefined.
Definition out_of_fuel {S A} : M S A := λ _, OutOfFuel.

(** A pointer that must not be null or dangling when dereferenced. *)
Definition deref {S A} (o : option A) : M S A :=
  match o with Some a => ret a | None => undefined end.

Definition assert {S} (b : bool) : M S unit :=
  if b then ret tt else λ _, AssertFail.

(** A loop over a vector by iterator, [begin()] to [end()]. *)
Fixpoint for_each {S A} (body : A → M S unit) (l : list A) : M S unit :=
  match l with
  | [] => ret tt
  | x :: l' => _ ← body x; for_each body l'
  end.

(** ** Machine integers *)

(** [size_t] to [int]: the low 32 bits, read as two's complement. *)
Definition int_of_size (n : nat) : Z :=
  let z := Z.of_nat n mod 2 ^ 32 in
  if z <? 2 ^ 31 then z else z - 2 ^ 32.

(** [int] to [size_t] (64 bit), as in the comparison [n < v.size()]. *)
Definition size_t_of_int (z : Z) : Z := z mod 2 ^ 64.

(** ** The PDF library's objects, as the model uses them

    Modelled from the spec: the PDF library is not part of the sources.
    Its objects are the tagged union of the spec's data model; a
    dictionary is an ordered map from names to objects, an array an
    ordered sequence of objects, and a reference is resolved through the
    document's table of indirect objects. *)

Module PoDoFo.

Definition PdfName := string.

(** [PdfName::KeyNull], the empty name. *)
Definition KeyNull : PdfName := EmptyString.

Record PdfReference := mkPdfReference
  { ObjectNumber : nat; GenerationNumber : nat }.

#[global] Instance PdfReference_eq_dec : EqDecision PdfReference.
Proof. solve_decision. Defined.

(** [PdfVariant]: one constructor per [EPdfDataType]. A dictionary is
    its key map in iteration order, an array its element vector. *)
Inductive PdfVariant :=
| Bool (b : bool)
| Number (n : Z)
| Real (digits : string)
| String (s : string)
| HexString (s : string)
| Name (n : PdfName)
| Array (a : list PdfVariant)
| Dictionary (d : list (PdfName * PdfVariant))
| Null
| Reference (r : PdfReference)
| RawData (s : string).

Definition IsArray (v : PdfVariant) : bool :=
  match v with Array _ => true | _ => false end.
Definition IsDictionary (v : PdfVariant) : bool :=
  match v with Dictionary _ => true | _ => false end.
Definition IsReference (v : PdfVariant) : bool :=
  match v with Reference _ => true | _ => false end.

(** [GetArray], [GetDictionary], [GetReference] on an object of another
    type are errors of the caller. *)
Definition GetArray {S} (v : PdfVariant) : M S (list PdfVariant) :=
  match v with Array a => ret a | _ => undefined end.
Definition GetDictionary {S} (v : PdfVariant)
  : M S (list (PdfName * PdfVariant)) :=
  match v with Dictionary d => ret d | _ => undefined end.
Definition GetReference {S} (v : PdfVariant) : M S PdfReference :=
  match v with Reference r => ret r | _ => undefined end.

(** The key map, a [std::map] from names to objects. *)
Fixpoint GetKey (d : list (PdfName * PdfVariant)) (k : PdfName)
  : option PdfVariant :=
  match d with
  | [] => None
  | (k', v) :: d' => if decide (k' = k) then Some v else GetKey d' k
  end.

Definition HasKey (d : list (PdfName * PdfVariant)) (k : PdfName) : bool :=
  match GetKey d k with Some _ => true | None => false end.

(** [AddKey]: an existing entry is replaced, a new one takes its place
    in the map's key order. *)
Fixpoint AddKey (d : list (PdfName * PdfVariant)) (k : PdfName)
  (v : PdfVariant) : list (PdfName * PdfVariant) :=
  match d with
  | [] => [(k, v)]
  | (k', v') :: d' =>
      if decide (k' = k) then (k, v) :: d'
      else if String.ltb k k' then (k, v) :: (k', v') :: d'
      else (k', v') :: AddKey d' k v
  end.

(** [std::vector::insert(begin() + row, x)]. *)
Definition vector_insert {A} (a : list A) (row : nat) (x : A) : list A :=
  take row a ++ x :: drop row a.

(** A [PdfObject*]: an indirect object of the table, or an object held
    inside one, reached through dictionary keys and array positions.
    Two pointers are equal when they designate the same place: an
    indirect object is known by its reference, the value of a dictionary
    key by the key, an array element by its index, as the address of an
    element of a [std::vector] is. *)
Inductive PathStep := AtKey (k : PdfName) | AtIndex (i : nat).

#[global] Instance PathStep_eq_dec : EqDecision PathStep.
Proof. solve_decision. Defined.

Record PdfObjectPtr := mkPtr
  { ptr_ref : PdfReference; ptr_path : list PathStep }.

#[global] Instance PdfObjectPtr_eq_dec : EqDecision PdfObjectPtr.
Proof. solve_decision. Defined.

(** The document: its trailer, its table of indirect objects, and where
    its objects lie in memory, as far as a program can tell:
    [address_less p q] is [std::less<const PdfObject*>()(p, q)], the
    order in which a [std::multimap] keyed by object pointers keeps its
    keys. The allocator decides it, not the program. *)
Record PdfDocument := mkPdfDocument
  { GetTrailer : PdfVariant;
    GetObjects : list (PdfReference * PdfVariant);
    address_less : PdfObjectPtr → PdfObjectPtr → bool }.

Definition ptr_step (p : PdfObjectPtr) (s : PathStep) : PdfObjectPtr :=
  mkPtr (ptr_ref p) (ptr_path p ++ [s]).

Fixpoint vec_lookup (objs : list (PdfReference * PdfVariant))
  (r : PdfReference) : option PdfVariant :=
  match objs with
  | [] => None
  | (r', v) :: objs' => if decide (r' = r) then Some v else vec_lookup objs' r
  end.

(** [PdfVecObjects::GetObject]: the object with that reference, or null. *)
Definition PdfVecObjects_GetObject (objs : list (PdfReference * PdfVariant))
  (r : PdfReference) : option PdfObjectPtr :=
  match vec_lookup objs r with
  | Some _ => Some (mkPtr r [])
  | None => None
  end.

(** The object a pointer designates. *)
Fixpoint variant_at (v : PdfVariant) (path : list PathStep)
  : option PdfVariant :=
  match path with
  | [] => Some v
  | AtKey k :: path' =>
      match v with
      | Dictionary d =>
          match GetKey d k with
          | Some v' => variant_at v' path'
          | None => None
          end
      | _ => None
      end
  | AtIndex i :: path' =>
      match v with
      | Array a =>
          match a !! i with
          | Some v' => variant_at v' path'
          | None => None
          end
      | _ => None
      end
  end.

Definition object_at (doc : PdfDocument) (p : PdfObjectPtr)
  : option PdfVariant :=
  match vec_lookup (GetObjects doc) (ptr_ref p) with
  | Some v => variant_at v (ptr_path p)
  | None => None
  end.

(** Replace the value stored under key [k] (an existing key). *)
Fixpoint set_key (d : list (PdfName * PdfVariant)) (k : PdfName)
  (v : PdfVariant) : list (PdfName * PdfVariant) :=
  match d with
  | [] => []
  | (k', v') :: d' =>
      if decide (k' = k) then (k, v) :: d' else (k', v') :: set_key d' k v
  end.

(** In-place update of the object a path leads to. *)
Fixpoint variant_update (f : PdfVariant → option PdfVariant)
  (v : PdfVariant) (path : list PathStep) : option PdfVariant :=
  match path with
  | [] => f v
  | AtKey k :: path' =>
      match v with
      | Dictionary d =>
          match GetKey d k with
          | Some old =>
              match variant_update f old path' with
              | Some new => Some (Dictionary (set_key d k new))
              | None => None
              end
          | None => None
          end
      | _ => None
      end
  | AtIndex i :: path' =>
      match v with
      | Array a =>
          match a !! i with
          | Some old =>
              match variant_update f old path' with
              | Some new => Some (Array (<[i := new]> a))
              | None => None
              end
          | None => None
          end
      | _ => None
      end
  end.

Fixpoint vec_set (objs : list (PdfReference * PdfVariant))
  (r : PdfReference) (v : PdfVariant) : list (PdfReference * PdfVariant) :=
  match objs with
  | [] => []
  | (r', v') :: objs' =>
      if decide (r' = r) then (r, v) :: objs' else (r', v') :: vec_set objs' r v
  end.

Definition object_update (f : PdfVariant → option PdfVariant)
  (doc : PdfDocument) (p : PdfObjectPtr) : option PdfDocument :=
  match vec_lookup (GetObjects doc) (ptr_ref p) with
  | Some v =>
      match variant_update f v (ptr_path p) with
      | Some v' =>
          Some (mkPdfDocument (GetTrailer doc)
                  (vec_set (GetObjects doc) (ptr_ref p) v')
                  (address_less doc))
      | None => None
      end
  | None => None
  end.

End PoDoFo.
Import PoDoFo.

(** ** The model tree and its nodes *)

(** A [PdfObjectModelNode*]: the address [new] returned. *)
Abbreviation nodeptr := nat.

Inductive ParentageType := PT_Contained | PT_Referenced | PT_Root.

#[global] Instance ParentageType_eq_dec : EqDecision ParentageType.
Proof. solve_decision. Defined.

Record PdfObjectModelNode := mkNode
  { m_bPretendEmpty : bool;
    m_bChildrenLoaded : bool;
    m_pObject : PdfObjectPtr;
    m_parentType : ParentageType;
    m_pParent : option nodeptr;
    m_parentKey : PdfName;
    m_children : list nodeptr }.

(** The tree object, the document it points to and the nodes allocated
    for it. [store] holds the live nodes; [next_node] is the next
    address [new] hands out. *)
Record PdfObjectModelTree := mkTree
  { m_pDoc : PdfDocument;
    m_bFollowReferences : bool;
    m_nodeAliases : list (PdfObjectPtr * nodeptr);
    m_pRoot : option nodeptr;
    store : gmap nodeptr PdfObjectModelNode;
    next_node : nodeptr }.

Definition set_doc (doc : PdfDocument) (t : PdfObjectModelTree) :=
  mkTree doc (m_bFollowReferences t) (m_nodeAliases t) (m_pRoot t)
    (store t) (next_node t).
Definition set_aliases (m : list (PdfObjectPtr * nodeptr))
  (t : PdfObjectModelTree) :=
  mkTree (m_pDoc t) (m_bFollowReferences t) m (m_pRoot t)
    (store t) (next_node t).
Definition set_root (r : option nodeptr) (t : PdfObjectModelTree) :=
  mkTree (m_pDoc t) (m_bFollowReferences t) (m_nodeAliases t) r
    (store t) (next_node t).
Definition set_store (s : gmap nodeptr PdfObjectModelNode)
  (t : PdfObjectModelTree) :=
  mkTree (m_pDoc t) (m_bFollowReferences t) (m_nodeAliases t) (m_pRoot t)
    s (next_node t).

Definition set_children (c : list nodeptr) (nd : PdfObjectModelNode) :=
  mkNode (m_bPretendEmpty nd) (m_bChildrenLoaded nd) (m_pObject nd)
    (m_parentType nd) (m_pParent nd) (m_parentKey nd) c.
Definition set_loaded (b : bool) (nd : PdfObjectModelNode) :=
  mkNode (m_bPretendEmpty nd) b (m_pObject nd)
    (m_parentType nd) (m_pParent nd) (m_parentKey nd) (m_children nd).
Definition set_pretend (b : bool) (nd : PdfObjectModelNode) :=
  mkNode b (m_bChildrenLoaded nd) (m_pObject nd)
    (m_parentType nd) (m_pParent nd) (m_parentKey nd) (m_children nd).

(** Calls on the tree and its nodes run on the tree's state. *)
Abbreviation TreeM := (M PdfObjectModelTree).

(** [*node]: the node must be live. *)
Definition node_at (node : nodeptr) : TreeM PdfObjectModelNode :=
  t ← get; deref (store t !! node).

Definition update_node (node : nodeptr)
  (f : PdfObjectModelNode → PdfObjectModelNode) : TreeM unit :=
  nd ← node_at node;
  modify (λ t, set_store (<[node := f nd]> (store t)) t).

(** [*m_pObject]: the wrapped object must still exist in the document. *)
Definition object_of (nd : PdfObjectModelNode) : TreeM PdfVariant :=
  t ← get; deref (object_at (m_pDoc t) (m_pObject nd)).

(** An in-place change of the object a node wraps. *)
Definition update_object (f : PdfVariant → option PdfVariant)
  (nd : PdfObjectModelNode) : TreeM unit :=
  t ← get;
  doc ← deref (object_update f (m_pDoc t) (m_pObject nd));
  modify (set_doc doc).

(** *** PdfObjectModelTree: the alias index

    The multimap is kept as the sequence of its pairs; pairs with the
    same key are in insertion order, as [equal_range] yields them. How
    different keys interleave depends on the objects' addresses
    ([address_less] of the document); [count] and [equal_range] do not
    observe it, and the scan of [NodeDeleted] observes it only when the
    pair it looks for is missing. *)

Definition multimap_count (m : list (PdfObjectPtr * nodeptr))
  (object : PdfObjectPtr) : nat :=
  length (filter (λ e, e.1 = object) m).

Definition Tree_CountAliases (t : PdfObjectModelTree) (object : PdfObjectPtr)
  : Z :=
  int_of_size (multimap_count (m_nodeAliases t) object).

Definition Tree_GetAliases (t : PdfObjectModelTree) (object : PdfObjectPtr)
  : list nodeptr :=
  (filter (λ e, e.1 = object) (m_nodeAliases t)).*2.

Definition NodeCreated (node : nodeptr) : TreeM unit :=
  nd ← node_at node;
  modify (λ t, set_aliases (m_nodeAliases t ++ [(m_pObject nd, node)]) t).

(** The scan of [NodeDeleted]: from [lower_bound(obj)], the first pair
    of [obj], to the pair whose node is [node], which is erased. [None]
    when no such pair exists: the scan leaves the pairs of [obj]. *)
Fixpoint multimap_erase (m : list (PdfObjectPtr * nodeptr))
  (obj : PdfObjectPtr) (node : nodeptr)
  : option (list (PdfObjectPtr * nodeptr)) :=
  match m with
  | [] => None
  | e :: m' =>
      if decide (e.1 = obj ∧ e.2 = node) then Some m'
      else match multimap_erase m' obj node with
           | Some m'' => Some (e :: m'')
           | None => None
           end
  end.

(** What the scan finds behind the pairs of [obj]: a pair of an object
    at a higher address, when the multimap holds one; [end()] when it
    holds none. *)
Definition pair_behind (t : PdfObjectModelTree) (obj : PdfObjectPtr) : bool :=
  existsb (λ e, address_less (m_pDoc t) obj e.1) (m_nodeAliases t).

(** The loop and the test after it read [*it] without comparing [it]
    with [end()]. When the pair is missing the scan stops on the pair
    behind those of [obj] and the error is thrown; when there is no such
    pair it reads through [end()]. *)
Definition NodeDeleted (node : nodeptr) : TreeM unit :=
  nd ← node_at node;
  t ← get;
  match multimap_erase (m_nodeAliases t) (m_pObject nd) node with
  | Some m' => modify (set_aliases m')
  | None =>
      if pair_behind t (m_pObject nd) then
        throw (logic_error
          "Could not find object,node pair for node being deleted in alias map")
      else undefined
  end.

(** *** PdfObjectModelNode *)

(** Memory for a node: the next free address, holding [nd]. *)
Definition allocate (nd : PdfObjectModelNode) : TreeM nodeptr := λ t,
  Return (next_node t)
    (mkTree (m_pDoc t) (m_bFollowReferences t) (m_nodeAliases t) (m_pRoot t)
       (<[next_node t := nd]> (store t)) (S (next_node t))).

Definition release (node : nodeptr) : TreeM unit :=
  modify (λ t, set_store (delete node (store t)) t).

(** [new PdfObjectModelNode(tree, object, parent, parentKey, parentType)].
    When the constructor throws, no node has come to exist. *)
Definition new_PdfObjectModelNode (object : PdfObjectPtr)
  (parent : option nodeptr) (parentKey : PdfName)
  (parentType : ParentageType) : TreeM nodeptr :=
  if bool_decide (parentType ≠ PT_Root) && bool_decide (parent = None)
  then throw (invalid_argument "Non-root node with null parent")
  else
    this ← allocate (mkNode false false object parentType parent parentKey []);
    _ ← NodeCreated this;
    ret this.

Definition GetObject (this : nodeptr) : TreeM PdfObjectPtr :=
  nd ← node_at this; ret (m_pObject nd).

Definition GetParent (this : nodeptr) : TreeM (option nodeptr) :=
  nd ← node_at this; ret (m_pParent nd).

Definition GetParentKey (this : nodeptr) : TreeM PdfName :=
  nd ← node_at this; ret (m_parentKey nd).

Definition CountAliases (this : nodeptr) : TreeM Z :=
  nd ← node_at this; t ← get; ret (Tree_CountAliases t (m_pObject nd)).

Definition GetAliases (this : nodeptr) : TreeM (list nodeptr) :=
  nd ← node_at this; t ← get; ret (Tree_GetAliases t (m_pObject nd)).

Definition SetPretendEmpty (this : nodeptr) (empty : bool) : TreeM unit :=
  update_node this (set_pretend empty).

Definition IsPretendEmpty (this : nodeptr) : TreeM bool :=
  nd ← node_at this; ret (m_bPretendEmpty nd).

Definition AddNode (this : nodeptr) (object : PdfObjectPtr)
  (pt : ParentageType) (parentKey : PdfName) : TreeM unit :=
  child ← new_PdfObjectModelNode object (Some this) parentKey pt;
  update_node this (λ nd, set_children (m_children nd ++ [child]) nd).

Definition PopulateChildren (this : nodeptr) : TreeM unit :=
  nd ← node_at this;
  _ ← assert (negb (m_bChildrenLoaded nd));
  t ← get;
  obj ← object_of nd;
  _ ← (if m_bFollowReferences t && IsReference obj then
         r ← GetReference obj;
         match PdfVecObjects_GetObject (GetObjects (m_pDoc t)) r with
         | Some referee => AddNode this referee PT_Referenced KeyNull
         | None => ret tt
         end
       else if IsDictionary obj then
         keys ← GetDictionary obj;
         for_each
           (λ it, AddNode this (ptr_step (m_pObject nd) (AtKey it.1))
                    PT_Contained it.1)
           keys
       else if IsArray obj then
         a ← GetArray obj;
         for_each
           (λ i, AddNode this (ptr_step (m_pObject nd) (AtIndex i))
                   PT_Contained KeyNull)
           (seq 0 (length a))
       else ret tt);
  update_node this (set_loaded true).

Definition EnsureChildrenLoaded (this : nodeptr) : TreeM unit :=
  nd ← node_at this;
  if m_bChildrenLoaded nd then ret tt else PopulateChildren this.

Definition CountChildren (this : nodeptr) : TreeM Z :=
  nd ← node_at this;
  if m_bPretendEmpty nd then ret 0
  else
    _ ← EnsureChildrenLoaded this;
    nd1 ← node_at this;
    ret (int_of_size (length (m_children nd1))).

Definition GetChild (this : nodeptr) (n : Z) : TreeM (option nodeptr) :=
  nd ← node_at this;
  if m_bPretendEmpty nd then ret None
  else
    _ ← EnsureChildrenLoaded this;
    nd1 ← node_at this;
    ret (if size_t_of_int n <? Z.of_nat (length (m_children nd1))
         then m_children nd1 !! Z.to_nat (size_t_of_int n)
         else None).

(** [InvalidateChildren] deletes every child; deleting a child runs its
    destructor, which invalidates the child's own children and then
    takes the child out of the alias index. [fuel] bounds the depth of
    that recursion. *)
Fixpoint InvalidateChildren (fuel : nat) (this : nodeptr) {struct fuel}
  : TreeM unit :=
  match fuel with
  | O => out_of_fuel
  | S fuel' =>
      nd ← node_at this;
      _ ← for_each
            (λ child,
               _ ← InvalidateChildren fuel' child;
               _ ← NodeDeleted child;
               release child)
            (m_children nd);
      update_node this (λ nd, set_loaded false (set_children [] nd))
  end.

(** [delete node]: the destructor, then the memory is released. *)
Definition delete_PdfObjectModelNode (fuel : nat) (node : nodeptr)
  : TreeM unit :=
  _ ← InvalidateChildren fuel node;
  _ ← NodeDeleted node;
  release node.

Definition CanInsertElement (this : nodeptr) (row : Z) : TreeM bool :=
  if negb (0 <? row) then ret false
  else
    count ← CountChildren this;
    if negb (row <=? count) then ret false
    else
      nd ← node_at this;
      obj ← object_of nd;
      ret (IsArray obj).

(** [a.insert(a.begin() + row, PdfVariant::NullValue)]; advancing the
    iterator past [end()] is undefined. *)
Definition array_insert_null (row : Z) (v : PdfVariant) : option PdfVariant :=
  match v with
  | Array a =>
      if (0 <=? row) && (row <=? Z.of_nat (length a))
      then Some (Array (vector_insert a (Z.to_nat row) Null))
      else None
  | _ => None
  end.

Definition InsertElement (this : nodeptr) (row : Z) : TreeM unit :=
  ok ← CanInsertElement this row;
  _ ← assert ok;
  nd ← node_at this;
  update_object (array_insert_null row) nd.

Definition CanInsertKey (this : nodeptr) (keyName : PdfName) : TreeM bool :=
  if negb (bool_decide (keyName ≠ KeyNull)) then ret false
  else
    nd ← node_at this;
    obj ← object_of nd;
    if negb (IsDictionary obj) then ret false
    else
      d ← GetDictionary obj;
      ret (negb (HasKey d keyName)).

Definition dictionary_add_null (keyName : PdfName) (v : PdfVariant)
  : option PdfVariant :=
  match v with
  | Dictionary d => Some (Dictionary (AddKey d keyName Null))
  | _ => None
  end.

Definition InsertKey (this : nodeptr) (keyName : PdfName) : TreeM unit :=
  ok ← CanInsertKey this keyName;
  _ ← assert ok;
  nd ← node_at this;
  update_object (dictionary_add_null keyName) nd.

Fixpoint index_of (x : nodeptr) (l : list nodeptr) : option nat :=
  match l with
  | [] => None
  | y :: l' => if decide (y = x) then Some O else S <$> index_of x l'
  end.

(** [counter] is an [int] that is incremented once for every child
    passed: incrementing it beyond [INT_MAX] is a signed overflow. *)
Definition GetIndexInParent (this : nodeptr) : TreeM Z :=
  nd ← node_at this;
  match m_pParent nd with
  | None =>
      t ← get;
      _ ← assert (bool_decide (m_pRoot t = Some this));
      ret 0
  | Some parent =>
      pd ← node_at parent;
      match index_of this (m_children pd) with
      | Some counter =>
          if Z.of_nat counter <? 2 ^ 31 then ret (Z.of_nat counter)
          else undefined
      | None =>
          if Z.of_nat (length (m_children pd)) <? 2 ^ 31 then
            throw
              (logic_error "Node not present in parent's list of children!")
          else undefined
      end
  end.

(** *** Construction and destruction of the tree *)

(** The tree object before its root node is constructed. *)
Definition empty_tree (doc : PdfDocument) (followReferences : bool)
  : PdfObjectModelTree :=
  mkTree doc followReferences [] None ∅ 1%nat.

Definition PdfObjectModelTree_ctor (root : PdfObjectPtr) : TreeM unit :=
  r ← new_PdfObjectModelNode root None KeyNull PT_Root;
  modify (set_root (Some r)).

Definition new_PdfObjectModelTree (doc : PdfDocument) (root : PdfObjectPtr)
  (followReferences : bool) : outcome PdfObjectModelTree unit :=
  PdfObjectModelTree_ctor root (empty_tree doc followReferences).

Definition delete_PdfObjectModelTree (fuel : nat) : TreeM unit :=
  t ← get;
  _ ← match m_pRoot t with
      | Some r => delete_PdfObjectModelNode fuel r
      | None => ret tt
      end;
  t1 ← get;
  assert (bool_decide (length (m_nodeAliases t1) = 0%nat)).

(** ** The byte-level edit *)

Section RawData.

(** [PdfTokenizer::GetNextVariant] on a buffer: the variant it reads, or
    the code of the [PdfError] it throws. *)
Variable GetNextVariant : list Byte.byte → PdfVariant + nat.

Definition SetRawData (fuel : nat) (this : nodeptr) (data : list Byte.byte)
  : TreeM bool :=
  match GetNextVariant data with
  | inr code => throw (PdfError code)
  | inl variant =>
      _ ← InvalidateChildren fuel this;
      nd ← node_at this;
      _ ← update_object (λ _, Some variant) nd;
      ret true
  end.

End RawData.

(** ** PdfObjectModel: the adapter for the view *)

(** [isValid] is what [QModelIndex::isValid()] returns: the row and the
    column are not negative and the index belongs to a model. *)
Record QModelIndex := mkIndex
  { isValid : bool;
    row : Z;
    column : Z;
    internalPointer : option nodeptr }.

(** [QModelIndex()], the invalid index. *)
Definition QModelIndex_null : QModelIndex := mkIndex false (-1) (-1) None.

(** [createIndex(r, c, p)]: an index of this model, valid when neither
    [r] nor [c] is negative. *)
Definition createIndex (r c : Z) (p : nodeptr) : QModelIndex :=
  mkIndex ((0 <=? r) && (0 <=? c)) r c (Some p).

(** What the model tells the view, and [podofoError], which shows the
    error of a failed edit to the user. *)
Inductive Signal :=
| beginRemoveRows (parent : QModelIndex) (first last : Z)
| endRemoveRows
| beginInsertRows (parent : QModelIndex) (first last : Z)
| endInsertRows
| dataChanged (topLeft bottomRight : QModelIndex)
| layoutAboutToBeChanged
| layoutChanged
| podofoError (code : nat).

(** Modelled from the spec: the class declaration (pdfobjectmodel.h) is
    not part of the sources; these are the members the member functions
    use. [m_pTree] is null until [setupModelData] has built the tree;
    [emitted] records the notifications sent to the view. *)
Record PdfObjectModel := mkModel
  { m_bDocChanged : bool;
    m_pTree : option PdfObjectModelTree;
    emitted : list Signal }.

Abbreviation ModelM := (M PdfObjectModel).

Definition set_tree (t : option PdfObjectModelTree) (m : PdfObjectModel)
  : PdfObjectModel :=
  mkModel (m_bDocChanged m) t (emitted m).

Definition set_changed (b : bool) (m : PdfObjectModel) : PdfObjectModel :=
  mkModel b (m_pTree m) (emitted m).

Definition emit (s : Signal) : ModelM unit :=
  modify (λ m, mkModel (m_bDocChanged m) (m_pTree m) (emitted m ++ [s])).

(** A call on the tree [m_pTree] points to. *)
Definition on_tree {A} (f : TreeM A) : ModelM A := λ m,
  match m_pTree m with
  | None => Undefined
  | Some t =>
      match f t with
      | Return a t' => Return a (set_tree (Some t') m)
      | Throw e t' => Throw e (set_tree (Some t') m)
      | AssertFail => AssertFail
      | Undefined => Undefined
      | OutOfFuel => OutOfFuel
      end
  end.

(** [try body catch (PdfError & eCode) handler]. *)
Definition catch_PdfError {S A} (body : M S A) (handler : nat → M S A)
  : M S A := λ s,
  match body s with
  | Throw (PdfError eCode) s' => handler eCode s'
  | r => r
  end.

(** [m_pTree = new PdfObjectModelTree(doc, root, followReferences)]. *)
Definition assign_new_tree (doc : PdfDocument) (root : PdfObjectPtr)
  (followReferences : bool) : ModelM unit := λ m,
  match new_PdfObjectModelTree doc root followReferences with
  | Return _ t => Return tt (set_tree (Some t) m)
  | Throw e _ => Throw e m
  | AssertFail => AssertFail
  | Undefined => Undefined
  | OutOfFuel => OutOfFuel
  end.

Definition setupModelData (doc : PdfDocument) : ModelM unit :=
  let trailer := GetTrailer doc in
  if negb (IsDictionary trailer)
  then throw (invalid_argument "Document invalid - non-dictionary trailer!")
  else
    d ← GetDictionary trailer;
    if negb (HasKey d "Root")
    then throw (invalid_argument "passed document lacks catalog dictionary")
    else
      match GetKey d "Root" with
      | None => throw (invalid_argument "Invalid /Root trailer entry")
      | Some catalogRef =>
          if negb (IsReference catalogRef)
          then throw (invalid_argument "Invalid /Root trailer entry")
          else
            r ← GetReference catalogRef;
            match PdfVecObjects_GetObject (GetObjects doc) r with
            | None =>
                throw (invalid_argument
                  "Invalid or non-dictionary referenced by /Root trailer entry")
            | Some catalog =>
                obj ← deref (object_at doc catalog);
                if negb (IsDictionary obj)
                then throw (invalid_argument
                  "Invalid or non-dictionary referenced by /Root trailer entry")
                else assign_new_tree doc catalog true
            end
      end.

(** The constructor: [m_bDocChanged(false), m_pTree(0)], then
    [setupModelData(doc)]. *)
Definition new_PdfObjectModel (doc : PdfDocument)
  : outcome PdfObjectModel unit :=
  setupModelData doc (mkModel false None []).

Definition PrepareForSubtreeChange (fuel : nat) (index : QModelIndex)
  : ModelM unit :=
  _ ← assert (isValid index);
  node ← deref (internalPointer index);
  childCount ← on_tree (CountChildren node);
  obj ← on_tree (GetObject node);
  if childCount =? 0 then ret tt
  else
    aliases ← on_tree (GetAliases node);
    for_each
      (λ it,
         o ← on_tree (GetObject it);
         _ ← assert (bool_decide (obj = o));
         c ← on_tree (CountChildren it);
         _ ← assert (childCount =? c);
         i ← on_tree (GetIndexInParent it);
         c' ← on_tree (CountChildren it);
         _ ← emit (beginRemoveRows (createIndex i 0 it) 0 (c' - 1));
         _ ← on_tree (InvalidateChildren fuel it);
         _ ← on_tree (SetPretendEmpty it true);
         emit endRemoveRows)
      aliases.

Definition SubtreeChanged (index : QModelIndex) : ModelM unit :=
  _ ← assert (isValid index);
  node ← deref (internalPointer index);
  obj ← on_tree (GetObject node);
  aliases ← on_tree (GetAliases node);
  for_each
    (λ it,
       o ← on_tree (GetObject it);
       _ ← assert (bool_decide (obj = o));
       _ ← on_tree (SetPretendEmpty it false);
       i ← on_tree (GetIndexInParent it);
       let nodeIndex := createIndex i 0 it in
       c ← on_tree (CountChildren it);
       _ ← (if negb (c =? 0) then
              c' ← on_tree (CountChildren it);
              _ ← emit (beginInsertRows nodeIndex 0 (c' - 1));
              emit endInsertRows
            else ret tt);
       emit (dataChanged nodeIndex nodeIndex))
    aliases.

Definition index (r c : Z) (parent : QModelIndex) : ModelM QModelIndex :=
  if negb (isValid parent) then
    if r =? 0 then
      root ← on_tree (gets m_pRoot);
      root ← deref root;
      ret (createIndex r c root)
    else ret QModelIndex_null
  else
    parentNode ← deref (internalPointer parent);
    childNode ← on_tree (GetChild parentNode r);
    match childNode with
    | None => ret QModelIndex_null
    | Some child => ret (createIndex r c child)
    end.

Definition rowCount (parent : QModelIndex) : ModelM Z :=
  if negb (isValid parent) then ret 1
  else
    parentNode ← deref (internalPointer parent);
    on_tree (CountChildren parentNode).

Definition GetObjectForIndex (index : QModelIndex)
  : ModelM (option PdfObjectPtr) :=
  if negb (isValid index) then ret None
  else
    node ← deref (internalPointer index);
    o ← on_tree (GetObject node);
    ret (Some o).

Definition IndexChildCount (index : QModelIndex) : ModelM Z :=
  if negb (isValid index) then ret (-1)
  else
    node ← deref (internalPointer index);
    on_tree (CountChildren node).

Definition Model_InvalidateChildren (fuel : nat) (index : QModelIndex)
  : ModelM unit :=
  if isValid index then
    node ← deref (internalPointer index);
    _ ← emit layoutAboutToBeChanged;
    _ ← on_tree (InvalidateChildren fuel node);
    _ ← emit layoutChanged;
    emit (dataChanged index index)
  else ret tt.

Definition insertElement (r : Z) (parent : QModelIndex) : ModelM bool :=
  node ← (if isValid parent
          then root ← on_tree (gets m_pRoot); deref root
          else deref (internalPointer parent));
  ok ← on_tree (CanInsertElement node r);
  if ok : bool then
    _ ← emit (beginInsertRows parent r r);
    _ ← on_tree (InsertElement node r);
    _ ← emit endInsertRows;
    ret true
  else ret false.

Definition insertKey (fuel : nat) (keyName : PdfName) (parent : QModelIndex)
  : ModelM bool :=
  node ← (if isValid parent
          then root ← on_tree (gets m_pRoot); deref root
          else deref (internalPointer parent));
  ok ← on_tree (CanInsertKey node keyName);
  if ok : bool then
    _ ← PrepareForSubtreeChange fuel parent;
    _ ← on_tree (InsertKey node keyName);
    _ ← SubtreeChanged parent;
    ret true
  else ret false.

Definition insertRow (r : Z) (parent : QModelIndex) : ModelM bool :=
  throw (logic_error "Use insertElement(...) or insertKey(...) instead!").

Section Edit.

Variable GetNextVariant : list Byte.byte → PdfVariant + nat.

(** [value] is the bytes of the [QVariant], when it holds any. *)
Definition setData (fuel : nat) (index : QModelIndex)
  (value : option (list Byte.byte)) : ModelM bool :=
  if negb (isValid index) || negb (column index =? 2) then ret false
  else
    match value with
    | None => ret false
    | Some data =>
        if bool_decide (length data = 0%nat) then ret false
        else
          node ← deref (internalPointer index);
          _ ← PrepareForSubtreeChange fuel index;
          changed ← catch_PdfError
                      (on_tree (SetRawData GetNextVariant fuel node data))
                      (λ eCode, _ ← emit (podofoError eCode); ret false);
          _ ← SubtreeChanged index;
          _ ← modify (λ m, set_changed (m_bDocChanged m || changed) m);
          ret changed
    end.

End Edit.

(** ** Sequences of calls, and what holds along them *)

(** The state a call leaves behind, when the program is still there. *)
Definition final_state {S A} (o : outcome S A) : option S :=
  match o with
  | Return _ s => Some s
  | Throw _ s => Some s
  | _ => None
  end.

(** The call came to an end within the budget of the model. *)
Definition finished {S A} (o : outcome S A) : Prop :=
  match o with OutOfFuel => False | _ => True end.

(** Partial correctness of a call: from a state in [P], a return ends
    in [Q] and an exception in [E]. *)
Definition triple {S A} (P : S → Prop) (m : M S A) (Q : A → S → Prop)
  (E : exception → S → Prop) : Prop :=
  ∀ s, P s →
    match m s with
    | Return a s' => Q a s'
    | Throw e s' => E e s'
    | _ => True
    end.

(** [I] holds after the call whenever it held before. *)
Definition preserves {S A} (I : S → Prop) (m : M S A) : Prop :=
  triple I m (λ _, I) (λ _, I).

(** Constructions, destructions and the public calls of a node. *)
Inductive NodeCall :=
| call_new (object : PdfObjectPtr) (parent : option nodeptr)
    (parentKey : PdfName) (parentType : ParentageType)
| call_delete (fuel : nat) (node : nodeptr)
| call_CountChildren (node : nodeptr)
| call_GetChild (node : nodeptr) (n : Z)
| call_InvalidateChildren (fuel : nat) (node : nodeptr)
| call_SetPretendEmpty (node : nodeptr) (empty : bool)
| call_CanInsertElement (node : nodeptr) (row : Z)
| call_InsertElement (node : nodeptr) (row : Z)
| call_InsertKey (node : nodeptr) (keyName : PdfName)
| call_SetRawData (fuel : nat) (node : nodeptr) (data : list Byte.byte).

Section Calls.

Variable GetNextVariant : list Byte.byte → PdfVariant + nat.

Definition run_call (c : NodeCall) : TreeM unit :=
  match c with
  | call_new object parent parentKey parentType =>
      _ ← new_PdfObjectModelNode object parent parentKey parentType; ret tt
  | call_delete fuel node => delete_PdfObjectModelNode fuel node
  | call_CountChildren node => _ ← CountChildren node; ret tt
  | call_GetChild node n => _ ← GetChild node n; ret tt
  | call_InvalidateChildren fuel node => InvalidateChildren fuel node
  | call_SetPretendEmpty node empty => SetPretendEmpty node empty
  | call_CanInsertElement node row => _ ← CanInsertElement node row; ret tt
  | call_InsertElement node row => InsertElement node row
  | call_InsertKey node keyName => InsertKey node keyName
  | call_SetRawData fuel node data =>
      _ ← SetRawData GetNextVariant fuel node data; ret tt
  end.


End Calls.


(** The pair each live node has put into the alias index. *)
Definition pairs_of (s : gmap nodeptr PdfObjectModelNode)
  : list (PdfObjectPtr * nodeptr) :=
  (λ e, (m_pObject e.2, e.1)) <$> map_to_list s.

Definition alias_pairs (t : PdfObjectModelTree)
  : list (PdfObjectPtr * nodeptr) :=
  pairs_of (store t).

Definition alias_index_ok (t : PdfObjectModelTree) : Prop :=
  m_nodeAliases t ≡ₚ alias_pairs t.

(** Live nodes are at addresses already handed out. *)
Definition store_bounded (t : PdfObjectModelTree) : Prop :=
  map_Forall (λ n _, (n < next_node t)%nat) (store t).

Definition tree_inv (t : PdfObjectModelTree) : Prop :=
  alias_index_ok t ∧ store_bounded t.

(** [owns t h node ids]: below [node] the store holds a tree of height
    less than [h]; [ids] are its nodes, children before parents. *)
Fixpoint owns (t : PdfObjectModelTree) (h : nat) (node : nodeptr)
  (ids : list nodeptr) : Prop :=
  match h with
  | O => False
  | S h' =>
      ∃ nd idss,
        store t !! node = Some nd ∧
        Forall2 (owns t h') (m_children nd) idss ∧
        ids = concat idss ++ [node]
  end.

(** The children [PopulateChildren] gives a node that wraps [obj] at
    [p]: the object, parentage kind and key of each, in order. *)
Definition expected_children (followReferences : bool) (doc : PdfDocument)
  (p : PdfObjectPtr) (obj : PdfVariant)
  : list (PdfObjectPtr * ParentageType * PdfName) :=
  match obj with
  | Reference r =>
      if followReferences then
        match PdfVecObjects_GetObject (GetObjects doc) r with
        | Some referee => [(referee, PT_Referenced, KeyNull)]
        | None => []
        end
      else []
  | Dictionary d =>
      (λ it, (ptr_step p (AtKey it.1), PT_Contained, it.1)) <$> d
  | Array a =>
      (λ i, (ptr_step p (AtIndex i), PT_Contained, KeyNull)) <$>
        seq 0 (length a)
  | _ => []
  end.

(** What the children of a node show: object, parentage kind and key. *)
Definition child_view (t : PdfObjectModelTree) (child : nodeptr)
  : option (PdfObjectPtr * ParentageType * PdfName) :=
  match store t !! child with
  | Some cd => Some (m_pObject cd, m_parentType cd, m_parentKey cd)
  | None => None
  end.

Definition child_views (t : PdfObjectModelTree) (this : nodeptr)
  : option (list (option (PdfObjectPtr * ParentageType * PdfName))) :=
  match store t !! this with
  | Some nd => Some (child_view t <$> m_children nd)
  | None => None
  end.

(** The state [AddNode] leaves: a fresh child of [this] for the object,
    kind and key of [spec], appended to the child list of [this]. *)
Definition with_child (this : nodeptr)
  (spec : PdfObjectPtr * ParentageType * PdfName) (t : PdfObjectModelTree)
  : PdfObjectModelTree :=
  let child := next_node t in
  mkTree (m_pDoc t) (m_bFollowReferences t)
    (m_nodeAliases t ++ [(spec.1.1, child)]) (m_pRoot t)
    (alter (λ nd, set_children (m_children nd ++ [child]) nd) this
       (<[child := mkNode false false spec.1.1 spec.1.2 (Some this) spec.2 []]>
          (store t)))
    (S child).

(** The state [PopulateChildren] leaves when it adds [specs]. *)
Definition populated (this : nodeptr)
  (specs : list (PdfObjectPtr * ParentageType * PdfName))
  (t : PdfObjectModelTree) : PdfObjectModelTree :=
  let t1 := foldl (λ t spec, with_child this spec t) t specs in
  set_store (alter (set_loaded true) this (store t1)) t1.

(** Every child of a live node is a live node at a later address whose
    parent pointer leads back; no child is listed twice. *)
Definition children_ok (t : PdfObjectModelTree) : Prop :=
  ∀ n nd, store t !! n = Some nd →
    NoDup (m_children nd) ∧
    ∀ c, c ∈ m_children nd →
      (n < c)%nat ∧ ∃ cd, store t !! c = Some cd ∧ m_pParent cd = Some n.

Definition wf (t : PdfObjectModelTree) : Prop := tree_inv t ∧ children_ok t.

(** A node that has not loaded its children has an empty child list. *)
Definition unloaded_empty (t : PdfObjectModelTree) : Prop :=
  ∀ n nd, store t !! n = Some nd →
    m_bChildrenLoaded nd = false → m_children nd = [].

Definition wf_unloaded (t : PdfObjectModelTree) : Prop :=
  wf t ∧ unloaded_empty t.

(** The calls a user of the node class makes: everything but the
    constructor and [delete], which the class keeps to itself. *)
Definition is_public (c : NodeCall) : bool :=
  match c with
  | call_new _ _ _ _ => false
  | call_delete _ _ => false
  | _ => true
  end.

Section PublicCalls.

Variable GetNextVariant : list Byte.byte → PdfVariant + nat.

Inductive in_use : PdfObjectModelTree → Prop :=
| in_use_new doc root followReferences t :
    new_PdfObjectModelTree doc root followReferences = Return tt t →
    in_use t
| in_use_call c t t' :
    in_use t →
    is_public c = true →
    final_state (run_call GetNextVariant c t) = Some t' →
    in_use t'.

End PublicCalls.

(** ** A sample document and sessions on it *)

(** A tokenizer that reads a few literals and rejects everything else. *)
Definition sample_tokenizer (data : list Byte.byte) : PdfVariant + nat :=
  let s := String.string_of_list_byte data in
  if decide (s = "null"%string) then inl Null
  else if decide (s = "[null null]"%string) then inl (Array [Null; Null])
  else if decide (s = "/Foo"%string) then inl (Name "Foo")
  else inr 1%nat.

Definition bytes (s : string) : list Byte.byte := String.list_byte_of_string s.

Definition ref_catalog : PdfReference := mkPdfReference 1 0.
Definition ref_shared : PdfReference := mkPdfReference 2 0.
Definition ref_missing : PdfReference := mkPdfReference 9 0.

(** The catalog holds two references to the same indirect object, a
    dictionary, an array of three elements and a dangling reference. *)
Definition sample_catalog : PdfVariant :=
  Dictionary
    [("A"%string, Reference ref_shared);
     ("B"%string, Reference ref_shared);
     ("Info"%string, Dictionary [("Title"%string, String "t")]);
     ("Kids"%string, Array [Number 10; Number 20; Number 30]);
     ("Lost"%string, Reference ref_missing)].

(** Where the objects of the sample documents lie: the indirect objects
    in the order of their numbers, the objects held inside one of them
    in the order of their paths. *)
Definition PathStep_compare (a b : PathStep) : comparison :=
  match a, b with
  | AtKey k, AtKey k' => String.compare k k'
  | AtKey _, AtIndex _ => Lt
  | AtIndex _, AtKey _ => Gt
  | AtIndex i, AtIndex j => Nat.compare i j
  end.

Fixpoint path_compare (p q : list PathStep) : comparison :=
  match p, q with
  | [], [] => Eq
  | [], _ :: _ => Lt
  | _ :: _, [] => Gt
  | a :: p', b :: q' =>
      match PathStep_compare a b with
      | Eq => path_compare p' q'
      | c => c
      end
  end.

Definition sample_address_less (p q : PdfObjectPtr) : bool :=
  match Nat.compare (ObjectNumber (ptr_ref p)) (ObjectNumber (ptr_ref q)) with
  | Lt => true
  | Gt => false
  | Eq =>
      match Nat.compare (GenerationNumber (ptr_ref p))
              (GenerationNumber (ptr_ref q)) with
      | Lt => true
      | Gt => false
      | Eq =>
          match path_compare (ptr_path p) (ptr_path q) with
          | Lt => true
          | _ => false
          end
      end
  end.

Definition sample_doc : PdfDocument :=
  mkPdfDocument (Dictionary [("Root"%string, Reference ref_catalog)])
    [(ref_catalog, sample_catalog); (ref_shared, Null)]
    sample_address_less.

Definition ptr_catalog : PdfObjectPtr := mkPtr ref_catalog [].
Definition ptr_shared : PdfObjectPtr := mkPtr ref_shared [].
Definition ptr_kids : PdfObjectPtr := mkPtr ref_catalog [AtKey "Kids"%string].
Definition ptr_info : PdfObjectPtr := mkPtr ref_catalog [AtKey "Info"%string].

(** The state a session ends in, or [d] when the program is gone. *)
Definition state_after {S A} (o : outcome S A) (d : S) : S :=
  match final_state o with Some s => s | None => d end.

(** The tree on the catalog, as [setupModelData] builds it. Its root is
    node 1. *)
Definition sample_tree : PdfObjectModelTree :=
  state_after (new_PdfObjectModelTree sample_doc ptr_catalog true)
    (empty_tree sample_doc true).

(** The root expanded: nodes 2 to 6 for A, B, Info, Kids and Lost. *)
Definition sample_tree_expanded : PdfObjectModelTree :=
  state_after (CountChildren 1%nat sample_tree) sample_tree.

(** Both references followed: nodes 7 (under A) and 8 (under B) wrap the
    shared object, and both have been asked for their children. *)
Definition sample_tree_aliased : PdfObjectModelTree :=
  state_after
    ((_ ← CountChildren 2%nat; _ ← CountChildren 3%nat;
      _ ← CountChildren 7%nat; CountChildren 8%nat) sample_tree_expanded)
    sample_tree_expanded.

Definition sample_model : PdfObjectModel :=
  mkModel false (Some sample_tree_aliased) [].

(** The cell of column 2 for a node. *)
Definition value_cell (node : nodeptr) : QModelIndex := mkIndex true 0 2 (Some node).
Definition label_cell (node : nodeptr) : QModelIndex := createIndex 0 0 node.

(** What deleting nodes leaves in place: the document, the flags, the
    root pointer and the allocator. *)
Definition same_frame (t0 t : PdfObjectModelTree) : Prop :=
  m_pDoc t = m_pDoc t0 ∧
  m_bFollowReferences t = m_bFollowReferences t0 ∧
  m_pRoot t = m_pRoot t0 ∧
  next_node t = next_node t0.

(** [t] has the nodes of [t0], unchanged, except for those deleted. *)
Definition shrinks (t0 t : PdfObjectModelTree) : Prop :=
  same_frame t0 t ∧ store t ⊆ store t0.

Definition others_shrink (this : nodeptr) (t0 t : PdfObjectModelTree) : Prop :=
  same_frame t0 t ∧
  ∀ n x, n ≠ this → store t !! n = Some x → store t0 !! n = Some x.

(** [t] is [t0] after [this] has dropped its children. *)
Definition invalidated (this : nodeptr) (t0 t : PdfObjectModelTree) : Prop :=
  others_shrink this t0 t ∧
  ∀ nd, store t0 !! this = Some nd →
        store t !! this = Some (set_loaded false (set_children [] nd)).

(** ** The rest of the adapter: what the view reads *)

(** [abort()]: the program is gone, as after a false assertion. *)
Definition abort {S A} : M S A := λ _, AssertFail.

(** The constants of the [Qt] namespace that the adapter uses, with the
    values of the Qt headers. *)
Module Qt.
Definition DisplayRole : Z := 0.
Definition DecorationRole : Z := 1.
Definition Horizontal : Z := 1.
Definition ItemIsSelectable : Z := 1.
Definition ItemIsEditable : Z := 2.
Definition ItemIsEnabled : Z := 32.
End Qt.

(** A [QVariant], as far as the adapter makes them: the invalid one
    ([QVariant()]), a string, or a pixmap known by its file name. *)
Inductive QVariant :=
| QVariant_invalid
| QVariant_QString (s : string)
| QVariant_QPixmap (fileName : string).

(** The decimal numeral [QString::arg] puts in place of a marker, for an
    [int] and for an unsigned number. *)
Definition arg_int (z : Z) : string := NilZero.string_of_int (Z.to_int z).
Definition arg_uint (n : nat) : string :=
  NilZero.string_of_uint (Nat.to_uint n).

(** [PdfName::KeyType]. *)
Definition KeyType : PdfName := "Type".

(** [QString(s.c_str())]: the constructor reads a C string, the
    characters before the first NUL. *)
Fixpoint c_str (s : string) : string :=
  match s with
  | EmptyString => EmptyString
  | String.String c s' =>
      if Ascii.eqb c Ascii.zero then EmptyString
      else String.String c (c_str s')
  end.

(** [*node->GetObject()] for a node pointer. *)
Definition object_of_node (node : nodeptr) : TreeM PdfVariant :=
  nd ← node_at node; object_of nd.

(** The members of the adapter that the view reads have everyday names
    ([data], [parent], [flags]); they live in a name space of their own. *)
Module View.

Section Data.

(** [PdfVariant::GetDataTypeString] and [PdfVariant::ToString] of the
    PDF library: the name of an object's type and its PDF syntax. *)
Variable GetDataTypeString : PdfVariant → string.
Variable ToString : PdfVariant → string.

(** Column 0, [Qt::DisplayRole]: how a row is named. *)
Definition data_label (node : nodeptr) : ModelM QVariant :=
  p ← on_tree (GetParent node);
  match p with
  | None => ret (QVariant_QString "/Root")
  | Some parentNode =>
      item ← on_tree (object_of_node parentNode);
      if IsDictionary item then
        key ← on_tree (GetParentKey node);
        ret (QVariant_QString (c_str key))
      else if IsArray item then
        i ← on_tree (GetIndexInParent node);
        ret (QVariant_QString ("<element " +:+ arg_int i +:+ ">"))
      else if IsReference item then
        ref ← GetReference item;
        ret (QVariant_QString
               (arg_uint (ObjectNumber ref) +:+ " " +:+
                arg_uint (GenerationNumber ref) +:+ " obj"))
      else ret (QVariant_QString "<UNKNOWN>")
  end.

(** Column 0, [Qt::DecorationRole]: the icon for the object's type. *)
Definition data_icon (node : nodeptr) : ModelM QVariant :=
  item ← on_tree (object_of_node node);
  fileName ← match item with
             | Bool _ => ret ":/icons/bool.png"%string
             | Number _ => ret ":/icons/number.png"%string
             | Real _ => ret ":/icons/real.png"%string
             | String _ => ret ":/icons/litstring.png"%string
             | HexString _ => ret ":/icons/hexstring.png"%string
             | Name _ => ret ":/icons/name.png"%string
             | Array _ => ret ":/icons/dictionary.png"%string
             | Dictionary _ => ret ":/icons/dictionary.png"%string
             | Null => ret ":/icons/empty.png"%string
             | Reference _ =>
                 c ← on_tree (CountChildren node);
                 ret (if c =? 0 then ":/icons/dangling_reference.png"%string
                      else ":/icons/reference.png"%string)
             | RawData _ => ret EmptyString
             end;
  ret (QVariant_QPixmap fileName).

(** One part of the summary of a dictionary: the key and its value, when
    the dictionary has the key. *)
Definition summary_part (d : list (PdfName * PdfVariant)) (key : PdfName)
  : string :=
  match GetKey d key with
  | Some v => "/" +:+ key +:+ " " +:+ c_str (ToString v) +:+ " "
  | None => EmptyString
  end.

(** Column 2, [Qt::DisplayRole]: the value of a row. *)
Definition data_value (node : nodeptr) : ModelM QVariant :=
  item ← on_tree (object_of_node node);
  match item with
  | Dictionary d =>
      ret (QVariant_QString
             ("<< " +:+ summary_part d KeyType +:+ summary_part d "SubType"
              +:+ summary_part d "Name" +:+ "... >>"))
  | Array _ => ret QVariant_invalid
  | _ => ret (QVariant_QString (c_str (ToString item)))
  end.

Definition data (index : QModelIndex) (role : Z) : ModelM QVariant :=
  if negb (isValid index) then ret QVariant_invalid
  else if column index =? 0 then
    if role =? Qt.DisplayRole then
      node ← deref (internalPointer index); data_label node
    else if role =? Qt.DecorationRole then
      node ← deref (internalPointer index); data_icon node
    else ret QVariant_invalid
  else if column index =? 1 then
    if role =? Qt.DisplayRole then
      node ← deref (internalPointer index);
      item ← on_tree (object_of_node node);
      ret (QVariant_QString (GetDataTypeString item))
    else ret QVariant_invalid
  else if column index =? 2 then
    if role =? Qt.DisplayRole then
      node ← deref (internalPointer index); data_value node
    else ret QVariant_invalid
  else ret QVariant_invalid.

End Data.

Definition flags (index : QModelIndex) : Z :=
  if negb (isValid index) then Qt.ItemIsEnabled
  else
    let f := Z.lor Qt.ItemIsEnabled Qt.ItemIsSelectable in
    if column index =? 2 then Z.lor f Qt.ItemIsEditable else f.

Definition headerData (section orientation role : Z) : QVariant :=
  if (orientation =? Qt.Horizontal) && (role =? Qt.DisplayRole) then
    if section =? 0 then QVariant_QString "Object"
    else if section =? 1 then QVariant_QString "Type"
    else if section =? 2 then QVariant_QString "Value"
    else QVariant_invalid
  else QVariant_invalid.

Definition columnCount (parent : QModelIndex) : Z := 3.

(** The index of the parent of the node an index points to. *)
Definition parent (index : QModelIndex) : ModelM QModelIndex :=
  if negb (isValid index) then abort
  else
    match internalPointer index with
    | None => abort
    | Some child =>
        p ← on_tree (GetParent child);
        match p with
        | None =>
            root ← on_tree (gets m_pRoot);
            if bool_decide (Some child ≠ root)
            then throw (logic_error "node with no parent not the root node")
            else ret QModelIndex_null
        | Some parentNode =>
            parentRow ← on_tree (GetIndexInParent parentNode);
            _ ← assert (0 <=? parentRow);
            ret (createIndex parentRow 0 parentNode)
        end
    end.

Definition IndexIsDictionary (index : QModelIndex) : ModelM bool :=
  if negb (isValid index) then ret false
  else
    node ← deref (internalPointer index);
    obj ← on_tree (object_of_node node);
    ret (IsDictionary obj).

Definition IndexIsArray (index : QModelIndex) : ModelM bool :=
  if negb (isValid index) then ret false
  else
    node ← deref (internalPointer index);
    obj ← on_tree (object_of_node node);
    ret (IsArray obj).

Definition IndexIsReference (index : QModelIndex) : ModelM bool :=
  if negb (isValid index) then ret false
  else
    node ← deref (internalPointer index);
    obj ← on_tree (object_of_node node);
    ret (IsReference obj).

(** The destructor of the adapter: [delete m_pTree], which does nothing
    for a null pointer. The tree is left as its destructor left it, so
    that what it has not freed can be seen. *)
Definition delete_PdfObjectModel (fuel : nat) : ModelM unit :=
  m ← get;
  match m_pTree m with
  | None => ret tt
  | Some _ => on_tree (delete_PdfObjectModelTree fuel)
  end.

End View.

(** ** More of what holds along the calls *)

(** The tree has a live root without a parent; every other live node is
    listed in the child list of its parent, which is live. *)
Definition parents_ok (t : PdfObjectModelTree) : Prop :=
  (∃ r rd, m_pRoot t = Some r ∧ store t !! r = Some rd ∧ m_pParent rd = None) ∧
  ∀ n nd, store t !! n = Some nd →
    match m_pParent nd with
    | None => m_pRoot t = Some n
    | Some p => ∃ pd, store t !! p = Some pd ∧ n ∈ m_children pd
    end.

Definition linked (t : PdfObjectModelTree) : Prop :=
  wf_unloaded t ∧ parents_ok t.

(** The node is live and does not pretend to be empty. *)
Definition not_pretending (this : nodeptr) (t : PdfObjectModelTree) : Prop :=
  ∃ x, store t !! this = Some x ∧ m_bPretendEmpty x = false.

(** The addresses handed out for nodes so far. *)
Definition nodes_created (m : PdfObjectModel) : Z :=
  match m_pTree m with
  | Some t => Z.of_nat (next_node t)
  | None => 0
  end.

(** Stand-ins for the two functions of the PDF library that [data]
    calls, for running it on the sample document. *)
Definition sample_GetDataTypeString (v : PdfVariant) : string :=
  match v with
  | Bool _ => "Boolean"
  | Number _ => "Number"
  | Real _ => "Real"
  | String _ => "String"
  | HexString _ => "HexString"
  | Name _ => "Name"
  | Array _ => "Array"
  | Dictionary _ => "Dictionary"
  | Null => "Null"
  | Reference _ => "Reference"
  | RawData _ => "RawData"
  end.

Definition sample_ToString (v : PdfVariant) : string :=
  match v with
  | Bool true => "true"
  | Bool false => "false"
  | Number n => arg_int n
  | Name n => "/" +:+ n
  | String s => "(" +:+ s +:+ ")"
  | Null => "null"
  | Reference r =>
      arg_uint (ObjectNumber r) +:+ " " +:+ arg_uint (GenerationNumber r)
      +:+ " R"
  | _ => "..."
  end.

(** The sample tree with its root and the array under Kids expanded:
    nodes 7 to 9 are the elements of the array. *)
Definition sample_tree_kids : PdfObjectModelTree :=
  state_after (CountChildren 5%nat sample_tree_expanded) sample_tree_expanded.

(** ** The earlier, eager tree (trunk/src/pdfobjectmodel.cpp)

    In the trunk version of the file a node builds its children in its
    constructor, all the way down; a walk up the parents keeps a
    reference from being followed twice on one path. Nodes are never
    invalidated and the document is only read. The classes have the
    names of the later version; they are kept apart in a module. *)

Module Trunk.

(** [m_pObject] can be null here: [AddNode] passes on what
    [PdfVecObjects::GetObject] returned. *)
Record PdfObjectModelNode := mkNode
  { m_pObject : option PdfObjectPtr;
    m_parentType : ParentageType;
    m_pParent : option nodeptr;
    m_parentKey : PdfName;
    m_children : list nodeptr }.

Record PdfObjectModelTree := mkTree
  { m_pDoc : PdfDocument;
    m_bFollowReferences : bool;
    m_nodeAliases : list (option PdfObjectPtr * nodeptr);
    m_pRoot : option nodeptr;
    store : gmap nodeptr PdfObjectModelNode;
    next_node : nodeptr }.

Definition set_aliases (m : list (option PdfObjectPtr * nodeptr))
  (t : PdfObjectModelTree) :=
  mkTree (m_pDoc t) (m_bFollowReferences t) m (m_pRoot t)
    (store t) (next_node t).
Definition set_root (r : option nodeptr) (t : PdfObjectModelTree) :=
  mkTree (m_pDoc t) (m_bFollowReferences t) (m_nodeAliases t) r
    (store t) (next_node t).
Definition set_store (s : gmap nodeptr PdfObjectModelNode)
  (t : PdfObjectModelTree) :=
  mkTree (m_pDoc t) (m_bFollowReferences t) (m_nodeAliases t) (m_pRoot t)
    s (next_node t).

Definition set_children (c : list nodeptr) (nd : PdfObjectModelNode) :=
  mkNode (m_pObject nd) (m_parentType nd) (m_pParent nd) (m_parentKey nd) c.

Abbreviation TreeM := (M PdfObjectModelTree).

(** [*node]: the node must be live. *)
Definition node_at (node : nodeptr) : TreeM PdfObjectModelNode :=
  t ← get; deref (store t !! node).

Definition update_node (node : nodeptr)
  (f : PdfObjectModelNode → PdfObjectModelNode) : TreeM unit :=
  nd ← node_at node;
  modify (λ t, set_store (<[node := f nd]> (store t)) t).

(** [*m_pObject]: the pointer must not be null, and the object must
    exist in the document. *)
Definition object_of (nd : PdfObjectModelNode) : TreeM PdfVariant :=
  t ← get;
  p ← deref (m_pObject nd);
  deref (object_at (m_pDoc t) p).

Definition NodeCreated (node : nodeptr) : TreeM unit :=
  nd ← node_at node;
  modify (λ t, set_aliases (m_nodeAliases t ++ [(m_pObject nd, node)]) t).

(** Memory for a node: the next free address, holding [nd]. *)
Definition allocate (nd : PdfObjectModelNode) : TreeM nodeptr := λ t,
  Return (next_node t)
    (mkTree (m_pDoc t) (m_bFollowReferences t) (m_nodeAliases t) (m_pRoot t)
       (<[next_node t := nd]> (store t)) (S (next_node t))).

Definition release (node : nodeptr) : TreeM unit :=
  modify (λ t, set_store (delete node (store t)) t).

(** An exception that leaves the body of a constructor frees the memory
    of the object under construction. *)
Definition constructing {A} (this : nodeptr) (body : TreeM A) : TreeM A :=
  λ t,
    match body t with
    | Throw e t' => Throw e (set_store (delete this (store t')) t')
    | r => r
    end.

(** The walk up the parents in [PopulateChildren]: is one of them on
    the reference [ref]? [steps] bounds the number of parents looked
    at. *)
Fixpoint cycle_walk (steps : nat) (ref : PdfReference)
  (parent : option nodeptr) {struct steps} : TreeM bool :=
  match parent with
  | None => ret false
  | Some p =>
      match steps with
      | O => out_of_fuel
      | S steps' =>
          pd ← node_at p;
          obj ← object_of pd;
          hit ← (if IsReference obj then
                   r ← GetReference obj; ret (bool_decide (r = ref))
                 else ret false);
          if hit : bool then ret true
          else cycle_walk steps' ref (m_pParent pd)
      end
  end.

Section Populate.

(** [new PdfObjectModelNode(m_pTree, object, parent, parentKey, pt)],
    which the functions below call and which calls them. *)
Variable new_node :
  option PdfObjectPtr → option nodeptr → PdfName → ParentageType →
  TreeM nodeptr.

Definition AddNode_with (this : nodeptr) (object : option PdfObjectPtr)
  (pt : ParentageType) (parentKey : PdfName) : TreeM unit :=
  child ← new_node object (Some this) parentKey pt;
  update_node this (λ nd, set_children (m_children nd ++ [child]) nd).

(** The walk looks at no node twice in a tree, so the number of
    addresses handed out is budget enough for it. *)
Definition PopulateChildren_with (this : nodeptr) : TreeM unit :=
  nd ← node_at this;
  t ← get;
  obj ← object_of nd;
  if m_bFollowReferences t && IsReference obj then
    r ← GetReference obj;
    let referee := PdfVecObjects_GetObject (GetObjects (m_pDoc t)) r in
    cycle ← cycle_walk (next_node t) r (m_pParent nd);
    if cycle : bool then ret tt
    else
      _ ← assert (bool_decide (is_Some (m_pObject nd)));
      AddNode_with this referee PT_Referenced KeyNull
  else if IsDictionary obj then
    keys ← GetDictionary obj;
    p ← deref (m_pObject nd);
    for_each
      (λ it, AddNode_with this (Some (ptr_step p (AtKey it.1)))
               PT_Contained it.1)
      keys
  else if IsArray obj then
    a ← GetArray obj;
    p ← deref (m_pObject nd);
    for_each
      (λ i, AddNode_with this (Some (ptr_step p (AtIndex i)))
              PT_Contained KeyNull)
      (seq 0 (length a))
  else ret tt.

End Populate.

(** The constructor of a node. It registers the node and builds the
    nodes below it; [fuel] bounds the depth of that recursion. *)
Fixpoint new_PdfObjectModelNode (fuel : nat) (object : option PdfObjectPtr)
  (parent : option nodeptr) (parentKey : PdfName)
  (parentType : ParentageType) {struct fuel} : TreeM nodeptr :=
  match fuel with
  | O => out_of_fuel
  | S fuel' =>
      if bool_decide (parentType ≠ PT_Root) && bool_decide (parent = None)
      then throw (invalid_argument "Non-root node with null parent")
      else
        this ← allocate (mkNode object parentType parent parentKey []);
        _ ← constructing this
              (_ ← NodeCreated this;
               PopulateChildren_with (new_PdfObjectModelNode fuel') this);
        ret this
  end.

Definition AddNode (fuel : nat) := AddNode_with (new_PdfObjectModelNode fuel).

Definition PopulateChildren (fuel : nat) :=
  PopulateChildren_with (new_PdfObjectModelNode fuel).

Definition GetObject (this : nodeptr) : TreeM (option PdfObjectPtr) :=
  nd ← node_at this; ret (m_pObject nd).

Definition GetParent (this : nodeptr) : TreeM (option nodeptr) :=
  nd ← node_at this; ret (m_pParent nd).

Definition CountChildren (this : nodeptr) : TreeM Z :=
  nd ← node_at this; ret (int_of_size (length (m_children nd))).

Definition GetChild (this : nodeptr) (n : Z) : TreeM (option nodeptr) :=
  nd ← node_at this;
  ret (if size_t_of_int n <? Z.of_nat (length (m_children nd))
       then m_children nd !! Z.to_nat (size_t_of_int n)
       else None).

Definition multimap_count (m : list (option PdfObjectPtr * nodeptr))
  (object : option PdfObjectPtr) : nat :=
  length (filter (λ e, e.1 = object) m).

Definition Tree_CountAliases (t : PdfObjectModelTree)
  (object : option PdfObjectPtr) : Z :=
  int_of_size (multimap_count (m_nodeAliases t) object).

Definition CountAliases (this : nodeptr) : TreeM Z :=
  nd ← node_at this; t ← get; ret (Tree_CountAliases t (m_pObject nd)).

Definition GetContainer (this : nodeptr) : TreeM (option nodeptr) :=
  nd ← node_at this;
  match m_parentType nd with
  | PT_Root => ret None
  | PT_Contained => ret (m_pParent nd)
  | PT_Referenced =>
      p ← deref (m_pParent nd);
      pd ← node_at p;
      ret (m_pParent pd)
  end.

(** [delete node]: the destructor deletes the children; then the memory
    is released. [fuel] bounds the depth of the recursion. *)
Fixpoint delete_PdfObjectModelNode (fuel : nat) (node : nodeptr)
  {struct fuel} : TreeM unit :=
  match fuel with
  | O => out_of_fuel
  | S fuel' =>
      nd ← node_at node;
      _ ← for_each (delete_PdfObjectModelNode fuel') (m_children nd);
      release node
  end.

(** The tree object before its root node is constructed. *)
Definition empty_tree (doc : PdfDocument) (followReferences : bool)
  : PdfObjectModelTree :=
  mkTree doc followReferences [] None ∅ 1%nat.

Definition new_PdfObjectModelTree (fuel : nat) (doc : PdfDocument)
  (root : option PdfObjectPtr) (followReferences : bool)
  : outcome PdfObjectModelTree unit :=
  (r ← new_PdfObjectModelNode fuel root None KeyNull PT_Root;
   modify (set_root (Some r)))
    (empty_tree doc followReferences).

(** [delete m_pRoot], which does nothing for a null pointer. *)
Definition delete_PdfObjectModelTree (fuel : nat) : TreeM unit :=
  t ← get;
  match m_pRoot t with
  | Some r => delete_PdfObjectModelNode fuel r
  | None => ret tt
  end.

(** *** What the eager tree is measured and described with *)

(** How deep containers nest in an object. *)
Fixpoint height (v : PdfVariant) : nat :=
  match v with
  | Array a => S (foldr (λ x acc, Nat.max (height x) acc) 0%nat a)
  | Dictionary d => S (foldr (λ kv acc, Nat.max (height kv.2) acc) 0%nat d)
  | _ => 0%nat
  end.

(** The references an object holds, at any depth. *)
Fixpoint refs_in (v : PdfVariant) : list PdfReference :=
  match v with
  | Reference r => [r]
  | Array a => foldr (λ x acc, refs_in x ++ acc) [] a
  | Dictionary d => foldr (λ kv acc, refs_in kv.2 ++ acc) [] d
  | _ => []
  end.

Definition doc_refs (doc : PdfDocument) : list PdfReference :=
  foldr (λ e acc, refs_in e.2 ++ acc) [] (GetObjects doc).

(** No reference in an indirect object of the document dangles. *)
Definition closed (doc : PdfDocument) : Prop :=
  Forall (λ r, is_Some (vec_lookup (GetObjects doc) r)) (doc_refs doc).

Definition max_height (doc : PdfDocument) : nat :=
  foldr (λ e acc, Nat.max (height e.2) acc) 0%nat (GetObjects doc).

(** The budget that the construction of a node needs at most, when
    [seen] references have been followed above it and its object nests
    [h] deep: below it a path descends in one indirect object between
    two followed references, and no reference is followed twice. *)
Definition fuel_needed (doc : PdfDocument) (seen h : nat) : nat :=
  ((length (GetObjects doc) - seen) * (max_height doc + 1) + h + 2)%nat.

(** A budget that is enough for every tree on the document. *)
Definition depth_bound (doc : PdfDocument) : nat :=
  ((length (GetObjects doc) + 1) * (max_height doc + 1) + 1)%nat.

(** The reference a node is on, if it is on one. *)
Definition own_ref (t : PdfObjectModelTree) (nd : PdfObjectModelNode)
  : list PdfReference :=
  match m_pObject nd ≫= object_at (m_pDoc t) with
  | Some (Reference r) => [r]
  | _ => []
  end.

(** The references that the nodes from [parent] up to the root are on,
    as the walk of [PopulateChildren] meets them. *)
Fixpoint refs_above (steps : nat) (t : PdfObjectModelTree)
  (parent : option nodeptr) {struct steps} : list PdfReference :=
  match parent with
  | None => []
  | Some p =>
      match steps with
      | O => []
      | S steps' =>
          match store t !! p with
          | Some pd => own_ref t pd ++ refs_above steps' t (m_pParent pd)
          | None => []
          end
      end
  end.

(** The references above a node: those of its parent, the parent of
    that, and so on. *)
Definition references_above (t : PdfObjectModelTree)
  (nd : PdfObjectModelNode) : list PdfReference :=
  refs_above (next_node t) t (m_pParent nd).

(** [above t parent a]: node [a] is [parent] or is above it. *)
Inductive above (t : PdfObjectModelTree) : option nodeptr → nodeptr → Prop :=
| above_here p : above t (Some p) p
| above_up p pd a :
    store t !! p = Some pd → above t (m_pParent pd) a → above t (Some p) a.

(** A node above [nd] is on the reference [r]. *)
Definition on_cycle (t : PdfObjectModelTree) (nd : PdfObjectModelNode)
  (r : PdfReference) : Prop :=
  ∃ a ad pa, above t (m_pParent nd) a ∧ store t !! a = Some ad ∧
             m_pObject ad = Some pa ∧
             object_at (m_pDoc t) pa = Some (Reference r).

(** How a child relates to the object [oq], at [pq], of its parent. *)
Definition child_link (follow : bool) (pq : PdfObjectPtr) (oq : PdfVariant)
  (nd : PdfObjectModelNode) : Prop :=
  match oq with
  | Reference r =>
      follow = true ∧ m_pObject nd = Some (mkPtr r []) ∧
      m_parentType nd = PT_Referenced ∧ m_parentKey nd = KeyNull
  | Dictionary d =>
      ∃ k, is_Some (GetKey d k) ∧
           m_pObject nd = Some (ptr_step pq (AtKey k)) ∧
           m_parentType nd = PT_Contained ∧ m_parentKey nd = k
  | Array a =>
      ∃ i, (i < length a)%nat ∧
           m_pObject nd = Some (ptr_step pq (AtIndex i)) ∧
           m_parentType nd = PT_Contained ∧ m_parentKey nd = KeyNull
  | _ => False
  end.

(** The node is the root, or its parent is an older live node whose
    object it was made for. *)
Definition parent_ok (t : PdfObjectModelTree) (n : nodeptr)
  (nd : PdfObjectModelNode) : Prop :=
  match m_pParent nd with
  | None => m_parentType nd = PT_Root
  | Some q =>
      (q < n)%nat ∧
      ∃ qd pq oq, store t !! q = Some qd ∧ m_pObject qd = Some pq ∧
                  object_at (m_pDoc t) pq = Some oq ∧
                  child_link (m_bFollowReferences t) pq oq nd
  end.

(** A live node is on an object of the document and has its place
    under its parent. *)
Definition node_ok (t : PdfObjectModelTree) (n : nodeptr)
  (nd : PdfObjectModelNode) : Prop :=
  (n < next_node t)%nat ∧
  (∃ p obj, m_pObject nd = Some p ∧ object_at (m_pDoc t) p = Some obj) ∧
  parent_ok t n nd.

Definition nodes_ok (t : PdfObjectModelTree) : Prop :=
  ∀ n nd, store t !! n = Some nd → node_ok t n nd.

(** The children a finished node has, by the object it is on: pointer,
    parentage and key of each. *)
Definition expected_children (t : PdfObjectModelTree)
  (nd : PdfObjectModelNode) (p : PdfObjectPtr) (obj : PdfVariant)
  : list (option PdfObjectPtr * ParentageType * PdfName) :=
  if m_bFollowReferences t && IsReference obj then
    match obj with
    | Reference r =>
        if bool_decide (r ∈ references_above t nd) then []
        else [(PdfVecObjects_GetObject (GetObjects (m_pDoc t)) r,
               PT_Referenced, KeyNull)]
    | _ => []
    end
  else
    match obj with
    | Dictionary d =>
        (λ it, (Some (ptr_step p (AtKey it.1)), PT_Contained, it.1)) <$> d
    | Array a =>
        (λ i, (Some (ptr_step p (AtIndex i)), PT_Contained, KeyNull)) <$>
          seq 0 (length a)
    | _ => []
    end.

Definition child_is (t : PdfObjectModelTree) (n : nodeptr) (c : nodeptr)
  (spec : option PdfObjectPtr * ParentageType * PdfName) : Prop :=
  ∃ cd, store t !! c = Some cd ∧ m_pObject cd = spec.1.1 ∧
        m_parentType cd = spec.1.2 ∧ m_parentKey cd = spec.2 ∧
        m_pParent cd = Some n.

(** The node has the children its object calls for. *)
Definition children_built (t : PdfObjectModelTree) (n : nodeptr)
  (nd : PdfObjectModelNode) : Prop :=
  ∃ p obj, m_pObject nd = Some p ∧ object_at (m_pDoc t) p = Some obj ∧
           Forall2 (child_is t n) (m_children nd)
             (expected_children t nd p obj).

(** The live nodes on an object. *)
Definition live_nodes_on (t : PdfObjectModelTree)
  (object : option PdfObjectPtr) : list nodeptr :=
  (filter (λ e, m_pObject e.2 = object) (map_to_list (store t))).*1.

(** The pair each live node has put into the alias index. *)
Definition pairs_of (s : gmap nodeptr PdfObjectModelNode)
  : list (option PdfObjectPtr * nodeptr) :=
  (λ e, (m_pObject e.2, e.1)) <$> map_to_list s.

(** The alias index holds the pairs of the live nodes, and the live
    nodes are at addresses already handed out. *)
Definition alias_inv (t : PdfObjectModelTree) : Prop :=
  m_nodeAliases t ≡ₚ pairs_of (store t) ∧
  map_Forall (λ n _, (n < next_node t)%nat) (store t).

(** The call keeps the alias index in step with the nodes and throws
    nothing. *)
Definition registers {A} (m : TreeM A) : Prop :=
  triple alias_inv m (λ _, alias_inv) (λ _ _, False).

(** The nodes below a node are at the addresses after it, subtree by
    subtree: [covers h t n hi] says that the node [n] and the nodes
    below it, less than [h] levels, are the live nodes at the addresses
    from [n] to before [hi]; [covers_list P lo cs hi] says so of the
    nodes [cs], one after the other, from [lo]. *)
Fixpoint covers_list (P : nodeptr → nodeptr → Prop) (lo : nodeptr)
  (cs : list nodeptr) (hi : nodeptr) : Prop :=
  match cs with
  | [] => lo = hi
  | c :: cs' => c = lo ∧ ∃ mid, P c mid ∧ covers_list P mid cs' hi
  end.

Fixpoint covers (h : nat) (t : PdfObjectModelTree) (n hi : nodeptr)
  {struct h} : Prop :=
  match h with
  | O => False
  | S h' =>
      ∃ nd, store t !! n = Some nd ∧
            covers_list (covers h' t) (S n) (m_children nd) hi
  end.

(** State [t'] is state [t] without the nodes at the addresses from
    [lo] to before [hi]. *)
Definition freed (t : PdfObjectModelTree) (lo hi : nodeptr)
  (t' : PdfObjectModelTree) : Prop :=
  m_pDoc t' = m_pDoc t ∧ m_pRoot t' = m_pRoot t ∧
  m_nodeAliases t' = m_nodeAliases t ∧ next_node t' = next_node t ∧
  ∀ m, store t' !! m =
         if bool_decide (lo ≤ m < hi)%nat then None else store t !! m.

(** The children that a node has got since state [t] cover the
    addresses handed out since. *)
Definition children_cover (fuel : nat) (t t' : PdfObjectModelTree)
  (this : nodeptr) (nd : PdfObjectModelNode) : Prop :=
  ∀ cs, store t' !! this = Some (set_children (m_children nd ++ cs) nd) →
        covers_list (covers fuel t') (next_node t) cs (next_node t').

(** The state [t'] that the construction of a node from [t] leaves:
    the node is at the next address, with the arguments of the
    constructor; older nodes are as they were; every node made has the
    children its object calls for. *)
Definition node_built (t t' : PdfObjectModelTree) (object : PdfObjectPtr)
  (pt : ParentageType) (parent : option nodeptr) (key : PdfName) : Prop :=
  m_pDoc t' = m_pDoc t ∧
  m_bFollowReferences t' = m_bFollowReferences t ∧
  m_pRoot t' = m_pRoot t ∧
  (next_node t < next_node t')%nat ∧
  (∀ n, (n < next_node t)%nat → store t' !! n = store t !! n) ∧
  (∃ cs, store t' !! next_node t =
           Some (mkNode (Some object) pt parent key cs)) ∧
  nodes_ok t' ∧
  ∀ n, (next_node t ≤ n < next_node t')%nat →
       ∃ nd, store t' !! n = Some nd ∧ children_built t' n nd.

(** How a construction ends: with a result that satisfies [P]; in a
    null dereference, which takes [dangling]; not in an exception or a
    failed assertion; and the budget runs out only under [short]. *)
Definition ends_well {A} (o : outcome PdfObjectModelTree A)
  (P : A → PdfObjectModelTree → Prop) (dangling short : Prop) : Prop :=
  match o with
  | Return a t' => P a t'
  | Undefined => dangling
  | OutOfFuel => short
  | Throw _ _ | AssertFail => False
  end.

(** The state [t'] that adding children to [this] from [t] leaves:
    [this] has got a child for each of [specs]; the other older nodes
    are as they were; every node after [this] has the children its
    object calls for. *)
Definition nodes_added (t t' : PdfObjectModelTree) (this : nodeptr)
  (nd : PdfObjectModelNode)
  (specs : list (option PdfObjectPtr * ParentageType * PdfName)) : Prop :=
  m_pDoc t' = m_pDoc t ∧
  m_bFollowReferences t' = m_bFollowReferences t ∧
  m_pRoot t' = m_pRoot t ∧
  (next_node t ≤ next_node t')%nat ∧
  (∀ n, (n < next_node t)%nat → n ≠ this → store t' !! n = store t !! n) ∧
  (∃ cs, store t' !! this = Some (set_children (m_children nd ++ cs) nd) ∧
         Forall2 (child_is t' this) cs specs) ∧
  nodes_ok t' ∧
  ∀ n, (this < n < next_node t')%nat →
       ∃ x, store t' !! n = Some x ∧ children_built t' n x.

(** How the construction of a node on an object of the document ends,
    with budget [fuel], from a state in order in which the references
    above the node are different ones that resolve. *)
Definition node_construction_ends (fuel : nat) : Prop :=
  ∀ t object obj parent key pt,
    nodes_ok t →
    object_at (m_pDoc t) object = Some obj →
    (∀ r, r ∈ refs_in obj → r ∈ doc_refs (m_pDoc t)) →
    parent_ok t (next_node t) (mkNode (Some object) pt parent key []) →
    NoDup (refs_above (next_node t) t parent) →
    (∀ r, r ∈ refs_above (next_node t) t parent →
          is_Some (vec_lookup (GetObjects (m_pDoc t)) r)) →
    ends_well (new_PdfObjectModelNode fuel (Some object) parent key pt t)
      (λ this t', this = next_node t ∧
                  node_built t t' object pt parent key ∧
                  covers fuel t' this (next_node t'))
      (m_bFollowReferences t = true ∧ ¬ closed (m_pDoc t))
      (fuel < fuel_needed (m_pDoc t)
                (length (refs_above (next_node t) t parent)) (height obj))%nat.

(** A document whose catalog refers to itself through its pages:
    1 0 is the catalog, with a reference to 2 0; 2 0 holds an array
    with a reference back to 1 0. *)
Definition cyclic_doc : PdfDocument :=
  mkPdfDocument
    (Dictionary [("Root", Reference (mkPdfReference 1 0))])
    [(mkPdfReference 1 0,
      Dictionary [("Pages", Reference (mkPdfReference 2 0));
                  ("Type", Name "Catalog")]);
     (mkPdfReference 2 0,
      Dictionary [("Kids", Array [Reference (mkPdfReference 1 0)])])]
    sample_address_less.

(** A document whose catalog holds a reference to an object that the
    document does not have. *)
Definition dangling_doc : PdfDocument :=
  mkPdfDocument
    (Dictionary [("Root", Reference (mkPdfReference 1 0))])
    [(mkPdfReference 1 0,
      Dictionary [("Lost", Reference (mkPdfReference 9 0))])]
    sample_address_less.

Definition ptr_cyclic_catalog : PdfObjectPtr := mkPtr (mkPdfReference 1 0) [].

(** The eager tree on the catalog of [cyclic_doc], references
    followed. *)
Definition cyclic_tree : PdfObjectModelTree :=
  state_after
    (new_PdfObjectModelTree 10 cyclic_doc (Some ptr_cyclic_catalog) true)
    (empty_tree cyclic_doc true).

(** The eager tree on [dangling_doc] at the moment the node on the
    reference under Lost has been registered and is about to look for
    its children: node 1 is the root, node 2 is on the reference. *)
Definition dangling_tree_at_reference : PdfObjectModelTree :=
  state_after
    ((root ← allocate (mkNode (Some ptr_cyclic_catalog) PT_Root None KeyNull []);
      _ ← NodeCreated root;
      child ← allocate
                (mkNode (Some (ptr_step ptr_cyclic_catalog (AtKey "Lost")))
                   PT_Contained (Some root) "Lost" []);
      NodeCreated child)
       (empty_tree dangling_doc true))
    (empty_tree dangling_doc true).

End Trunk.

(** ** The items of the earlier list view (pdflistviewitem.cpp) *)

Module ListView.

(** What [compare] reads of a [PdfListViewItem]: the number of the
    object it shows, [object()->ObjectNumber()]. *)
Record PdfListViewItem := mkPdfListViewItem
  { ObjectNumber : nat }.

(** A [QListViewItem*] as [compare] gets it: [dynamic_cast] tells
    whether the item is a [PdfListViewItem]. *)
Record QListViewItem := mkQListViewItem
  { key : string;
    dynamic_cast : option PdfListViewItem }.

Section Compare.

(** [QListViewItem::compare] of the Qt library, for the item itself. *)
Variable QListViewItem_compare :
  PdfListViewItem → QListViewItem → Z → bool → Z.

Definition compare (this : PdfListViewItem) (i : QListViewItem) (col : Z)
  (ascending : bool) : Z :=
  let item := dynamic_cast i in
  match item with
  | Some item' =>
      if negb (col =? 0) then QListViewItem_compare this i col ascending
      else if (ObjectNumber item' =? ObjectNumber this)%nat then 0
      else if (ObjectNumber item' <? ObjectNumber this)%nat
           then (if ascending then 1 else -1)
           else (if ascending then -1 else 1)
  | None => QListViewItem_compare this i col ascending
  end.

End Compare.

End ListView.

(** * Properties *)

(** ** Reasoning about calls *)

Ltac monad_unfold :=
  unfold mbind, M_bind, mret, M_ret, deref, assert, undefined, out_of_fuel,
    throw, get, gets, modify, bind, ret in *;
  cbv beta iota in *.

Lemma bind_Return {S A B} (m : M S A) (k : A → M S B) s b s' :
  (x ← m; k x) s = Return b s' ↔
  ∃ a s1, m s = Return a s1 ∧ k a s1 = Return b s'.
Proof.
  monad_unfold. split.
  - destruct (m s) as [a s1| | | |]; try discriminate. eauto.
  - intros (a & s1 & -> & ?). done.
Qed.

Lemma bind_run {S A B} (m : M S A) (k : A → M S B) s a s1 :
  m s = Return a s1 → (x ← m; k x) s = k a s1.
Proof. monad_unfold. by intros ->. Qed.

Lemma triple_bind {S A B} (P : S → Prop) (m : M S A) (k : A → M S B)
  (Q : A → S → Prop) (R : B → S → Prop) (E : exception → S → Prop) :
  triple P m Q E → (∀ a, triple (Q a) (k a) R E) →
  triple P (x ← m; k x) R E.
Proof.
  intros Hm Hk s Hs. specialize (Hm s Hs). monad_unfold.
  destruct (m s) as [a s1| | | |]; try done. by apply Hk.
Qed.

Lemma triple_weaken {S A} (P P' : S → Prop) (m : M S A)
  (Q Q' : A → S → Prop) (E E' : exception → S → Prop) :
  triple P' m Q' E' → (∀ s, P s → P' s) → (∀ a s, Q' a s → Q a s) →
  (∀ e s, E' e s → E e s) → triple P m Q E.
Proof.
  intros Hm HP HQ HE s Hs. specialize (Hm s (HP s Hs)).
  destruct (m s); auto.
Qed.

Lemma preserves_bind {S A B} (I : S → Prop) (m : M S A) (k : A → M S B) :
  preserves I m → (∀ a, preserves I (k a)) → preserves I (x ← m; k x).
Proof. intros Hm Hk. by apply (triple_bind I m k (λ _, I)). Qed.

Lemma preserves_ret {S A} (I : S → Prop) (a : A) : preserves I (ret a).
Proof. by intros s Hs. Qed.

Lemma preserves_throw {S A} (I : S → Prop) e : preserves I (@throw S A e).
Proof. by intros s Hs. Qed.

Lemma preserves_get {S} (I : S → Prop) : preserves I get.
Proof. by intros s Hs. Qed.

Lemma preserves_gets {S A} (I : S → Prop) (f : S → A) : preserves I (gets f).
Proof. by intros s Hs. Qed.

Lemma preserves_assert {S} (I : S → Prop) b : preserves I (@assert S b).
Proof. intros s Hs. by destruct b. Qed.

Lemma preserves_deref {S A} (I : S → Prop) (o : option A) :
  preserves I (@deref S A o).
Proof. intros s Hs. by destruct o. Qed.

Lemma preserves_modify {S} (I : S → Prop) (f : S → S) :
  (∀ s, I s → I (f s)) → preserves I (modify f).
Proof. intros Hf s Hs. by apply Hf. Qed.

Lemma preserves_for_each {S A} (I : S → Prop) (body : A → M S unit) l :
  (∀ x, preserves I (body x)) → preserves I (for_each body l).
Proof.
  intros Hb. induction l as [|x l IH]; simpl.
  - apply preserves_ret.
  - apply preserves_bind; auto.
Qed.

(** A call that reads the state and goes on. *)
Lemma preserves_read {S A B} (I : S → Prop) (f : S → A) (k : A → M S B) :
  (∀ a, preserves I (k a)) → preserves I (x ← gets f; k x).
Proof. intros. apply preserves_bind; auto using preserves_gets. Qed.

Create HintDb preserves.
#[local] Hint Resolve preserves_ret preserves_throw preserves_get
  preserves_gets preserves_assert preserves_deref : preserves.

(** ** The alias index *)

Lemma pairs_of_insert_fresh s n nd :
  s !! n = None → pairs_of (<[n := nd]> s) ≡ₚ (m_pObject nd, n) :: pairs_of s.
Proof.
  intros Hn. unfold pairs_of.
  by rewrite (map_to_list_insert s n nd Hn).
Qed.

Lemma pairs_of_delete s n nd :
  s !! n = Some nd → (m_pObject nd, n) :: pairs_of (delete n s) ≡ₚ pairs_of s.
Proof.
  intros Hn. unfold pairs_of.
  by rewrite <- (map_to_list_delete s n nd Hn).
Qed.

Lemma pairs_of_update s n nd nd' :
  s !! n = Some nd → m_pObject nd' = m_pObject nd →
  pairs_of (<[n := nd']> s) ≡ₚ pairs_of s.
Proof.
  intros Hn Ho.
  rewrite <- (insert_delete_eq s n nd').
  rewrite pairs_of_insert_fresh by apply lookup_delete_eq.
  rewrite Ho. by apply pairs_of_delete.
Qed.

Lemma multimap_erase_perm m obj node m' :
  multimap_erase m obj node = Some m' → m ≡ₚ (obj, node) :: m'.
Proof.
  revert m'. induction m as [|[o n] m IH]; intros m'; simpl; [done|].
  case_decide as Hd.
  - destruct Hd as [-> ->]. by intros [= ->].
  - destruct (multimap_erase m obj node) as [m''|]; [|done].
    intros [= <-]. rewrite (IH m'' eq_refl). apply Permutation_swap.
Qed.

Lemma multimap_erase_split m obj node m' :
  multimap_erase m obj node = Some m' →
  ∃ m1 m2, m = m1 ++ ((obj, node) :: m2) ∧ m' = m1 ++ m2 ∧ (obj, node) ∉ m1.
Proof.
  revert m'. induction m as [|[o n] m IH]; intros m'; simpl; [done|].
  case_decide as Hd.
  - destruct Hd as [-> ->]. intros [= ->]. exists [], m'.
    split_and!; [done..|]. apply not_elem_of_nil.
  - destruct (multimap_erase m obj node) as [m''|]; [|done].
    intros [= <-]. destruct (IH m'' eq_refl) as (m1 & m2 & -> & -> & Hn).
    exists ((o, n) :: m1), m2. split_and!; [done..|].
    apply not_elem_of_cons; split; [|done].
    intros [= -> ->]. by apply Hd.
Qed.

Lemma multimap_erase_None m obj node :
  multimap_erase m obj node = None ↔ (obj, node) ∉ m.
Proof.
  induction m as [|[o n] m IH]; simpl.
  - split; [intros _; apply not_elem_of_nil | done].
  - case_decide as Hd.
    + destruct Hd as [-> ->]. split; [done|]. intros []. left.
    + rewrite not_elem_of_cons.
      destruct (multimap_erase m obj node) as [m''|].
      * split; [done|]. intros [_ Hn]. by apply IH in Hn.
      * split; [|done]. intros _. split; [|by apply IH].
        intros [= -> ->]. by apply Hd.
Qed.

Lemma multimap_erase_is_Some m obj node :
  (obj, node) ∈ m → is_Some (multimap_erase m obj node).
Proof.
  intros Hin. destruct (multimap_erase m obj node) eqn:E; [eauto|].
  by apply multimap_erase_None in E.
Qed.

(** ** The invariant of the tree: every call keeps it *)

Lemma store_bounded_alt t :
  store_bounded t ↔ ∀ n, is_Some (store t !! n) → (n < next_node t)%nat.
Proof.
  unfold store_bounded, map_Forall. split.
  - intros H n [x Hx]. by apply (H n x).
  - intros H n x Hx. apply H. eauto.
Qed.

Ltac bounded_alt H :=
  let H' := fresh in
  pose proof (proj1 (store_bounded_alt _) H) as H'; clear H; rename H' into H.

Lemma preserves_node_at I node : preserves I (node_at node).
Proof. unfold node_at. apply preserves_bind; auto with preserves. Qed.

Lemma preserves_object_of I nd : preserves I (object_of nd).
Proof. unfold object_of. apply preserves_bind; auto with preserves. Qed.

#[local] Hint Resolve preserves_node_at preserves_object_of : preserves.

Lemma tree_inv_update_node t node nd nd' :
  tree_inv t → store t !! node = Some nd → m_pObject nd' = m_pObject nd →
  tree_inv (set_store (<[node := nd']> (store t)) t).
Proof.
  intros [Ha Hb] Hn Ho. bounded_alt Hb. split.
  - unfold alias_index_ok, alias_pairs in *. simpl.
    by rewrite (pairs_of_update _ _ _ _ Hn Ho).
  - apply store_bounded_alt. intros n. simpl. rewrite lookup_insert. case_decide as Hd.
    + subst. intros _. apply Hb. eauto.
    + apply Hb.
Qed.

Lemma preserves_update_node node f :
  (∀ nd, m_pObject (f nd) = m_pObject nd) →
  preserves tree_inv (update_node node f).
Proof.
  intros Hf t Hinv. unfold update_node, node_at. monad_unfold.
  destruct (store t !! node) as [nd|] eqn:Hn; [|done].
  by apply (tree_inv_update_node t node nd).
Qed.


Lemma tree_inv_allocate t nd :
  tree_inv t →
  tree_inv (mkTree (m_pDoc t) (m_bFollowReferences t)
              (m_nodeAliases t ++ [(m_pObject nd, next_node t)]) (m_pRoot t)
              (<[next_node t := nd]> (store t)) (S (next_node t))).
Proof.
  intros [Ha Hb]. bounded_alt Hb.
  assert (store t !! next_node t = None) as Hfresh.
  { destruct (store t !! next_node t) eqn:E; [|done].
    assert (next_node t < next_node t)%nat by (apply Hb; eauto). lia. }
  split.
  - unfold alias_index_ok, alias_pairs in *. simpl.
    rewrite (pairs_of_insert_fresh _ _ _ Hfresh), <- Ha.
    by rewrite <- Permutation_cons_append.
  - apply store_bounded_alt. intros n. simpl. rewrite lookup_insert. case_decide as Hd.
    + subst. lia.
    + intros Hn. specialize (Hb n Hn). lia.
Qed.

Lemma preserves_new_node object parent parentKey parentType :
  preserves tree_inv
    (new_PdfObjectModelNode object parent parentKey parentType).
Proof.
  intros t Hinv. unfold new_PdfObjectModelNode.
  destruct (bool_decide (parentType ≠ PT_Root) && bool_decide (parent = None)).
  { exact Hinv. }
  unfold allocate, NodeCreated, node_at. monad_unfold. simpl.
  rewrite lookup_insert_eq. simpl.
  by apply (tree_inv_allocate t (mkNode false false object parentType parent
                                   parentKey [])).
Qed.

(** Taking a node out of the index and releasing it. *)
Lemma preserves_destroy node :
  preserves tree_inv (_ ← NodeDeleted node; release node).
Proof.
  intros t Hinv. unfold NodeDeleted, release, node_at. monad_unfold.
  destruct (store t !! node) as [nd|] eqn:Hn; [|done].
  destruct (multimap_erase (m_nodeAliases t) (m_pObject nd) node)
    as [m'|] eqn:He; [|by destruct (pair_behind _ _)].
  destruct Hinv as [Ha Hb]. bounded_alt Hb. split.
  - unfold alias_index_ok, alias_pairs in *. simpl.
    apply multimap_erase_perm in He. rewrite He in Ha.
    rewrite <- (pairs_of_delete _ _ _ Hn) in Ha.
    by apply Permutation_cons_inv in Ha.
  - apply store_bounded_alt. intros n. simpl. rewrite lookup_delete. case_decide; [by intros []|].
    apply Hb.
Qed.

Lemma preserves_InvalidateChildren fuel this :
  preserves tree_inv (InvalidateChildren fuel this).
Proof.
  revert this. induction fuel as [|fuel IH]; intros this; simpl; [done|].
  apply preserves_bind; [auto with preserves|]. intros nd.
  apply preserves_bind; [|intros _; by apply preserves_update_node].
  apply preserves_for_each. intros child.
  apply preserves_bind; [apply IH|]. intros _. apply preserves_destroy.
Qed.

Lemma preserves_delete_node fuel node :
  preserves tree_inv (delete_PdfObjectModelNode fuel node).
Proof.
  apply preserves_bind; [apply preserves_InvalidateChildren|].
  intros _. apply preserves_destroy.
Qed.

Lemma preserves_AddNode this object pt parentKey :
  preserves tree_inv (AddNode this object pt parentKey).
Proof.
  apply preserves_bind; [apply preserves_new_node|].
  intros child. by apply preserves_update_node.
Qed.







Lemma preserves_CanInsertKey this keyName :
  preserves tree_inv (CanInsertKey this keyName).
Proof.
  unfold CanInsertKey.
  destruct (negb (bool_decide (keyName ≠ KeyNull))); [apply preserves_ret|].
  apply preserves_bind; [auto with preserves|]. intros nd.
  apply preserves_bind; [auto with preserves|]. intros obj.
  destruct (negb (IsDictionary obj)); [apply preserves_ret|].
  apply preserves_bind; [destruct obj; by intros ??|]. intros d.
  apply preserves_ret.
Qed.




Lemma tree_inv_empty doc followReferences :
  tree_inv (empty_tree doc followReferences).
Proof.
  split.
  - unfold alias_index_ok, alias_pairs, pairs_of. simpl.
    by rewrite map_to_list_empty.
  - apply store_bounded_alt. intros n [x Hx]. simpl in Hx.
    by rewrite lookup_empty in Hx.
Qed.

Lemma tree_inv_new_tree doc root followReferences t :
  new_PdfObjectModelTree doc root followReferences = Return tt t → tree_inv t.
Proof.
  unfold new_PdfObjectModelTree, PdfObjectModelTree_ctor. intros H.
  apply bind_Return in H as (r & t1 & H1 & H2).
  pose proof (preserves_new_node root None KeyNull PT_Root _
                (tree_inv_empty doc followReferences)) as Hp.
  rewrite H1 in Hp. monad_unfold. injection H2 as <-.
  destruct Hp as [Ha Hb]. by split.
Qed.




(** ** Running calls on known states *)

Lemma node_at_run t node nd :
  store t !! node = Some nd → node_at node t = Return nd t.
Proof. intros H. unfold node_at. monad_unfold. by rewrite H. Qed.

Lemma update_node_run t node nd f :
  store t !! node = Some nd →
  update_node node f t = Return tt (set_store (alter f node (store t)) t).
Proof.
  intros H. unfold update_node.
  rewrite (bind_run _ _ _ _ _ (node_at_run _ _ _ H)).
  monad_unfold. by rewrite (alter_alt_Some _ _ _ _ H).
Qed.

Lemma object_of_run t nd obj :
  object_at (m_pDoc t) (m_pObject nd) = Some obj →
  object_of nd t = Return obj t.
Proof. intros H. unfold object_of. monad_unfold. by rewrite H. Qed.

Lemma for_each_fmap {S A B} (f : A → B) (body : B → M S unit) l :
  for_each body (f <$> l) = for_each (λ x, body (f x)) l.
Proof.
  induction l as [|x l IH]; [done|].
  rewrite fmap_cons. cbn [for_each]. by rewrite IH.
Qed.

Lemma new_node_run t object parent parentKey parentType :
  parentType = PT_Root ∨ parent ≠ None →
  new_PdfObjectModelNode object parent parentKey parentType t =
  Return (next_node t)
    (mkTree (m_pDoc t) (m_bFollowReferences t)
       (m_nodeAliases t ++ [(object, next_node t)]) (m_pRoot t)
       (<[next_node t :=
            mkNode false false object parentType parent parentKey []]>
          (store t))
       (S (next_node t))).
Proof.
  intros Hp. unfold new_PdfObjectModelNode.
  replace (bool_decide (parentType ≠ PT_Root) && bool_decide (parent = None))
    with false; cycle 1.
  { symmetry. apply andb_false_iff. destruct Hp as [->|Hp].
    - left. by apply bool_decide_eq_false_2; intros [].
    - right. by apply bool_decide_eq_false_2. }
  unfold allocate, NodeCreated, node_at. monad_unfold. simpl.
  by rewrite lookup_insert_eq.
Qed.

Lemma AddNode_run t this nd object pt parentKey :
  store t !! this = Some nd → this ≠ next_node t →
  AddNode this object pt parentKey t =
  Return tt (with_child this (object, pt, parentKey) t).
Proof.
  intros Hn Hne. unfold AddNode.
  erewrite bind_run by (apply new_node_run; by right).
  erewrite update_node_run by (simpl; by rewrite lookup_insert_ne).
  done.
Qed.

Lemma with_child_this t this nd spec :
  store t !! this = Some nd → this ≠ next_node t →
  store (with_child this spec t) !! this =
  Some (set_children (m_children nd ++ [next_node t]) nd).
Proof.
  intros Hn Hne. simpl. rewrite lookup_alter_eq, lookup_insert_ne by done.
  by rewrite Hn.
Qed.

Lemma for_each_AddNode_run specs : ∀ t this nd,
  store t !! this = Some nd → (this < next_node t)%nat →
  for_each (λ spec, AddNode this spec.1.1 spec.1.2 spec.2) specs t =
  Return tt (foldl (λ t spec, with_child this spec t) t specs).
Proof.
  induction specs as [|[[o pt] k] specs IH]; intros t this nd Hn Hlt;
    [done|].
  cbn [for_each foldl]. erewrite bind_run; cycle 1.
  { apply (AddNode_run _ _ _ _ _ _ Hn). lia. }
  eapply IH.
  - apply with_child_this; [done|lia].
  - simpl. lia.
Qed.

(** What the state with the new children looks like. *)
Lemma with_children_spec specs : ∀ t this nd,
  store t !! this = Some nd → (this < next_node t)%nat →
  let t' := foldl (λ t spec, with_child this spec t) t specs in
  m_pDoc t' = m_pDoc t ∧
  m_bFollowReferences t' = m_bFollowReferences t ∧
  m_pRoot t' = m_pRoot t ∧
  next_node t' = (next_node t + length specs)%nat ∧
  m_nodeAliases t' =
    m_nodeAliases t ++
      zip (fst ∘ fst <$> specs) (seq (next_node t) (length specs)) ∧
  store t' !! this =
    Some (set_children
            (m_children nd ++ seq (next_node t) (length specs)) nd) ∧
  (∀ i spec, specs !! i = Some spec →
     store t' !! (next_node t + i)%nat =
     Some (mkNode false false spec.1.1 spec.1.2 (Some this) spec.2 [])) ∧
  (∀ n, (n < next_node t)%nat → n ≠ this → store t' !! n = store t !! n).
Proof.
  induction specs as [|spec specs IH]; intros t this nd Hn Hlt; simpl.
  - split_and!; try done.
    + by rewrite app_nil_r.
    + rewrite app_nil_r. by destruct nd.
  - assert (this ≠ next_node t) as Hne by lia.
    pose proof (with_child_this t this nd spec Hn Hne) as Hn1.
    destruct (IH (with_child this spec t) this _ Hn1) as
      (Hd & Hf & Hr & Hx & Ha & Ht & Hc & Ho); [simpl; lia|].
    split_and!.
    + by rewrite Hd.
    + by rewrite Hf.
    + by rewrite Hr.
    + rewrite Hx. simpl. lia.
    + rewrite Ha. simpl. by rewrite <- app_assoc.
    + rewrite Ht. simpl. by rewrite <- app_assoc.
    + intros [|i] spec' Hi.
      * simpl in Hi. injection Hi as <-.
        rewrite Nat.add_0_r, Ho by (simpl; lia).
        simpl. rewrite lookup_alter_ne by done.
        by rewrite lookup_insert_eq.
      * simpl in Hi. specialize (Hc i spec' Hi). simpl in Hc.
        by replace (next_node t + S i)%nat with (S (next_node t + i)) by lia.
    + intros n Hlt' Hne'. rewrite Ho by (simpl; lia || done).
      simpl. rewrite lookup_alter_ne by done.
      rewrite lookup_insert_ne by lia. done.
Qed.

Lemma bind_ret_tt {S} (m : M S unit) s : (_ ← m; ret tt) s = m s.
Proof. monad_unfold. by destruct (m s) as [[] ?| | | |]. Qed.

Lemma GetDictionary_run {S} d (s : S) :
  GetDictionary (Dictionary d) s = Return d s.
Proof. done. Qed.

Lemma PopulateChildren_run t this nd obj :
  store t !! this = Some nd → m_bChildrenLoaded nd = false →
  (this < next_node t)%nat →
  object_at (m_pDoc t) (m_pObject nd) = Some obj →
  PopulateChildren this t =
  Return tt
    (populated this
       (expected_children (m_bFollowReferences t) (m_pDoc t)
          (m_pObject nd) obj) t).
Proof.
  intros Hn Hl Hlt Ho. unfold PopulateChildren.
  rewrite (bind_run _ _ _ _ _ (node_at_run _ _ _ Hn)).
  rewrite Hl. simpl negb.
  erewrite bind_run by reflexivity.
  erewrite bind_run by reflexivity.
  rewrite (bind_run _ _ _ _ _ (object_of_run _ _ _ Ho)).
  set (specs := expected_children _ _ _ _).
  assert ((if m_bFollowReferences t && IsReference obj
           then r ← GetReference obj;
                match PdfVecObjects_GetObject (GetObjects (m_pDoc t)) r with
                | Some referee => AddNode this referee PT_Referenced KeyNull
                | None => ret tt
                end
           else if IsDictionary obj
                then keys ← GetDictionary obj;
                     for_each
                       (λ it, AddNode this
                                (ptr_step (m_pObject nd) (AtKey it.1))
                                PT_Contained it.1) keys
                else if IsArray obj
                     then a ← GetArray obj;
                          for_each
                            (λ i, AddNode this
                                    (ptr_step (m_pObject nd) (AtIndex i))
                                    PT_Contained KeyNull) (seq 0 (length a))
                     else ret tt) t =
          Return tt (foldl (λ t spec, with_child this spec t) t specs))
    as Hadd.
  { rewrite <- (for_each_AddNode_run specs t this nd Hn Hlt).
    subst specs. unfold expected_children.
    destruct obj; simpl; try (by destruct (m_bFollowReferences t)).
    - rewrite andb_false_r. by rewrite for_each_fmap.
    - rewrite andb_false_r. by rewrite for_each_fmap.
    - rewrite andb_true_r. destruct (m_bFollowReferences t); [|done].
      monad_unfold. simpl.
      destruct (PdfVecObjects_GetObject _ r); simpl; [|done].
      by rewrite bind_ret_tt. }
  rewrite (bind_run _ _ _ _ _ Hadd).
  destruct (with_children_spec specs t this nd Hn Hlt)
    as (_ & _ & _ & _ & _ & Ht & _).
  by rewrite (update_node_run _ _ _ _ Ht).
Qed.

(** ** The state after population *)

Lemma populated_spec specs t this nd :
  store t !! this = Some nd → (this < next_node t)%nat →
  let t' := populated this specs t in
  m_pDoc t' = m_pDoc t ∧
  m_bFollowReferences t' = m_bFollowReferences t ∧
  m_pRoot t' = m_pRoot t ∧
  next_node t' = (next_node t + length specs)%nat ∧
  store t' !! this =
    Some (set_loaded true
            (set_children
               (m_children nd ++ seq (next_node t) (length specs)) nd)) ∧
  (∀ i spec, specs !! i = Some spec →
     store t' !! (next_node t + i)%nat =
     Some (mkNode false false spec.1.1 spec.1.2 (Some this) spec.2 [])) ∧
  (∀ n, (n < next_node t)%nat → n ≠ this → store t' !! n = store t !! n).
Proof.
  intros Hn Hlt.
  destruct (with_children_spec specs t this nd Hn Hlt)
    as (Hd & Hf & Hr & Hx & _ & Ht & Hc & Ho).
  unfold populated. simpl. split_and!; try done.
  - by rewrite lookup_alter_eq, Ht.
  - intros i spec Hi. rewrite lookup_alter_ne by lia. by apply Hc.
  - intros n Hlt' Hne. rewrite lookup_alter_ne by done. by apply Ho.
Qed.

Lemma populated_bounded specs t this nd :
  store t !! this = Some nd → store_bounded t →
  store_bounded (populated this specs t).
Proof.
  intros Hn Hb. bounded_alt Hb. apply store_bounded_alt.
  assert (this < next_node t)%nat as Hlt by (apply Hb; eauto).
  destruct (populated_spec specs t this nd Hn Hlt)
    as (_ & _ & _ & Hx & Ht & Hc & Ho).
  intros n [x Hx']. rewrite Hx.
  destruct (decide (n < next_node t)%nat) as [|Hge]; [lia|].
  destruct (decide (n < next_node t + length specs)%nat); [done|].
  exfalso. clear -Hx' Hb Hge n0.
  unfold populated in Hx'. simpl in Hx'.
  assert (∀ specs t, (∀ m, is_Some (store t !! m) →
                           (m < next_node t)%nat) →
            ∀ m, is_Some (store (foldl (λ t spec, with_child this spec t)
                                   t specs) !! m) →
                 (m < next_node t + length specs)%nat) as Hgen.
  { clear. induction specs as [|spec specs IH]; intros t Hb m Hm; simpl in *.
    - specialize (Hb m Hm). lia.
    - apply IH in Hm; [simpl in Hm; lia|].
      intros k [y Hk]. simpl in Hk. change (k < S (next_node t))%nat.
      rewrite lookup_alter in Hk. case_decide as Hd.
      + subst k. rewrite lookup_insert in Hk. case_decide; [lia|].
        destruct (store t !! this) eqn:E; [|done].
        assert (this < next_node t)%nat by (apply Hb; eauto). lia.
      + rewrite lookup_insert in Hk. case_decide; [lia|].
        assert (k < next_node t)%nat by (apply Hb; eauto). lia. }
  rewrite lookup_alter in Hx'.
  assert (is_Some (store (foldl (λ t spec, with_child this spec t) t specs)
                     !! n)) as Hs.
  { case_decide; [|eauto]. subst.
    destruct (store (foldl _ t specs) !! n); [eauto|done]. }
  specialize (Hgen specs t Hb n Hs). lia.
Qed.

Lemma populated_child_views specs t this nd :
  store t !! this = Some nd → (this < next_node t)%nat →
  m_children nd = [] →
  child_views (populated this specs t) this = Some (Some <$> specs).
Proof.
  intros Hn Hlt Hc.
  destruct (populated_spec specs t this nd Hn Hlt)
    as (_ & _ & _ & _ & Ht & Hk & _).
  unfold child_views. rewrite Ht. simpl. rewrite Hc. simpl. f_equal.
  apply list_eq. intros i. rewrite !list_lookup_fmap.
  destruct (specs !! i) as [spec|] eqn:Hi; simpl.
  - rewrite lookup_seq_lt by (by eapply lookup_lt_Some). simpl.
    unfold child_view. rewrite (Hk i spec Hi). simpl.
    by destruct spec as [[??]?].
  - rewrite lookup_seq_ge by (by apply lookup_ge_None). done.
Qed.

(** ** Counting and fetching children *)

Lemma CountChildren_pretend t this nd :
  store t !! this = Some nd → m_bPretendEmpty nd = true →
  CountChildren this t = Return 0 t.
Proof.
  intros Hn Hp. unfold CountChildren.
  rewrite (bind_run _ _ _ _ _ (node_at_run _ _ _ Hn)). by rewrite Hp.
Qed.

Lemma GetChild_pretend t this nd n :
  store t !! this = Some nd → m_bPretendEmpty nd = true →
  GetChild this n t = Return None t.
Proof.
  intros Hn Hp. unfold GetChild.
  rewrite (bind_run _ _ _ _ _ (node_at_run _ _ _ Hn)). by rewrite Hp.
Qed.

Lemma EnsureChildrenLoaded_loaded t this nd :
  store t !! this = Some nd → m_bChildrenLoaded nd = true →
  EnsureChildrenLoaded this t = Return tt t.
Proof.
  intros Hn Hl. unfold EnsureChildrenLoaded.
  rewrite (bind_run _ _ _ _ _ (node_at_run _ _ _ Hn)). by rewrite Hl.
Qed.

Lemma EnsureChildrenLoaded_unloaded t this nd obj :
  store t !! this = Some nd → m_bChildrenLoaded nd = false →
  (this < next_node t)%nat →
  object_at (m_pDoc t) (m_pObject nd) = Some obj →
  EnsureChildrenLoaded this t =
  Return tt
    (populated this
       (expected_children (m_bFollowReferences t) (m_pDoc t)
          (m_pObject nd) obj) t).
Proof.
  intros Hn Hl Hlt Ho. unfold EnsureChildrenLoaded.
  rewrite (bind_run _ _ _ _ _ (node_at_run _ _ _ Hn)). rewrite Hl.
  by apply PopulateChildren_run.
Qed.

Lemma CountChildren_loaded t this nd :
  store t !! this = Some nd → m_bPretendEmpty nd = false →
  m_bChildrenLoaded nd = true →
  CountChildren this t = Return (int_of_size (length (m_children nd))) t.
Proof.
  intros Hn Hp Hl. unfold CountChildren.
  rewrite (bind_run _ _ _ _ _ (node_at_run _ _ _ Hn)). rewrite Hp.
  rewrite (bind_run _ _ _ _ _ (EnsureChildrenLoaded_loaded _ _ _ Hn Hl)).
  by rewrite (bind_run _ _ _ _ _ (node_at_run _ _ _ Hn)).
Qed.

Lemma GetChild_loaded t this nd n :
  store t !! this = Some nd → m_bPretendEmpty nd = false →
  m_bChildrenLoaded nd = true →
  GetChild this n t =
  Return (if size_t_of_int n <? Z.of_nat (length (m_children nd))
          then m_children nd !! Z.to_nat (size_t_of_int n)
          else None) t.
Proof.
  intros Hn Hp Hl. unfold GetChild.
  rewrite (bind_run _ _ _ _ _ (node_at_run _ _ _ Hn)). rewrite Hp.
  rewrite (bind_run _ _ _ _ _ (EnsureChildrenLoaded_loaded _ _ _ Hn Hl)).
  by rewrite (bind_run _ _ _ _ _ (node_at_run _ _ _ Hn)).
Qed.

Lemma CountChildren_unloaded t this nd obj :
  store t !! this = Some nd → m_bPretendEmpty nd = false →
  m_bChildrenLoaded nd = false → m_children nd = [] →
  (this < next_node t)%nat →
  object_at (m_pDoc t) (m_pObject nd) = Some obj →
  let specs := expected_children (m_bFollowReferences t) (m_pDoc t)
                 (m_pObject nd) obj in
  CountChildren this t =
  Return (int_of_size (length specs)) (populated this specs t).
Proof.
  intros Hn Hp Hl Hc Hlt Ho specs. unfold CountChildren.
  rewrite (bind_run _ _ _ _ _ (node_at_run _ _ _ Hn)). rewrite Hp.
  rewrite (bind_run _ _ _ _ _
             (EnsureChildrenLoaded_unloaded _ _ _ _ Hn Hl Hlt Ho)).
  fold specs.
  destruct (populated_spec specs t this nd Hn Hlt)
    as (_ & _ & _ & _ & Ht & _).
  rewrite (bind_run _ _ _ _ _ (node_at_run _ _ _ Ht)). simpl.
  rewrite Hc. simpl. by rewrite length_seq.
Qed.

(** ** Updating an object in the document *)

Lemma GetKey_set_key d k v :
  is_Some (GetKey d k) → GetKey (set_key d k v) k = Some v.
Proof.
  induction d as [|[k' v'] d IH]; simpl; [by intros [? [=]]|].
  case_decide as Hd; simpl.
  - by rewrite decide_True.
  - rewrite decide_False by done. apply IH.
Qed.

Lemma vec_lookup_vec_set objs r v :
  is_Some (vec_lookup objs r) → vec_lookup (vec_set objs r v) r = Some v.
Proof.
  induction objs as [|[r' v'] objs IH]; simpl; [by intros [? [=]]|].
  case_decide as Hd; simpl.
  - by rewrite decide_True.
  - rewrite decide_False by done. apply IH.
Qed.

Lemma variant_update_at f path : ∀ v old new,
  variant_at v path = Some old → f old = Some new →
  ∃ v', variant_update f v path = Some v' ∧ variant_at v' path = Some new.
Proof.
  induction path as [|[k|i] path IH]; intros v old new Hat Hf; simpl in *.
  - injection Hat as ->. eauto.
  - destruct v; try done.
    destruct (GetKey d k) as [vk|] eqn:Hk; [|done].
    destruct (IH vk old new Hat Hf) as (v' & -> & Hv').
    eexists. split; [done|]. simpl.
    by rewrite GetKey_set_key by (rewrite Hk; eauto).
  - destruct v; try done.
    destruct (a !! i) as [vi|] eqn:Hi; [|done].
    destruct (IH vi old new Hat Hf) as (v' & -> & Hv').
    eexists. split; [done|]. simpl.
    by rewrite list_lookup_insert_eq by (by eapply lookup_lt_Some).
Qed.

Lemma object_update_at f doc p old new :
  object_at doc p = Some old → f old = Some new →
  ∃ doc', object_update f doc p = Some doc' ∧ object_at doc' p = Some new.
Proof.
  unfold object_at, object_update. intros Hat Hf.
  destruct (vec_lookup (GetObjects doc) (ptr_ref p)) as [v|] eqn:Hv; [|done].
  destruct (variant_update_at f _ v old new Hat Hf) as (v' & -> & Hv').
  eexists. split; [done|]. simpl.
  by rewrite vec_lookup_vec_set by (rewrite Hv; eauto).
Qed.

Lemma update_object_run f t nd old new :
  object_at (m_pDoc t) (m_pObject nd) = Some old → f old = Some new →
  ∃ doc', update_object f nd t = Return tt (set_doc doc' t) ∧
          object_at doc' (m_pObject nd) = Some new.
Proof.
  intros Hat Hf.
  destruct (object_update_at f _ _ old new Hat Hf) as (doc' & Hu & Hat').
  exists doc'. split; [|done].
  unfold update_object. monad_unfold. by rewrite Hu.
Qed.

(** ** The alias index counts the live nodes *)

Lemma NodeDeleted_present t node nd :
  store t !! node = Some nd →
  (m_pObject nd, node) ∈ m_nodeAliases t →
  ∃ m1 m2,
    m_nodeAliases t = m1 ++ ((m_pObject nd, node) :: m2) ∧
    ((m_pObject nd, node) ∉ m1) ∧
    NodeDeleted node t = Return tt (set_aliases (m1 ++ m2) t).
Proof.
  intros Hn Hin.
  destruct (multimap_erase_is_Some _ _ _ Hin) as [m' He].
  destruct (multimap_erase_split _ _ _ _ He) as (m1 & m2 & Hm & -> & Hni).
  exists m1, m2. split_and!; [done..|].
  unfold NodeDeleted. rewrite (bind_run _ _ _ _ _ (node_at_run _ _ _ Hn)).
  monad_unfold. by rewrite He.
Qed.

Lemma tree_inv_pair t node nd :
  tree_inv t → store t !! node = Some nd →
  (m_pObject nd, node) ∈ m_nodeAliases t.
Proof.
  intros [Ha _] Hn. unfold alias_index_ok in Ha. rewrite Ha.
  unfold alias_pairs, pairs_of. apply list_elem_of_fmap.
  exists (node, nd). split; [done|]. by apply elem_of_map_to_list.
Qed.





(** ** A parse error leaves the node alone *)

(** Claim C2. When the tokenizer rejects the bytes, [SetRawData] throws
    the tokenizer's [PdfError] and the state is the one it was called in:
    the wrapped object and the cached children are untouched. *)
Theorem SetRawData_parse_error tok fuel this data code t :
  tok data = inr code →
  SetRawData tok fuel this data t = Throw (PdfError code) t.
Proof. intros H. unfold SetRawData. by rewrite H. Qed.

Lemma SetRawData_parse_error_witness :
  sample_tokenizer (bytes "<< /Type") = inr 1%nat ∧
  SetRawData sample_tokenizer 10 1%nat (bytes "<< /Type") sample_tree_expanded =
    Throw (PdfError 1) sample_tree_expanded.
Proof.
  split; [reflexivity|].
  apply (SetRawData_parse_error sample_tokenizer 10 1%nat (bytes "<< /Type")
           1%nat sample_tree_expanded).
  reflexivity.
Defined.

(** ** Pretending to be empty *)

Lemma SetPretendEmpty_run t this nd empty :
  store t !! this = Some nd →
  SetPretendEmpty this empty t =
  Return tt (set_store (<[this := set_pretend empty nd]> (store t)) t).
Proof.
  intros Hn. unfold SetPretendEmpty.
  rewrite (update_node_run _ _ _ _ Hn).
  by rewrite (alter_alt_Some _ _ _ _ Hn).
Qed.

(** Claim C8. While the flag is set, [CountChildren] returns 0 and
    [GetChild] returns null for every index, and the state, with the
    cached child list, stays as it is. For a node whose children are
    loaded, setting and clearing the flag changes nothing but the flag:
    the same child nodes are reported, in the same order. *)
Theorem pretend_empty_hides_children t this nd :
  store t !! this = Some nd →
  (m_bPretendEmpty nd = true →
     CountChildren this t = Return 0 t ∧
     ∀ n, GetChild this n t = Return None t) ∧
  (m_bChildrenLoaded nd = true →
     ∃ t1 t2,
       SetPretendEmpty this true t = Return tt t1 ∧
       CountChildren this t1 = Return 0 t1 ∧
       (∀ n, GetChild this n t1 = Return None t1) ∧
       SetPretendEmpty this false t1 = Return tt t2 ∧
       t2 = set_store (<[this := set_pretend false nd]> (store t)) t ∧
       (m_bPretendEmpty nd = false → t2 = t) ∧
       CountChildren this t2 =
         Return (int_of_size (length (m_children nd))) t2 ∧
       ∀ n, GetChild this n t2 =
              Return (if size_t_of_int n <? Z.of_nat (length (m_children nd))
                      then m_children nd !! Z.to_nat (size_t_of_int n)
                      else None) t2).
Proof.
  intros Hn. split.
  - intros Hp. split; [by eapply CountChildren_pretend|].
    intros n. by eapply GetChild_pretend.
  - intros Hl.
    set (t1 := set_store (<[this := set_pretend true nd]> (store t)) t).
    set (t2 := set_store (<[this := set_pretend false nd]> (store t)) t).
    assert (store t1 !! this = Some (set_pretend true nd)) as Hn1
      by apply lookup_insert_eq.
    assert (store t2 !! this = Some (set_pretend false nd)) as Hn2
      by apply lookup_insert_eq.
    exists t1, t2. split_and!.
    + by apply SetPretendEmpty_run.
    + by eapply CountChildren_pretend.
    + intros n. by eapply GetChild_pretend.
    + rewrite (SetPretendEmpty_run _ _ _ _ Hn1). subst t1 t2.
      unfold set_store. simpl. by rewrite insert_insert_eq.
    + done.
    + intros Hp. subst t2. unfold set_store.
      replace (set_pretend false nd) with nd
        by (destruct nd; simpl in *; by subst).
      rewrite (insert_id _ _ _ Hn). by destruct t.
    + by rewrite (CountChildren_loaded _ _ _ Hn2).
    + intros n. by rewrite (GetChild_loaded _ _ _ _ Hn2).
Qed.

(** The root of the expanded sample tree has five loaded children. *)
Lemma pretend_empty_hides_children_witness :
  ∃ t1 t2,
    SetPretendEmpty 1%nat true sample_tree_expanded = Return tt t1 ∧
    CountChildren 1%nat t1 = Return 0 t1 ∧
    SetPretendEmpty 1%nat false t1 = Return tt t2 ∧
    t2 = sample_tree_expanded ∧
    CountChildren 1%nat t2 = Return 5 t2 ∧
    GetChild 1%nat 4 t2 = Return (Some 6%nat) t2.
Proof.
  destruct (pretend_empty_hides_children sample_tree_expanded 1%nat
              (mkNode false true ptr_catalog PT_Root None KeyNull
                 [2; 3; 4; 5; 6]%nat) eq_refl) as [_ H].
  destruct (H eq_refl) as (t1 & t2 & H1 & H2 & _ & H3 & _ & H4 & H5 & H6).
  exists t1, t2. split_and!; [done..| by apply H4 | done | apply (H6 4)].
Defined.

(** ** Opening a document *)

Lemma new_tree_run doc root followReferences :
  new_PdfObjectModelTree doc root followReferences =
  Return tt
    (mkTree doc followReferences [(root, 1%nat)] (Some 1%nat)
       {[1%nat := mkNode false false root PT_Root None KeyNull []]} 2%nat).
Proof.
  unfold new_PdfObjectModelTree, PdfObjectModelTree_ctor.
  erewrite bind_run by (apply new_node_run; by left). done.
Qed.

(** Claim C10. The constructor of the adapter throws [invalid_argument]
    and leaves [m_pTree] null when the trailer is not a dictionary, has no
    Root key, has a Root entry that is not a reference, or one that does
    not resolve to a dictionary. Otherwise it builds the tree that follows
    references and whose only node is the root, on the catalog. *)
Theorem setupModelData_checks doc :
  let fresh := mkModel false None [] in
  ((∀ d, GetTrailer doc ≠ Dictionary d) →
     ∃ what, new_PdfObjectModel doc = Throw (invalid_argument what) fresh) ∧
  (∀ d, GetTrailer doc = Dictionary d → GetKey d "Root" = None →
     ∃ what, new_PdfObjectModel doc = Throw (invalid_argument what) fresh) ∧
  (∀ d v, GetTrailer doc = Dictionary d → GetKey d "Root" = Some v →
     (∀ r, v ≠ Reference r) →
     ∃ what, new_PdfObjectModel doc = Throw (invalid_argument what) fresh) ∧
  (∀ d r, GetTrailer doc = Dictionary d →
     GetKey d "Root" = Some (Reference r) →
     (∀ d', vec_lookup (GetObjects doc) r ≠ Some (Dictionary d')) →
     ∃ what, new_PdfObjectModel doc = Throw (invalid_argument what) fresh) ∧
  (∀ d r d', GetTrailer doc = Dictionary d →
     GetKey d "Root" = Some (Reference r) →
     vec_lookup (GetObjects doc) r = Some (Dictionary d') →
     new_PdfObjectModel doc =
     Return tt
       (mkModel false
          (Some (mkTree doc true [(mkPtr r [], 1%nat)] (Some 1%nat)
                   {[1%nat := mkNode false false (mkPtr r []) PT_Root None
                                KeyNull []]} 2%nat))
          [])).
Proof.
  intros fresh. unfold new_PdfObjectModel, setupModelData. split_and!.
  - intros Hd. destruct (GetTrailer doc); try (by eexists).
    by destruct (Hd d).
  - intros d -> Hk. simpl. monad_unfold. unfold HasKey. rewrite Hk.
    by eexists.
  - intros d v -> Hk Hv. simpl. monad_unfold. unfold HasKey. rewrite Hk.
    simpl. destruct v; try (by eexists). by destruct (Hv r).
  - intros d r -> Hk Hv. simpl. monad_unfold. unfold HasKey. rewrite Hk.
    simpl. unfold PdfVecObjects_GetObject, object_at.
    destruct (vec_lookup (GetObjects doc) r) as [v|] eqn:Hl; [|by eexists].
    simpl. rewrite Hl. simpl.
    destruct v; try (by eexists). by destruct (Hv d0).
  - intros d r d' -> Hk Hv. simpl. monad_unfold. unfold HasKey. rewrite Hk.
    simpl. unfold PdfVecObjects_GetObject, object_at. rewrite Hv. simpl.
    rewrite Hv. simpl. unfold assign_new_tree. by rewrite new_tree_run.
Qed.

(** The sample document passes the four checks; a document whose
    trailer is an array fails the first. *)
Lemma setupModelData_checks_witness :
  new_PdfObjectModel sample_doc =
    Return tt (mkModel false (Some sample_tree) []) ∧
  ∃ what,
    new_PdfObjectModel (mkPdfDocument (Array []) [] sample_address_less) =
    Throw (invalid_argument what) (mkModel false None []).
Proof.
  split.
  - destruct (setupModelData_checks sample_doc) as (_ & _ & _ & _ & H).
    rewrite (H [("Root"%string, Reference ref_catalog)] ref_catalog
               [("A"%string, Reference ref_shared);
                ("B"%string, Reference ref_shared);
                ("Info"%string, Dictionary [("Title"%string, String "t")]);
                ("Kids"%string, Array [Number 10; Number 20; Number 30]);
                ("Lost"%string, Reference ref_missing)]
               eq_refl eq_refl eq_refl).
    reflexivity.
  - destruct (setupModelData_checks
                (mkPdfDocument (Array []) [] sample_address_less))
      as (H & _).
    apply H. intros d. discriminate.
Defined.

(** ** What invalidation leaves of the tree *)

Lemma triple_for_each {S A} (I : S → Prop) (E : exception → S → Prop)
  (body : A → M S unit) l :
  (∀ x, triple I (body x) (λ _, I) E) → triple I (for_each body l) (λ _, I) E.
Proof.
  intros Hb. induction l as [|x l IH]; cbn [for_each].
  - by intros s Hs.
  - eapply triple_bind; [apply Hb|]. intros ?. apply IH.
Qed.

Lemma same_frame_refl t : same_frame t t.
Proof. by repeat split. Qed.

Lemma shrinks_refl t : shrinks t t.
Proof. split; [apply same_frame_refl|done]. Qed.

Lemma triple_destroy t0 node :
  triple (others_shrink node t0) (_ ← NodeDeleted node; release node)
    (λ _, shrinks t0) (λ _ _, True).
Proof.
  intros s [Hf Hs]. unfold NodeDeleted, release, node_at. monad_unfold.
  destruct (store s !! node) as [nd|] eqn:Hn; [|done].
  destruct (multimap_erase (m_nodeAliases s) (m_pObject nd) node);
    [|by destruct (pair_behind _ _)].
  split; [exact Hf|]. simpl. apply map_subseteq_spec. intros n x.
  rewrite lookup_delete. case_decide; [done|]. by apply Hs.
Qed.

Lemma triple_InvalidateChildren fuel : ∀ t0 this,
  triple (shrinks t0) (InvalidateChildren fuel this)
    (λ _, invalidated this t0) (λ _ _, True).
Proof.
  induction fuel as [|fuel IH]; intros t0 this; simpl; [by intros ??|].
  eapply triple_bind with (Q := λ _, shrinks t0).
  { intros s Hs. unfold node_at. monad_unfold.
    by destruct (store s !! this). }
  intros nd0.
  eapply triple_bind with (Q := λ _, shrinks t0).
  { apply triple_for_each. intros child.
    eapply triple_bind; [|intros ?; apply triple_destroy].
    eapply triple_weaken; [apply (IH t0 child) | done | | done].
    by intros _ s [Ho _]. }
  intros ? s [Hf Hs]. unfold update_node, node_at. monad_unfold.
  destruct (store s !! this) as [nd|] eqn:Hn; [|done].
  pose proof (map_subseteq_spec (store s) (store t0)) as [Hsub _].
  specialize (Hsub Hs). split; [split; [exact Hf|]|]; simpl.
  - intros n x Hne. rewrite lookup_insert_ne by done. apply Hsub.
  - intros nd1 Hn1. rewrite lookup_insert_eq.
    apply Hsub in Hn. by simplify_eq.
Qed.

Lemma InvalidateChildren_invalidated fuel this t t' :
  InvalidateChildren fuel this t = Return tt t' → invalidated this t t'.
Proof.
  intros H. pose proof (triple_InvalidateChildren fuel t this t
                          (shrinks_refl t)) as Hp.
  by rewrite H in Hp.
Qed.

(** ** Deletion returns on a well-formed subtree *)

Lemma owns_in t h : ∀ node ids, owns t h node ids → node ∈ ids.
Proof.
  destruct h; intros node ids; simpl; [done|].
  intros (nd & idss & _ & _ & ->). apply elem_of_app. right. left.
Qed.

Lemma owns_frame t t' h : ∀ node ids,
  owns t h node ids →
  (∀ n, n ∈ ids → store t' !! n = store t !! n) →
  owns t' h node ids.
Proof.
  induction h as [|h IH]; intros node ids; simpl; [done|].
  intros (nd & idss & Hn & Hc & ->) Hsame.
  exists nd, idss. split_and!; [|  |done].
  - rewrite Hsame; [done|]. apply elem_of_app. right. left.
  - assert (∀ n, n ∈ concat idss → store t' !! n = store t !! n) as Hsame'.
    { intros n Hin. apply Hsame. apply elem_of_app. by left. }
    clear Hsame Hn. induction Hc as [|c ids1 cs idss Hc1 Hcs IHc];
      [constructor|].
    simpl in Hsame'. constructor.
    + apply IH; [done|]. intros n Hin. apply Hsame', elem_of_app. by left.
    + apply IHc. intros n Hin. apply Hsame', elem_of_app. by right.
Qed.

Lemma release_run t node :
  release node t = Return tt (set_store (delete node (store t)) t).
Proof. done. Qed.


(** ** Well-formed trees *)

Lemma owns_mono t h : ∀ h' node ids,
  owns t h node ids → (h ≤ h')%nat → owns t h' node ids.
Proof.
  induction h as [|h IH]; intros h' node ids; simpl; [done|].
  intros (nd & idss & Hn & Hc & ->) Hle.
  destruct h' as [|h']; [lia|]. simpl.
  exists nd, idss. split_and!; [done| |done].
  eapply Forall2_impl; [exact Hc|]. intros c ids' Hc'.
  apply IH; [done|lia].
Qed.

(** A node of the subtree is its root or the child of a node of it. *)
Lemma owns_parent t h : ∀ node ids x,
  owns t h node ids → x ∈ ids →
  x = node ∨
  ∃ p pd, p ∈ ids ∧ store t !! p = Some pd ∧ x ∈ m_children pd.
Proof.
  induction h as [|h IH]; intros node ids x; simpl; [done|].
  intros (nd & idss & Hn & Hc & ->) Hx.
  apply elem_of_app in Hx as [Hx|Hx]; [|apply list_elem_of_singleton in Hx;
                                        by left].
  right.
  assert (∀ cs, Forall2 (owns t h) cs idss →
            ∃ c ids', c ∈ cs ∧ ids' ∈ idss ∧ owns t h c ids' ∧ x ∈ ids')
    as Hfind.
  { clear -Hx. intros cs Hcs. induction Hcs as [|c ids' cs idss Hc' Hcs IHc];
      simpl in Hx; [by apply elem_of_nil in Hx|].
    apply elem_of_app in Hx as [Hx|Hx].
    - exists c, ids'. split_and!; [left|left|done|done].
    - destruct (IHc Hx) as (c' & ids'' & ? & ? & ? & ?).
      exists c', ids''. split_and!; [by right|by right|done|done]. }
  destruct (Hfind _ Hc) as (c & ids' & Hcin & Hidin & Hown & Hxin).
  assert (∀ y, y ∈ ids' → y ∈ concat idss ++ [node]) as Hsub.
  { intros y Hy. apply elem_of_app. left.
    apply list_elem_of_In, in_concat. exists ids'.
    split; by apply list_elem_of_In. }
  destruct (IH c ids' x Hown Hxin) as [->|(p & pd & Hp & Hpd & Hxp)].
  - exists node, nd. split_and!; [|done|done].
    apply elem_of_app. right. left.
  - exists p, pd. split_and!; [by apply Hsub|done|done].
Qed.

Lemma owns_ge t h : ∀ node ids x,
  children_ok t → owns t h node ids → x ∈ ids → (node ≤ x)%nat.
Proof.
  induction h as [|h IH]; intros node ids x Hok; simpl; [done|].
  intros (nd & idss & Hn & Hc & ->) Hx.
  apply elem_of_app in Hx as [Hx|Hx];
    [|apply list_elem_of_singleton in Hx; lia].
  destruct (Hok node nd Hn) as [_ Hch].
  clear Hn. revert Hch. induction Hc as [|c ids' cs idss Hc' Hcs IHc];
    intros Hch; simpl in Hx;
    [by apply elem_of_nil in Hx|].
  apply elem_of_app in Hx as [Hx|Hx].
  - specialize (IH c ids' x Hok Hc' Hx).
    destruct (Hch c) as [Hlt _]; [left|]. lia.
  - apply IHc; [done|]. intros c' Hc''. apply Hch. by right.
Qed.

Lemma owns_live t h : ∀ node ids x,
  owns t h node ids → x ∈ ids → is_Some (store t !! x).
Proof.
  induction h as [|h IH]; intros node ids x; simpl; [done|].
  intros (nd & idss & Hn & Hc & ->) Hx.
  apply elem_of_app in Hx as [Hx|Hx];
    [|apply list_elem_of_singleton in Hx; subst; eauto].
  induction Hc as [|c ids' cs idss Hc' Hcs IHc]; simpl in Hx;
    [by apply elem_of_nil in Hx|].
  apply elem_of_app in Hx as [Hx|Hx]; [by eapply IH | by apply IHc].
Qed.

(** Subtrees below two different children of a node share no node. *)
Lemma owns_disjoint t h1 h2 n nd c1 c2 ids1 ids2 :
  children_ok t →
  store t !! n = Some nd →
  c1 ∈ m_children nd → c2 ∈ m_children nd → c1 ≠ c2 →
  owns t h1 c1 ids1 → owns t h2 c2 ids2 →
  ∀ x, x ∈ ids1 → x ∈ ids2 → False.
Proof.
  intros Hok Hn Hc1 Hc2 Hne Ho1 Ho2 x.
  induction (lt_wf x) as [x _ IH]. intros Hx1 Hx2.
  destruct (Hok n nd Hn) as [_ Hch].
  destruct (Hch c1 Hc1) as (Hlt1 & cd1 & Hcd1 & Hp1).
  destruct (Hch c2 Hc2) as (Hlt2 & cd2 & Hcd2 & Hp2).
  pose proof (owns_ge _ _ _ _ _ Hok Ho1 Hx1) as Hge1.
  pose proof (owns_ge _ _ _ _ _ Hok Ho2 Hx2) as Hge2.
  (* the parent of [x], wherever [x] is listed as a child *)
  assert (∀ p pd, store t !! p = Some pd → x ∈ m_children pd →
            (p < x)%nat ∧ ∃ xd, store t !! x = Some xd ∧ m_pParent xd = Some p)
    as Hpar.
  { intros p pd Hpd Hxp. destruct (Hok p pd Hpd) as [_ Hch']. by apply Hch'. }
  destruct (owns_parent _ _ _ _ _ Ho1 Hx1) as [->|(p1 & pd1 & Hp1in & Hpd1 & Hx1c)];
    destruct (owns_parent _ _ _ _ _ Ho2 Hx2) as [->|(p2 & pd2 & Hp2in & Hpd2 & Hx2c)].
  - done.
  - destruct (Hpar p2 pd2 Hpd2 Hx2c) as (_ & xd & Hxd & Hxp).
    assert (p2 = n) as -> by congruence.
    pose proof (owns_ge _ _ _ _ _ Hok Ho2 Hp2in). lia.
  - destruct (Hpar p1 pd1 Hpd1 Hx1c) as (_ & xd & Hxd & Hxp).
    assert (p1 = n) as -> by congruence.
    pose proof (owns_ge _ _ _ _ _ Hok Ho1 Hp1in). lia.
  - destruct (Hpar p1 pd1 Hpd1 Hx1c) as (Hlt & xd & Hxd & Hxp).
    destruct (Hpar p2 pd2 Hpd2 Hx2c) as (_ & xd' & Hxd' & Hxp').
    assert (p1 = p2) as -> by congruence.
    by apply (IH p2).
Qed.

(** Below every live node of a well-formed tree there is a tree. *)
Lemma children_ok_owns t :
  children_ok t → store_bounded t →
  ∀ k n nd, store t !! n = Some nd → (next_node t - n ≤ k)%nat →
    ∃ ids, owns t k n ids ∧ NoDup ids.
Proof.
  intros Hok Hb. bounded_alt Hb.
  induction k as [|k IH]; intros n nd Hn Hk.
  { assert (n < next_node t)%nat by (apply Hb; eauto). lia. }
  destruct (Hok n nd Hn) as [Hnd Hch].
  (* the subtrees of the children *)
  assert (∀ cs, NoDup cs → (∀ c, c ∈ cs → c ∈ m_children nd) →
            ∃ idss, Forall2 (owns t k) cs idss ∧ NoDup (concat idss))
    as Hsub.
  { induction cs as [|c cs IHc]; intros Hndc Hin.
    { exists []. split; [constructor|]. simpl. constructor. }
    apply NoDup_cons in Hndc as [Hnotin Hndc].
    destruct IHc as (idss & Hcs & Hnds); [done|intros; apply Hin; by right|].
    destruct (Hch c) as (Hlt & cd & Hcd & _); [apply Hin; left|].
    destruct (IH c cd Hcd) as (ids & Hown & Hndi); [lia|].
    exists (ids :: idss). split; [by constructor|]. simpl.
    apply NoDup_app. split_and!; [done| |done].
    intros x Hx Hx'.
    apply list_elem_of_In, in_concat in Hx' as (ids' & Hids' & Hx').
    apply list_elem_of_In in Hids', Hx'.
    (* [ids'] is the subtree of another child *)
    assert (∃ c', c' ∈ cs ∧ owns t k c' ids') as (c' & Hc' & Hown').
    { clear -Hcs Hids'. induction Hcs as [|c0 ids0 cs idss ? ? IHf];
        [by apply elem_of_nil in Hids'|].
      apply elem_of_cons in Hids' as [->|Hids'].
      - exists c0. split; [left|done].
      - destruct (IHf Hids') as (c' & ? & ?). exists c'. split; [by right|done]. }
    eapply (owns_disjoint t k k n nd c c' ids ids'); eauto.
    + apply Hin. left.
    + apply Hin. by right.
    + intros ->. done. }
  destruct (Hsub (m_children nd) Hnd) as (idss & Hcs & Hnds); [done|].
  exists (concat idss ++ [n]). split.
  - simpl. exists nd, idss. done.
  - apply NoDup_app. split_and!; [done| |apply NoDup_singleton].
    intros x Hx Hx'. apply list_elem_of_singleton in Hx'. subst x.
    apply list_elem_of_In, in_concat in Hx as (ids' & Hids' & Hx).
    apply list_elem_of_In in Hids', Hx.
    assert (∃ c', c' ∈ m_children nd ∧ owns t k c' ids') as (c' & Hc' & Hown').
    { clear -Hcs Hids'. induction Hcs as [|c0 ids0 cs idss ? ? IHf];
        [by apply elem_of_nil in Hids'|].
      apply elem_of_cons in Hids' as [->|Hids'].
      - exists c0. split; [left|done].
      - destruct (IHf Hids') as (c' & ? & ?). exists c'. split; [by right|done]. }
    pose proof (owns_ge _ _ _ _ _ Hok Hown' Hx).
    destruct (Hch c' Hc') as [Hlt _]. lia.
Qed.

(** ** Invalidation of a well-formed subtree, exactly *)

Lemma InvalidateChildren_total h : ∀ this ids t,
  tree_inv t → owns t h this ids → NoDup ids →
  ∃ t', InvalidateChildren h this t = Return tt t' ∧
        tree_inv t' ∧
        (∀ n, n ∉ ids → store t' !! n = store t !! n) ∧
        (∀ n, n ∈ ids → n ≠ this → store t' !! n = None).
Proof.
  induction h as [|h IH]; intros this ids t Hinv Hown Hnd; [done|].
  destruct Hown as (nd & idss & Hn & Hc & ->).
  apply NoDup_app in Hnd as (Hnd & Hthis & _).
  assert (this ∉ concat idss) as Hni.
  { intros Hin. apply (Hthis _ Hin). left. }
  (* the children, one after the other *)
  assert (∀ cs idss t,
            tree_inv t → Forall2 (owns t h) cs idss → NoDup (concat idss) →
            ∃ t1, for_each (delete_PdfObjectModelNode h) cs t = Return tt t1 ∧
                  tree_inv t1 ∧
                  (∀ n, n ∉ concat idss → store t1 !! n = store t !! n) ∧
                  (∀ n, n ∈ concat idss → store t1 !! n = None))
    as Hloop.
  { clear -IH. induction cs as [|c cs IHc]; intros idss t Hinv Hc Hnd.
    { exists t. inversion Hc; subst. split_and!; [done..|].
      intros n Hin. by apply elem_of_nil in Hin. }
    inversion Hc as [|? ids1 ? idss' Hc1 Hcs]; subst. clear Hc.
    simpl in Hnd. apply NoDup_app in Hnd as (Hnd1 & Hdisj & Hnd2).
    destruct (IH c ids1 t Hinv Hc1 Hnd1) as (ta & Hra & Hinva & Hsa & Hda).
    (* the child itself is taken out of the index and released *)
    pose proof (InvalidateChildren_invalidated _ _ _ _ Hra) as [_ Hcl].
    destruct h as [|h']; [done|].
    destruct Hc1 as (cd & idsc & Hcn & Hcc & ->).
    specialize (Hcl cd Hcn).
    pose proof (tree_inv_pair _ _ _ Hinva Hcl) as Hpair.
    destruct (NodeDeleted_present _ _ _ Hcl Hpair)
      as (m1 & m2 & _ & _ & Hdel).
    set (tb := set_store (delete c (store (set_aliases (m1 ++ m2) ta)))
                 (set_aliases (m1 ++ m2) ta)).
    assert (delete_PdfObjectModelNode (S h') c t = Return tt tb) as Hrb.
    { unfold delete_PdfObjectModelNode.
      rewrite (bind_run _ _ _ _ _ Hra), (bind_run _ _ _ _ _ Hdel).
      apply release_run. }
    assert (tree_inv tb) as Hinvb.
    { pose proof (preserves_delete_node (S h') c t Hinv) as Hp.
      by rewrite Hrb in Hp. }
    assert (∀ n, n ∉ concat idsc ++ [c] → store tb !! n = store t !! n)
      as Hsb.
    { intros n Hn. simpl. rewrite lookup_delete_ne; [by apply Hsa|].
      intros ->. apply Hn, elem_of_app. right. left. }
    assert (∀ n, n ∈ concat idsc ++ [c] → store tb !! n = None) as Hdb.
    { intros n Hn. simpl. rewrite lookup_delete. case_decide; [done|].
      apply Hda; [done|congruence]. }
    destruct (IHc idss' tb Hinvb) as (t1 & Hr1 & Hinv1 & Hs1 & Hd1);
      [|done|].
    { clear -Hcs Hsb Hdisj.
      induction Hcs as [|c' ids' cs idss Hc' Hcs IHc]; [constructor|].
      simpl in Hdisj. constructor.
      - eapply owns_frame; [exact Hc'|]. intros n Hin. apply Hsb.
        intros Hin'. apply (Hdisj _ Hin'), elem_of_app. by left.
      - apply IHc. intros n Hin Hin'. apply (Hdisj _ Hin), elem_of_app.
        by right. }
    exists t1. split_and!; [|done| |].
    - cbn [for_each]. by rewrite (bind_run _ _ _ _ _ Hrb).
    - intros n Hn. simpl in Hn. rewrite Hs1, Hsb; [done|..];
        intros Hin; apply Hn, elem_of_app; first [by left | by right].
    - intros n Hn. simpl in Hn.
      destruct (decide (n ∈ concat idss')) as [Hin|Hnin]; [by apply Hd1|].
      rewrite Hs1 by done. apply Hdb.
      by apply elem_of_app in Hn as [Hn|Hn]. }
  destruct (Hloop _ _ t Hinv Hc Hnd) as (t1 & Hrun1 & Hinv1 & Hsame1 & Hdel1).
  assert (store t1 !! this = Some nd) as Hn1 by (by rewrite Hsame1).
  eexists. split_and!.
  - cbn [InvalidateChildren].
    rewrite (bind_run _ _ _ _ _ (node_at_run _ _ _ Hn)).
    change (for_each _ (m_children nd))
      with (for_each (delete_PdfObjectModelNode h) (m_children nd)).
    rewrite (bind_run _ _ _ _ _ Hrun1).
    apply (update_node_run _ _ _ _ Hn1).
  - rewrite (alter_alt_Some _ _ _ _ Hn1).
    by apply (tree_inv_update_node t1 this nd).
  - intros n Hn'. simpl. rewrite lookup_alter_ne.
    + apply Hsame1. intros Hin. apply Hn', elem_of_app. by left.
    + intros ->. apply Hn', elem_of_app. right. left.
  - intros n Hn' Hne. simpl. rewrite lookup_alter_ne by done.
    apply Hdel1. apply elem_of_app in Hn' as [Hn'|Hn']; [done|].
    apply list_elem_of_singleton in Hn'. done.
Qed.

(** ** More fuel changes nothing *)

Lemma bind_more_fuel {S A B} (m m' : M S A) (k k' : A → M S B) s :
  (finished (m s) → m' s = m s) →
  (∀ a s1, finished (k a s1) → k' a s1 = k a s1) →
  finished ((x ← m; k x) s) → (x ← m'; k' x) s = (x ← m; k x) s.
Proof.
  intros Hm Hk. monad_unfold. intros Hf.
  rewrite Hm; [|by destruct (m s)].
  destruct (m s) as [a s1| | | |]; try done. by apply Hk.
Qed.

Lemma for_each_more_fuel {S A} (body body' : A → M S unit) l : ∀ s,
  (∀ x s1, finished (body x s1) → body' x s1 = body x s1) →
  finished (for_each body l s) → for_each body' l s = for_each body l s.
Proof.
  induction l as [|x l IH]; intros s Hb; [done|]. cbn [for_each].
  apply bind_more_fuel; [apply Hb|]. intros _ s1. by apply IH.
Qed.

Lemma InvalidateChildren_more_fuel fuel : ∀ fuel' this t,
  (fuel ≤ fuel')%nat →
  finished (InvalidateChildren fuel this t) →
  InvalidateChildren fuel' this t = InvalidateChildren fuel this t.
Proof.
  induction fuel as [|fuel IH]; intros fuel' this t Hle; [done|].
  destruct fuel' as [|fuel']; [lia|]. cbn [InvalidateChildren].
  apply bind_more_fuel; [done|]. intros nd s1.
  apply bind_more_fuel; [|done].
  apply for_each_more_fuel. intros child s2.
  apply bind_more_fuel; [|done].
  apply IH. lia.
Qed.

(** ** The public calls keep the tree well-formed *)

Lemma children_ok_update t node nd nd' :
  children_ok t → store t !! node = Some nd →
  m_children nd' = m_children nd → m_pParent nd' = m_pParent nd →
  children_ok (set_store (<[node := nd']> (store t)) t).
Proof.
  intros Hok Hn Hc Hp n x. simpl. rewrite lookup_insert.
  assert (∀ n x, store t !! n = Some x →
            ∀ c, c ∈ m_children x →
              (n < c)%nat ∧
              ∃ cd, <[node := nd']> (store t) !! c = Some cd ∧
                    m_pParent cd = Some n) as Hch.
  { intros n0 x0 Hx0 c Hin. destruct (Hok n0 x0 Hx0) as [_ Hch].
    destruct (Hch c Hin) as (Hlt & cd & Hcd & Hpc). split; [done|].
    rewrite lookup_insert. case_decide as Hd.
    - subst c. exists nd'. split; [done|]. rewrite Hp. congruence.
    - by exists cd. }
  case_decide as Hd.
  - intros [= <-]. subst n. rewrite Hc. split.
    + by destruct (Hok node nd Hn).
    + by apply Hch.
  - intros Hx. split.
    + by destruct (Hok n x Hx).
    + by apply (Hch n x).
Qed.

Lemma wf_update_node t node nd nd' :
  wf t → store t !! node = Some nd →
  m_pObject nd' = m_pObject nd → m_children nd' = m_children nd →
  m_pParent nd' = m_pParent nd →
  wf (set_store (<[node := nd']> (store t)) t).
Proof.
  intros [Hinv Hok] Hn Ho Hc Hp. split.
  - by apply (tree_inv_update_node t node nd).
  - by apply (children_ok_update t node nd).
Qed.

Lemma preserves_wf_update_node node f :
  (∀ nd, m_pObject (f nd) = m_pObject nd ∧
         m_children (f nd) = m_children nd ∧
         m_pParent (f nd) = m_pParent nd) →
  preserves wf (update_node node f).
Proof.
  intros Hf t Hwf. unfold update_node, node_at. monad_unfold.
  destruct (store t !! node) as [nd|] eqn:Hn; [|done].
  destruct (Hf nd) as (? & ? & ?). by apply (wf_update_node t node nd).
Qed.

Lemma preserves_wf_update_object f nd : preserves wf (update_object f nd).
Proof.
  intros t Hwf. unfold update_object. monad_unfold.
  by destruct (object_update f (m_pDoc t) (m_pObject nd)).
Qed.

Lemma wf_with_child t this nd spec :
  wf t → store t !! this = Some nd → wf (with_child this spec t).
Proof.
  intros [Hinv Hok] Hn.
  pose proof (proj2 Hinv) as Hb. bounded_alt Hb.
  assert (this < next_node t)%nat as Hlt by (apply Hb; eauto).
  split.
  { (* the alias index: as for [AddNode] *)
    pose proof (preserves_AddNode this spec.1.1 spec.1.2 spec.2 t Hinv) as Hp.
    rewrite (AddNode_run t this nd) in Hp by (done || lia).
    by destruct spec as [[??]?]. }
  assert (store t !! next_node t = None) as Hfresh.
  { destruct (store t !! next_node t) eqn:E; [|done].
    assert (next_node t < next_node t)%nat by (apply Hb; eauto). lia. }
  intros n x. simpl. rewrite lookup_alter. case_decide as Hd.
  - subst n. rewrite lookup_insert_ne by lia. rewrite Hn. intros [= <-].
    destruct (Hok this nd Hn) as [Hnd Hch]. simpl. split.
    + apply NoDup_app. split_and!; [done| |apply NoDup_singleton].
      intros c Hc Hc'. apply list_elem_of_singleton in Hc'. subst c.
      destruct (Hch _ Hc) as (_ & cd & Hcd & _). congruence.
    + intros c Hc. apply elem_of_app in Hc as [Hc|Hc].
      * destruct (Hch c Hc) as (Hltc & cd & Hcd & Hpc). split; [done|].
        exists cd. split; [|done].
        rewrite lookup_alter_ne by lia.
        rewrite lookup_insert_ne; [done|]. intros <-. congruence.
      * apply list_elem_of_singleton in Hc. subst c. split; [done|].
        eexists. rewrite lookup_alter_ne by lia.
        rewrite lookup_insert_eq. done.
  - rewrite lookup_insert. case_decide as Hd'.
    + intros [= <-]. simpl. split; [constructor|].
      intros c Hc. by apply elem_of_nil in Hc.
    + intros Hx. destruct (Hok n x Hx) as [Hnd Hch]. split; [done|].
      intros c Hc. destruct (Hch c Hc) as (Hltc & cd & Hcd & Hpc).
      split; [done|]. rewrite lookup_alter. case_decide as Hd''.
      * subst c. rewrite lookup_insert_ne by lia. rewrite Hn. simpl.
        eexists. split; [done|]. simpl. congruence.
      * exists cd. split; [|done]. rewrite lookup_insert_ne; [done|].
        intros <-. congruence.
Qed.

Lemma wf_with_children specs : ∀ t this nd,
  wf t → store t !! this = Some nd →
  wf (foldl (λ t spec, with_child this spec t) t specs).
Proof.
  induction specs as [|spec specs IH]; intros t this nd Hwf Hn; [done|].
  simpl. assert (this < next_node t)%nat as Hlt.
  { destruct Hwf as [[_ Hb] _]. bounded_alt Hb. apply Hb. eauto. }
  eapply IH.
  - by eapply wf_with_child.
  - apply with_child_this; [done|lia].
Qed.

Lemma wf_populated specs t this nd :
  wf t → store t !! this = Some nd → wf (populated this specs t).
Proof.
  intros Hwf Hn. unfold populated.
  assert (this < next_node t)%nat as Hlt.
  { destruct Hwf as [[_ Hb] _]. bounded_alt Hb. apply Hb. eauto. }
  destruct (with_children_spec specs t this nd Hn Hlt)
    as (_ & _ & _ & _ & _ & Ht & _).
  rewrite (alter_alt_Some _ _ _ _ Ht).
  eapply wf_update_node; [by eapply wf_with_children|exact Ht|done..].
Qed.

Lemma preserves_wf_PopulateChildren this : preserves wf (PopulateChildren this).
Proof.
  intros t Hwf.
  destruct (store t !! this) as [nd|] eqn:Hn; cycle 1.
  { unfold PopulateChildren, node_at. monad_unfold. by rewrite Hn. }
  assert (this < next_node t)%nat as Hlt.
  { destruct Hwf as [[_ Hb] _]. bounded_alt Hb. apply Hb. eauto. }
  destruct (m_bChildrenLoaded nd) eqn:Hl.
  { unfold PopulateChildren.
    rewrite (bind_run _ _ _ _ _ (node_at_run _ _ _ Hn)), Hl. done. }
  destruct (object_at (m_pDoc t) (m_pObject nd)) as [obj|] eqn:Ho.
  - rewrite (PopulateChildren_run t this nd obj Hn Hl Hlt Ho).
    by eapply wf_populated.
  - unfold PopulateChildren.
    rewrite (bind_run _ _ _ _ _ (node_at_run _ _ _ Hn)), Hl. simpl.
    erewrite bind_run by reflexivity. erewrite bind_run by reflexivity.
    unfold object_of. monad_unfold. by rewrite Ho.
Qed.

(** Invalidation: what is left is the tree without the subtree. *)
Lemma wf_invalidated t t' this ids h :
  wf t → owns t h this ids → NoDup ids →
  InvalidateChildren h this t = Return tt t' → wf t'.
Proof.
  intros [Hinv Hok] Hown Hnd Hrun.
  destruct (InvalidateChildren_total h this ids t Hinv Hown Hnd)
    as (t'' & Hrun' & Hinv' & Hsame & Hdel).
  rewrite Hrun in Hrun'. injection Hrun' as <-.
  split; [done|].
  destruct (InvalidateChildren_invalidated _ _ _ _ Hrun) as [[_ Hshr] Hcl].
  intros n x Hx.
  destruct (decide (n = this)) as [->|Hne].
  - destruct h as [|h]; [done|]. destruct Hown as (nd & ? & Hn & _).
    rewrite (Hcl nd Hn) in Hx. injection Hx as <-. simpl.
    split; [constructor|]. intros c Hc. by apply elem_of_nil in Hc.
  - pose proof (Hshr n x Hne Hx) as Hx0.
    destruct (Hok n x Hx0) as [Hndc Hch]. split; [done|].
    intros c Hc. destruct (Hch c Hc) as (Hlt & cd & Hcd & Hpc).
    split; [done|].
    destruct (decide (c = this)) as [->|Hnec].
    { rewrite (Hcl cd Hcd). eexists. split; [done|]. done. }
    destruct (decide (c ∈ ids)) as [Hin|Hnin].
    + (* a deleted child has a deleted parent *)
      exfalso.
      destruct (owns_parent _ _ _ _ _ Hown Hin)
        as [->|(p & pd & Hp & Hpd & Hcp)]; [done|].
      destruct (Hok p pd Hpd) as [_ Hchp].
      destruct (Hchp c Hcp) as (_ & cd' & Hcd' & Hpc').
      assert (p = n) as -> by congruence.
      rewrite (Hdel n Hp Hne) in Hx. done.
    + exists cd. split; [|done]. by rewrite Hsame.
Qed.

Lemma preserves_wf_InvalidateChildren fuel this :
  preserves wf (InvalidateChildren fuel this).
Proof.
  intros t Hwf.
  destruct (store t !! this) as [nd|] eqn:Hn; cycle 1.
  { destruct fuel; [done|]. cbn [InvalidateChildren].
    unfold node_at. monad_unfold. by rewrite Hn. }
  destruct Hwf as [Hinv Hok].
  destruct (children_ok_owns t Hok (proj2 Hinv) (fuel + next_node t) this nd
              Hn) as (ids & Hown & Hnd); [lia|].
  destruct (InvalidateChildren_total _ this ids t Hinv Hown Hnd)
    as (t' & Hrun & _).
  assert (wf t') as Hwf' by (by eapply wf_invalidated).
  destruct (InvalidateChildren fuel this t) as [[] t1|e t1| | |] eqn:Hr;
    try done.
  - rewrite (InvalidateChildren_more_fuel fuel (fuel + next_node t))
      in Hrun by (lia || by rewrite Hr).
    rewrite Hr in Hrun. by injection Hrun as ->.
  - rewrite (InvalidateChildren_more_fuel fuel (fuel + next_node t))
      in Hrun by (lia || by rewrite Hr).
    by rewrite Hr in Hrun.
Qed.

Lemma preserves_wf_node_at node : preserves wf (node_at node).
Proof. apply preserves_node_at. Qed.

Lemma preserves_wf_EnsureChildrenLoaded this :
  preserves wf (EnsureChildrenLoaded this).
Proof.
  apply preserves_bind; [apply preserves_node_at|]. intros nd.
  destruct (m_bChildrenLoaded nd);
    [apply preserves_ret | apply preserves_wf_PopulateChildren].
Qed.

Lemma preserves_wf_CountChildren this : preserves wf (CountChildren this).
Proof.
  apply preserves_bind; [apply preserves_node_at|]. intros nd.
  destruct (m_bPretendEmpty nd); [apply preserves_ret|].
  apply preserves_bind; [apply preserves_wf_EnsureChildrenLoaded|]. intros _.
  apply preserves_bind; [apply preserves_node_at|]. intros ?.
  apply preserves_ret.
Qed.

Lemma preserves_wf_GetChild this n : preserves wf (GetChild this n).
Proof.
  apply preserves_bind; [apply preserves_node_at|]. intros nd.
  destruct (m_bPretendEmpty nd); [apply preserves_ret|].
  apply preserves_bind; [apply preserves_wf_EnsureChildrenLoaded|]. intros _.
  apply preserves_bind; [apply preserves_node_at|]. intros ?.
  apply preserves_ret.
Qed.

Lemma preserves_wf_CanInsertElement this row :
  preserves wf (CanInsertElement this row).
Proof.
  unfold CanInsertElement. destruct (negb (0 <? row)); [apply preserves_ret|].
  apply preserves_bind; [apply preserves_wf_CountChildren|]. intros c.
  destruct (negb (row <=? c)); [apply preserves_ret|].
  apply preserves_bind; [apply preserves_node_at|]. intros nd.
  apply preserves_bind; [apply preserves_object_of|]. intros ?.
  apply preserves_ret.
Qed.

Lemma preserves_wf_run_call tok c :
  is_public c = true → preserves wf (run_call tok c).
Proof.
  destruct c; simpl; try done; intros _.
  - apply preserves_bind; [apply preserves_wf_CountChildren|]. intros _.
    apply preserves_ret.
  - apply preserves_bind; [apply preserves_wf_GetChild|]. intros _.
    apply preserves_ret.
  - apply preserves_wf_InvalidateChildren.
  - by apply preserves_wf_update_node.
  - apply preserves_bind; [apply preserves_wf_CanInsertElement|]. intros _.
    apply preserves_ret.
  - apply preserves_bind; [apply preserves_wf_CanInsertElement|]. intros ok.
    apply preserves_bind; [apply preserves_assert|]. intros _.
    apply preserves_bind; [apply preserves_node_at|]. intros nd.
    apply preserves_wf_update_object.
  - apply preserves_bind; [|intros ok].
    { pose proof (preserves_CanInsertKey node keyName) as Hp.
      intros t Hwf. unfold CanInsertKey in *.
      destruct (negb (bool_decide (keyName ≠ KeyNull))); [done|].
      unfold node_at, object_of in *. monad_unfold.
      destruct (store t !! node) as [nd|]; [|done].
      destruct (object_at (m_pDoc t) (m_pObject nd)) as [obj|]; [|done].
      by destruct obj. }
    apply preserves_bind; [apply preserves_assert|]. intros _.
    apply preserves_bind; [apply preserves_node_at|]. intros nd.
    apply preserves_wf_update_object.
  - apply preserves_bind; [|intros ?; apply preserves_ret].
    unfold SetRawData. destruct (tok data) as [variant|code];
      [|apply preserves_throw].
    apply preserves_bind; [apply preserves_wf_InvalidateChildren|]. intros _.
    apply preserves_bind; [apply preserves_node_at|]. intros nd.
    apply preserves_bind; [apply preserves_wf_update_object|]. intros _.
    apply preserves_ret.
Qed.

Lemma wf_new_tree doc root followReferences t :
  new_PdfObjectModelTree doc root followReferences = Return tt t → wf t.
Proof.
  intros H. split; [by eapply tree_inv_new_tree|].
  rewrite new_tree_run in H. injection H as <-.
  intros n x. simpl. rewrite lookup_singleton. case_decide; [|done].
  intros [= <-]. simpl. split; [constructor|].
  intros c Hc. by apply elem_of_nil in Hc.
Qed.

Lemma wf_in_use tok t : in_use tok t → wf t.
Proof.
  induction 1 as [doc root f t Hnew | c t t' _ IH Hpub Hrun].
  - by eapply wf_new_tree.
  - pose proof (preserves_wf_run_call tok c Hpub t IH) as Hp.
    destruct (run_call tok c t); simpl in Hrun; by simplify_eq.
Qed.

(** In a well-formed tree the invalidation of a live node returns, for
    every budget from the number of addresses handed out. *)
Lemma InvalidateChildren_returns_wf t this nd fuel :
  wf t → store t !! this = Some nd → (next_node t ≤ fuel)%nat →
  ∃ t', InvalidateChildren fuel this t = Return tt t' ∧ wf t'.
Proof.
  intros Hwf Hn Hfuel. pose proof Hwf as [Hinv Hok].
  destruct (children_ok_owns t Hok (proj2 Hinv) fuel this nd Hn)
    as (ids & Hown & Hnd); [lia|].
  destruct (InvalidateChildren_total _ this ids t Hinv Hown Hnd)
    as (t' & Hrun & _).
  exists t'. split; [done|]. by eapply wf_invalidated.
Qed.

(** ** Unloaded nodes have no children *)

Lemma unloaded_empty_update t node nd nd' :
  unloaded_empty t → store t !! node = Some nd →
  (m_bChildrenLoaded nd' = false → m_children nd' = []) →
  unloaded_empty (set_store (<[node := nd']> (store t)) t).
Proof.
  intros Hu Hn Hnd' n x. simpl. rewrite lookup_insert. case_decide.
  - by intros [= <-].
  - apply Hu.
Qed.

Lemma preserves_unloaded_update_node node f :
  (∀ nd, m_pObject (f nd) = m_pObject nd ∧
         m_children (f nd) = m_children nd ∧
         m_pParent (f nd) = m_pParent nd ∧
         (m_bChildrenLoaded (f nd) = false → m_bChildrenLoaded nd = false)) →
  preserves wf_unloaded (update_node node f).
Proof.
  intros Hf t [Hwf Hu].
  pose proof (preserves_wf_update_node node f) as Hp.
  specialize (Hp (λ nd, let '(conj a (conj b (conj c _))) := Hf nd in
                        conj a (conj b c)) t Hwf).
  unfold update_node, node_at in *. monad_unfold.
  destruct (store t !! node) as [nd|] eqn:Hn; [|done].
  split; [done|]. apply (unloaded_empty_update t node nd); [done..|].
  destruct (Hf nd) as (_ & Hc & _ & Hl). intros Hl'. rewrite Hc.
  by apply (Hu node nd Hn), Hl.
Qed.

Lemma preserves_unloaded_update_object f nd :
  preserves wf_unloaded (update_object f nd).
Proof.
  intros t [Hwf Hu].
  pose proof (preserves_wf_update_object f nd t Hwf) as Hp.
  unfold update_object in *. monad_unfold.
  by destruct (object_update f (m_pDoc t) (m_pObject nd)).
Qed.

Lemma unloaded_empty_populated specs t this nd :
  wf t → unloaded_empty t → store t !! this = Some nd →
  unloaded_empty (populated this specs t).
Proof.
  intros Hwf Hu Hn.
  assert (this < next_node t)%nat as Hlt.
  { destruct Hwf as [[_ Hb] _]. bounded_alt Hb. apply Hb. eauto. }
  pose proof (populated_bounded specs t this nd Hn (proj2 (proj1 Hwf))) as Hb'.
  bounded_alt Hb'.
  destruct (populated_spec specs t this nd Hn Hlt)
    as (_ & _ & _ & Hx & Ht & Hk & Ho).
  intros n x Hx' Hl.
  destruct (decide (n = this)) as [->|Hne].
  { rewrite Ht in Hx'. injection Hx' as <-. done. }
  destruct (decide (n < next_node t)%nat) as [Hlt'|Hge].
  { rewrite Ho in Hx' by done. by apply (Hu n x). }
  assert (n < next_node t + length specs)%nat as Hlt2.
  { rewrite <- Hx. apply Hb'. eauto. }
  destruct (lookup_lt_is_Some_2 specs (n - next_node t)) as [spec Hs]; [lia|].
  specialize (Hk _ _ Hs).
  replace (next_node t + (n - next_node t))%nat with n in Hk by lia.
  rewrite Hk in Hx'. by injection Hx' as <-.
Qed.

Lemma preserves_unloaded_PopulateChildren this :
  preserves wf_unloaded (PopulateChildren this).
Proof.
  intros t [Hwf Hu].
  pose proof (preserves_wf_PopulateChildren this t Hwf) as Hp.
  destruct (store t !! this) as [nd|] eqn:Hn; cycle 1.
  { unfold PopulateChildren, node_at. monad_unfold. by rewrite Hn. }
  assert (this < next_node t)%nat as Hlt.
  { destruct Hwf as [[_ Hb] _]. bounded_alt Hb. apply Hb. eauto. }
  destruct (m_bChildrenLoaded nd) eqn:Hl.
  { unfold PopulateChildren.
    rewrite (bind_run _ _ _ _ _ (node_at_run _ _ _ Hn)), Hl. done. }
  destruct (object_at (m_pDoc t) (m_pObject nd)) as [obj|] eqn:Ho.
  - rewrite (PopulateChildren_run t this nd obj Hn Hl Hlt Ho) in *.
    split; [done|]. by eapply unloaded_empty_populated.
  - unfold PopulateChildren.
    rewrite (bind_run _ _ _ _ _ (node_at_run _ _ _ Hn)), Hl. simpl.
    erewrite bind_run by reflexivity. erewrite bind_run by reflexivity.
    unfold object_of. monad_unfold. by rewrite Ho.
Qed.

(** In a well-formed tree the invalidation does not throw. *)
Lemma InvalidateChildren_wf_outcome fuel this t :
  wf t →
  match InvalidateChildren fuel this t with
  | Return _ t' => wf t' ∧ invalidated this t t'
  | Throw _ _ => False
  | _ => True
  end.
Proof.
  intros Hwf.
  destruct (store t !! this) as [nd|] eqn:Hn; cycle 1.
  { destruct fuel; [done|]. cbn [InvalidateChildren].
    unfold node_at. monad_unfold. by rewrite Hn. }
  destruct (InvalidateChildren_returns_wf t this nd (fuel + next_node t) Hwf
              Hn) as (t' & Hrun & Hwf'); [lia|].
  destruct (InvalidateChildren fuel this t) as [[] t1|e t1| | |] eqn:Hr;
    try done.
  - rewrite (InvalidateChildren_more_fuel fuel (fuel + next_node t))
      in Hrun by (lia || by rewrite Hr).
    rewrite Hr in Hrun. injection Hrun as ->. split; [done|].
    by apply (InvalidateChildren_invalidated fuel).
  - rewrite (InvalidateChildren_more_fuel fuel (fuel + next_node t))
      in Hrun by (lia || by rewrite Hr).
    by rewrite Hr in Hrun.
Qed.

Lemma preserves_unloaded_InvalidateChildren fuel this :
  preserves wf_unloaded (InvalidateChildren fuel this).
Proof.
  intros t [Hwf Hu].
  destruct (store t !! this) as [nd|] eqn:Hn; cycle 1.
  { destruct fuel; [done|]. cbn [InvalidateChildren].
    unfold node_at. monad_unfold. by rewrite Hn. }
  pose proof (InvalidateChildren_wf_outcome fuel this t Hwf) as Hp.
  destruct (InvalidateChildren fuel this t) as [[] t1|e t1| | |]; try done.
  destruct Hp as [Hwf1 [[_ Hshr] Hcl]]. split; [done|].
  intros n x Hx Hl.
  destruct (decide (n = this)) as [->|Hne].
  - rewrite (Hcl nd Hn) in Hx. by injection Hx as <-.
  - by apply (Hu n x (Hshr n x Hne Hx)).
Qed.

Lemma preserves_unloaded_EnsureChildrenLoaded this :
  preserves wf_unloaded (EnsureChildrenLoaded this).
Proof.
  apply preserves_bind; [apply preserves_node_at|]. intros nd.
  destruct (m_bChildrenLoaded nd);
    [apply preserves_ret | apply preserves_unloaded_PopulateChildren].
Qed.

Lemma preserves_unloaded_CountChildren this :
  preserves wf_unloaded (CountChildren this).
Proof.
  apply preserves_bind; [apply preserves_node_at|]. intros nd.
  destruct (m_bPretendEmpty nd); [apply preserves_ret|].
  apply preserves_bind; [apply preserves_unloaded_EnsureChildrenLoaded|].
  intros _.
  apply preserves_bind; [apply preserves_node_at|]. intros ?.
  apply preserves_ret.
Qed.

Lemma preserves_unloaded_GetChild this n :
  preserves wf_unloaded (GetChild this n).
Proof.
  apply preserves_bind; [apply preserves_node_at|]. intros nd.
  destruct (m_bPretendEmpty nd); [apply preserves_ret|].
  apply preserves_bind; [apply preserves_unloaded_EnsureChildrenLoaded|].
  intros _.
  apply preserves_bind; [apply preserves_node_at|]. intros ?.
  apply preserves_ret.
Qed.

Lemma preserves_unloaded_CanInsertElement this row :
  preserves wf_unloaded (CanInsertElement this row).
Proof.
  unfold CanInsertElement. destruct (negb (0 <? row)); [apply preserves_ret|].
  apply preserves_bind; [apply preserves_unloaded_CountChildren|]. intros c.
  destruct (negb (row <=? c)); [apply preserves_ret|].
  apply preserves_bind; [apply preserves_node_at|]. intros nd.
  apply preserves_bind; [apply preserves_object_of|]. intros ?.
  apply preserves_ret.
Qed.

Lemma preserves_unloaded_CanInsertKey this keyName :
  preserves wf_unloaded (CanInsertKey this keyName).
Proof.
  intros t Hwf. unfold CanInsertKey.
  destruct (negb (bool_decide (keyName ≠ KeyNull))); [done|].
  unfold node_at, object_of. monad_unfold.
  destruct (store t !! this) as [nd|]; [|done].
  destruct (object_at (m_pDoc t) (m_pObject nd)) as [obj|]; [|done].
  by destruct obj.
Qed.

Lemma preserves_unloaded_run_call tok c :
  is_public c = true → preserves wf_unloaded (run_call tok c).
Proof.
  destruct c; simpl; try done; intros _.
  - apply preserves_bind; [apply preserves_unloaded_CountChildren|].
    intros _. apply preserves_ret.
  - apply preserves_bind; [apply preserves_unloaded_GetChild|]. intros _.
    apply preserves_ret.
  - apply preserves_unloaded_InvalidateChildren.
  - by apply preserves_unloaded_update_node.
  - apply preserves_bind; [apply preserves_unloaded_CanInsertElement|].
    intros _. apply preserves_ret.
  - apply preserves_bind; [apply preserves_unloaded_CanInsertElement|].
    intros ok.
    apply preserves_bind; [apply preserves_assert|]. intros _.
    apply preserves_bind; [apply preserves_node_at|]. intros nd.
    apply preserves_unloaded_update_object.
  - apply preserves_bind; [apply preserves_unloaded_CanInsertKey|].
    intros ok.
    apply preserves_bind; [apply preserves_assert|]. intros _.
    apply preserves_bind; [apply preserves_node_at|]. intros nd.
    apply preserves_unloaded_update_object.
  - apply preserves_bind; [|intros ?; apply preserves_ret].
    unfold SetRawData. destruct (tok data) as [variant|code];
      [|apply preserves_throw].
    apply preserves_bind; [apply preserves_unloaded_InvalidateChildren|].
    intros _.
    apply preserves_bind; [apply preserves_node_at|]. intros nd.
    apply preserves_bind; [apply preserves_unloaded_update_object|].
    intros _. apply preserves_ret.
Qed.

Lemma unloaded_empty_in_use tok t : in_use tok t → wf_unloaded t.
Proof.
  induction 1 as [doc root f t Hnew | c t t' _ IH Hpub Hrun].
  - split; [by eapply wf_new_tree|].
    rewrite new_tree_run in Hnew. injection Hnew as <-.
    intros n x. simpl. rewrite lookup_singleton. case_decide; [|done].
    by intros [= <-].
  - pose proof (preserves_unloaded_run_call tok c Hpub t IH) as Hp.
    destruct (run_call tok c t); simpl in Hrun; by simplify_eq.
Qed.

(** What holds of a tree that is in use. *)
Lemma in_use_facts tok t :
  in_use tok t → wf t ∧ store_bounded t ∧ unloaded_empty t.
Proof.
  intros H. apply unloaded_empty_in_use in H as [Hwf Hu].
  split_and!; [done| |done]. apply Hwf.
Qed.

(** ** Children of a reference node *)

Lemma reference_node_population_bounded t this nd r :
  store_bounded t →
  store t !! this = Some nd →
  m_bChildrenLoaded nd = false →
  m_children nd = [] →
  m_bFollowReferences t = true →
  object_at (m_pDoc t) (m_pObject nd) = Some (Reference r) →
  ∃ t' nd',
    PopulateChildren this t = Return tt t' ∧
    store t' !! this = Some nd' ∧
    m_bChildrenLoaded nd' = true ∧
    match PdfVecObjects_GetObject (GetObjects (m_pDoc t)) r with
    | Some referee =>
        ∃ child,
          m_children nd' = [child] ∧
          store t !! child = None ∧
          store t' !! child =
            Some (mkNode false false referee PT_Referenced (Some this)
                    KeyNull []) ∧
          (m_bPretendEmpty nd = false → CountChildren this t = Return 1 t')
    | None =>
        m_children nd' = [] ∧
        (m_bPretendEmpty nd = false → CountChildren this t = Return 0 t')
    end.
Proof.
  intros Hb Hn Hl Hc Hf Ho. bounded_alt Hb.
  assert (this < next_node t)%nat as Hlt by (apply Hb; eauto).
  pose proof (PopulateChildren_run t this nd _ Hn Hl Hlt Ho) as Hrun.
  pose proof (λ Hp, CountChildren_unloaded t this nd _ Hn Hp Hl Hc Hlt Ho)
    as Hcount.
  simpl in Hrun, Hcount. rewrite Hf in Hrun, Hcount.
  set (specs := match PdfVecObjects_GetObject (GetObjects (m_pDoc t)) r with
                | Some referee => [(referee, PT_Referenced, KeyNull)]
                | None => []
                end) in *.
  destruct (populated_spec specs t this nd Hn Hlt)
    as (_ & _ & _ & _ & Ht & Hk & _).
  eexists _, _. split_and!; [exact Hrun | exact Ht | done |].
  subst specs. destruct (PdfVecObjects_GetObject (GetObjects (m_pDoc t)) r)
    as [referee|]; simpl in *.
  - exists (next_node t). rewrite Hc. split_and!; [done| | |done].
    + destruct (store t !! next_node t) eqn:E; [|done].
      assert (next_node t < next_node t)%nat by (apply Hb; eauto). lia.
    + specialize (Hk O _ eq_refl). by rewrite Nat.add_0_r in Hk.
  - by rewrite Hc.
Qed.

(** A node that wraps a reference and has not loaded its children, in
    a tree that follows references, is populated with exactly one child
    of kind [PT_Referenced] for the object the reference resolves to,
    and with no child at all when it resolves to nothing; either way
    population returns normally. *)
Lemma PopulateChildren_reference tok t this nd r :
  in_use tok t →
  store t !! this = Some nd →
  m_bChildrenLoaded nd = false →
  m_bFollowReferences t = true →
  object_at (m_pDoc t) (m_pObject nd) = Some (Reference r) →
  ∃ t' nd',
    PopulateChildren this t = Return tt t' ∧
    store t' !! this = Some nd' ∧
    m_bChildrenLoaded nd' = true ∧
    match PdfVecObjects_GetObject (GetObjects (m_pDoc t)) r with
    | Some referee =>
        ∃ child,
          m_children nd' = [child] ∧
          store t !! child = None ∧
          store t' !! child =
            Some (mkNode false false referee PT_Referenced (Some this)
                    KeyNull []) ∧
          (m_bPretendEmpty nd = false → CountChildren this t = Return 1 t')
    | None =>
        m_children nd' = [] ∧
        (m_bPretendEmpty nd = false → CountChildren this t = Return 0 t')
    end.
Proof.
  intros Huse Hn Hl Hf Ho.
  destruct (in_use_facts tok t Huse) as (_ & Hb & Hu).
  apply reference_node_population_bounded; try done.
  by apply (Hu this nd).
Qed.

(** ** Population is repeatable *)

(** A first query of the children, whatever it finds cached. *)
Lemma CountChildren_in_sync t this nd obj :
  store_bounded t →
  store t !! this = Some nd →
  m_bPretendEmpty nd = false →
  object_at (m_pDoc t) (m_pObject nd) = Some obj →
  let specs := expected_children (m_bFollowReferences t) (m_pDoc t)
                 (m_pObject nd) obj in
  (if m_bChildrenLoaded nd
   then child_views t this = Some (Some <$> specs)
   else m_children nd = []) →
  ∃ t1 nd1,
    CountChildren this t = Return (int_of_size (length specs)) t1 ∧
    child_views t1 this = Some (Some <$> specs) ∧
    m_pDoc t1 = m_pDoc t ∧
    m_bFollowReferences t1 = m_bFollowReferences t ∧
    store_bounded t1 ∧
    store t1 !! this = Some nd1 ∧
    m_pObject nd1 = m_pObject nd ∧
    m_bPretendEmpty nd1 = false.
Proof.
  intros Hb Hn Hp Ho specs Hsync.
  assert (this < next_node t)%nat as Hlt.
  { bounded_alt Hb. apply Hb. eauto. }
  destruct (m_bChildrenLoaded nd) eqn:Hl.
  - exists t, nd. split_and!; try done.
    rewrite (CountChildren_loaded _ _ _ Hn Hp Hl). f_equal. f_equal.
    unfold child_views in Hsync. rewrite Hn in Hsync.
    injection Hsync as Hsync.
    apply (f_equal length) in Hsync. by rewrite !length_fmap in Hsync.
  - destruct (populated_spec specs t this nd Hn Hlt)
      as (Hd & Hf & Hr & Hx & Ht & _).
    eexists (populated this specs t), _. split_and!.
    + by apply CountChildren_unloaded.
    + by apply (populated_child_views specs t this nd).
    + done.
    + done.
    + by apply (populated_bounded specs t this nd).
    + exact Ht.
    + done.
    + done.
Qed.

Lemma requery_after_invalidate t this nd obj :
  store_bounded t →
  store t !! this = Some nd →
  m_bPretendEmpty nd = false →
  object_at (m_pDoc t) (m_pObject nd) = Some obj →
  (if m_bChildrenLoaded nd
   then child_views t this =
          Some (Some <$> expected_children (m_bFollowReferences t) (m_pDoc t)
                           (m_pObject nd) obj)
   else m_children nd = []) →
  ∃ c t1,
    CountChildren this t = Return c t1 ∧
    ∀ fuel t2,
      InvalidateChildren fuel this t1 = Return tt t2 →
      ∃ t3,
        CountChildren this t2 = Return c t3 ∧
        child_views t3 this = child_views t1 this.
Proof.
  intros Hb Hn Hp Ho Hsync.
  destruct (CountChildren_in_sync t this nd obj Hb Hn Hp Ho Hsync)
    as (t1 & nd1 & Hrun & Hv & Hd & Hf & Hb1 & Hn1 & Ho1 & Hp1).
  eexists _, t1. split; [exact Hrun|].
  intros fuel t2 Hinv.
  destruct (InvalidateChildren_invalidated _ _ _ _ Hinv)
    as [[(Hd2 & Hf2 & _ & Hx2) _] Hcl].
  specialize (Hcl nd1 Hn1).
  assert (this < next_node t2)%nat as Hlt2.
  { rewrite Hx2. bounded_alt Hb1. apply Hb1. eauto. }
  assert (object_at (m_pDoc t2)
            (m_pObject (set_loaded false (set_children [] nd1))) = Some obj)
    as Ho2 by (simpl; by rewrite Hd2, Hd, Ho1).
  eexists. split.
  - rewrite (CountChildren_unloaded t2 this _ obj Hcl Hp1 eq_refl eq_refl
               Hlt2 Ho2).
    change (m_pObject (set_loaded false (set_children [] nd1)))
      with (m_pObject nd1).
    by rewrite Hd2, Hf2, Hd, Hf, Ho1.
  - rewrite Hv.
    by rewrite (populated_child_views _ t2 this _ Hcl Hlt2 eq_refl).
Qed.

(** The invalidation gives the same state for every budget it returns
    with. *)
Lemma InvalidateChildren_fuel_irrelevant fuel fuel' this t t1 t2 :
  InvalidateChildren fuel this t = Return tt t1 →
  InvalidateChildren fuel' this t = Return tt t2 →
  t1 = t2.
Proof.
  intros H1 H2. destruct (Nat.le_ge_cases fuel fuel') as [Hle|Hle].
  - rewrite (InvalidateChildren_more_fuel fuel fuel' this t Hle) in H2
      by (by rewrite H1).
    congruence.
  - rewrite (InvalidateChildren_more_fuel fuel' fuel this t Hle) in H1
      by (by rewrite H2).
    congruence.
Qed.

Lemma requery_total t this nd obj :
  wf t →
  store t !! this = Some nd →
  m_bPretendEmpty nd = false →
  object_at (m_pDoc t) (m_pObject nd) = Some obj →
  (if m_bChildrenLoaded nd
   then child_views t this =
          Some (Some <$> expected_children (m_bFollowReferences t) (m_pDoc t)
                           (m_pObject nd) obj)
   else m_children nd = []) →
  ∃ c t1 t2 t3,
    CountChildren this t = Return c t1 ∧
    InvalidateChildren (next_node t1) this t1 = Return tt t2 ∧
    CountChildren this t2 = Return c t3 ∧
    child_views t3 this = child_views t1 this.
Proof.
  intros Hwf Hn Hp Ho Hsync.
  destruct (CountChildren_in_sync t this nd obj (proj2 (proj1 Hwf)) Hn Hp Ho
              Hsync)
    as (t1 & nd1 & Hrun & Hv & Hd & Hf & Hb1 & Hn1 & Ho1 & Hp1).
  assert (wf t1) as Hwf1.
  { pose proof (preserves_wf_CountChildren this t Hwf) as Hpres.
    by rewrite Hrun in Hpres. }
  destruct (InvalidateChildren_returns_wf t1 this nd1 (next_node t1) Hwf1 Hn1)
    as (t2 & Hrun2 & _); [done|].
  destruct (requery_after_invalidate t this nd obj (proj2 (proj1 Hwf)) Hn Hp
              Ho Hsync) as (c & t1' & Hrun' & Hre).
  rewrite Hrun in Hrun'. injection Hrun' as <- <-.
  destruct (Hre _ t2 Hrun2) as (t3 & Hrun3 & Hv3).
  by eexists _, t1, t2, t3.
Qed.

(** Claim C9. For a node on a dictionary or an array, in a tree as the
    public calls leave it: invalidating the children and asking again
    gives the same count and the same children in the same order (same
    objects, kinds and keys), as long as the child list that was cached
    came from the object as it is. Every call involved returns. *)
Theorem invalidate_then_requery tok t this nd obj :
  in_use tok t →
  IsDictionary obj = true ∨ IsArray obj = true →
  store t !! this = Some nd →
  m_bPretendEmpty nd = false →
  object_at (m_pDoc t) (m_pObject nd) = Some obj →
  (m_bChildrenLoaded nd = true →
   child_views t this =
     Some (Some <$> expected_children (m_bFollowReferences t) (m_pDoc t)
                      (m_pObject nd) obj)) →
  ∃ c t1 t2 t3,
    CountChildren this t = Return c t1 ∧
    InvalidateChildren (next_node t1) this t1 = Return tt t2 ∧
    (∀ fuel t2', InvalidateChildren fuel this t1 = Return tt t2' → t2' = t2) ∧
    CountChildren this t2 = Return c t3 ∧
    child_views t3 this = child_views t1 this.
Proof.
  intros Huse _ Hn Hp Ho Hsync.
  destruct (in_use_facts tok t Huse) as (Hwf & _ & Hu).
  destruct (requery_total t this nd obj Hwf Hn Hp Ho)
    as (c & t1 & t2 & t3 & H1 & H2 & H3 & H4).
  { destruct (m_bChildrenLoaded nd) eqn:Hl; [by apply Hsync|].
    by apply (Hu this nd). }
  exists c, t1, t2, t3. split_and!; [done|done| |done|done].
  intros fuel t2' H2'.
  by apply (InvalidateChildren_fuel_irrelevant _ _ _ _ _ _ H2' H2).
Qed.

(** The root of the expanded sample tree: five children, before and
    after. *)
Lemma invalidate_then_requery_witness :
  ∃ t2 t3,
    CountChildren 1%nat sample_tree_expanded = Return 5 sample_tree_expanded ∧
    InvalidateChildren 7 1%nat sample_tree_expanded = Return tt t2 ∧
    CountChildren 1%nat t2 = Return 5 t3 ∧
    child_views t3 1%nat = child_views sample_tree_expanded 1%nat.
Proof.
  destruct (invalidate_then_requery sample_tokenizer sample_tree_expanded
              1%nat
              (mkNode false true ptr_catalog PT_Root None KeyNull
                 [2; 3; 4; 5; 6]%nat)
              sample_catalog)
    as (c & t1 & t2 & t3 & H1 & H2 & _ & H3 & H4).
  - apply (in_use_call sample_tokenizer (call_CountChildren 1%nat)
             sample_tree).
    + by apply (in_use_new sample_tokenizer sample_doc ptr_catalog true).
    + reflexivity.
    + by vm_compute.
  - by left.
  - reflexivity.
  - reflexivity.
  - reflexivity.
  - intros _. by vm_compute.
  - assert (c = 5 ∧ t1 = sample_tree_expanded) as [-> ->].
    { vm_compute in H1. by injection H1 as <- <-. }
    exists t2, t3.
    split_and!; [by vm_compute | exact H2 | exact H3 | exact H4].
Defined.

(** ** What [SetRawData] returns *)

(** Claim C7, as the code has it. When the bytes parse, [SetRawData]
    never returns [false]: in a tree as the public calls leave it, on a
    node whose object exists, it invalidates the children, writes the
    parsed value over the object and returns [true], whether or not the
    value differs from the one before. *)
Theorem SetRawData_returns_true tok t this nd old data variant :
  in_use tok t →
  store t !! this = Some nd →
  object_at (m_pDoc t) (m_pObject nd) = Some old →
  tok data = inl variant →
  (∀ fuel b t', SetRawData tok fuel this data t = Return b t' → b = true) ∧
  ∃ t',
    SetRawData tok (next_node t) this data t = Return true t' ∧
    object_at (m_pDoc t') (m_pObject nd) = Some variant.
Proof.
  intros Huse Hn Ho Htok. apply wf_in_use in Huse.
  unfold SetRawData. rewrite Htok. split.
  - intros fuel b t' H.
    apply bind_Return in H as (? & ? & _ & H).
    apply bind_Return in H as (? & ? & _ & H).
    apply bind_Return in H as (? & ? & _ & H).
    by injection H as <- _.
  - destruct (InvalidateChildren_returns_wf t this nd (next_node t) Huse Hn)
      as (t1 & Hinv & _); [done|].
    destruct (InvalidateChildren_invalidated _ _ _ _ Hinv)
      as [[(Hd & _) _] Hcl].
    specialize (Hcl nd Hn).
    rewrite (bind_run _ _ _ _ _ Hinv).
    rewrite (bind_run _ _ _ _ _ (node_at_run _ _ _ Hcl)).
    destruct (update_object_run (λ _, Some variant) t1
                (set_loaded false (set_children [] nd)) old variant)
      as (doc' & Hu & Hat); [simpl; by rewrite Hd | done |].
    exists (set_doc doc' t1). split; [|exact Hat].
    by rewrite (bind_run _ _ _ _ _ Hu).
Qed.

(** Node 7 of the sample tree wraps the shared object, which is null.
    Writing [null] over it changes nothing, and [SetRawData] returns
    [true]. *)
Lemma SetRawData_unchanged_value_counterexample :
  object_at (m_pDoc sample_tree_aliased) ptr_shared = Some Null ∧
  sample_tokenizer (bytes "null") = inl Null ∧
  ∃ t',
    SetRawData sample_tokenizer 10 7%nat (bytes "null") sample_tree_aliased =
      Return true t' ∧
    object_at (m_pDoc t') ptr_shared = Some Null.
Proof.
  split; [reflexivity|]. split; [reflexivity|].
  eexists. split; by vm_compute.
Qed.

Lemma SetRawData_returns_true_witness :
  ∃ t',
    SetRawData sample_tokenizer 7 1%nat (bytes "/Foo") sample_tree_expanded =
      Return true t' ∧
    object_at (m_pDoc t') ptr_catalog = Some (Name "Foo").
Proof.
  destruct (SetRawData_returns_true sample_tokenizer sample_tree_expanded
              1%nat
              (mkNode false true ptr_catalog PT_Root None KeyNull
                 [2; 3; 4; 5; 6]%nat)
              sample_catalog (bytes "/Foo") (Name "Foo"))
    as [_ (t' & Hrun & Hat)].
  - apply (in_use_call sample_tokenizer (call_CountChildren 1%nat)
             sample_tree).
    + by apply (in_use_new sample_tokenizer sample_doc ptr_catalog true).
    + reflexivity.
    + by vm_compute.
  - reflexivity.
  - reflexivity.
  - reflexivity.
  - exists t'. split; [exact Hrun | exact Hat].
Defined.

(** ** Inserting an array element *)

Lemma int_of_size_small n : Z.of_nat n < 2 ^ 31 → int_of_size n = Z.of_nat n.
Proof.
  intros H. unfold int_of_size.
  rewrite Z.mod_small by lia.
  destruct (Z.ltb_spec (Z.of_nat n) (2 ^ 31)); [done|lia].
Qed.

Lemma vector_insert_spec {A} (a : list A) (row : nat) (x : A) :
  (row ≤ length a)%nat →
  length (vector_insert a row x) = S (length a) ∧
  vector_insert a row x !! row = Some x ∧
  (∀ i, (i < row)%nat → vector_insert a row x !! i = a !! i) ∧
  (∀ i, (row ≤ i)%nat → vector_insert a row x !! S i = a !! i).
Proof.
  intros Hle. unfold vector_insert.
  assert (length (take row a) = row) as Hlen by (rewrite length_take; lia).
  split_and!.
  - rewrite length_app, length_cons, length_take, length_drop. lia.
  - rewrite lookup_app_r by lia. by rewrite Hlen, Nat.sub_diag.
  - intros i Hi. rewrite lookup_app_l by lia. by apply lookup_take_lt.
  - intros i Hi. rewrite lookup_app_r by lia. rewrite Hlen.
    replace (S i - row)%nat with (S (i - row)) by lia. simpl.
    rewrite lookup_drop. f_equal. lia.
Qed.

(** [CountChildren] returns for every live node whose object the
    document has, and leaves the document and the object of the node
    alone. *)
Lemma CountChildren_returns t this nd obj :
  store_bounded t → unloaded_empty t →
  store t !! this = Some nd →
  object_at (m_pDoc t) (m_pObject nd) = Some obj →
  ∃ c t1 nd1,
    CountChildren this t = Return c t1 ∧
    m_pDoc t1 = m_pDoc t ∧
    store t1 !! this = Some nd1 ∧ m_pObject nd1 = m_pObject nd ∧
    (m_bPretendEmpty nd = true → c = 0) ∧
    (m_bPretendEmpty nd = false → m_bChildrenLoaded nd = true →
     c = int_of_size (length (m_children nd))) ∧
    (m_bPretendEmpty nd = false → m_bChildrenLoaded nd = false →
     c = int_of_size
           (length (expected_children (m_bFollowReferences t) (m_pDoc t)
                      (m_pObject nd) obj))).
Proof.
  intros Hb Hu Hn Ho.
  assert (this < next_node t)%nat as Hlt.
  { bounded_alt Hb. apply Hb. eauto. }
  destruct (m_bPretendEmpty nd) eqn:Hp.
  { exists 0, t, nd. split_and!; try done.
    by apply (CountChildren_pretend t this nd). }
  destruct (m_bChildrenLoaded nd) eqn:Hl.
  { exists (int_of_size (length (m_children nd))), t, nd.
    split_and!; try done. by apply (CountChildren_loaded t this nd). }
  pose proof (CountChildren_unloaded t this nd obj Hn Hp Hl
                (Hu this nd Hn Hl) Hlt Ho) as Hrun.
  set (specs := expected_children _ _ _ _) in *.
  destruct (populated_spec specs t this nd Hn Hlt)
    as (Hd & _ & _ & _ & Ht & _).
  eexists _, _, _. split_and!; [exact Hrun|exact Hd|exact Ht|done..].
Qed.

(** [CanInsertElement] after the count of the children. *)
Lemma CanInsertElement_run t this obj row c t1 nd1 :
  CountChildren this t = Return c t1 →
  store t1 !! this = Some nd1 →
  object_at (m_pDoc t1) (m_pObject nd1) = Some obj →
  CanInsertElement this row t =
    Return (bool_decide (0 < row ≤ c) && IsArray obj)
      (if 0 <? row then t1 else t).
Proof.
  intros Hc Hn1 Ho1. unfold CanInsertElement.
  destruct (Z.ltb_spec 0 row) as [Hpos|Hneg]; simpl.
  - rewrite (bind_run _ _ _ _ _ Hc).
    destruct (Z.leb_spec row c) as [Hle|Hgt]; simpl.
    + rewrite (bind_run _ _ _ _ _ (node_at_run _ _ _ Hn1)).
      rewrite (bind_run _ _ _ _ _ (object_of_run _ _ _ Ho1)).
      by rewrite bool_decide_eq_true_2 by lia.
    + by rewrite bool_decide_eq_false_2 by lia.
  - by rewrite bool_decide_eq_false_2 by lia.
Qed.

(** Claim C5, as the code has it. For every live node of a tree as the
    public calls leave it, [CanInsertElement(row)] holds exactly when
    [0 < row ≤ CountChildren()] and the object is an array; it never
    holds for a node on something else. [CountChildren()] is 0 while
    the node pretends to be empty, the length of the cached child list
    when the children are loaded, and the length [n] of the array when
    this call loads them, each converted to [int]. For a row with
    [0 < row ≤ n] for which [CanInsertElement(row)] holds,
    [InsertElement(row)] puts a null element at index [row]: the array
    grows by one, what was before [row] stays, what was at or after
    [row] moves up by one. *)
Theorem CanInsertElement_InsertElement tok t this nd obj :
  in_use tok t →
  store t !! this = Some nd →
  object_at (m_pDoc t) (m_pObject nd) = Some obj →
  (∃ c t1,
     CountChildren this t = Return c t1 ∧
     (∀ row,
        CanInsertElement this row t =
          Return (bool_decide (0 < row ≤ c) && IsArray obj)
            (if 0 <? row then t1 else t)) ∧
     (m_bPretendEmpty nd = true → c = 0) ∧
     (m_bPretendEmpty nd = false → m_bChildrenLoaded nd = true →
      c = int_of_size (length (m_children nd))) ∧
     (∀ a, m_bPretendEmpty nd = false → m_bChildrenLoaded nd = false →
           obj = Array a → c = int_of_size (length a))) ∧
  (IsArray obj = false →
   ∀ row t', CanInsertElement this row t ≠ Return true t') ∧
  (∀ a row t1,
     obj = Array a →
     0 < row ≤ Z.of_nat (length a) →
     CanInsertElement this row t = Return true t1 →
     ∃ t2 a',
       InsertElement this row t = Return tt t2 ∧
       object_at (m_pDoc t2) (m_pObject nd) = Some (Array a') ∧
       length a' = S (length a) ∧
       a' !! Z.to_nat row = Some Null ∧
       (∀ i, (i < Z.to_nat row)%nat → a' !! i = a !! i) ∧
       (∀ i, (Z.to_nat row ≤ i)%nat → a' !! S i = a !! i)).
Proof.
  intros Huse Hn Ho. destruct (in_use_facts tok t Huse) as (_ & Hb & Hu).
  destruct (CountChildren_returns t this nd obj Hb Hu Hn Ho)
    as (c & t1 & nd1 & Hc & Hd & Hn1 & Ho1 & Hpretend & Hloaded & Hfresh).
  assert (object_at (m_pDoc t1) (m_pObject nd1) = Some obj) as Hat1
    by (by rewrite Hd, Ho1).
  pose proof (λ row, CanInsertElement_run t this obj row c t1 nd1 Hc Hn1 Hat1)
    as Hcan.
  split_and!.
  - exists c, t1. split_and!; [done..|].
    intros a Hp Hl ->. rewrite (Hfresh Hp Hl). simpl.
    by rewrite length_fmap, length_seq.
  - intros Hna row t' H. rewrite Hcan, Hna, andb_false_r in H. done.
  - intros a row t1' -> Hrow H. pose proof H as Hrun. rewrite Hcan in H.
    destruct (Z.ltb_spec 0 row) as [_|?]; [|lia].
    injection H as _ <-. cbv iota in Hrun.
    destruct (vector_insert_spec a (Z.to_nat row) Null)
      as (Hlen & Hnull & Hbefore & Hafter); [lia|].
    destruct (update_object_run (array_insert_null row) t1 nd1 (Array a)
                (Array (vector_insert a (Z.to_nat row) Null)))
      as (doc' & Hu' & Hat'); [done| |].
    { simpl. destruct (Z.leb_spec 0 row); [|lia].
      destruct (Z.leb_spec row (Z.of_nat (length a))); [done|lia]. }
    exists (set_doc doc' t1), (vector_insert a (Z.to_nat row) Null).
    split_and!; try done.
    + unfold InsertElement. rewrite (bind_run _ _ _ _ _ Hrun).
      erewrite bind_run by reflexivity.
      by rewrite (bind_run _ _ _ _ _ (node_at_run _ _ _ Hn1)).
    + simpl. by rewrite <- Ho1.
Qed.

(** Node 5 of the sample tree wraps the array under key Kids, of three
    elements. While it pretends to be empty, [CanInsertElement(1)] is
    false. And after [InsertElement(3)] the array has four elements, but
    the node still has the three children it cached:
    [CanInsertElement(4)] is false. *)
Lemma CanInsertElement_counterexample :
  (∃ t,
     SetPretendEmpty 5%nat true sample_tree_expanded = Return tt t ∧
     GetObject 5%nat t = Return ptr_kids t ∧
     object_at (m_pDoc t) ptr_kids =
       Some (Array [Number 10; Number 20; Number 30]) ∧
     0 < 1 ≤ Z.of_nat (length [Number 10; Number 20; Number 30]) ∧
     CanInsertElement 5%nat 1 t = Return false t) ∧
  (∃ t,
     InsertElement 5%nat 3 sample_tree_expanded = Return tt t ∧
     GetObject 5%nat t = Return ptr_kids t ∧
     object_at (m_pDoc t) ptr_kids =
       Some (Array [Number 10; Number 20; Number 30; Null]) ∧
     0 < 4 ≤ Z.of_nat (length [Number 10; Number 20; Number 30; Null]) ∧
     CanInsertElement 5%nat 4 t = Return false t).
Proof.
  split.
  - eexists. split; [by vm_compute|].
    split; [by vm_compute|]. split; [by vm_compute|].
    split; [by vm_compute|]. by vm_compute.
  - eexists. split; [by vm_compute|].
    split; [by vm_compute|]. split; [by vm_compute|].
    split; [by vm_compute|]. by vm_compute.
Qed.

(** On the sample tree: node 5 has not loaded its children, its array
    has three elements, and a null element is inserted at index 2.
    While the node pretends to be empty no row is accepted. *)
Lemma CanInsertElement_InsertElement_witness :
  (∃ t1, CountChildren 5%nat sample_tree_expanded = Return 3 t1 ∧
         CanInsertElement 5%nat 2 sample_tree_expanded = Return true t1 ∧
         CanInsertElement 5%nat 4 sample_tree_expanded = Return false t1 ∧
         CanInsertElement 5%nat 0 sample_tree_expanded =
           Return false sample_tree_expanded) ∧
  ∃ t2 a',
    InsertElement 5%nat 2 sample_tree_expanded = Return tt t2 ∧
    object_at (m_pDoc t2) ptr_kids = Some (Array a') ∧
    length a' = 4%nat ∧
    a' !! 2%nat = Some Null.
Proof.
  destruct (CanInsertElement_InsertElement sample_tokenizer
              sample_tree_expanded 5%nat
              (mkNode false false ptr_kids PT_Contained (Some 1%nat)
                 "Kids"%string [])
              (Array [Number 10; Number 20; Number 30]))
    as ((c & t1 & Hc & Hcan & _ & _ & Hfresh) & _ & Hins).
  - apply (in_use_call sample_tokenizer (call_CountChildren 1%nat)
             sample_tree).
    + by apply (in_use_new sample_tokenizer sample_doc ptr_catalog true).
    + reflexivity.
    + by vm_compute.
  - reflexivity.
  - reflexivity.
  - pose proof (Hfresh [Number 10; Number 20; Number 30] eq_refl eq_refl
                  eq_refl) as Hc3.
    change (int_of_size (length [Number 10; Number 20; Number 30]))
      with 3 in Hc3.
    rewrite Hc3 in Hc, Hcan. split.
    + exists t1. split_and!; [exact Hc|exact (Hcan 2)|exact (Hcan 4)|
                              exact (Hcan 0)].
    + destruct (Hins [Number 10; Number 20; Number 30] 2 t1 eq_refl)
        as (t2 & a' & Hrun & Hat & Hlen & Hnull & _).
      * split; [done|]. by vm_compute.
      * exact (Hcan 2).
      * exists t2, a'.
        split_and!; [exact Hrun | exact Hat | exact Hlen | exact Hnull].
Defined.

(** ** An edit through one of two aliases *)

(** Claim C3, at an input where the code breaks it. Nodes 7 and 8 of the
    sample tree wrap the same null object, and both have been asked for
    their children (none). Replacing the object by an array of two
    elements through node 7 runs the whole protocol and returns [true];
    afterwards node 7 reports two children and node 8 still reports none.
    [PrepareForSubtreeChange] returns before its loop over the aliases
    because the edited node has no children, and [SetRawData] invalidates
    the edited node only. The next edit through node 7 then fails the
    assertion of [PrepareForSubtreeChange] that all aliases have the same
    number of children. *)
Theorem alias_edit_leaves_stale_view :
  GetObject 7%nat sample_tree_aliased = Return ptr_shared sample_tree_aliased ∧
  GetObject 8%nat sample_tree_aliased = Return ptr_shared sample_tree_aliased ∧
  ∃ m',
    setData sample_tokenizer 10 (value_cell 7%nat)
      (Some (bytes "[null null]")) sample_model = Return true m' ∧
    rowCount (label_cell 7%nat) m' = Return 2 m' ∧
    rowCount (label_cell 8%nat) m' = Return 0 m' ∧
    (tree ← m_pTree m'; object_at (m_pDoc tree) ptr_shared) =
      Some (Array [Null; Null]) ∧
    setData sample_tokenizer 10 (value_cell 7%nat) (Some (bytes "null")) m' =
      AssertFail.
Proof.
  split; [by vm_compute|]. split; [by vm_compute|].
  eexists. split; [by vm_compute|].
  split; [by vm_compute|]. split; [by vm_compute|].
  split; by vm_compute.
Qed.

(** ** Inserting a key through the adapter *)

(** Claim C6, at an input where the code breaks it. Node 4 of the sample
    tree wraps the dictionary under key Info, which has no key K.
    [insertKey] with the index of node 4 returns [true], yet the
    dictionary of node 4 is as before and the null entry K is in the
    catalog, the object of the root: for a valid index the function
    takes the root node, not the node of the index. *)
Theorem insertKey_edits_the_root :
  GetObject 4%nat sample_tree_aliased = Return ptr_info sample_tree_aliased ∧
  CanInsertKey 4%nat "K" sample_tree_aliased = Return true sample_tree_aliased ∧
  ∃ m' tree' d,
    insertKey 10 "K" (label_cell 4%nat) sample_model = Return true m' ∧
    m_pTree m' = Some tree' ∧
    object_at (m_pDoc tree') ptr_info =
      Some (Dictionary [("Title"%string, String "t")]) ∧
    object_at (m_pDoc tree') ptr_catalog = Some (Dictionary d) ∧
    GetKey d "K" = Some Null.
Proof.
  split; [by vm_compute|]. split; [by vm_compute|].
  eexists _, _, _. split; [by vm_compute|].
  split; [reflexivity|]. split; [by vm_compute|]. split; by vm_compute.
Qed.

(** For every valid index the node [insertKey] works on is the root. *)
Lemma insertKey_valid_index_uses_root fuel keyName parent m :
  isValid parent = true →
  insertKey fuel keyName parent m =
  (node ← (root ← on_tree (gets m_pRoot); deref root);
   ok ← on_tree (CanInsertKey node keyName);
   if ok : bool then
     _ ← PrepareForSubtreeChange fuel parent;
     _ ← on_tree (InsertKey node keyName);
     _ ← SubtreeChanged parent;
     ret true
   else ret false) m.
Proof. intros H. unfold insertKey. by rewrite H. Qed.

(** With the invalid index the null [internalPointer] is dereferenced. *)
Lemma insertKey_invalid_index fuel keyName m :
  insertKey fuel keyName QModelIndex_null m = Undefined.
Proof. reflexivity. Qed.

(** The same swap in [insertElement]. *)
Lemma insertElement_invalid_index r m :
  insertElement r QModelIndex_null m = Undefined.
Proof. reflexivity. Qed.

(** ** The edit as the adapter runs it *)

(** A [PdfError] of [SetRawData] is the tokenizer's: the catch in
    [setData] goes on from the state [SetRawData] was called in, which is
    the state after [PrepareForSubtreeChange]. *)
Lemma catch_parse_error tok fuel node data code m t :
  tok data = inr code →
  m_pTree m = Some t →
  catch_PdfError (on_tree (SetRawData tok fuel node data))
    (λ eCode, _ ← emit (podofoError eCode); ret false) m =
  Return false
    (mkModel (m_bDocChanged m) (Some t) (emitted m ++ [podofoError code])).
Proof.
  intros Htok Ht. unfold catch_PdfError, on_tree. rewrite Ht.
  unfold SetRawData. rewrite Htok. done.
Qed.

(** * Further properties *)

Import View.

(** ** Parent pointers *)

Lemma owns_children_in t h cs idss c :
  Forall2 (owns t h) cs idss → c ∈ cs → c ∈ concat idss.
Proof.
  induction 1 as [|c0 ids0 cs idss Hc0 _ IH]; intros Hc;
    [by apply elem_of_nil in Hc|].
  simpl. apply elem_of_app. apply elem_of_cons in Hc as [->|Hc].
  - left. by eapply owns_in.
  - right. by apply IH.
Qed.

Lemma owns_concat_elem t h cs idss x :
  Forall2 (owns t h) cs idss → x ∈ concat idss →
  ∃ c ids, c ∈ cs ∧ owns t h c ids ∧ x ∈ ids ∧
           ∀ y, y ∈ ids → y ∈ concat idss.
Proof.
  induction 1 as [|c0 ids0 cs idss Hc0 _ IH]; simpl; intros Hx;
    [by apply elem_of_nil in Hx|].
  apply elem_of_app in Hx as [Hx|Hx].
  - exists c0, ids0. split_and!; [left|done|done|].
    intros y Hy. apply elem_of_app. by left.
  - destruct (IH Hx) as (c & ids & Hc & Ho & Hxi & Hsub).
    exists c, ids. split_and!; [by right|done|done|].
    intros y Hy. apply elem_of_app. right. by apply Hsub.
Qed.

(** The nodes below a node are closed under taking children. *)
Lemma owns_closed t h : ∀ node ids x xd c,
  owns t h node ids → x ∈ ids → store t !! x = Some xd →
  c ∈ m_children xd → c ∈ ids.
Proof.
  induction h as [|h IH]; intros node ids x xd c; simpl; [done|].
  intros (nd & idss & Hn & Hc & ->) Hx Hxd Hin.
  apply elem_of_app. left.
  apply elem_of_app in Hx as [Hx|Hx].
  - destruct (owns_concat_elem _ _ _ _ _ Hc Hx)
      as (c' & ids' & _ & Ho & Hxi & Hsub).
    apply Hsub. by eapply IH.
  - apply list_elem_of_singleton in Hx. subst x.
    rewrite Hn in Hxd. injection Hxd as <-.
    by eapply owns_children_in.
Qed.

(** A node below another one, and not that one, has a parent. *)
Lemma owns_has_parent t h node ids x xd :
  children_ok t → owns t h node ids → x ∈ ids → x ≠ node →
  store t !! x = Some xd → m_pParent xd ≠ None.
Proof.
  intros Hok Ho Hx Hne Hxd.
  destruct (owns_parent t h node ids x Ho Hx) as [->|(p & pd & _ & Hp & Hin)];
    [done|].
  destruct (Hok p pd Hp) as [_ Hch].
  destruct (Hch x Hin) as (_ & cd & Hcd & Hpar).
  rewrite Hxd in Hcd. injection Hcd as <-. by rewrite Hpar.
Qed.

Lemma parents_ok_update t node nd nd' :
  parents_ok t → store t !! node = Some nd →
  m_pParent nd' = m_pParent nd → m_children nd' = m_children nd →
  parents_ok (set_store (<[node := nd']> (store t)) t).
Proof.
  intros [(r & rd & Hr & Hrd & Hrp) Hp] Hn Hpar Hch. split; simpl.
  - destruct (decide (r = node)) as [->|Hne].
    + exists node, nd'. rewrite lookup_insert_eq. split_and!; [done..|].
      rewrite Hpar. rewrite Hn in Hrd. by injection Hrd as ->.
    + exists r, rd. by rewrite lookup_insert_ne.
  - intros n x. rewrite lookup_insert. case_decide as Hd.
    + intros [= <-]. subst n. rewrite Hpar.
      specialize (Hp node nd Hn). destruct (m_pParent nd) as [p|]; [|done].
      destruct Hp as (pd & Hpd & Hin).
      rewrite lookup_insert. case_decide as Hd'.
      * subst p. exists nd'. split; [done|]. rewrite Hch.
        rewrite Hn in Hpd. by injection Hpd as ->.
      * by exists pd.
    + intros Hx. specialize (Hp n x Hx).
      destruct (m_pParent x) as [p|]; [|done].
      destruct Hp as (pd & Hpd & Hin).
      rewrite lookup_insert. case_decide as Hd'.
      * subst p. exists nd'. split; [done|]. rewrite Hch.
        rewrite Hn in Hpd. by injection Hpd as ->.
      * by exists pd.
Qed.

Lemma preserves_linked_update_node node f :
  (∀ nd, m_pObject (f nd) = m_pObject nd ∧
         m_children (f nd) = m_children nd ∧
         m_pParent (f nd) = m_pParent nd ∧
         (m_bChildrenLoaded (f nd) = false → m_bChildrenLoaded nd = false)) →
  preserves linked (update_node node f).
Proof.
  intros Hf t [Hwu Hp].
  pose proof (preserves_unloaded_update_node node f Hf t Hwu) as Hpu.
  unfold update_node, node_at in *. monad_unfold.
  destruct (store t !! node) as [nd|] eqn:Hn; [|done].
  split; [done|]. destruct (Hf nd) as (_ & Hc & Hpar & _).
  by apply (parents_ok_update t node nd).
Qed.

Lemma preserves_linked_update_object f nd :
  preserves linked (update_object f nd).
Proof.
  intros t [Hwu Hp].
  pose proof (preserves_unloaded_update_object f nd t Hwu) as Hpu.
  unfold update_object in *. monad_unfold.
  by destruct (object_update f (m_pDoc t) (m_pObject nd)).
Qed.

Lemma parents_ok_populated specs t this nd :
  wf t → parents_ok t → store t !! this = Some nd →
  parents_ok (populated this specs t).
Proof.
  intros Hwf [(r & rd & Hr & Hrd & Hrp) Hp] Hn.
  pose proof Hwf as [[_ Hb] Hok]. pose proof Hb as Hb0. bounded_alt Hb.
  assert (this < next_node t)%nat as Hlt by (apply Hb; eauto).
  pose proof (populated_bounded specs t this nd Hn Hb0) as Hb'.
  bounded_alt Hb'.
  destruct (populated_spec specs t this nd Hn Hlt)
    as (_ & _ & Hroot & Hx & Ht & Hk & Ho).
  (* a node of [t] other than [this] still lists its children *)
  assert (∀ p pd c, store t !! p = Some pd → c ∈ m_children pd →
            ∃ pd', store (populated this specs t) !! p = Some pd' ∧
                   c ∈ m_children pd') as Hkeep.
  { intros p pd c Hpd Hin. destruct (decide (p = this)) as [->|Hne].
    - eexists. split; [exact Ht|]. simpl. apply elem_of_app. left.
      rewrite Hn in Hpd. by injection Hpd as ->.
    - exists pd. split; [|done]. rewrite Ho; [done| |done].
      apply Hb. eauto. }
  split.
  - rewrite Hroot. destruct (decide (r = this)) as [->|Hne].
    + eexists _, _. split_and!; [done|exact Ht|]. simpl.
      rewrite Hn in Hrd. by injection Hrd as ->.
    + exists r, rd. split_and!; [done| |done]. rewrite Ho; [done| |done].
      apply Hb. eauto.
  - intros n x Hx'. rewrite Hroot.
    destruct (decide (n = this)) as [->|Hne].
    { rewrite Ht in Hx'. injection Hx' as <-. simpl.
      specialize (Hp this nd Hn). destruct (m_pParent nd) as [p|]; [|done].
      destruct Hp as (pd & Hpd & Hin). by eapply Hkeep. }
    destruct (decide (n < next_node t)%nat) as [Hlt'|Hge].
    { rewrite Ho in Hx' by done. specialize (Hp n x Hx').
      destruct (m_pParent x) as [p|]; [|done].
      destruct Hp as (pd & Hpd & Hin). by eapply Hkeep. }
    assert (n < next_node t + length specs)%nat as Hlt2.
    { rewrite <- Hx. apply Hb'. eauto. }
    destruct (lookup_lt_is_Some_2 specs (n - next_node t)) as [spec Hs];
      [lia|].
    pose proof (Hk _ _ Hs) as Hk'.
    replace (next_node t + (n - next_node t))%nat with n in Hk' by lia.
    rewrite Hk' in Hx'. injection Hx' as <-. simpl.
    eexists. split; [exact Ht|]. simpl. apply elem_of_app. right.
    apply elem_of_seq. lia.
Qed.

Lemma preserves_linked_PopulateChildren this :
  preserves linked (PopulateChildren this).
Proof.
  intros t [Hwu Hp].
  pose proof (preserves_unloaded_PopulateChildren this t Hwu) as Hpu.
  pose proof Hwu as [Hwf _].
  destruct (store t !! this) as [nd|] eqn:Hn; cycle 1.
  { unfold PopulateChildren, node_at. monad_unfold. by rewrite Hn. }
  assert (this < next_node t)%nat as Hlt.
  { destruct Hwf as [[_ Hb] _]. bounded_alt Hb. apply Hb. eauto. }
  destruct (m_bChildrenLoaded nd) eqn:Hl.
  { unfold PopulateChildren.
    rewrite (bind_run _ _ _ _ _ (node_at_run _ _ _ Hn)), Hl. done. }
  destruct (object_at (m_pDoc t) (m_pObject nd)) as [obj|] eqn:Ho.
  - rewrite (PopulateChildren_run t this nd obj Hn Hl Hlt Ho) in *.
    split; [done|]. by eapply parents_ok_populated.
  - unfold PopulateChildren.
    rewrite (bind_run _ _ _ _ _ (node_at_run _ _ _ Hn)), Hl. simpl.
    erewrite bind_run by reflexivity. erewrite bind_run by reflexivity.
    unfold object_of. monad_unfold. by rewrite Ho.
Qed.

(** What [InvalidateChildren] does to a well-formed tree: it returns
    for every budget from [next_node t]; the nodes below [this] are
    gone, [this] has no children and is not loaded, and every other
    node is as it was. *)
Lemma InvalidateChildren_exact t this nd fuel :
  wf t → store t !! this = Some nd → (next_node t ≤ fuel)%nat →
  ∃ ids t',
    owns t fuel this ids ∧ NoDup ids ∧
    InvalidateChildren fuel this t = Return tt t' ∧
    wf t' ∧ same_frame t t' ∧
    store t' !! this = Some (set_loaded false (set_children [] nd)) ∧
    (∀ n, n ∉ ids → store t' !! n = store t !! n) ∧
    (∀ n, n ∈ ids → n ≠ this → store t' !! n = None).
Proof.
  intros Hwf Hn Hfuel. pose proof Hwf as [Hinv Hok].
  destruct (children_ok_owns t Hok (proj2 Hinv) fuel this nd Hn)
    as (ids & Hown & Hnd); [lia|].
  destruct (InvalidateChildren_total _ this ids t Hinv Hown Hnd)
    as (t' & Hrun & _ & Hsame & Hdel).
  destruct (InvalidateChildren_invalidated _ _ _ _ Hrun) as [[Hf _] Hcl].
  exists ids, t'. split_and!; try done.
  - by eapply wf_invalidated.
  - by apply Hcl.
Qed.

Lemma parents_ok_invalidated t this nd fuel t' :
  wf t → parents_ok t → store t !! this = Some nd →
  InvalidateChildren fuel this t = Return tt t' → parents_ok t'.
Proof.
  intros Hwf [(r & rd & Hr & Hrd & Hrp) Hp] Hn Hrun.
  destruct (InvalidateChildren_exact t this nd (fuel + next_node t) Hwf Hn)
    as (ids & t'' & Hown & Hnd & Hrun' & _ & Hf & Hthis & Hsame & Hdel);
    [lia|].
  rewrite (InvalidateChildren_fuel_irrelevant _ _ _ _ _ _ Hrun Hrun') in *.
  clear Hrun. destruct Hf as (_ & _ & Hroot & _).
  pose proof Hwf as [_ Hok].
  (* a surviving node other than [this] is outside the subtree *)
  assert (∀ n x, store t'' !! n = Some x → n ≠ this → n ∉ ids) as Hout.
  { intros n x Hx Hne Hin. by rewrite (Hdel n Hin Hne) in Hx. }
  (* the parent of a surviving node survives, with its list *)
  assert (∀ n p pd, (n = this ∨ n ∉ ids) →
            store t !! p = Some pd → n ∈ m_children pd →
            store t'' !! p = Some pd) as Hkeep.
  { intros n p pd Hcase Hpd Hin. rewrite Hsame; [done|]. intros Hpin.
    destruct Hcase as [->|Hni].
    - pose proof (owns_ge _ _ _ _ _ Hok Hown Hpin).
      destruct (Hok p pd Hpd) as [_ Hch]. destruct (Hch this Hin). lia.
    - apply Hni. by eapply owns_closed. }
  split.
  - rewrite Hroot. destruct (decide (r = this)) as [->|Hne].
    + eexists _, _. split_and!; [done|exact Hthis|]. simpl.
      rewrite Hn in Hrd. by injection Hrd as ->.
    + exists r, rd. split_and!; [done| |done]. rewrite Hsame; [done|].
      intros Hin. by apply (owns_has_parent t _ this ids r rd Hok Hown Hin).
  - intros n x Hx. rewrite Hroot.
    destruct (decide (n = this)) as [->|Hne].
    + rewrite Hthis in Hx. injection Hx as <-. simpl.
      specialize (Hp this nd Hn). destruct (m_pParent nd) as [p|]; [|done].
      destruct Hp as (pd & Hpd & Hin). exists pd. split; [|done].
      eapply Hkeep; [by left|done..].
    + pose proof (Hout n x Hx Hne) as Hni.
      rewrite Hsame in Hx by done. specialize (Hp n x Hx).
      destruct (m_pParent x) as [p|]; [|done].
      destruct Hp as (pd & Hpd & Hin). exists pd. split; [|done].
      eapply Hkeep; [by right|done..].
Qed.

Lemma preserves_linked_InvalidateChildren fuel this :
  preserves linked (InvalidateChildren fuel this).
Proof.
  intros t [Hwu Hp].
  pose proof (preserves_unloaded_InvalidateChildren fuel this t Hwu) as Hpu.
  pose proof Hwu as [Hwf _].
  destruct (store t !! this) as [nd|] eqn:Hn; cycle 1.
  { destruct fuel; [done|]. cbn [InvalidateChildren].
    unfold node_at. monad_unfold. by rewrite Hn. }
  pose proof (InvalidateChildren_wf_outcome fuel this t Hwf) as Hout.
  destruct (InvalidateChildren fuel this t) as [[] t1|e t1| | |] eqn:Hrun;
    try done.
  split; [done|]. by eapply parents_ok_invalidated.
Qed.

Lemma preserves_linked_node_at node : preserves linked (node_at node).
Proof. apply preserves_node_at. Qed.

Lemma preserves_linked_EnsureChildrenLoaded this :
  preserves linked (EnsureChildrenLoaded this).
Proof.
  apply preserves_bind; [apply preserves_node_at|]. intros nd.
  destruct (m_bChildrenLoaded nd);
    [apply preserves_ret | apply preserves_linked_PopulateChildren].
Qed.

Lemma preserves_linked_CountChildren this :
  preserves linked (CountChildren this).
Proof.
  apply preserves_bind; [apply preserves_node_at|]. intros nd.
  destruct (m_bPretendEmpty nd); [apply preserves_ret|].
  apply preserves_bind; [apply preserves_linked_EnsureChildrenLoaded|].
  intros ?.
  apply preserves_bind; [apply preserves_node_at|]. intros ?.
  apply preserves_ret.
Qed.

Lemma preserves_linked_GetChild this n :
  preserves linked (GetChild this n).
Proof.
  apply preserves_bind; [apply preserves_node_at|]. intros nd.
  destruct (m_bPretendEmpty nd); [apply preserves_ret|].
  apply preserves_bind; [apply preserves_linked_EnsureChildrenLoaded|].
  intros ?.
  apply preserves_bind; [apply preserves_node_at|]. intros ?.
  apply preserves_ret.
Qed.

Lemma preserves_linked_CanInsertElement this row :
  preserves linked (CanInsertElement this row).
Proof.
  unfold CanInsertElement. destruct (negb (0 <? row)); [apply preserves_ret|].
  apply preserves_bind; [apply preserves_linked_CountChildren|]. intros c.
  destruct (negb (row <=? c)); [apply preserves_ret|].
  apply preserves_bind; [apply preserves_node_at|]. intros nd.
  apply preserves_bind; [apply preserves_object_of|]. intros ?.
  apply preserves_ret.
Qed.

Lemma preserves_linked_CanInsertKey this keyName :
  preserves linked (CanInsertKey this keyName).
Proof.
  intros t Hl. unfold CanInsertKey.
  destruct (negb (bool_decide (keyName ≠ KeyNull))); [done|].
  unfold node_at, object_of. monad_unfold.
  destruct (store t !! this) as [nd|]; [|done].
  destruct (object_at (m_pDoc t) (m_pObject nd)) as [obj|]; [|done].
  by destruct obj.
Qed.

Lemma preserves_linked_SetRawData tok fuel this data :
  preserves linked (SetRawData tok fuel this data).
Proof.
  unfold SetRawData. destruct (tok data) as [variant|code];
    [|apply preserves_throw].
  apply preserves_bind; [apply preserves_linked_InvalidateChildren|].
  intros ?.
  apply preserves_bind; [apply preserves_node_at|]. intros nd.
  apply preserves_bind; [apply preserves_linked_update_object|].
  intros ?. apply preserves_ret.
Qed.

Lemma preserves_linked_InsertElement this row :
  preserves linked (InsertElement this row).
Proof.
  apply preserves_bind; [apply preserves_linked_CanInsertElement|].
  intros ok.
  apply preserves_bind; [apply preserves_assert|]. intros ?.
  apply preserves_bind; [apply preserves_node_at|]. intros nd.
  apply preserves_linked_update_object.
Qed.

Lemma preserves_linked_InsertKey this keyName :
  preserves linked (InsertKey this keyName).
Proof.
  apply preserves_bind; [apply preserves_linked_CanInsertKey|].
  intros ok.
  apply preserves_bind; [apply preserves_assert|]. intros ?.
  apply preserves_bind; [apply preserves_node_at|]. intros nd.
  apply preserves_linked_update_object.
Qed.

Lemma preserves_linked_SetPretendEmpty this empty :
  preserves linked (SetPretendEmpty this empty).
Proof. by apply preserves_linked_update_node. Qed.

Lemma preserves_linked_run_call tok c :
  is_public c = true → preserves linked (run_call tok c).
Proof.
  destruct c; simpl; try done; intros _.
  - apply preserves_bind; [apply preserves_linked_CountChildren|].
    intros ?. apply preserves_ret.
  - apply preserves_bind; [apply preserves_linked_GetChild|]. intros ?.
    apply preserves_ret.
  - apply preserves_linked_InvalidateChildren.
  - apply preserves_linked_SetPretendEmpty.
  - apply preserves_bind; [apply preserves_linked_CanInsertElement|].
    intros ?. apply preserves_ret.
  - apply preserves_linked_InsertElement.
  - apply preserves_linked_InsertKey.
  - apply preserves_bind; [|intros ?; apply preserves_ret].
    apply preserves_linked_SetRawData.
Qed.

Lemma linked_new_tree doc root followReferences t :
  new_PdfObjectModelTree doc root followReferences = Return tt t → linked t.
Proof.
  intros Hnew.
  pose proof (in_use_new (λ _, inr 0%nat) doc root followReferences t Hnew)
    as Huse.
  split; [by eapply unloaded_empty_in_use|].
  rewrite new_tree_run in Hnew. injection Hnew as <-. split; simpl.
  - eexists _, _. split_and!; [done|apply lookup_singleton_eq|done].
  - intros n x. rewrite lookup_singleton. case_decide; [|done].
    intros [= <-]. simpl. by subst.
Qed.

Lemma linked_in_use tok t : in_use tok t → linked t.
Proof.
  induction 1 as [doc root f t Hnew | c t t' _ IH Hpub Hrun].
  - by eapply linked_new_tree.
  - pose proof (preserves_linked_run_call tok c Hpub t IH) as Hp.
    destruct (run_call tok c t); simpl in Hrun; by simplify_eq.
Qed.

(** ** Node pointers stay valid *)

(** The sample tree with its root expanded is a state in use. *)
Ltac sample_expanded_in_use :=
  apply (in_use_call sample_tokenizer (call_CountChildren 1%nat) sample_tree);
  [ by apply (in_use_new sample_tokenizer sample_doc ptr_catalog true)
  | reflexivity
  | by vm_compute ].

(** In every state of a tree that its constructor and the public calls
    on its nodes lead to, the root pointer, the child pointers and the
    parent pointers all lead to live nodes: the root is live and has no
    parent; every child a live node lists is live and points back to it;
    every live node with a parent is listed by that parent, which is
    live; and only the root has no parent. *)
Theorem node_pointers_stay_valid tok t :
  in_use tok t →
  (∃ r rd, m_pRoot t = Some r ∧ store t !! r = Some rd ∧ m_pParent rd = None) ∧
  ∀ n nd, store t !! n = Some nd →
    (∀ c, c ∈ m_children nd →
       ∃ cd, store t !! c = Some cd ∧ m_pParent cd = Some n) ∧
    match m_pParent nd with
    | Some p => ∃ pd, store t !! p = Some pd ∧ n ∈ m_children pd
    | None => m_pRoot t = Some n
    end.
Proof.
  intros Huse. destruct (linked_in_use tok t Huse) as [[[_ Hok] _] [Hr Hp]].
  split; [done|]. intros n nd Hn. split; [|by apply Hp].
  intros c Hc. destruct (Hok n nd Hn) as [_ Hch].
  by destruct (Hch c Hc) as [_ ?].
Qed.

Lemma node_pointers_stay_valid_witness :
  (∃ r rd, m_pRoot sample_tree_expanded = Some r ∧
           store sample_tree_expanded !! r = Some rd ∧ m_pParent rd = None) ∧
  ∀ n nd, store sample_tree_expanded !! n = Some nd →
    (∀ c, c ∈ m_children nd →
       ∃ cd, store sample_tree_expanded !! c = Some cd ∧
             m_pParent cd = Some n) ∧
    match m_pParent nd with
    | Some p => ∃ pd, store sample_tree_expanded !! p = Some pd ∧
                      n ∈ m_children pd
    | None => m_pRoot sample_tree_expanded = Some n
    end.
Proof.
  apply (node_pointers_stay_valid sample_tokenizer sample_tree_expanded).
  sample_expanded_in_use.
Defined.

(** ** The row of a node *)

Lemma index_of_Some x l : ∀ i, index_of x l = Some i → l !! i = Some x.
Proof.
  induction l as [|y l IH]; intros i; simpl; [done|].
  case_decide as Hd.
  - intros [= <-]. by subst.
  - destruct (index_of x l) as [j|]; simpl; [|done].
    intros [= <-]. by apply IH.
Qed.

Lemma index_of_lookup x l : ∀ i,
  NoDup l → l !! i = Some x → index_of x l = Some i.
Proof.
  induction l as [|y l IH]; intros i Hnd Hi; [done|].
  apply NoDup_cons in Hnd as [Hni Hnd]. simpl. case_decide as Hd.
  - subst y. destruct i; [done|]. simpl in Hi. exfalso. apply Hni.
    by eapply list_elem_of_lookup_2.
  - destruct i; simpl in Hi; [by simplify_eq|].
    by rewrite (IH i Hnd Hi).
Qed.

Lemma GetParent_run t this nd :
  store t !! this = Some nd → GetParent this t = Return (m_pParent nd) t.
Proof.
  intros Hn. unfold GetParent.
  by rewrite (bind_run _ _ _ _ _ (node_at_run _ _ _ Hn)).
Qed.

Lemma GetObject_run t this nd :
  store t !! this = Some nd → GetObject this t = Return (m_pObject nd) t.
Proof.
  intros Hn. unfold GetObject.
  by rewrite (bind_run _ _ _ _ _ (node_at_run _ _ _ Hn)).
Qed.

Lemma GetParentKey_run t this nd :
  store t !! this = Some nd → GetParentKey this t = Return (m_parentKey nd) t.
Proof.
  intros Hn. unfold GetParentKey.
  by rewrite (bind_run _ _ _ _ _ (node_at_run _ _ _ Hn)).
Qed.

(** The row of the root, and of a node its parent lists at [i]. *)
Lemma GetIndexInParent_root t this nd :
  store t !! this = Some nd → m_pParent nd = None → m_pRoot t = Some this →
  GetIndexInParent this t = Return 0 t.
Proof.
  intros Hn Hp Hr. unfold GetIndexInParent.
  rewrite (bind_run _ _ _ _ _ (node_at_run _ _ _ Hn)), Hp.
  monad_unfold. by rewrite bool_decide_eq_true_2.
Qed.

Lemma GetIndexInParent_at t this nd p pd i :
  store t !! this = Some nd → m_pParent nd = Some p →
  store t !! p = Some pd → NoDup (m_children pd) →
  m_children pd !! i = Some this →
  GetIndexInParent this t =
    if Z.of_nat i <? 2 ^ 31 then Return (Z.of_nat i) t else Undefined.
Proof.
  intros Hn Hp Hpd Hnd Hi. unfold GetIndexInParent.
  rewrite (bind_run _ _ _ _ _ (node_at_run _ _ _ Hn)), Hp.
  rewrite (bind_run _ _ _ _ _ (node_at_run _ _ _ Hpd)).
  rewrite (index_of_lookup _ _ _ Hnd Hi).
  by destruct (Z.of_nat i <? 2 ^ 31).
Qed.

Lemma GetIndexInParent_child t this nd p pd i :
  store t !! this = Some nd → m_pParent nd = Some p →
  store t !! p = Some pd → NoDup (m_children pd) →
  m_children pd !! i = Some this →
  Z.of_nat i < 2 ^ 31 →
  GetIndexInParent this t = Return (Z.of_nat i) t.
Proof.
  intros Hn Hp Hpd Hnd Hi Hlt.
  rewrite (GetIndexInParent_at t this nd p pd i Hn Hp Hpd Hnd Hi).
  by rewrite (proj2 (Z.ltb_lt _ _) Hlt).
Qed.

(** In a tree in use [GetIndexInParent] does not throw [logic_error]
    and its assertion holds, for every live node. For the root it
    returns 0. A node with a parent is at one position [i] of the
    parent's child list: that is what is returned, the state unchanged,
    when the [int] that counts the children passed can hold it
    ([i < 2^31]); from position [2^31] on the counter overflows. *)
Theorem GetIndexInParent_finds_row tok t this nd :
  in_use tok t → store t !! this = Some nd →
  match m_pParent nd with
  | None => m_pRoot t = Some this ∧ GetIndexInParent this t = Return 0 t
  | Some p =>
      ∃ pd i, store t !! p = Some pd ∧
              m_children pd !! i = Some this ∧
              (∀ j, m_children pd !! j = Some this → j = i) ∧
              (Z.of_nat i < 2 ^ 31 →
               GetIndexInParent this t = Return (Z.of_nat i) t) ∧
              (2 ^ 31 ≤ Z.of_nat i → GetIndexInParent this t = Undefined)
  end.
Proof.
  intros Huse Hn.
  destruct (linked_in_use tok t Huse) as [[[_ Hok] _] [_ Hp]].
  specialize (Hp this nd Hn). destruct (m_pParent nd) as [p|] eqn:Hpar.
  - destruct Hp as (pd & Hpd & Hin).
    destruct (Hok p pd Hpd) as [Hnd _].
    apply list_elem_of_lookup in Hin as [i Hi].
    exists pd, i. split_and!; [done..| | |].
    + intros j Hj. by eapply NoDup_lookup.
    + intros Hlt. by eapply GetIndexInParent_child.
    + intros Hge.
      rewrite (GetIndexInParent_at t this nd p pd i Hn Hpar Hpd Hnd Hi).
      by rewrite (proj2 (Z.ltb_ge _ _) Hge).
  - split; [done|]. by apply (GetIndexInParent_root t this nd).
Qed.

Lemma GetIndexInParent_finds_row_witness :
  ∃ pd i, store sample_tree_expanded !! 1%nat = Some pd ∧
          m_children pd !! i = Some 5%nat ∧
          (∀ j, m_children pd !! j = Some 5%nat → j = i) ∧
          (Z.of_nat i < 2 ^ 31 →
           GetIndexInParent 5%nat sample_tree_expanded =
             Return (Z.of_nat i) sample_tree_expanded) ∧
          (2 ^ 31 ≤ Z.of_nat i →
           GetIndexInParent 5%nat sample_tree_expanded = Undefined).
Proof.
  refine (GetIndexInParent_finds_row sample_tokenizer sample_tree_expanded
            5%nat
            (mkNode false false ptr_kids PT_Contained (Some 1%nat)
               "Kids"%string [])
            _ _).
  - sample_expanded_in_use.
  - reflexivity.
Defined.

(** ** Children by number *)

(** Adding a child keeps the node and its pretend-empty flag. *)
Lemma preserves_not_pretending_AddNode this object pt parentKey :
  preserves (not_pretending this) (AddNode this object pt parentKey).
Proof.
  intros t (x & Hx & Hp). unfold AddNode, new_PdfObjectModelNode.
  destruct (bool_decide (pt ≠ PT_Root) && bool_decide (Some this = None));
    [by exists x|].
  unfold allocate, NodeCreated, update_node, node_at. monad_unfold. simpl.
  rewrite lookup_insert_eq. simpl.
  rewrite lookup_insert. case_decide as Hd; simpl.
  - eexists. unfold set_store. simpl. rewrite lookup_insert_eq. done.
  - rewrite Hx. eexists. unfold set_store. simpl. rewrite lookup_insert_eq.
    done.
Qed.

Lemma preserves_GetReference (I : PdfObjectModelTree → Prop) obj :
  preserves I (GetReference obj).
Proof. intros s Hs. by destruct obj. Qed.

Lemma preserves_GetDictionary (I : PdfObjectModelTree → Prop) obj :
  preserves I (GetDictionary obj).
Proof. intros s Hs. by destruct obj. Qed.

Lemma preserves_GetArray (I : PdfObjectModelTree → Prop) obj :
  preserves I (GetArray obj).
Proof. intros s Hs. by destruct obj. Qed.

Lemma PopulateChildren_flags this :
  triple (not_pretending this) (PopulateChildren this)
    (λ _ t, ∃ x, store t !! this = Some x ∧ m_bPretendEmpty x = false ∧
                 m_bChildrenLoaded x = true)
    (λ _, not_pretending this).
Proof.
  unfold PopulateChildren.
  eapply triple_bind; [apply preserves_node_at|]. intros nd.
  eapply triple_bind; [apply preserves_assert|]. intros ?.
  eapply triple_bind; [apply preserves_get|]. intros t0.
  eapply triple_bind; [apply preserves_object_of|]. intros obj.
  eapply triple_bind with (Q := λ _, not_pretending this).
  { destruct (m_bFollowReferences t0 && IsReference obj).
    - apply preserves_bind; [apply preserves_GetReference|]. intros r.
      destruct (PdfVecObjects_GetObject _ r);
        [apply preserves_not_pretending_AddNode | apply preserves_ret].
    - destruct (IsDictionary obj).
      + apply preserves_bind; [apply preserves_GetDictionary|]. intros keys.
        apply preserves_for_each. intros it.
        apply preserves_not_pretending_AddNode.
      + destruct (IsArray obj); [|apply preserves_ret].
        apply preserves_bind; [apply preserves_GetArray|]. intros elems.
        apply preserves_for_each. intros it.
        apply preserves_not_pretending_AddNode. }
  intros ? t (x & Hx & Hp). unfold update_node, node_at. monad_unfold.
  rewrite Hx. eexists. simpl. rewrite lookup_insert_eq. done.
Qed.

(** What a call of [CountChildren] that returns has done, and what
    [GetChild] does from the same state. *)
Lemma CountChildren_inv t this c t1 :
  CountChildren this t = Return c t1 →
  ∃ nd1, store t1 !! this = Some nd1 ∧
    ((m_bPretendEmpty nd1 = true ∧ c = 0 ∧ t1 = t ∧
      ∀ n, GetChild this n t = Return None t1) ∨
     (m_bPretendEmpty nd1 = false ∧ m_bChildrenLoaded nd1 = true ∧
      c = int_of_size (length (m_children nd1)) ∧
      ∀ n, GetChild this n t =
           Return (if size_t_of_int n <? Z.of_nat (length (m_children nd1))
                   then m_children nd1 !! Z.to_nat (size_t_of_int n)
                   else None) t1)).
Proof.
  intros Hrun. unfold CountChildren in Hrun.
  apply bind_Return in Hrun as (nd & t0 & Hnd & Hrun).
  assert (t0 = t ∧ store t !! this = Some nd) as [-> Hn].
  { unfold node_at in Hnd. monad_unfold.
    destruct (store t !! this); by simplify_eq. }
  destruct (m_bPretendEmpty nd) eqn:Hp.
  { injection Hrun as <- <-. exists nd. split; [done|]. left.
    split_and!; [done..|]. intros n. by eapply GetChild_pretend. }
  apply bind_Return in Hrun as ([] & t2 & Hens & Hrun).
  apply bind_Return in Hrun as (nd1 & t3 & Hnd1 & Hrun).
  assert (t3 = t2 ∧ store t2 !! this = Some nd1) as [-> Hn1].
  { unfold node_at in Hnd1. monad_unfold.
    destruct (store t2 !! this); by simplify_eq. }
  injection Hrun as <- <-. exists nd1. split; [done|]. right.
  assert (m_bPretendEmpty nd1 = false ∧ m_bChildrenLoaded nd1 = true)
    as [Hp1 Hl1].
  { unfold EnsureChildrenLoaded in Hens.
    rewrite (bind_run _ _ _ _ _ (node_at_run _ _ _ Hn)) in Hens.
    destruct (m_bChildrenLoaded nd) eqn:Hl.
    - injection Hens as <-. rewrite Hn in Hn1. by injection Hn1 as <-.
    - pose proof (PopulateChildren_flags this t) as Ht.
      rewrite Hens in Ht. destruct Ht as (x & Hx & ? & ?); [by exists nd|].
      rewrite Hn1 in Hx. by injection Hx as <-. }
  split_and!; [done..|]. intros n. unfold GetChild.
  rewrite (bind_run _ _ _ _ _ (node_at_run _ _ _ Hn)), Hp.
  rewrite (bind_run _ _ _ _ _ Hens).
  by rewrite (bind_run _ _ _ _ _ (node_at_run _ _ _ Hn1)).
Qed.

(** [GetChild] hands out a child exactly for the numbers from 0 below
    the count. *)
Lemma GetChild_range t this c t1 n :
  CountChildren this t = Return c t1 →
  (∀ nd1, store t1 !! this = Some nd1 →
          Z.of_nat (length (m_children nd1)) < 2 ^ 31) →
  - 2 ^ 31 ≤ n < 2 ^ 31 →
  ∃ r, GetChild this n t = Return r t1 ∧ (is_Some r ↔ 0 ≤ n < c).
Proof.
  intros Hrun Hlen Hn.
  destruct (CountChildren_inv t this c t1 Hrun)
    as (nd1 & Hn1 & [(_ & -> & _ & Hg)|(_ & _ & -> & Hg)]).
  { exists None. split; [apply Hg|]. split; [by intros []|lia]. }
  specialize (Hlen nd1 Hn1). rewrite int_of_size_small by done.
  eexists. split; [apply Hg|]. unfold size_t_of_int.
  destruct (decide (0 ≤ n)) as [Hpos|Hneg].
  - rewrite Z.mod_small by lia. case_match eqn:Hlt.
    + apply Z.ltb_lt in Hlt. split; [lia|]. intros _.
      apply lookup_lt_is_Some. lia.
    + apply Z.ltb_ge in Hlt. split; [by intros []|lia].
  - replace (n mod 2 ^ 64) with (n + 2 ^ 64); cycle 1.
    { apply Z.mod_unique with (-1); lia. }
    case_match eqn:Hlt.
    + apply Z.ltb_lt in Hlt. lia.
    + split; [by intros []|lia].
Qed.

(** A number in the range of [int] is the number of a child exactly
    when it is at least 0 and below [CountChildren()]: when
    [CountChildren] returns [c], [GetChild(n)] from the same state
    returns in the same state, with a child for [0 <= n < c] and with
    null for every other [n], the negative ones included. (The child
    list is shorter than 2^31, so that its length is an [int].) *)
Theorem GetChild_within_CountChildren t this c t1 n :
  CountChildren this t = Return c t1 →
  (∀ nd1, store t1 !! this = Some nd1 →
          Z.of_nat (length (m_children nd1)) < 2 ^ 31) →
  - 2 ^ 31 ≤ n < 2 ^ 31 →
  ∃ r, GetChild this n t = Return r t1 ∧ (is_Some r ↔ 0 ≤ n < c).
Proof. apply GetChild_range. Qed.

Lemma GetChild_within_CountChildren_witness :
  ∃ r, GetChild 1%nat 4 sample_tree = Return r sample_tree_expanded ∧
       (is_Some r ↔ 0 ≤ 4 < 5).
Proof.
  apply (GetChild_within_CountChildren sample_tree 1%nat 5
           sample_tree_expanded 4).
  - by vm_compute.
  - intros nd1 H. vm_compute in H. injection H as <-. by vm_compute.
  - lia.
Defined.

(** The children are read from the document once: when
    [CountChildren] has returned, a second call returns the same number
    and leaves the state as it is. *)
Theorem CountChildren_populates_once t this c t1 :
  CountChildren this t = Return c t1 →
  CountChildren this t1 = Return c t1.
Proof.
  intros Hrun.
  destruct (CountChildren_inv t this c t1 Hrun)
    as (nd1 & Hn1 & [(Hp & -> & _ & _)|(Hp & Hl & -> & _)]).
  - by eapply CountChildren_pretend.
  - by eapply CountChildren_loaded.
Qed.

Lemma CountChildren_populates_once_witness :
  CountChildren 1%nat sample_tree_expanded = Return 5 sample_tree_expanded.
Proof.
  apply (CountChildren_populates_once sample_tree 1%nat 5
           sample_tree_expanded).
  by vm_compute.
Defined.

(** ** The first expansion of a node *)

(** The first query of the children of a node in a tree in use: one
    fresh node per expected child, in order, and nothing else changes. *)
Lemma first_population tok t this nd obj :
  in_use tok t → store t !! this = Some nd →
  m_bPretendEmpty nd = false → m_bChildrenLoaded nd = false →
  object_at (m_pDoc t) (m_pObject nd) = Some obj →
  let specs := expected_children (m_bFollowReferences t) (m_pDoc t)
                 (m_pObject nd) obj in
  let cs := seq (next_node t) (length specs) in
  let t1 := populated this specs t in
  CountChildren this t = Return (int_of_size (length specs)) t1 ∧
  m_pDoc t1 = m_pDoc t ∧
  m_bFollowReferences t1 = m_bFollowReferences t ∧
  m_pRoot t1 = m_pRoot t ∧
  store t1 !! this = Some (set_loaded true (set_children cs nd)) ∧
  (∀ i spec, specs !! i = Some spec →
     store t !! (next_node t + i)%nat = None ∧
     store t1 !! (next_node t + i)%nat =
       Some (mkNode false false spec.1.1 spec.1.2 (Some this) spec.2 [])) ∧
  (∀ n, n ≠ this → n ∉ cs → store t1 !! n = store t !! n).
Proof.
  intros Huse Hn Hp Hl Ho specs cs t1. subst cs t1.
  destruct (in_use_facts tok t Huse) as (_ & Hb & Hu).
  pose proof Hb as Hb0. bounded_alt Hb.
  assert (this < next_node t)%nat as Hlt by (apply Hb; eauto).
  pose proof (Hu this nd Hn Hl) as Hc.
  pose proof (populated_bounded specs t this nd Hn Hb0) as Hb1.
  bounded_alt Hb1.
  destruct (populated_spec specs t this nd Hn Hlt)
    as (Hd & Hf & Hr & Hx & Ht & Hk & Hs).
  split_and!; try done.
  - by apply CountChildren_unloaded.
  - rewrite Ht. by rewrite Hc.
  - intros i spec Hi. split; [|by apply Hk].
    destruct (store t !! (next_node t + i)%nat) eqn:He; [|done].
    assert (next_node t + i < next_node t)%nat by (apply Hb; eauto). lia.
  - intros n Hne Hni.
    destruct (decide (n < next_node t)%nat) as [Hlt'|Hge]; [by apply Hs|].
    assert (¬ (n < next_node t + length specs)%nat) as Hge'.
    { intros Hlt'. apply Hni. apply elem_of_seq. lia. }
    destruct (store (populated this specs t) !! n) eqn:He1.
    { exfalso. apply Hge'. rewrite <- Hx. apply Hb1. eauto. }
    destruct (store t !! n) eqn:He; [|done].
    exfalso. apply Hge. apply Hb. eauto.
Qed.

(** The first time the children of a node on a dictionary are asked
    for, [CountChildren] returns the number of keys and has created one
    child per key, in the order of the keys: a node of kind
    [PT_Contained] on the value of the key, with the key as its parent
    key and the node as its parent. The children are fresh nodes that
    have not loaded children of their own; the document and all other
    nodes are as before. *)
Theorem dictionary_node_population tok t this nd d :
  in_use tok t → store t !! this = Some nd →
  m_bPretendEmpty nd = false → m_bChildrenLoaded nd = false →
  object_at (m_pDoc t) (m_pObject nd) = Some (Dictionary d) →
  Z.of_nat (length d) < 2 ^ 31 →
  ∃ t1 cs,
    CountChildren this t = Return (Z.of_nat (length d)) t1 ∧
    m_pDoc t1 = m_pDoc t ∧
    store t1 !! this = Some (set_loaded true (set_children cs nd)) ∧
    length cs = length d ∧
    (∀ i k v, d !! i = Some (k, v) →
       ∃ child, cs !! i = Some child ∧
         store t !! child = None ∧
         store t1 !! child =
           Some (mkNode false false (ptr_step (m_pObject nd) (AtKey k))
                   PT_Contained (Some this) k [])) ∧
    (∀ n, n ≠ this → n ∉ cs → store t1 !! n = store t !! n).
Proof.
  intros Huse Hn Hp Hl Ho Hlen.
  destruct (first_population tok t this nd _ Huse Hn Hp Hl Ho)
    as (Hrun & Hd & _ & _ & Ht & Hk & Hs).
  simpl in *. rewrite length_fmap in *.
  rewrite int_of_size_small in Hrun by done.
  eexists _, _. split_and!; [exact Hrun|exact Hd|exact Ht| | |exact Hs].
  - by rewrite length_seq.
  - intros i k v Hi. exists (next_node t + i)%nat.
    destruct (Hk i (ptr_step (m_pObject nd) (AtKey k), PT_Contained, k))
      as [Hfresh Hchild].
    { by rewrite list_lookup_fmap, Hi. }
    split_and!; [|done..]. apply lookup_seq. split; [done|].
    by eapply lookup_lt_Some.
Qed.

Lemma dictionary_node_population_witness :
  ∃ t1 cs,
    CountChildren 4%nat sample_tree_expanded = Return 1 t1 ∧
    m_pDoc t1 = sample_doc ∧
    store t1 !! 4%nat =
      Some (set_loaded true
              (set_children cs
                 (mkNode false false ptr_info PT_Contained (Some 1%nat)
                    "Info"%string []))) ∧
    length cs = 1%nat ∧
    (∀ i k v, [("Title"%string, String "t")] !! i = Some (k, v) →
       ∃ child, cs !! i = Some child ∧
         store sample_tree_expanded !! child = None ∧
         store t1 !! child =
           Some (mkNode false false (ptr_step ptr_info (AtKey k))
                   PT_Contained (Some 4%nat) k [])) ∧
    (∀ n, n ≠ 4%nat → n ∉ cs →
          store t1 !! n = store sample_tree_expanded !! n).
Proof.
  refine (dictionary_node_population sample_tokenizer sample_tree_expanded
            4%nat
            (mkNode false false ptr_info PT_Contained (Some 1%nat)
               "Info"%string [])
            [("Title"%string, String "t")] _ _ _ _ _ _).
  - sample_expanded_in_use.
  - reflexivity.
  - reflexivity.
  - reflexivity.
  - reflexivity.
  - by vm_compute.
Defined.

(** The first time the children of a node on an array are asked for,
    [CountChildren] returns the number of elements and has created one
    child per element, in order: a node of kind [PT_Contained] on the
    element, with the null name as parent key and the node as its
    parent. The children are fresh nodes that have not loaded children
    of their own; the document and all other nodes are as before. *)
Theorem array_node_population tok t this nd a :
  in_use tok t → store t !! this = Some nd →
  m_bPretendEmpty nd = false → m_bChildrenLoaded nd = false →
  object_at (m_pDoc t) (m_pObject nd) = Some (Array a) →
  Z.of_nat (length a) < 2 ^ 31 →
  ∃ t1 cs,
    CountChildren this t = Return (Z.of_nat (length a)) t1 ∧
    m_pDoc t1 = m_pDoc t ∧
    store t1 !! this = Some (set_loaded true (set_children cs nd)) ∧
    length cs = length a ∧
    (∀ i, (i < length a)%nat →
       ∃ child, cs !! i = Some child ∧
         store t !! child = None ∧
         store t1 !! child =
           Some (mkNode false false (ptr_step (m_pObject nd) (AtIndex i))
                   PT_Contained (Some this) KeyNull [])) ∧
    (∀ n, n ≠ this → n ∉ cs → store t1 !! n = store t !! n).
Proof.
  intros Huse Hn Hp Hl Ho Hlen.
  destruct (first_population tok t this nd _ Huse Hn Hp Hl Ho)
    as (Hrun & Hd & _ & _ & Ht & Hk & Hs).
  simpl in *. rewrite length_fmap, length_seq in *.
  rewrite int_of_size_small in Hrun by done.
  eexists _, _. split_and!; [exact Hrun|exact Hd|exact Ht| | |exact Hs].
  - by rewrite length_seq.
  - intros i Hi. exists (next_node t + i)%nat.
    destruct (Hk i (ptr_step (m_pObject nd) (AtIndex i), PT_Contained,
                    KeyNull))
      as [Hfresh Hchild].
    { rewrite list_lookup_fmap.
      by rewrite (proj2 (lookup_seq 0 (length a) i i) (conj eq_refl Hi)). }
    split_and!; [|done..]. by apply lookup_seq.
Qed.

Lemma array_node_population_witness :
  ∃ t1 cs,
    CountChildren 5%nat sample_tree_expanded = Return 3 t1 ∧
    m_pDoc t1 = sample_doc ∧
    store t1 !! 5%nat =
      Some (set_loaded true
              (set_children cs
                 (mkNode false false ptr_kids PT_Contained (Some 1%nat)
                    "Kids"%string []))) ∧
    length cs = 3%nat ∧
    (∀ i, (i < 3)%nat →
       ∃ child, cs !! i = Some child ∧
         store sample_tree_expanded !! child = None ∧
         store t1 !! child =
           Some (mkNode false false (ptr_step ptr_kids (AtIndex i))
                   PT_Contained (Some 5%nat) KeyNull [])) ∧
    (∀ n, n ≠ 5%nat → n ∉ cs →
          store t1 !! n = store sample_tree_expanded !! n).
Proof.
  refine (array_node_population sample_tokenizer sample_tree_expanded
            5%nat
            (mkNode false false ptr_kids PT_Contained (Some 1%nat)
               "Kids"%string [])
            [Number 10; Number 20; Number 30] _ _ _ _ _ _).
  - sample_expanded_in_use.
  - reflexivity.
  - reflexivity.
  - reflexivity.
  - reflexivity.
  - by vm_compute.
Defined.

(** A node on an object that is neither a dictionary nor an array, and
    not a reference either unless references are not followed, is a
    leaf: the first time its children are asked for, [CountChildren]
    returns 0 and [GetChild] null for every number, no node is created,
    and all that changes is that the node counts as loaded. *)
Theorem scalar_node_is_leaf tok t this nd obj :
  in_use tok t → store t !! this = Some nd →
  m_bPretendEmpty nd = false → m_bChildrenLoaded nd = false →
  object_at (m_pDoc t) (m_pObject nd) = Some obj →
  IsDictionary obj = false → IsArray obj = false →
  (IsReference obj = true → m_bFollowReferences t = false) →
  let t1 := set_store (<[this := set_loaded true nd]> (store t)) t in
  CountChildren this t = Return 0 t1 ∧
  ∀ n, GetChild this n t = Return None t1.
Proof.
  intros Huse Hn Hp Hl Ho Hd Ha Hr t1.
  destruct (first_population tok t this nd _ Huse Hn Hp Hl Ho)
    as (Hrun & _).
  destruct (in_use_facts tok t Huse) as (_ & _ & Hu).
  pose proof (Hu this nd Hn Hl) as Hc.
  assert (expected_children (m_bFollowReferences t) (m_pDoc t)
            (m_pObject nd) obj = []) as Hspecs.
  { destruct obj; try done. simpl. by rewrite Hr. }
  rewrite Hspecs in Hrun. simpl in Hrun.
  assert (populated this [] t = t1) as Ht1.
  { unfold populated, t1. simpl. f_equal.
    by rewrite (alter_alt_Some _ _ _ _ Hn). }
  rewrite Ht1 in Hrun. split; [done|]. intros n.
  destruct (CountChildren_inv t this 0 t1 Hrun)
    as (nd1 & Hn1 & [(_ & _ & _ & Hg)|(_ & _ & _ & Hg)]); [done|].
  rewrite Hg. unfold t1 in Hn1. simpl in Hn1.
  rewrite lookup_insert_eq in Hn1. injection Hn1 as <-. simpl.
  rewrite Hc. simpl. by case_match.
Qed.

Lemma scalar_node_is_leaf_witness :
  let t := state_after (new_PdfObjectModelTree sample_doc ptr_shared true)
             (empty_tree sample_doc true) in
  let nd := mkNode false false ptr_shared PT_Root None KeyNull [] in
  let t1 := set_store (<[1%nat := set_loaded true nd]> (store t)) t in
  CountChildren 1%nat t = Return 0 t1 ∧
  ∀ n, GetChild 1%nat n t = Return None t1.
Proof.
  refine (scalar_node_is_leaf sample_tokenizer
            (state_after (new_PdfObjectModelTree sample_doc ptr_shared true)
               (empty_tree sample_doc true))
            1%nat (mkNode false false ptr_shared PT_Root None KeyNull [])
            Null _ _ _ _ _ _ _ _).
  - by apply (in_use_new sample_tokenizer sample_doc ptr_shared true).
  - reflexivity.
  - reflexivity.
  - reflexivity.
  - reflexivity.
  - reflexivity.
  - reflexivity.
  - discriminate.
Defined.

(** ** From a child back to its row *)

Lemma GetChild_inv t this n r t1 :
  GetChild this n t = Return r t1 →
  ∃ nd1, store t1 !! this = Some nd1 ∧
    ((m_bPretendEmpty nd1 = true ∧ r = None ∧ t1 = t) ∨
     (m_bPretendEmpty nd1 = false ∧ m_bChildrenLoaded nd1 = true ∧
      r = if size_t_of_int n <? Z.of_nat (length (m_children nd1))
          then m_children nd1 !! Z.to_nat (size_t_of_int n)
          else None)).
Proof.
  intros Hrun.
  destruct (CountChildren this t) as [c t2| | | |] eqn:Hc; cycle 1.
  all: try (exfalso; unfold GetChild, CountChildren in *;
            monad_unfold;
            destruct (node_at this t) as [nd t0| | | |]; try done;
            destruct (m_bPretendEmpty nd); try done;
            destruct (EnsureChildrenLoaded this t0) as [? t3| | | |];
            try done;
            destruct (node_at this t3); done).
  destruct (CountChildren_inv t this c t2 Hc)
    as (nd1 & Hn1 & [(Hp & _ & -> & Hg)|(Hp & Hl & _ & Hg)]).
  - rewrite Hg in Hrun. injection Hrun as <- <-. exists nd1.
    split; [done|]. by left.
  - rewrite Hg in Hrun. injection Hrun as <- <-. exists nd1.
    split; [done|]. by right.
Qed.

(** A child that [GetChild(n)] hands out knows where it came from: its
    parent is the node asked, and [GetIndexInParent] gives back [n]. *)
Theorem GetChild_GetIndexInParent tok t this n child t1 :
  in_use tok t → 0 ≤ n < 2 ^ 31 →
  GetChild this n t = Return (Some child) t1 →
  GetParent child t1 = Return (Some this) t1 ∧
  GetIndexInParent child t1 = Return n t1.
Proof.
  intros Huse Hn Hrun.
  assert (in_use tok t1) as Huse1.
  { apply (in_use_call tok (call_GetChild this n) t); [done..|].
    simpl. by rewrite (bind_run _ _ _ _ _ Hrun). }
  destruct (linked_in_use tok t1 Huse1) as [[[_ Hok] _] _].
  destruct (GetChild_inv t this n _ t1 Hrun)
    as (nd1 & Hn1 & [(_ & ? & _)|(_ & _ & Hr)]); [done|].
  unfold size_t_of_int in Hr. rewrite Z.mod_small in Hr by lia.
  case_match; [|done]. symmetry in Hr.
  destruct (Hok this nd1 Hn1) as [Hnd Hch].
  destruct (Hch child) as (_ & cd & Hcd & Hpar);
    [by eapply list_elem_of_lookup_2|].
  split.
  - rewrite (GetParent_run t1 child cd Hcd). by rewrite Hpar.
  - rewrite (GetIndexInParent_child t1 child cd this nd1 (Z.to_nat n))
      by (done || lia).
    f_equal. lia.
Qed.

Lemma GetChild_GetIndexInParent_witness :
  GetParent 5%nat sample_tree_expanded = Return (Some 1%nat) sample_tree_expanded ∧
  GetIndexInParent 5%nat sample_tree_expanded = Return 3 sample_tree_expanded.
Proof.
  apply (GetChild_GetIndexInParent sample_tokenizer sample_tree 1%nat 3
           5%nat sample_tree_expanded).
  - by apply (in_use_new sample_tokenizer sample_doc ptr_catalog true).
  - lia.
  - by vm_compute.
Defined.

(** ** The destructor of the tree *)

(** Every live node of a tree in use is below the root. *)
Lemma all_nodes_below_root t h r ids :
  linked t → m_pRoot t = Some r → owns t h r ids →
  ∀ n, is_Some (store t !! n) → n ∈ ids.
Proof.
  intros [[[_ Hok] _] [_ Hp]] Hr Hown n.
  induction (lt_wf n) as [n _ IH]. intros [nd Hn].
  specialize (Hp n nd Hn). destruct (m_pParent nd) as [p|].
  - destruct Hp as (pd & Hpd & Hin).
    destruct (Hok p pd Hpd) as [_ Hch]. destruct (Hch n Hin) as [Hlt _].
    apply (owns_closed t h r ids p pd n Hown); [|done..].
    apply IH; [lia|eauto].
  - rewrite Hr in Hp. injection Hp as ->. by eapply owns_in.
Qed.

(** Deleting the tree of a state in use returns, for every budget from
    [next_node t]: the destructor of the root has deleted every node,
    the alias index is empty, so that the assertion of the destructor
    holds, and the document is as it was. The destructor of the adapter
    does just that to its tree. *)
Theorem tree_destructor_frees_all tok t fuel :
  in_use tok t → (next_node t ≤ fuel)%nat →
  ∃ t', delete_PdfObjectModelTree fuel t = Return tt t' ∧
        store t' = ∅ ∧ m_nodeAliases t' = [] ∧ m_pDoc t' = m_pDoc t ∧
        ∀ m, m_pTree m = Some t →
             delete_PdfObjectModel fuel m = Return tt (set_tree (Some t') m).
Proof.
  intros Huse Hfuel. pose proof (linked_in_use tok t Huse) as Hlinked.
  pose proof Hlinked as [[Hwf _] [(r & rd & Hr & Hrd & _) _]].
  destruct (InvalidateChildren_exact t r rd fuel Hwf Hrd Hfuel)
    as (ids & t1 & Hown & _ & Hrun & Hwf1 & Hf & Hthis & Hsame & Hdel).
  pose proof (all_nodes_below_root t fuel r ids Hlinked Hr Hown) as Hall.
  assert (store t1 = {[r := set_loaded false (set_children [] rd)]}) as Hst.
  { apply map_eq. intros n. rewrite lookup_singleton. case_decide as Hd.
    - by subst n.
    - destruct (decide (n ∈ ids)) as [Hin|Hni]; [by apply Hdel|].
      rewrite Hsame by done. destruct (store t !! n) eqn:He; [|done].
      exfalso. apply Hni, Hall. eauto. }
  pose proof Hwf1 as [Hinv1 _].
  destruct (NodeDeleted_present t1 r _ Hthis (tree_inv_pair _ _ _ Hinv1 Hthis))
    as (m1 & m2 & _ & _ & Hdelr).
  pose proof (preserves_destroy r t1 Hinv1) as Hpd.
  assert ((_ ← NodeDeleted r; release r) t1 =
          Return tt (set_store (delete r (store t1)) (set_aliases (m1 ++ m2) t1)))
    as Hdestroy.
  { by rewrite (bind_run _ _ _ _ _ Hdelr). }
  rewrite Hdestroy in Hpd. destruct Hpd as [Ha _].
  assert (m1 ++ m2 = []) as Hnil.
  { unfold alias_index_ok, alias_pairs, pairs_of in Ha. simpl in Ha.
    rewrite Hst, delete_singleton_eq, map_to_list_empty in Ha.
    by apply Permutation_nil_r in Ha. }
  exists (set_store (delete r (store t1)) (set_aliases (m1 ++ m2) t1)).
  assert (delete_PdfObjectModelTree fuel t =
          Return tt (set_store (delete r (store t1))
                       (set_aliases (m1 ++ m2) t1))) as Hdel'.
  { unfold delete_PdfObjectModelTree.
    erewrite bind_run by reflexivity. rewrite Hr.
    unfold delete_PdfObjectModelNode.
    erewrite bind_run; cycle 1.
    { rewrite (bind_run _ _ _ _ _ Hrun). exact Hdestroy. }
    erewrite bind_run by reflexivity. simpl. rewrite Hnil. done. }
  split_and!.
  - done.
  - simpl. by rewrite Hst, delete_singleton_eq.
  - done.
  - simpl. by destruct Hf as [-> _].
  - intros m Hm. unfold delete_PdfObjectModel.
    erewrite bind_run by reflexivity. rewrite Hm.
    unfold on_tree. by rewrite Hm, Hdel'.
Qed.

Lemma tree_destructor_frees_all_witness :
  ∃ t', delete_PdfObjectModelTree 7 sample_tree_expanded = Return tt t' ∧
        store t' = ∅ ∧ m_nodeAliases t' = [] ∧
        m_pDoc t' = m_pDoc sample_tree_expanded ∧
        ∀ m, m_pTree m = Some sample_tree_expanded →
             delete_PdfObjectModel 7 m = Return tt (set_tree (Some t') m).
Proof.
  apply (tree_destructor_frees_all sample_tokenizer sample_tree_expanded 7).
  - sample_expanded_in_use.
  - vm_compute. lia.
Defined.

(** ** A new key in a dictionary *)

Lemma GetKey_AddKey_eq d k v : GetKey (AddKey d k v) k = Some v.
Proof.
  induction d as [|[k' v'] d IH]; simpl.
  - by rewrite decide_True.
  - case_decide as Hd; simpl; [by rewrite decide_True|].
    case_match; simpl.
    + by rewrite decide_True.
    + by rewrite decide_False.
Qed.

Lemma GetKey_AddKey_ne d k v k2 :
  k2 ≠ k → GetKey (AddKey d k v) k2 = GetKey d k2.
Proof.
  intros Hne. induction d as [|[k' v'] d IH]; simpl.
  - by rewrite decide_False.
  - case_decide as Hd; simpl.
    + subst k'. by rewrite !decide_False.
    + case_match; simpl.
      * by rewrite (decide_False (P := k = k2)).
      * case_decide; [done|]. apply IH.
Qed.

Lemma CanInsertKey_run t this nd obj keyName :
  store t !! this = Some nd →
  object_at (m_pDoc t) (m_pObject nd) = Some obj →
  CanInsertKey this keyName t =
  Return (bool_decide (keyName ≠ KeyNull) &&
          match obj with
          | Dictionary d => negb (HasKey d keyName)
          | _ => false
          end) t.
Proof.
  intros Hn Ho. unfold CanInsertKey.
  destruct (bool_decide (keyName ≠ KeyNull)); [|done]. simpl.
  rewrite (bind_run _ _ _ _ _ (node_at_run _ _ _ Hn)).
  rewrite (bind_run _ _ _ _ _ (object_of_run _ _ _ Ho)).
  by destruct obj.
Qed.

(** [InsertKey(keyName)] on a node whose object is a dictionary without
    that key, for a name other than the null name: [CanInsertKey] holds,
    and the call puts a null value under the key into the dictionary in
    the document. The other keys keep their values, the nodes of the
    tree (with their cached children) are not touched, and afterwards
    [CanInsertKey] is false for that name. *)
Theorem InsertKey_adds_null_entry t this nd d keyName :
  store t !! this = Some nd →
  object_at (m_pDoc t) (m_pObject nd) = Some (Dictionary d) →
  keyName ≠ KeyNull → HasKey d keyName = false →
  ∃ doc',
    CanInsertKey this keyName t = Return true t ∧
    InsertKey this keyName t = Return tt (set_doc doc' t) ∧
    object_at doc' (m_pObject nd) =
      Some (Dictionary (AddKey d keyName Null)) ∧
    GetKey (AddKey d keyName Null) keyName = Some Null ∧
    (∀ k, k ≠ keyName → GetKey (AddKey d keyName Null) k = GetKey d k) ∧
    CanInsertKey this keyName (set_doc doc' t) =
      Return false (set_doc doc' t).
Proof.
  intros Hn Ho Hk Hhas.
  assert (CanInsertKey this keyName t = Return true t) as Hcan.
  { rewrite (CanInsertKey_run t this nd _ keyName Hn Ho).
    by rewrite bool_decide_eq_true_2, Hhas. }
  destruct (update_object_run (dictionary_add_null keyName) t nd _ _ Ho
              eq_refl) as (doc' & Hupd & Ho').
  exists doc'. split_and!; [done| |done| | |].
  - unfold InsertKey. rewrite (bind_run _ _ _ _ _ Hcan).
    erewrite bind_run by reflexivity.
    by rewrite (bind_run _ _ _ _ _ (node_at_run _ _ _ Hn)).
  - apply GetKey_AddKey_eq.
  - intros k Hne. by apply GetKey_AddKey_ne.
  - rewrite (CanInsertKey_run (set_doc doc' t) this nd _ keyName Hn Ho').
    unfold HasKey. rewrite GetKey_AddKey_eq. simpl.
    by rewrite andb_false_r.
Qed.

Lemma InsertKey_adds_null_entry_witness :
  ∃ doc',
    CanInsertKey 4%nat "Author" sample_tree_expanded =
      Return true sample_tree_expanded ∧
    InsertKey 4%nat "Author" sample_tree_expanded =
      Return tt (set_doc doc' sample_tree_expanded) ∧
    object_at doc' ptr_info =
      Some (Dictionary (AddKey [("Title"%string, String "t")] "Author" Null)) ∧
    GetKey (AddKey [("Title"%string, String "t")] "Author" Null) "Author" =
      Some Null ∧
    (∀ k, k ≠ "Author"%string →
          GetKey (AddKey [("Title"%string, String "t")] "Author" Null) k =
          GetKey [("Title"%string, String "t")] k) ∧
    CanInsertKey 4%nat "Author" (set_doc doc' sample_tree_expanded) =
      Return false (set_doc doc' sample_tree_expanded).
Proof.
  refine (InsertKey_adds_null_entry sample_tree_expanded 4%nat
            (mkNode false false ptr_info PT_Contained (Some 1%nat)
               "Info"%string [])
            [("Title"%string, String "t")] "Author" _ _ _ _).
  - reflexivity.
  - reflexivity.
  - discriminate.
  - reflexivity.
Defined.

(** ** Calls of the adapter on its tree *)

Lemma set_tree_same m t : m_pTree m = Some t → set_tree (Some t) m = m.
Proof. destruct m. simpl. by intros ->. Qed.

Lemma on_tree_run {A} (f : TreeM A) m t a t' :
  m_pTree m = Some t → f t = Return a t' →
  on_tree f m = Return a (set_tree (Some t') m).
Proof. intros Hm Hf. unfold on_tree. by rewrite Hm, Hf. Qed.

Lemma on_tree_read {A} (f : TreeM A) m t a :
  m_pTree m = Some t → f t = Return a t → on_tree f m = Return a m.
Proof.
  intros Hm Hf. rewrite (on_tree_run f m t a t Hm Hf).
  by rewrite set_tree_same.
Qed.

Lemma on_tree_inv {A} (f : TreeM A) m a m1 :
  on_tree f m = Return a m1 →
  ∃ t t1, m_pTree m = Some t ∧ f t = Return a t1 ∧
          m1 = set_tree (Some t1) m.
Proof.
  unfold on_tree. destruct (m_pTree m) as [t|]; [|done].
  destruct (f t) as [a' t1| | | |] eqn:Hf; try done.
  intros [= <- <-]. eauto.
Qed.

(** ** Rows and indexes *)

(** Child lists are shorter than the number of addresses handed out. *)
Lemma children_fit_int tok t n nd :
  in_use tok t → Z.of_nat (next_node t) < 2 ^ 31 →
  store t !! n = Some nd → Z.of_nat (length (m_children nd)) < 2 ^ 31.
Proof.
  intros Huse Hsmall Hn.
  destruct (in_use_facts tok t Huse) as ([_ Hok] & Hb & _).
  bounded_alt Hb. destruct (Hok n nd Hn) as [Hnd Hch].
  assert (m_children nd ⊆+ seq 0 (next_node t)) as Hsub.
  { apply NoDup_submseteq; [done|]. intros c Hc.
    destruct (Hch c Hc) as (_ & cd & Hcd & _).
    apply elem_of_seq. split; [lia|]. simpl. apply Hb. eauto. }
  apply submseteq_length in Hsub. rewrite length_seq in Hsub. lia.
Qed.

Lemma isValid_createIndex r c p :
  isValid (createIndex r c p) = true ↔ 0 ≤ r ∧ 0 ≤ c.
Proof.
  unfold createIndex. cbn [isValid].
  rewrite andb_true_iff, !Z.leb_le. done.
Qed.

Lemma isValid_createIndex_true r c p :
  0 ≤ r → 0 ≤ c → createIndex r c p = mkIndex true r c (Some p).
Proof.
  intros Hr Hc. unfold createIndex.
  by rewrite (proj2 (Z.leb_le _ _) Hr), (proj2 (Z.leb_le _ _) Hc).
Qed.

(** The adapter hands out a valid index exactly for the rows it counts
    and the columns that are not negative: when [rowCount(parent)]
    returns [n], [index(r, c, parent)] from the same state returns in
    the same state, with a valid index of row [r] and column [c] for
    [0 <= r < n] and [0 <= c], and with an invalid index for every
    other row and for a negative column. At the top level the rows are
    the one row 0, of the root. (Fewer than 2^31 nodes have been created
    for the tree.) *)
Theorem index_valid_within_rowCount tok m t p r c n m1 :
  m_pTree m = Some t → in_use tok t →
  rowCount p m = Return n m1 →
  nodes_created m1 < 2 ^ 31 →
  - 2 ^ 31 ≤ r < 2 ^ 31 →
  ∃ idx, index r c p m = Return idx m1 ∧
         (isValid idx = true ↔ 0 ≤ r < n ∧ 0 ≤ c) ∧
         (isValid idx = true →
          row idx = r ∧ column idx = c ∧ is_Some (internalPointer idx)).
Proof.
  intros Hm Huse Hrows Hsmall Hr. unfold rowCount in Hrows. unfold index.
  destruct (isValid p) eqn:Hv; cbn [negb] in *.
  - destruct (internalPointer p) as [node|] eqn:Hip; [|done].
    apply bind_Return in Hrows as (node' & m0 & Hret & Hrows).
    injection Hret as <- <-.
    apply on_tree_inv in Hrows as (t0 & t1 & Hm0 & Hc & ->).
    rewrite Hm in Hm0. injection Hm0 as <-.
    assert (in_use tok t1) as Huse1.
    { apply (in_use_call tok (call_CountChildren node) t); [done..|].
      simpl. by rewrite (bind_run _ _ _ _ _ Hc). }
    assert (∀ nd1, store t1 !! node = Some nd1 →
                   Z.of_nat (length (m_children nd1)) < 2 ^ 31) as Hlen.
    { intros nd1 Hn1.
      by apply (children_fit_int tok t1 node nd1 Huse1). }
    destruct (GetChild_range t node n t1 r Hc Hlen Hr) as (res & Hg & Hiff).
    erewrite bind_run by reflexivity.
    rewrite (bind_run _ _ _ _ _ (on_tree_run _ m t _ _ Hm Hg)).
    destruct res as [child|].
    + eexists. split; [reflexivity|]. rewrite isValid_createIndex.
      split; [|by eauto].
      assert (0 ≤ r < n) as Hin by (apply Hiff; eauto).
      split; intros ?; lia.
    + eexists. split; [reflexivity|]. cbn. split; [|done].
      split; [done|]. intros [Hin _]. apply Hiff in Hin. by destruct Hin.
  - injection Hrows as <- <-.
    destruct (linked_in_use tok t Huse) as [_ [(root & rd & Hroot & _) _]].
    destruct (r =? 0) eqn:Hr0.
    + apply Z.eqb_eq in Hr0. subst r.
      rewrite (bind_run _ _ _ _ _
                 (on_tree_read (gets m_pRoot) m t _ Hm eq_refl)).
      rewrite Hroot. eexists. split; [reflexivity|].
      rewrite isValid_createIndex. split; [|by eauto].
      split; intros ?; lia.
    + apply Z.eqb_neq in Hr0. eexists. split; [reflexivity|]. cbn.
      split; [|done]. split; [done|lia].
Qed.

Lemma index_valid_within_rowCount_witness :
  ∃ idx, index 2 0 (label_cell 1%nat) (mkModel false (Some sample_tree) []) =
           Return idx (mkModel false (Some sample_tree_expanded) []) ∧
         (isValid idx = true ↔ 0 ≤ 2 < 5 ∧ 0 ≤ 0) ∧
         (isValid idx = true →
          row idx = 2 ∧ column idx = 0 ∧ is_Some (internalPointer idx)).
Proof.
  apply (index_valid_within_rowCount sample_tokenizer
           (mkModel false (Some sample_tree) []) sample_tree
           (label_cell 1%nat) 2 0 5
           (mkModel false (Some sample_tree_expanded) [])).
  - reflexivity.
  - by apply (in_use_new sample_tokenizer sample_doc ptr_catalog true).
  - vm_compute. reflexivity.
  - vm_compute. reflexivity.
  - lia.
Defined.

(** A node with a parent is at a position of the parent's child list
    that an [int] holds, when fewer than 2^31 nodes have been created. *)
Lemma GetIndexInParent_returns tok t node nd :
  in_use tok t → Z.of_nat (next_node t) < 2 ^ 31 →
  store t !! node = Some nd →
  ∃ i, Z.of_nat i < 2 ^ 31 ∧
       GetIndexInParent node t = Return (Z.of_nat i) t.
Proof.
  intros Huse Hsmall Hn.
  destruct (linked_in_use tok t Huse) as [[[_ Hok] _] [_ Hp]].
  specialize (Hp node nd Hn).
  destruct (m_pParent nd) as [q|] eqn:Hq.
  - destruct Hp as (qd & Hqd & Hin).
    apply list_elem_of_lookup in Hin as [i Hi].
    pose proof (children_fit_int tok t q qd Huse Hsmall Hqd) as Hlen.
    pose proof (lookup_lt_Some _ _ _ Hi) as Hlt.
    exists i. split; [lia|].
    eapply GetIndexInParent_child; [done..| |done|lia].
    by destruct (Hok q qd Hqd).
  - exists 0%nat. split; [done|].
    by apply (GetIndexInParent_root t node nd).
Qed.

(** The parent of a valid index that [index(r, c, parent)] handed out
    (so [0 <= r] and [0 <= c]) is the index of [parent]'s node: its row
    is the row of that node in its own parent, which is not negative,
    and its column is 0; it is a valid index. At the top level it is the
    invalid index. [parent] neither aborts nor throws there. (Fewer than
    2^31 nodes have been created for the tree, so that the [int] which
    counts the row does not overflow.) *)
Theorem parent_of_index tok m t p r c idx m1 :
  m_pTree m = Some t → in_use tok t →
  0 ≤ r < 2 ^ 31 →
  index r c p m = Return idx m1 → isValid idx = true →
  nodes_created m1 < 2 ^ 31 →
  0 ≤ c ∧
  if isValid p then
    ∃ node i, internalPointer p = Some node ∧
              0 ≤ i < 2 ^ 31 ∧
              on_tree (GetIndexInParent node) m1 = Return i m1 ∧
              parent idx m1 = Return (createIndex i 0 node) m1 ∧
              isValid (createIndex i 0 node) = true
  else parent idx m1 = Return QModelIndex_null m1.
Proof.
  intros Hm Huse Hr Hidx Hvalid Hsmall. unfold index in Hidx.
  destruct (isValid p) eqn:Hv; simpl in *.
  - destruct (internalPointer p) as [node|]; [|done]. simpl in Hidx.
    apply bind_Return in Hidx as (node' & m0 & Hret & Hidx).
    injection Hret as <- <-.
    apply bind_Return in Hidx as (res & m2 & Hg & Hidx).
    apply on_tree_inv in Hg as (t0 & t1 & Hm0 & Hg & ->).
    rewrite Hm in Hm0. injection Hm0 as <-.
    destruct res as [child|]; injection Hidx as <- <-; [|done].
    apply isValid_createIndex in Hvalid as [_ Hc]. split; [done|].
    rewrite (isValid_createIndex_true r c child) by lia.
    assert (in_use tok t1) as Huse1.
    { apply (in_use_call tok (call_GetChild node r) t); [done..|].
      simpl. by rewrite (bind_run _ _ _ _ _ Hg). }
    pose proof (linked_in_use tok t1 Huse1) as Hlinked.
    destruct Hlinked as [[[_ Hok] _] [_ Hp]].
    destruct (GetChild_inv t node r _ t1 Hg)
      as (nd1 & Hn1 & [(_ & ? & _)|(_ & _ & Hres)]); [done|].
    case_match; [|done]. symmetry in Hres.
    destruct (Hok node nd1 Hn1) as [_ Hch].
    destruct (Hch child) as (_ & cd & Hcd & Hpar);
      [by eapply list_elem_of_lookup_2|].
    (* the row of [node] *)
    destruct (GetIndexInParent_returns tok t1 node nd1 Huse1 Hsmall Hn1)
      as (i & Hilt & Hi).
    set (m1 := set_tree (Some t1) m).
    assert (m_pTree m1 = Some t1) as Hm1 by done.
    exists node, (Z.of_nat i). split_and!; [done|lia|lia| | |].
    + by apply (on_tree_read _ m1 t1).
    + unfold parent. simpl.
      rewrite (bind_run _ _ _ _ _
                 (on_tree_read _ m1 t1 _ Hm1 (GetParent_run _ _ _ Hcd))).
      rewrite Hpar.
      rewrite (bind_run _ _ _ _ _ (on_tree_read _ m1 t1 _ Hm1 Hi)).
      replace (0 <=? Z.of_nat i) with true by (symmetry; apply Z.leb_le; lia).
      done.
    + apply (isValid_createIndex (Z.of_nat i) 0 node). lia.
  - destruct (r =? 0); [|by injection Hidx as <- <-].
    apply bind_Return in Hidx as (root & m2 & Hroot & Hidx).
    apply on_tree_inv in Hroot as (t0 & t1 & Hm0 & Hroot & ->).
    rewrite Hm in Hm0. injection Hm0 as <-.
    injection Hroot as <- <-.
    destruct (m_pRoot t) as [root|] eqn:Hr0; [|done].
    injection Hidx as <- <-. rewrite set_tree_same by done.
    apply isValid_createIndex in Hvalid as [Hr0' Hc]. split; [done|].
    rewrite (isValid_createIndex_true _ c root) by lia.
    destruct (linked_in_use tok t Huse) as [_ [(r' & rd & Hr' & Hrd & Hrp) _]].
    rewrite Hr0 in Hr'. injection Hr' as <-.
    unfold parent. simpl.
    rewrite (bind_run _ _ _ _ _
               (on_tree_read _ m t _ Hm (GetParent_run _ _ _ Hrd))).
    rewrite Hrp.
    rewrite (bind_run _ _ _ _ _
               (on_tree_read (gets m_pRoot) m t _ Hm eq_refl)).
    rewrite Hr0. by rewrite bool_decide_eq_false_2 by (by intros []).
Qed.

Lemma parent_of_index_witness :
  let m1 := mkModel false (Some sample_tree_expanded) [] in
  0 ≤ 0 ∧
  ∃ node i, internalPointer (label_cell 1%nat) = Some node ∧
            0 ≤ i < 2 ^ 31 ∧
            on_tree (GetIndexInParent node) m1 = Return i m1 ∧
            parent (createIndex 2 0 4%nat) m1 =
              Return (createIndex i 0 node) m1 ∧
            isValid (createIndex i 0 node) = true.
Proof.
  apply (parent_of_index sample_tokenizer
           (mkModel false (Some sample_tree) []) sample_tree
           (label_cell 1%nat) 2 0 (createIndex 2 0 4%nat)
           (mkModel false (Some sample_tree_expanded) [])).
  - reflexivity.
  - by apply (in_use_new sample_tokenizer sample_doc ptr_catalog true).
  - lia.
  - vm_compute. reflexivity.
  - reflexivity.
  - vm_compute. reflexivity.
Defined.

(** ** What the rows show *)

Lemma object_of_node_run t node nd obj :
  store t !! node = Some nd →
  object_at (m_pDoc t) (m_pObject nd) = Some obj →
  object_of_node node t = Return obj t.
Proof.
  intros Hn Ho. unfold object_of_node.
  rewrite (bind_run _ _ _ _ _ (node_at_run _ _ _ Hn)).
  by apply object_of_run.
Qed.

(** The label of a row below another one. *)
Lemma data_label_child m t child cd p pd item i :
  m_pTree m = Some t →
  store t !! child = Some cd → m_pParent cd = Some p →
  store t !! p = Some pd →
  object_at (m_pDoc t) (m_pObject pd) = Some item →
  NoDup (m_children pd) → m_children pd !! i = Some child →
  Z.of_nat i < 2 ^ 31 →
  data_label child m =
  Return (QVariant_QString
            match item with
            | Dictionary _ => c_str (m_parentKey cd)
            | Array _ => "<element " +:+ arg_int (Z.of_nat i) +:+ ">"
            | Reference ref =>
                arg_uint (ObjectNumber ref) +:+ " " +:+
                arg_uint (GenerationNumber ref) +:+ " obj"
            | _ => "<UNKNOWN>"
            end) m.
Proof.
  intros Hm Hcd Hpar Hpd Ho Hnd Hi Hlt. unfold data_label.
  rewrite (bind_run _ _ _ _ _
             (on_tree_read _ m t _ Hm (GetParent_run _ _ _ Hcd))).
  rewrite Hpar.
  rewrite (bind_run _ _ _ _ _
             (on_tree_read _ m t _ Hm (object_of_node_run _ _ _ _ Hpd Ho))).
  destruct item; try done.
  - simpl.
    by rewrite (bind_run _ _ _ _ _
                  (on_tree_read _ m t _ Hm
                     (GetIndexInParent_child _ _ _ _ _ _ Hcd Hpar Hpd Hnd Hi
                        Hlt))).
  - simpl.
    by rewrite (bind_run _ _ _ _ _
                  (on_tree_read _ m t _ Hm (GetParentKey_run _ _ _ Hcd))).
Qed.

(** A node that has loaded the children [cs] hands out [cs !! i] as
    child [i]. *)
Lemma GetChild_nth t this nd i child :
  store t !! this = Some nd → m_bPretendEmpty nd = false →
  m_bChildrenLoaded nd = true →
  m_children nd !! i = Some child → Z.of_nat i < 2 ^ 31 →
  GetChild this (Z.of_nat i) t = Return (Some child) t.
Proof.
  intros Hn Hp Hl Hi Hsmall.
  rewrite (GetChild_loaded t this nd _ Hn Hp Hl).
  unfold size_t_of_int. rewrite Z.mod_small by lia.
  replace (Z.of_nat i <? Z.of_nat (length (m_children nd))) with true;
    cycle 1.
  { symmetry. apply Z.ltb_lt. apply lookup_lt_Some in Hi. lia. }
  by rewrite Nat2Z.id, Hi.
Qed.

Lemma index_child m t p this child i c :
  m_pTree m = Some t → isValid p = true → internalPointer p = Some this →
  GetChild this i t = Return (Some child) t →
  index i c p m = Return (createIndex i c child) m.
Proof.
  intros Hm Hv Hip Hg. unfold index. rewrite Hv, Hip. simpl.
  erewrite bind_run by reflexivity.
  by rewrite (bind_run _ _ _ _ _ (on_tree_read _ m t _ Hm Hg)).
Qed.

Lemma rowCount_run m t p this c t1 :
  m_pTree m = Some t → isValid p = true → internalPointer p = Some this →
  CountChildren this t = Return c t1 →
  rowCount p m = Return c (set_tree (Some t1) m).
Proof.
  intros Hm Hv Hip Hc. unfold rowCount. rewrite Hv, Hip. simpl.
  erewrite bind_run by reflexivity. by apply (on_tree_run _ m t).
Qed.

Lemma GetObjectForIndex_run m t r c node nd :
  m_pTree m = Some t → store t !! node = Some nd →
  0 ≤ r → 0 ≤ c →
  GetObjectForIndex (createIndex r c node) m = Return (Some (m_pObject nd)) m.
Proof.
  intros Hm Hn Hr Hc. rewrite (isValid_createIndex_true r c node Hr Hc).
  unfold GetObjectForIndex. simpl.
  erewrite bind_run by reflexivity.
  by rewrite (bind_run _ _ _ _ _
                (on_tree_read _ m t _ Hm (GetObject_run _ _ _ Hn))).
Qed.

Section Rows.

Variable GetDataTypeString : PdfVariant → string.
Variable ToString : PdfVariant → string.

Lemma data_label_cell m r node :
  0 ≤ r →
  data GetDataTypeString ToString (createIndex r 0 node) Qt.DisplayRole m =
  data_label node m.
Proof.
  intros Hr. rewrite (isValid_createIndex_true r 0 node Hr) by done.
  unfold data. simpl. by erewrite bind_run by reflexivity.
Qed.

(** The rows below a dictionary show its keys. When the row of a node
    on a dictionary is expanded for the first time, [rowCount] returns
    the number of keys, and for every key, in the order of the keys,
    there is a row whose index [index] hands out, whose label (column 0,
    display role) is the name of the key as a C string, that is up to
    its first NUL character if it has one, and whose object is the value
    of that key in the dictionary. *)
Theorem dictionary_rows_show_keys tok m t p this nd d i (k : PdfName) v :
  m_pTree m = Some t → in_use tok t →
  isValid p = true → internalPointer p = Some this →
  store t !! this = Some nd →
  m_bPretendEmpty nd = false → m_bChildrenLoaded nd = false →
  object_at (m_pDoc t) (m_pObject nd) = Some (Dictionary d) →
  Z.of_nat (length d) < 2 ^ 31 →
  d !! i = Some (k, v) →
  ∃ m1 child,
    rowCount p m = Return (Z.of_nat (length d)) m1 ∧
    index (Z.of_nat i) 0 p m1 = Return (createIndex (Z.of_nat i) 0 child) m1 ∧
    data GetDataTypeString ToString (createIndex (Z.of_nat i) 0 child)
      Qt.DisplayRole m1 = Return (QVariant_QString (c_str k)) m1 ∧
    GetObjectForIndex (createIndex (Z.of_nat i) 0 child) m1 =
      Return (Some (ptr_step (m_pObject nd) (AtKey k))) m1.
Proof.
  intros Hm Huse Hv Hip Hn Hp Hl Ho Hlen Hi.
  destruct (first_population tok t this nd _ Huse Hn Hp Hl Ho)
    as (Hrun & Hd & _ & _ & Ht & Hk & _).
  cbn [expected_children] in Hrun, Hd, Ht, Hk.
  rewrite length_fmap in Hrun, Ht.
  rewrite int_of_size_small in Hrun by done.
  set (t1 := populated _ _ _) in *. set (m1 := set_tree (Some t1) m).
  assert (m_pTree m1 = Some t1) as Hm1 by done.
  destruct (Hk i (ptr_step (m_pObject nd) (AtKey k), PT_Contained, k))
    as [_ Hchild].
  { by rewrite list_lookup_fmap, Hi. }
  simpl in Hchild. pose proof (lookup_lt_Some _ _ _ Hi) as Hlt.
  assert (seq (next_node t) (length d) !! i = Some (next_node t + i)%nat)
    as Hci by (by apply lookup_seq).
  exists m1, (next_node t + i)%nat. split_and!.
  - by apply (rowCount_run m t p this).
  - apply (index_child m1 t1 p this); [done..|].
    apply (GetChild_nth t1 this _ i _ Ht); [done..|lia].
  - rewrite data_label_cell by lia.
    rewrite (data_label_child m1 t1 _ _ this _ (Dictionary d) i Hm1 Hchild
               eq_refl Ht); [done| |apply NoDup_seq|done|lia].
    by rewrite Hd.
  - by rewrite (GetObjectForIndex_run m1 t1 _ _ _ _ Hm1 Hchild) by lia.
Qed.


(** The rows below an array are numbered. When the row of a node on an
    array is expanded for the first time, [rowCount] returns the number
    of elements, and for every position [i] there is a row whose index
    [index] hands out, whose label is [<element i>] and whose object is
    the element at that position. *)
Theorem array_rows_are_numbered tok m t p this nd a i :
  m_pTree m = Some t → in_use tok t →
  isValid p = true → internalPointer p = Some this →
  store t !! this = Some nd →
  m_bPretendEmpty nd = false → m_bChildrenLoaded nd = false →
  object_at (m_pDoc t) (m_pObject nd) = Some (Array a) →
  Z.of_nat (length a) < 2 ^ 31 →
  (i < length a)%nat →
  ∃ m1 child,
    rowCount p m = Return (Z.of_nat (length a)) m1 ∧
    index (Z.of_nat i) 0 p m1 = Return (createIndex (Z.of_nat i) 0 child) m1 ∧
    data GetDataTypeString ToString (createIndex (Z.of_nat i) 0 child)
      Qt.DisplayRole m1 =
      Return (QVariant_QString ("<element " +:+ arg_int (Z.of_nat i) +:+ ">"))
        m1 ∧
    GetObjectForIndex (createIndex (Z.of_nat i) 0 child) m1 =
      Return (Some (ptr_step (m_pObject nd) (AtIndex i))) m1.
Proof.
  intros Hm Huse Hv Hip Hn Hp Hl Ho Hlen Hi.
  destruct (first_population tok t this nd _ Huse Hn Hp Hl Ho)
    as (Hrun & Hd & _ & _ & Ht & Hk & _).
  cbn [expected_children] in Hrun, Hd, Ht, Hk.
  rewrite length_fmap, length_seq in Hrun, Ht.
  rewrite int_of_size_small in Hrun by done.
  set (t1 := populated _ _ _) in *. set (m1 := set_tree (Some t1) m).
  assert (m_pTree m1 = Some t1) as Hm1 by done.
  destruct (Hk i (ptr_step (m_pObject nd) (AtIndex i), PT_Contained, KeyNull))
    as [_ Hchild].
  { rewrite list_lookup_fmap.
    by rewrite (proj2 (lookup_seq 0 (length a) i i) (conj eq_refl Hi)). }
  simpl in Hchild.
  assert (seq (next_node t) (length a) !! i = Some (next_node t + i)%nat)
    as Hci by (by apply lookup_seq).
  exists m1, (next_node t + i)%nat. split_and!.
  - by apply (rowCount_run m t p this).
  - apply (index_child m1 t1 p this); [done..|].
    apply (GetChild_nth t1 this _ i _ Ht); [done..|lia].
  - rewrite data_label_cell by lia.
    rewrite (data_label_child m1 t1 _ _ this _ (Array a) i Hm1 Hchild
               eq_refl Ht); [done| |apply NoDup_seq|done|lia].
    by rewrite Hd.
  - by rewrite (GetObjectForIndex_run m1 t1 _ _ _ _ Hm1 Hchild) by lia.
Qed.

End Rows.

Lemma dictionary_rows_show_keys_witness :
  ∃ m1 child,
    rowCount (label_cell 1%nat) (mkModel false (Some sample_tree) []) =
      Return 5 m1 ∧
    index 3 0 (label_cell 1%nat) m1 = Return (createIndex 3 0 child) m1 ∧
    data sample_GetDataTypeString sample_ToString (createIndex 3 0 child)
      Qt.DisplayRole m1 = Return (QVariant_QString "Kids") m1 ∧
    GetObjectForIndex (createIndex 3 0 child) m1 = Return (Some ptr_kids) m1.
Proof.
  refine (dictionary_rows_show_keys sample_GetDataTypeString
            sample_ToString sample_tokenizer
            (mkModel false (Some sample_tree) []) sample_tree
            (label_cell 1%nat) 1%nat
            (mkNode false false ptr_catalog PT_Root None KeyNull [])
            [("A"%string, Reference ref_shared);
             ("B"%string, Reference ref_shared);
             ("Info"%string, Dictionary [("Title"%string, String "t")]);
             ("Kids"%string, Array [Number 10; Number 20; Number 30]);
             ("Lost"%string, Reference ref_missing)]
            3%nat "Kids"%string
            (Array [Number 10; Number 20; Number 30]) _ _ _ _ _ _ _ _ _ _).
  - reflexivity.
  - by apply (in_use_new sample_tokenizer sample_doc ptr_catalog true).
  - reflexivity.
  - reflexivity.
  - reflexivity.
  - reflexivity.
  - reflexivity.
  - reflexivity.
  - by vm_compute.
  - reflexivity.
Defined.

Lemma array_rows_are_numbered_witness :
  ∃ m1 child,
    rowCount (label_cell 5%nat) (mkModel false (Some sample_tree_expanded) []) =
      Return 3 m1 ∧
    index 2 0 (label_cell 5%nat) m1 = Return (createIndex 2 0 child) m1 ∧
    data sample_GetDataTypeString sample_ToString (createIndex 2 0 child)
      Qt.DisplayRole m1 = Return (QVariant_QString "<element 2>") m1 ∧
    GetObjectForIndex (createIndex 2 0 child) m1 =
      Return (Some (ptr_step ptr_kids (AtIndex 2))) m1.
Proof.
  refine (array_rows_are_numbered sample_GetDataTypeString
            sample_ToString sample_tokenizer
            (mkModel false (Some sample_tree_expanded) [])
            sample_tree_expanded
            (label_cell 5%nat) 5%nat
            (mkNode false false ptr_kids PT_Contained (Some 1%nat)
               "Kids"%string [])
            [Number 10; Number 20; Number 30] 2%nat _ _ _ _ _ _ _ _ _ _).
  - reflexivity.
  - sample_expanded_in_use.
  - reflexivity.
  - reflexivity.
  - reflexivity.
  - reflexivity.
  - reflexivity.
  - reflexivity.
  - by vm_compute.
  - vm_compute. lia.
Defined.

(** ** References in the view *)

Lemma data_icon_reference m t node nd r c t1 :
  m_pTree m = Some t → store t !! node = Some nd →
  object_at (m_pDoc t) (m_pObject nd) = Some (Reference r) →
  CountChildren node t = Return c t1 →
  data_icon node m =
  Return (QVariant_QPixmap
            (if c =? 0 then ":/icons/dangling_reference.png"
             else ":/icons/reference.png")) (set_tree (Some t1) m).
Proof.
  intros Hm Hn Ho Hc. unfold data_icon.
  rewrite (bind_run _ _ _ _ _
             (on_tree_read _ m t _ Hm (object_of_node_run _ _ _ _ Hn Ho))).
  cbn iota.
  erewrite bind_run; cycle 1.
  { by rewrite (bind_run _ _ _ _ _ (on_tree_run _ m t _ _ Hm Hc)). }
  done.
Qed.

Section References.

Variable GetDataTypeString : PdfVariant → string.
Variable ToString : PdfVariant → string.

(** The icon of a reference tells whether it resolves, and asking for
    it expands the row. For a node on a reference, in a tree that
    follows references, that has not loaded its children: when the
    document has the referenced object, the icon is that of a reference
    and the node has got one row, labelled with the numbers of the
    reference and [obj], whose object is the referenced object; when
    the document does not have it, the icon is that of a dangling
    reference and the node has no rows. *)
Theorem reference_icon_and_row tok m t p this nd r :
  m_pTree m = Some t → in_use tok t →
  isValid p = true → column p = 0 → internalPointer p = Some this →
  store t !! this = Some nd →
  m_bPretendEmpty nd = false → m_bChildrenLoaded nd = false →
  m_bFollowReferences t = true →
  object_at (m_pDoc t) (m_pObject nd) = Some (Reference r) →
  match vec_lookup (GetObjects (m_pDoc t)) r with
  | Some _ =>
      ∃ m1 child,
        data GetDataTypeString ToString p Qt.DecorationRole m =
          Return (QVariant_QPixmap ":/icons/reference.png") m1 ∧
        rowCount p m1 = Return 1 m1 ∧
        index 0 0 p m1 = Return (createIndex 0 0 child) m1 ∧
        data GetDataTypeString ToString (createIndex 0 0 child)
          Qt.DisplayRole m1 =
          Return (QVariant_QString
                    (arg_uint (ObjectNumber r) +:+ " " +:+
                     arg_uint (GenerationNumber r) +:+ " obj")) m1 ∧
        GetObjectForIndex (createIndex 0 0 child) m1 =
          Return (Some (mkPtr r [])) m1
  | None =>
      ∃ m1,
        data GetDataTypeString ToString p Qt.DecorationRole m =
          Return (QVariant_QPixmap ":/icons/dangling_reference.png") m1 ∧
        rowCount p m1 = Return 0 m1 ∧
        ∀ n, index n 0 p m1 = Return QModelIndex_null m1
  end.
Proof.
  intros Hm Huse Hv Hcol Hip Hn Hp Hl Hfollow Ho.
  destruct (first_population tok t this nd _ Huse Hn Hp Hl Ho)
    as (Hrun & Hd & _ & _ & Ht & Hk & _).
  cbn [expected_children] in Hrun, Hd, Ht, Hk.
  rewrite Hfollow in Hrun, Hd, Ht, Hk.
  unfold PdfVecObjects_GetObject in Hrun, Hd, Ht, Hk.
  assert (data GetDataTypeString ToString p Qt.DecorationRole m =
          data_icon this m) as Hdata.
  { unfold data. rewrite Hv, Hcol, Hip. simpl.
    by erewrite bind_run by reflexivity. }
  destruct (vec_lookup (GetObjects (m_pDoc t)) r) as [v|] eqn:Hlook.
  - set (t1 := populated _ _ _) in *. set (m1 := set_tree (Some t1) m).
    assert (m_pTree m1 = Some t1) as Hm1 by done.
    destruct (Hk 0%nat (mkPtr r [], PT_Referenced, KeyNull) eq_refl)
      as [_ Hchild].
    simpl in Hchild. rewrite Nat.add_0_r in Hchild.
    simpl in Ht.
    assert (CountChildren this t1 = Return 1 t1) as Hrun1.
    { by rewrite (CountChildren_loaded t1 this _ Ht). }
    exists m1, (next_node t). split_and!.
    + rewrite Hdata.
      by rewrite (data_icon_reference m t this nd r _ t1 Hm Hn Ho Hrun).
    + rewrite (rowCount_run m1 t1 p this _ t1 Hm1 Hv Hip Hrun1).
      by rewrite set_tree_same.
    + apply (index_child m1 t1 p this); [done..|].
      by apply (GetChild_nth t1 this _ 0 _ Ht).
    + rewrite data_label_cell by done.
      rewrite (data_label_child m1 t1 _ _ this _ (Reference r) 0 Hm1 Hchild
                 eq_refl Ht); [done| |apply NoDup_singleton|done|done].
      by rewrite Hd.
    + by rewrite (GetObjectForIndex_run m1 t1 _ _ _ _ Hm1 Hchild).
  - set (t1 := populated _ _ _) in *. set (m1 := set_tree (Some t1) m).
    assert (m_pTree m1 = Some t1) as Hm1 by done.
    simpl in Ht.
    assert (CountChildren this t1 = Return 0 t1) as Hrun1.
    { by rewrite (CountChildren_loaded t1 this _ Ht). }
    exists m1. split_and!.
    + rewrite Hdata.
      by rewrite (data_icon_reference m t this nd r _ t1 Hm Hn Ho Hrun).
    + rewrite (rowCount_run m1 t1 p this _ t1 Hm1 Hv Hip Hrun1).
      by rewrite set_tree_same.
    + intros n. unfold index. rewrite Hv, Hip. simpl.
      erewrite bind_run by reflexivity.
      erewrite bind_run; cycle 1.
      { apply (on_tree_read _ m1 t1 _ Hm1).
        by apply (GetChild_loaded t1 this _ n Ht). }
      simpl. by destruct (size_t_of_int n <? Z.of_nat 0).
Qed.

End References.

Lemma reference_icon_and_row_witness :
  ∃ m1 child,
    data sample_GetDataTypeString sample_ToString (label_cell 2%nat)
      Qt.DecorationRole (mkModel false (Some sample_tree_expanded) []) =
      Return (QVariant_QPixmap ":/icons/reference.png") m1 ∧
    rowCount (label_cell 2%nat) m1 = Return 1 m1 ∧
    index 0 0 (label_cell 2%nat) m1 = Return (createIndex 0 0 child) m1 ∧
    data sample_GetDataTypeString sample_ToString (createIndex 0 0 child)
      Qt.DisplayRole m1 = Return (QVariant_QString "2 0 obj") m1 ∧
    GetObjectForIndex (createIndex 0 0 child) m1 =
      Return (Some ptr_shared) m1.
Proof.
  refine (reference_icon_and_row sample_GetDataTypeString sample_ToString
            sample_tokenizer
            (mkModel false (Some sample_tree_expanded) [])
            sample_tree_expanded (label_cell 2%nat) 2%nat
            (mkNode false false (mkPtr ref_catalog [AtKey "A"%string])
               PT_Contained (Some 1%nat) "A"%string [])
            ref_shared _ _ _ _ _ _ _ _ _ _).
  - reflexivity.
  - sample_expanded_in_use.
  - reflexivity.
  - reflexivity.
  - reflexivity.
  - reflexivity.
  - reflexivity.
  - reflexivity.
  - reflexivity.
  - reflexivity.
Defined.

(** ** Cells, flags and headers *)

(** A cell that [flags] does not give as editable is not edited:
    [setData] returns false and leaves the adapter, its tree and the
    document as they are, without notifying the view. The same holds
    for a value that holds no bytes or none at all. Editable are the
    cells of column 2 of valid indexes, and only they. *)
Theorem setData_refuses_uneditable tok fuel idx value m :
  Z.land (flags idx) Qt.ItemIsEditable = 0 ∨
  value = None ∨ value = Some [] →
  setData tok fuel idx value m = Return false m ∧
  (Z.land (flags idx) Qt.ItemIsEditable ≠ 0 ↔
   isValid idx = true ∧ column idx = 2).
Proof.
  intros H. split.
  - unfold setData. unfold flags in H.
    destruct (isValid idx); [|done]. simpl in *.
    destruct (column idx =? 2); simpl in *.
    + destruct H as [H|[->| ->]]; done.
    + done.
  - unfold flags. destruct (isValid idx); simpl.
    + destruct (column idx =? 2) eqn:Hc; simpl.
      * apply Z.eqb_eq in Hc. done.
      * apply Z.eqb_neq in Hc. split; [done|]. by intros [_ ?].
    + split; [done|]. by intros [? _].
Qed.

Lemma setData_refuses_uneditable_witness :
  setData sample_tokenizer 9 (label_cell 7%nat) (Some (bytes "null"))
    sample_model = Return false sample_model ∧
  (Z.land (flags (label_cell 7%nat)) Qt.ItemIsEditable ≠ 0 ↔
   isValid (label_cell 7%nat) = true ∧ column (label_cell 7%nat) = 2).
Proof.
  apply (setData_refuses_uneditable sample_tokenizer 9 (label_cell 7%nat)
           (Some (bytes "null")) sample_model).
  left. reflexivity.
Defined.

(** The header has a title for exactly the columns that [columnCount]
    counts: for the horizontal header and the display role,
    [headerData] gives a string for the sections from 0 below
    [columnCount], and the invalid variant for every other section, for
    the vertical header and for every other role. *)
Theorem headerData_titles_the_columns section orientation role parent :
  headerData section orientation role ≠ QVariant_invalid ↔
  orientation = Qt.Horizontal ∧ role = Qt.DisplayRole ∧
  0 ≤ section < columnCount parent.
Proof.
  unfold headerData, columnCount.
  destruct (orientation =? Qt.Horizontal) eqn:Ho; simpl; cycle 1.
  { apply Z.eqb_neq in Ho. split; [done|]. by intros [? _]. }
  destruct (role =? Qt.DisplayRole) eqn:Hr; simpl; cycle 1.
  { apply Z.eqb_neq in Hr. split; [done|]. by intros (_ & ? & _). }
  apply Z.eqb_eq in Ho, Hr.
  destruct (section =? 0) eqn:H0; [apply Z.eqb_eq in H0; split; [lia|done]|].
  destruct (section =? 1) eqn:H1; [apply Z.eqb_eq in H1; split; [lia|done]|].
  destruct (section =? 2) eqn:H2; [apply Z.eqb_eq in H2; split; [lia|done]|].
  apply Z.eqb_neq in H0, H1, H2. split; [done|]. lia.
Qed.

(** ** The alias index under invalidation *)

Lemma filter_sublist_mono {A} (P : A → Prop) `{∀ x, Decision (P x)}
  (l k : list A) :
  l `sublist_of` k → filter P l `sublist_of` filter P k.
Proof.
  induction 1 as [|x l k _ IH|x l k _ IH]; [done| |].
  - rewrite !filter_cons. case_decide; [by apply sublist_skip|done].
  - rewrite filter_cons. case_decide; [by apply sublist_cons|done].
Qed.

Lemma sublist_singleton_elem {A} (l : list A) x :
  l `sublist_of` [x] → x ∈ l → l = [x].
Proof.
  intros Hs Hx. apply sublist_cons_r in Hs as [Hs|(l' & -> & Hs)].
  - apply sublist_nil_r in Hs. subst. by apply elem_of_nil in Hx.
  - apply sublist_nil_r in Hs. by subst.
Qed.

(** Deleting nodes only takes pairs out of the alias index. *)
Lemma preserves_aliases_sublist m0 fuel : ∀ this,
  preserves (λ s, m_nodeAliases s `sublist_of` m0)
    (InvalidateChildren fuel this).
Proof.
  induction fuel as [|fuel IH]; intros this; simpl; [by intros ??|].
  apply preserves_bind; [apply preserves_node_at|]. intros nd.
  apply preserves_bind.
  - apply preserves_for_each. intros child.
    apply preserves_bind; [apply IH|]. intros ?.
    apply preserves_bind.
    + intros s Hs. unfold NodeDeleted, node_at. monad_unfold.
      destruct (store s !! child) as [cd|]; [|done].
      destruct (multimap_erase _ _ _) as [m'|] eqn:He;
        [|by destruct (pair_behind _ _)].
      simpl.
      destruct (multimap_erase_split _ _ _ _ He) as (m1 & m2 & Hm & -> & _).
      etrans; [|exact Hs]. rewrite Hm.
      apply sublist_app; [done|]. by apply sublist_cons.
    + intros ?. by intros s Hs.
  - intros ?. intros s Hs. unfold update_node, node_at. monad_unfold.
    by destruct (store s !! this).
Qed.

(** A node that is the only one on its object stays the only one when
    its children are deleted. *)
Lemma aliases_after_invalidate t node nd fuel t' :
  wf t → store t !! node = Some nd →
  Tree_GetAliases t (m_pObject nd) = [node] →
  InvalidateChildren fuel node t = Return tt t' →
  Tree_GetAliases t' (m_pObject nd) = [node].
Proof.
  intros Hwf Hn Hal Hrun.
  pose proof (preserves_aliases_sublist (m_nodeAliases t) fuel node t) as Hs.
  rewrite Hrun in Hs. specialize (Hs (reflexivity _)).
  pose proof (InvalidateChildren_wf_outcome fuel node t Hwf) as Hout.
  rewrite Hrun in Hout. destruct Hout as [[Hinv' _] [_ Hcl]].
  specialize (Hcl nd Hn).
  apply sublist_singleton_elem.
  - rewrite <- Hal. unfold Tree_GetAliases.
    apply fmap_sublist. by apply filter_sublist_mono.
  - pose proof (tree_inv_pair t' node _ Hinv' Hcl) as Hin. simpl in Hin.
    unfold Tree_GetAliases. apply list_elem_of_fmap.
    exists (m_pObject nd, node). split; [done|].
    by apply list_elem_of_filter.
Qed.

(** ** One round of the edit protocol, for a node without aliases *)

Lemma on_tree_mk {A} (f : TreeM A) b t e a t' :
  f t = Return a t' →
  on_tree f (mkModel b (Some t) e) = Return a (mkModel b (Some t') e).
Proof. intros Hf. unfold on_tree. simpl. by rewrite Hf. Qed.

Lemma GetAliases_run t this nd :
  store t !! this = Some nd →
  GetAliases this t = Return (Tree_GetAliases t (m_pObject nd)) t.
Proof.
  intros Hn. unfold GetAliases.
  by rewrite (bind_run _ _ _ _ _ (node_at_run _ _ _ Hn)).
Qed.

(** Nothing to prepare: the node shows no children. *)
Lemma Prepare_nothing fuel idx node b t e nd :
  isValid idx = true → internalPointer idx = Some node →
  store t !! node = Some nd →
  CountChildren node t = Return 0 t →
  PrepareForSubtreeChange fuel idx (mkModel b (Some t) e) =
  Return tt (mkModel b (Some t) e).
Proof.
  intros Hv Hip Hn Hc. unfold PrepareForSubtreeChange. rewrite Hv, Hip.
  erewrite bind_run by reflexivity. erewrite bind_run by reflexivity.
  rewrite (bind_run _ _ _ _ _ (on_tree_mk _ b t e _ _ Hc)).
  by rewrite (bind_run _ _ _ _ _
                (on_tree_mk _ b t e _ _ (GetObject_run _ _ _ Hn))).
Qed.

(** The node shows [c] children and is the only one on its object: its
    rows are announced as removed, its children deleted, and it is set
    to pretend that it is empty. *)
Lemma Prepare_single fuel idx node b t e nd c i t2 nd2 :
  isValid idx = true → internalPointer idx = Some node →
  store t !! node = Some nd →
  CountChildren node t = Return c t → c ≠ 0 →
  Tree_GetAliases t (m_pObject nd) = [node] →
  GetIndexInParent node t = Return i t →
  InvalidateChildren fuel node t = Return tt t2 →
  store t2 !! node = Some nd2 →
  PrepareForSubtreeChange fuel idx (mkModel b (Some t) e) =
  Return tt
    (mkModel b
       (Some (set_store (<[node := set_pretend true nd2]> (store t2)) t2))
       (e ++ [beginRemoveRows (createIndex i 0 node) 0 (c - 1);
              endRemoveRows])).
Proof.
  intros Hv Hip Hn Hc Hc0 Hal Hi Hinv Hn2.
  unfold PrepareForSubtreeChange. rewrite Hv, Hip.
  erewrite bind_run by reflexivity. erewrite bind_run by reflexivity.
  rewrite (bind_run _ _ _ _ _ (on_tree_mk _ b t e _ _ Hc)).
  rewrite (bind_run _ _ _ _ _
             (on_tree_mk _ b t e _ _ (GetObject_run _ _ _ Hn))).
  replace (c =? 0) with false by (symmetry; by apply Z.eqb_neq).
  rewrite (bind_run _ _ _ _ _
             (on_tree_mk _ b t e _ _ (GetAliases_run _ _ _ Hn))).
  rewrite Hal. cbn [for_each]. rewrite bind_ret_tt.
  rewrite (bind_run _ _ _ _ _
             (on_tree_mk _ b t e _ _ (GetObject_run _ _ _ Hn))).
  rewrite bool_decide_eq_true_2 by done.
  erewrite bind_run by reflexivity.
  rewrite (bind_run _ _ _ _ _ (on_tree_mk _ b t e _ _ Hc)).
  rewrite Z.eqb_refl. erewrite bind_run by reflexivity.
  rewrite (bind_run _ _ _ _ _ (on_tree_mk _ b t e _ _ Hi)).
  rewrite (bind_run _ _ _ _ _ (on_tree_mk _ b t e _ _ Hc)).
  erewrite bind_run by reflexivity.
  rewrite (bind_run _ _ _ _ _ (on_tree_mk _ b t _ _ _ Hinv)).
  rewrite (bind_run _ _ _ _ _
             (on_tree_mk _ b t2 _ _ _ (SetPretendEmpty_run _ _ _ true Hn2))).
  unfold emit. monad_unfold. simpl. by rewrite <- app_assoc.
Qed.

(** The announcement for a node that is the only one on its object: it
    stops pretending, its children are asked for, and the view is told
    of the rows it has and that its data changed. *)
Lemma SubtreeChanged_single idx node b t e nd i c t6 :
  isValid idx = true → internalPointer idx = Some node →
  store t !! node = Some nd →
  Tree_GetAliases t (m_pObject nd) = [node] →
  let t5 := set_store (<[node := set_pretend false nd]> (store t)) t in
  GetIndexInParent node t5 = Return i t5 →
  CountChildren node t5 = Return c t6 →
  SubtreeChanged idx (mkModel b (Some t) e) =
  Return tt
    (mkModel b (Some t6)
       (e ++ (if c =? 0 then []
              else [beginInsertRows (createIndex i 0 node) 0 (c - 1);
                    endInsertRows]) ++
        [dataChanged (createIndex i 0 node) (createIndex i 0 node)])).
Proof.
  intros Hv Hip Hn Hal t5 Hi Hc. unfold SubtreeChanged. rewrite Hv, Hip.
  erewrite bind_run by reflexivity. erewrite bind_run by reflexivity.
  rewrite (bind_run _ _ _ _ _
             (on_tree_mk _ b t e _ _ (GetObject_run _ _ _ Hn))).
  rewrite (bind_run _ _ _ _ _
             (on_tree_mk _ b t e _ _ (GetAliases_run _ _ _ Hn))).
  rewrite Hal. cbn [for_each]. rewrite bind_ret_tt.
  rewrite (bind_run _ _ _ _ _
             (on_tree_mk _ b t e _ _ (GetObject_run _ _ _ Hn))).
  rewrite bool_decide_eq_true_2 by done.
  erewrite bind_run by reflexivity.
  rewrite (bind_run _ _ _ _ _
             (on_tree_mk _ b t _ _ _ (SetPretendEmpty_run _ _ _ false Hn))).
  fold t5.
  rewrite (bind_run _ _ _ _ _ (on_tree_mk _ b t5 e _ _ Hi)).
  rewrite (bind_run _ _ _ _ _ (on_tree_mk _ b t5 e _ _ Hc)).
  destruct (CountChildren_inv t5 node c t6 Hc) as (nd6 & Hn6 & Hcase).
  assert (CountChildren node t6 = Return c t6) as Hc6.
  { destruct Hcase as [(Hp & -> & _ & _)|(Hp & Hl & -> & _)].
    - by eapply CountChildren_pretend.
    - by eapply CountChildren_loaded. }
  destruct (c =? 0) eqn:Hc0; simpl negb; cbv iota.
  - erewrite bind_run by reflexivity. unfold emit. monad_unfold. done.
  - erewrite bind_run; cycle 1.
    { rewrite (bind_run _ _ _ _ _ (on_tree_mk _ b t6 e _ _ Hc6)).
      unfold emit. monad_unfold. simpl. reflexivity. }
    unfold emit. monad_unfold. simpl. by rewrite <- !app_assoc.
Qed.

(** The row of a node depends on its parent pointer, on the child list
    of its parent and on the root pointer only. *)
Lemma GetIndexInParent_frame t s node nd nd' i :
  GetIndexInParent node t = Return i t →
  store t !! node = Some nd → store s !! node = Some nd' →
  m_pParent nd' = m_pParent nd → m_pRoot s = m_pRoot t →
  (∀ p, m_pParent nd = Some p → store s !! p = store t !! p) →
  GetIndexInParent node s = Return i s.
Proof.
  intros Hi Hn Hn' Hpar Hroot Hp. unfold GetIndexInParent in *.
  rewrite (bind_run _ _ _ _ _ (node_at_run _ _ _ Hn)) in Hi.
  rewrite (bind_run _ _ _ _ _ (node_at_run _ _ _ Hn')). rewrite Hpar.
  destruct (m_pParent nd) as [p|].
  - specialize (Hp p eq_refl). unfold node_at in *. monad_unfold.
    rewrite Hp. destruct (store t !! p) as [pd|]; [|done].
    destruct (index_of node (m_children pd));
      [destruct (_ <? _)|destruct (_ <? _)]; by simplify_eq.
  - monad_unfold. rewrite Hroot.
    destruct (bool_decide (m_pRoot t = Some node)); by simplify_eq.
Qed.

(** The parent of a live node is another node. *)
Lemma parent_is_other t node nd p :
  linked t → store t !! node = Some nd → m_pParent nd = Some p →
  (p < node)%nat.
Proof.
  intros [[[_ Hok] _] [_ Hp]] Hn Hpar. specialize (Hp node nd Hn).
  rewrite Hpar in Hp. destruct Hp as (pd & Hpd & Hin).
  destruct (Hok p pd Hpd) as [_ Hch]. by destruct (Hch node Hin).
Qed.

(** What the deletion of the children of [node] leaves of a tree in
    use, for a budget from [next_node t]. *)
Lemma invalidate_in_use tok t node nd fuel :
  in_use tok t → store t !! node = Some nd → (next_node t ≤ fuel)%nat →
  ∃ t1,
    InvalidateChildren fuel node t = Return tt t1 ∧
    in_use tok t1 ∧ same_frame t t1 ∧
    store t1 !! node = Some (set_loaded false (set_children [] nd)) ∧
    (∀ n, (n < node)%nat → store t1 !! n = store t !! n) ∧
    (Tree_GetAliases t (m_pObject nd) = [node] →
     Tree_GetAliases t1 (m_pObject nd) = [node]) ∧
    (∀ c, c ∈ m_children nd → store t1 !! c = None).
Proof.
  intros Huse Hn Hfuel. pose proof (wf_in_use tok t Huse) as Hwf.
  destruct (InvalidateChildren_exact t node nd fuel Hwf Hn Hfuel)
    as (ids & t1 & Hown & _ & Hrun & _ & Hf & Hthis & Hsame & Hdel).
  exists t1. split_and!; [done| |done|done| | |]; cycle 3.
  { intros c Hc. destruct (proj2 Hwf node nd Hn) as [_ Hch].
    destruct (Hch c Hc) as [Hlt _]. apply Hdel; [|lia].
    by apply (owns_closed t fuel node ids node nd c Hown (owns_in _ _ _ _ Hown)). }
  - apply (in_use_call tok (call_InvalidateChildren fuel node) t); [done..|].
    simpl. by rewrite Hrun.
  - intros n Hlt. apply Hsame. intros Hin.
    pose proof (owns_ge _ _ _ _ _ (proj2 Hwf) Hown Hin). lia.
  - intros Hal. by eapply aliases_after_invalidate.
Qed.

Section EditOutcome.

Variable tok : list Byte.byte → PdfVariant + nat.

(** The second half of [setData] when the bytes parse, from a state in
    which [node] is the only node on its object. *)
Lemma setData_tail_parsed fuel idx data variant b t e node nd old i :
  in_use tok t →
  isValid idx = true → internalPointer idx = Some node →
  store t !! node = Some nd →
  Tree_GetAliases t (m_pObject nd) = [node] →
  object_at (m_pDoc t) (m_pObject nd) = Some old →
  tok data = inl variant → (next_node t ≤ fuel)%nat →
  GetIndexInParent node t = Return i t →
  ∃ t' doc',
    let specs := expected_children (m_bFollowReferences t) doc'
                   (m_pObject nd) variant in
    let c1 := int_of_size (length specs) in
    (changed ← catch_PdfError (on_tree (SetRawData tok fuel node data))
                 (λ eCode, _ ← emit (podofoError eCode); ret false);
     _ ← SubtreeChanged idx;
     _ ← modify (λ m, set_changed (m_bDocChanged m || changed) m);
     ret changed) (mkModel b (Some t) e) =
    Return true
      (mkModel true (Some t')
         (e ++ (if c1 =? 0 then []
                else [beginInsertRows (createIndex i 0 node) 0 (c1 - 1);
                      endInsertRows]) ++
          [dataChanged (createIndex i 0 node) (createIndex i 0 node)])) ∧
    m_pDoc t' = doc' ∧
    object_at doc' (m_pObject nd) = Some variant ∧
    GetIndexInParent node t' = Return i t' ∧
    child_views t' node = Some (Some <$> specs) ∧
    CountChildren node t' = Return c1 t'.
Proof.
  intros Huse Hv Hip Hn Hal Ho Htok Hfuel Hi.
  pose proof (linked_in_use tok t Huse) as Hlinked.
  destruct (in_use_facts tok t Huse) as (_ & Hb & _). bounded_alt Hb.
  assert (node < next_node t)%nat as Hlt by (apply Hb; eauto).
  (* SetRawData *)
  destruct (invalidate_in_use tok t node nd fuel Huse Hn Hfuel)
    as (t3 & Hinv & _ & Hf3 & Hn3 & Hlow3 & Hal3 & _).
  specialize (Hal3 Hal). destruct Hf3 as (Hdoc3 & Hfol3 & Hroot3 & Hnext3).
  assert (object_at (m_pDoc t3)
            (m_pObject (set_loaded false (set_children [] nd))) = Some old)
    as Ho3 by (by rewrite Hdoc3).
  destruct (update_object_run (λ _, Some variant) t3 _ old variant Ho3
              eq_refl) as (doc' & Hupd & Ho').
  assert (SetRawData tok fuel node data t = Return true (set_doc doc' t3))
    as Hset.
  { unfold SetRawData. rewrite Htok.
    rewrite (bind_run _ _ _ _ _ Hinv).
    rewrite (bind_run _ _ _ _ _ (node_at_run _ _ _ Hn3)).
    by rewrite (bind_run _ _ _ _ _ Hupd). }
  assert (in_use tok (set_doc doc' t3)) as Huse4.
  { apply (in_use_call tok (call_SetRawData fuel node data) t); [done..|].
    simpl. by rewrite (bind_run _ _ _ _ _ Hset). }
  assert (store (set_doc doc' t3) !! node =
          Some (set_loaded false (set_children [] nd))) as Hn4 by done.
  (* SubtreeChanged *)
  pose proof (SetPretendEmpty_run _ node _ false Hn4) as Hpe.
  remember (set_store
              (<[node := set_pretend false
                           (set_loaded false (set_children [] nd))]>
                 (store (set_doc doc' t3))) (set_doc doc' t3)) as t5 eqn:Ht5.
  assert (in_use tok t5) as Huse5.
  { apply (in_use_call tok (call_SetPretendEmpty node false)
             (set_doc doc' t3)); [done..|].
    simpl. by rewrite Hpe. }
  assert (store t5 !! node =
          Some (set_pretend false (set_loaded false (set_children [] nd))))
    as Hn5.
  { subst t5. simpl. by rewrite lookup_insert_eq. }
  assert (m_pDoc t5 = doc' ∧ m_bFollowReferences t5 = m_bFollowReferences t ∧
          m_pRoot t5 = m_pRoot t ∧ next_node t5 = next_node t)
    as (Hdoc5 & Hfol5 & Hroot5 & Hnext5).
  { subst t5. simpl. done. }
  assert (∀ n, (n < node)%nat → store t5 !! n = store t !! n) as Hlow5.
  { intros n Hn'. subst t5. simpl. rewrite lookup_insert_ne by lia.
    by apply Hlow3. }
  assert (GetIndexInParent node t5 = Return i t5) as Hi5.
  { apply (GetIndexInParent_frame t t5 node nd _ i Hi Hn Hn5); try done.
    intros p Hp. apply Hlow5.
    by apply (parent_is_other t node nd p Hlinked Hn Hp). }
  assert (object_at (m_pDoc t5)
            (m_pObject (set_pretend false
                          (set_loaded false (set_children [] nd)))) =
          Some variant) as Ho5 by (by rewrite Hdoc5).
  destruct (first_population tok t5 node _ variant Huse5 Hn5 eq_refl
              eq_refl Ho5)
    as (Hc5 & Hd6 & _ & Hroot6 & Hn6 & _ & Hs6).
  rewrite Hfol5, Hdoc5 in Hc5, Hd6, Hroot6, Hn6, Hs6.
  change (m_pObject (set_pretend false
                       (set_loaded false (set_children [] nd))))
    with (m_pObject nd) in Hc5, Hd6, Hroot6, Hn6, Hs6.
  remember (expected_children (m_bFollowReferences t) doc' (m_pObject nd)
              variant) as specs eqn:Hspecs.
  remember (populated node specs t5) as t6 eqn:Ht6.
  exists t6, doc'. cbv zeta. rewrite <- Hspecs.
  assert (GetIndexInParent node t6 = Return i t6) as Hi6.
  { apply (GetIndexInParent_frame t5 t6 node _ _ i Hi5 Hn5 Hn6);
      try done.
    intros p Hp.
    pose proof (parent_is_other t node nd p Hlinked Hn Hp).
    apply Hs6; [lia|]. intros Hin. apply elem_of_seq in Hin. lia. }
  assert (CountChildren node t6 =
          Return (int_of_size (length specs)) t6) as Hc6.
  { rewrite (CountChildren_loaded t6 node _ Hn6) by done.
    simpl. by rewrite length_seq. }
  split_and!.
  - unfold catch_PdfError.
    erewrite bind_run; cycle 1.
    { by rewrite (on_tree_mk _ b t e _ _ Hset). }
    assert (t5 = set_store
                   (<[node := set_pretend false
                                (set_loaded false (set_children [] nd))]>
                      (store (set_doc doc' t3))) (set_doc doc' t3))
      as Ht5' by done.
    rewrite Ht5' in Hi5, Hc5.
    rewrite (bind_run _ _ _ _ _
               (SubtreeChanged_single idx node b (set_doc doc' t3) e _ i _ t6
                  Hv Hip Hn4 Hal3 Hi5 Hc5)).
    unfold modify, set_changed. monad_unfold. simpl.
    by rewrite orb_true_r.
  - done.
  - done.
  - done.
  - subst t6. apply (populated_child_views specs t5 node _ Hn5); [|done].
    lia.
  - done.
Qed.

(** The first half of [setData], for a node that has loaded its
    children and is the only node on its object. *)
Lemma setData_prepare fuel idx b t e node nd i :
  in_use tok t →
  isValid idx = true → internalPointer idx = Some node →
  store t !! node = Some nd →
  m_bPretendEmpty nd = false → m_bChildrenLoaded nd = true →
  Tree_GetAliases t (m_pObject nd) = [node] →
  (next_node t ≤ fuel)%nat → Z.of_nat (next_node t) < 2 ^ 31 →
  GetIndexInParent node t = Return i t →
  let c0 := Z.of_nat (length (m_children nd)) in
  ∃ t2 nd2,
    PrepareForSubtreeChange fuel idx (mkModel b (Some t) e) =
    Return tt
      (mkModel b (Some t2)
         (e ++ if c0 =? 0 then []
               else [beginRemoveRows (createIndex i 0 node) 0 (c0 - 1);
                     endRemoveRows])) ∧
    in_use tok t2 ∧ store t2 !! node = Some nd2 ∧
    m_pObject nd2 = m_pObject nd ∧ same_frame t t2 ∧
    Tree_GetAliases t2 (m_pObject nd) = [node] ∧
    GetIndexInParent node t2 = Return i t2 ∧
    (if c0 =? 0 then t2 = t ∧ nd2 = nd
     else nd2 = set_pretend true (set_loaded false (set_children [] nd))).
Proof.
  intros Huse Hv Hip Hn Hp Hl Hal Hfuel Hsmall Hi c0.
  pose proof (linked_in_use tok t Huse) as Hlinked.
  assert (CountChildren node t = Return c0 t) as Hc.
  { rewrite (CountChildren_loaded t node nd Hn Hp Hl).
    rewrite int_of_size_small; [done|].
    by apply (children_fit_int tok t node nd). }
  destruct (c0 =? 0) eqn:Hc0.
  - apply Z.eqb_eq in Hc0. rewrite Hc0 in Hc.
    exists t, nd. rewrite app_nil_r. split_and!; try done.
    by apply (Prepare_nothing fuel idx node b t e nd).
  - apply Z.eqb_neq in Hc0.
    destruct (invalidate_in_use tok t node nd fuel Huse Hn Hfuel)
      as (t1 & Hinv & Huse1 & Hf1 & Hn1 & Hlow1 & Hal1 & _).
    specialize (Hal1 Hal).
    pose proof (SetPretendEmpty_run t1 node _ true Hn1) as Hpe.
    exists (set_store
              (<[node := set_pretend true
                           (set_loaded false (set_children [] nd))]>
                 (store t1)) t1),
      (set_pretend true (set_loaded false (set_children [] nd))).
    split_and!.
    + by apply (Prepare_single fuel idx node b t e nd c0 i t1
                  (set_loaded false (set_children [] nd))).
    + apply (in_use_call tok (call_SetPretendEmpty node true) t1);
        [done..|].
      simpl. by rewrite Hpe.
    + simpl. by rewrite lookup_insert_eq.
    + done.
    + done.
    + done.
    + eapply (GetIndexInParent_frame t _ node nd _ i Hi Hn).
      * simpl. by rewrite lookup_insert_eq.
      * done.
      * by destruct Hf1 as (_ & _ & ? & _).
      * intros p Hpp. simpl.
        pose proof (parent_is_other t node nd p Hlinked Hn Hpp).
        rewrite lookup_insert_ne by lia. apply Hlow1. lia.
    + done.
Qed.

(** An edit through the only node of an object. For a valid index of
    column 2 whose node has loaded its children and is the only node on
    its object, and bytes that parse: [setData] returns true, the object
    in the document is the parsed value, the document counts as
    changed, the node has fresh children for the new value ([rowCount]
    gives their number), and the view has been told, in this order, of
    the rows removed (when there were any), of the rows inserted (when
    there are any) and of the changed data of the node's row. *)
Theorem setData_replaces_object fuel idx data variant m t node nd old :
  m_pTree m = Some t → in_use tok t →
  isValid idx = true → column idx = 2 → internalPointer idx = Some node →
  store t !! node = Some nd →
  m_bPretendEmpty nd = false → m_bChildrenLoaded nd = true →
  Tree_GetAliases t (m_pObject nd) = [node] →
  object_at (m_pDoc t) (m_pObject nd) = Some old →
  data ≠ [] → tok data = inl variant →
  (next_node t ≤ fuel)%nat → Z.of_nat (next_node t) < 2 ^ 31 →
  ∃ m' t' doc' i,
    let specs := expected_children (m_bFollowReferences t) doc'
                   (m_pObject nd) variant in
    let c0 := Z.of_nat (length (m_children nd)) in
    let c1 := int_of_size (length specs) in
    setData tok fuel idx (Some data) m = Return true m' ∧
    m_pTree m' = Some t' ∧ m_bDocChanged m' = true ∧
    m_pDoc t' = doc' ∧ object_at doc' (m_pObject nd) = Some variant ∧
    GetIndexInParent node t' = Return i t' ∧
    child_views t' node = Some (Some <$> specs) ∧
    rowCount idx m' = Return c1 m' ∧
    emitted m' =
      emitted m ++
      (if c0 =? 0 then []
       else [beginRemoveRows (createIndex i 0 node) 0 (c0 - 1);
             endRemoveRows]) ++
      (if c1 =? 0 then []
       else [beginInsertRows (createIndex i 0 node) 0 (c1 - 1);
             endInsertRows]) ++
      [dataChanged (createIndex i 0 node) (createIndex i 0 node)].
Proof.
  intros Hm Huse Hv Hcol Hip Hn Hp Hl Hal Ho Hdata Htok Hfuel Hsmall.
  destruct m as [b mt e]. simpl in Hm. subst mt.
  destruct (GetIndexInParent_returns tok t node nd Huse Hsmall Hn)
    as (i & _ & Hi).
  destruct (setData_prepare fuel idx b t e node nd _ Huse Hv Hip Hn Hp Hl Hal
              Hfuel Hsmall Hi)
    as (t2 & nd2 & Hprep & Huse2 & Hn2 & Hobj2 & Hf2 & Hal2 & Hi2 & _).
  destruct Hf2 as (Hdoc2 & Hfol2 & _ & Hnext2).
  cbv zeta in Hprep.
  match type of Hprep with
  | _ = Return _ (mkModel _ _ ?x) => set (e2 := x) in *
  end.
  assert (Tree_GetAliases t2 (m_pObject nd2) = [node]) as Hal2'
    by (by rewrite Hobj2).
  assert (object_at (m_pDoc t2) (m_pObject nd2) = Some old) as Ho2
    by (by rewrite Hobj2, Hdoc2).
  assert (next_node t2 ≤ fuel)%nat as Hfuel2 by lia.
  destruct (setData_tail_parsed fuel idx data variant b t2 e2 node nd2 old
              (Z.of_nat i) Huse2 Hv Hip Hn2 Hal2' Ho2 Htok Hfuel2 Hi2)
    as (t' & doc' & Htail & Hdoc' & Ho' & Hi' & Hviews & Hc').
  rewrite Hobj2, Hfol2 in *.
  eexists _, t', doc', (Z.of_nat i). cbv zeta. split_and!.
  - unfold setData. rewrite Hv, Hcol. simpl.
    rewrite bool_decide_eq_false_2; cycle 1.
    { destruct data; [done|]. simpl. lia. }
    rewrite Hip. erewrite bind_run by reflexivity.
    rewrite (bind_run _ _ _ _ _ Hprep). exact Htail.
  - done.
  - done.
  - done.
  - done.
  - done.
  - done.
  - unfold rowCount. rewrite Hv, Hip. simpl.
    erewrite bind_run by reflexivity.
    by rewrite (on_tree_mk _ _ t' _ _ _ Hc').
  - simpl. unfold e2. by rewrite <- !app_assoc.
Qed.

(** The second half of [setData] when the bytes do not parse. *)
Lemma setData_tail_rejected fuel idx data code b t e node nd i c t6 :
  isValid idx = true → internalPointer idx = Some node →
  store t !! node = Some nd →
  Tree_GetAliases t (m_pObject nd) = [node] →
  tok data = inr code →
  let t5 := set_store (<[node := set_pretend false nd]> (store t)) t in
  GetIndexInParent node t5 = Return i t5 →
  CountChildren node t5 = Return c t6 →
  (changed ← catch_PdfError (on_tree (SetRawData tok fuel node data))
               (λ eCode, _ ← emit (podofoError eCode); ret false);
   _ ← SubtreeChanged idx;
   _ ← modify (λ m, set_changed (m_bDocChanged m || changed) m);
   ret changed) (mkModel b (Some t) e) =
  Return false
    (mkModel b (Some t6)
       (e ++ [podofoError code] ++
        (if c =? 0 then []
         else [beginInsertRows (createIndex i 0 node) 0 (c - 1);
               endInsertRows]) ++
        [dataChanged (createIndex i 0 node) (createIndex i 0 node)])).
Proof.
  intros Hv Hip Hn Hal Htok t5 Hi Hc.
  erewrite bind_run; cycle 1.
  { by apply (catch_parse_error tok fuel node data code). }
  simpl.
  rewrite (bind_run _ _ _ _ _
             (SubtreeChanged_single idx node b t _ nd i c t6 Hv Hip Hn Hal
                Hi Hc)).
  unfold modify, set_changed. monad_unfold. simpl.
  by rewrite orb_false_r, <- !app_assoc.
Qed.

(** A rejected edit is shown to the user and changes no object. For a
    valid index of column 2 whose node has loaded its children and is
    the only node on its object, and bytes that the tokenizer rejects:
    [setData] catches the error, shows it, returns false and leaves the
    document and its changed flag as they are. The rows of the node
    have been removed and are read again from the object; the view has
    been told of the rows removed, of the rows inserted and of the
    changed data, with the error shown in between. *)
Theorem setData_shows_parse_error fuel idx data code m t node nd old :
  m_pTree m = Some t → in_use tok t →
  isValid idx = true → column idx = 2 → internalPointer idx = Some node →
  store t !! node = Some nd →
  m_bPretendEmpty nd = false → m_bChildrenLoaded nd = true →
  Tree_GetAliases t (m_pObject nd) = [node] →
  object_at (m_pDoc t) (m_pObject nd) = Some old →
  data ≠ [] → tok data = inr code →
  (next_node t ≤ fuel)%nat → Z.of_nat (next_node t) < 2 ^ 31 →
  ∃ m' t' i,
    let specs := expected_children (m_bFollowReferences t) (m_pDoc t)
                   (m_pObject nd) old in
    let c0 := Z.of_nat (length (m_children nd)) in
    let c1 := if c0 =? 0 then 0 else int_of_size (length specs) in
    setData tok fuel idx (Some data) m = Return false m' ∧
    m_pTree m' = Some t' ∧
    m_pDoc t' = m_pDoc t ∧ m_bDocChanged m' = m_bDocChanged m ∧
    rowCount idx m' = Return c1 m' ∧
    (c0 ≠ 0 → child_views t' node = Some (Some <$> specs)) ∧
    emitted m' =
      emitted m ++
      (if c0 =? 0 then []
       else [beginRemoveRows (createIndex i 0 node) 0 (c0 - 1);
             endRemoveRows]) ++
      [podofoError code] ++
      (if c1 =? 0 then []
       else [beginInsertRows (createIndex i 0 node) 0 (c1 - 1);
             endInsertRows]) ++
      [dataChanged (createIndex i 0 node) (createIndex i 0 node)].
Proof.
  intros Hm Huse Hv Hcol Hip Hn Hp Hl Hal Ho Hdata Htok Hfuel Hsmall.
  destruct m as [b mt e]. simpl in Hm. subst mt.
  pose proof (linked_in_use tok t Huse) as Hlinked.
  destruct (GetIndexInParent_returns tok t node nd Huse Hsmall Hn)
    as (i & _ & Hi).
  destruct (setData_prepare fuel idx b t e node nd _ Huse Hv Hip Hn Hp Hl Hal
              Hfuel Hsmall Hi)
    as (t2 & nd2 & Hprep & Huse2 & Hn2 & Hobj2 & Hf2 & Hal2 & Hi2 & Hcase).
  destruct Hf2 as (Hdoc2 & Hfol2 & Hroot2 & Hnext2).
  cbv zeta in Hprep, Hcase.
  match type of Hprep with
  | _ = Return _ (mkModel _ _ ?x) => set (e2 := x) in *
  end.
  assert (Tree_GetAliases t2 (m_pObject nd2) = [node]) as Hal2'
    by (by rewrite Hobj2).
  (* the node stops pretending *)
  pose proof (SetPretendEmpty_run t2 node nd2 false Hn2) as Hpe.
  remember (set_store (<[node := set_pretend false nd2]> (store t2)) t2)
    as t5 eqn:Ht5.
  assert (in_use tok t5) as Huse5.
  { apply (in_use_call tok (call_SetPretendEmpty node false) t2); [done..|].
    simpl. by rewrite Hpe. }
  assert (store t5 !! node = Some (set_pretend false nd2)) as Hn5.
  { subst t5. simpl. by rewrite lookup_insert_eq. }
  assert (m_pDoc t5 = m_pDoc t ∧
          m_bFollowReferences t5 = m_bFollowReferences t ∧
          m_pRoot t5 = m_pRoot t2 ∧ next_node t5 = next_node t)
    as (Hdoc5 & Hfol5 & Hroot5 & Hnext5).
  { subst t5. simpl. done. }
  assert (GetIndexInParent node t5 = Return (Z.of_nat i) t5) as Hi5.
  { apply (GetIndexInParent_frame t2 t5 node nd2 _ _ Hi2 Hn2 Hn5);
      try done.
    intros p Hpp. subst t5. simpl.
    pose proof (parent_is_other t2 node nd2 p (linked_in_use tok t2 Huse2)
                  Hn2 Hpp).
    rewrite lookup_insert_ne by lia. done. }
  (* its rows *)
  assert (∃ t6,
            CountChildren node t5 =
              Return (if Z.of_nat (length (m_children nd)) =? 0 then 0
                      else int_of_size
                             (length (expected_children
                                        (m_bFollowReferences t) (m_pDoc t)
                                        (m_pObject nd) old))) t6 ∧
            m_pDoc t6 = m_pDoc t ∧
            (Z.of_nat (length (m_children nd)) ≠ 0 →
             child_views t6 node =
               Some (Some <$> expected_children (m_bFollowReferences t)
                                (m_pDoc t) (m_pObject nd) old)))
    as (t6 & Hc5 & Hdoc6 & Hviews).
  { destruct (Z.of_nat (length (m_children nd)) =? 0) eqn:Hc0.
    - destruct Hcase as [-> ->]. apply Z.eqb_eq in Hc0.
      exists t5. split_and!; [|done|lia].
      rewrite (CountChildren_loaded t5 node _ Hn5) by done. simpl.
      destruct (m_children nd); [done|]. simpl in Hc0. lia.
    - subst nd2.
      assert (object_at (m_pDoc t5)
                (m_pObject
                   (set_pretend false
                      (set_pretend true
                         (set_loaded false (set_children [] nd))))) =
              Some old) as Ho5 by (by rewrite Hdoc5).
      destruct (first_population tok t5 node _ old Huse5 Hn5 eq_refl
                  eq_refl Ho5)
        as (Hc5 & Hd6 & _ & _ & _ & _ & _).
      rewrite Hfol5, Hdoc5 in Hc5, Hd6.
      eexists. split_and!; [exact Hc5|done|]. intros _.
      apply (populated_child_views _ t5 node _ Hn5); [|done].
      destruct (in_use_facts tok t5 Huse5) as (_ & Hb & _). bounded_alt Hb.
      apply Hb. eauto. }
  rewrite Ht5 in Hi5, Hc5.
  pose proof (setData_tail_rejected fuel idx data code b t2 e2 node nd2 _ _ t6
                Hv Hip Hn2 Hal2' Htok Hi5 Hc5) as Htail.
  assert (CountChildren node t6 =
          Return (if Z.of_nat (length (m_children nd)) =? 0 then 0
                  else int_of_size
                         (length (expected_children
                                    (m_bFollowReferences t) (m_pDoc t)
                                    (m_pObject nd) old))) t6) as Hc6.
  { destruct (CountChildren_inv _ node _ t6 Hc5)
      as (nd6 & Hn6 & [(Hp6 & Hz & _ & _)|(Hp6 & Hl6 & Hz & _)]).
    - rewrite Hz. by eapply CountChildren_pretend.
    - rewrite Hz. by eapply CountChildren_loaded. }
  eexists _, t6, (Z.of_nat i). cbv zeta. split_and!.
  - unfold setData. rewrite Hv, Hcol. simpl.
    rewrite bool_decide_eq_false_2; cycle 1.
    { destruct data; [done|]. simpl. lia. }
    rewrite Hip. erewrite bind_run by reflexivity.
    rewrite (bind_run _ _ _ _ _ Hprep). exact Htail.
  - done.
  - done.
  - done.
  - unfold rowCount. rewrite Hv, Hip. simpl.
    erewrite bind_run by reflexivity.
    by rewrite (on_tree_mk _ _ t6 _ _ _ Hc6).
  - done.
  - simpl. unfold e2. by rewrite <- !app_assoc.
Qed.

End EditOutcome.

Lemma sample_tree_kids_in_use : in_use sample_tokenizer sample_tree_kids.
Proof.
  apply (in_use_call sample_tokenizer (call_CountChildren 5%nat)
           sample_tree_expanded).
  - sample_expanded_in_use.
  - reflexivity.
  - vm_compute. reflexivity.
Defined.

Lemma setData_replaces_object_witness :
  let nd := mkNode false true ptr_kids PT_Contained (Some 1%nat)
              "Kids"%string [7; 8; 9]%nat in
  ∃ m' t' doc' i,
    let specs := expected_children true doc' ptr_kids (Array [Null; Null]) in
    let c0 := 3 in
    let c1 := int_of_size (length specs) in
    setData sample_tokenizer 10 (value_cell 5%nat)
      (Some (bytes "[null null]")) (mkModel false (Some sample_tree_kids) []) =
      Return true m' ∧
    m_pTree m' = Some t' ∧ m_bDocChanged m' = true ∧
    m_pDoc t' = doc' ∧ object_at doc' ptr_kids = Some (Array [Null; Null]) ∧
    GetIndexInParent 5%nat t' = Return i t' ∧
    child_views t' 5%nat = Some (Some <$> specs) ∧
    rowCount (value_cell 5%nat) m' = Return c1 m' ∧
    emitted m' =
      [] ++
      (if c0 =? 0 then []
       else [beginRemoveRows (createIndex i 0 5%nat) 0 (c0 - 1);
             endRemoveRows]) ++
      (if c1 =? 0 then []
       else [beginInsertRows (createIndex i 0 5%nat) 0 (c1 - 1);
             endInsertRows]) ++
      [dataChanged (createIndex i 0 5%nat) (createIndex i 0 5%nat)].
Proof.
  apply (setData_replaces_object sample_tokenizer 10 (value_cell 5%nat)
           (bytes "[null null]") (Array [Null; Null])
           (mkModel false (Some sample_tree_kids) []) sample_tree_kids 5%nat
           (mkNode false true ptr_kids PT_Contained (Some 1%nat)
              "Kids"%string [7; 8; 9]%nat)
           (Array [Number 10; Number 20; Number 30])).
  - reflexivity.
  - exact sample_tree_kids_in_use.
  - reflexivity.
  - reflexivity.
  - reflexivity.
  - vm_compute. reflexivity.
  - reflexivity.
  - reflexivity.
  - vm_compute. reflexivity.
  - vm_compute. reflexivity.
  - discriminate.
  - vm_compute. reflexivity.
  - vm_compute. lia.
  - vm_compute. reflexivity.
Defined.

Lemma setData_shows_parse_error_witness :
  let nd := mkNode false true ptr_kids PT_Contained (Some 1%nat)
              "Kids"%string [7; 8; 9]%nat in
  ∃ m' t' i,
    let specs := expected_children true sample_doc ptr_kids
                   (Array [Number 10; Number 20; Number 30]) in
    let c0 := 3 in
    let c1 := if c0 =? 0 then 0 else int_of_size (length specs) in
    setData sample_tokenizer 10 (value_cell 5%nat)
      (Some (bytes "[1 2")) (mkModel false (Some sample_tree_kids) []) =
      Return false m' ∧
    m_pTree m' = Some t' ∧
    m_pDoc t' = sample_doc ∧ m_bDocChanged m' = false ∧
    rowCount (value_cell 5%nat) m' = Return c1 m' ∧
    (c0 ≠ 0 → child_views t' 5%nat = Some (Some <$> specs)) ∧
    emitted m' =
      [] ++
      (if c0 =? 0 then []
       else [beginRemoveRows (createIndex i 0 5%nat) 0 (c0 - 1);
             endRemoveRows]) ++
      [podofoError 1] ++
      (if c1 =? 0 then []
       else [beginInsertRows (createIndex i 0 5%nat) 0 (c1 - 1);
             endInsertRows]) ++
      [dataChanged (createIndex i 0 5%nat) (createIndex i 0 5%nat)].
Proof.
  apply (setData_shows_parse_error sample_tokenizer 10 (value_cell 5%nat)
           (bytes "[1 2") 1%nat
           (mkModel false (Some sample_tree_kids) []) sample_tree_kids 5%nat
           (mkNode false true ptr_kids PT_Contained (Some 1%nat)
              "Kids"%string [7; 8; 9]%nat)
           (Array [Number 10; Number 20; Number 30])).
  - reflexivity.
  - exact sample_tree_kids_in_use.
  - reflexivity.
  - reflexivity.
  - reflexivity.
  - vm_compute. reflexivity.
  - reflexivity.
  - reflexivity.
  - vm_compute. reflexivity.
  - vm_compute. reflexivity.
  - discriminate.
  - vm_compute. reflexivity.
  - vm_compute. lia.
  - vm_compute. reflexivity.
Defined.

(** ** Rows reset by the adapter *)

(** [InvalidateChildren(index)] of the adapter, for a valid index on a
    live node of a tree in use and a budget from [next_node t]: the
    view is told that the layout is about to change, that it changed
    and that the data of the index changed, in this order; the children
    of the node are deleted and the node is left without children, not
    loaded. The document and the nodes with smaller addresses are as
    before. *)
Theorem InvalidateChildren_resets_the_row tok fuel idx m t node nd :
  m_pTree m = Some t → in_use tok t →
  isValid idx = true → internalPointer idx = Some node →
  store t !! node = Some nd → (next_node t ≤ fuel)%nat →
  ∃ m1 t1,
    Model_InvalidateChildren fuel idx m = Return tt m1 ∧
    m_pTree m1 = Some t1 ∧ m_bDocChanged m1 = m_bDocChanged m ∧
    emitted m1 =
      emitted m ++
      [layoutAboutToBeChanged; layoutChanged; dataChanged idx idx] ∧
    m_pDoc t1 = m_pDoc t ∧
    store t1 !! node = Some (set_loaded false (set_children [] nd)) ∧
    (∀ c, c ∈ m_children nd → store t1 !! c = None) ∧
    (∀ n, (n < node)%nat → store t1 !! n = store t !! n).
Proof.
  intros Hm Huse Hv Hip Hn Hfuel.
  destruct m as [b mt e]. simpl in Hm. subst mt.
  destruct (invalidate_in_use tok t node nd fuel Huse Hn Hfuel)
    as (t1 & Hinv & _ & Hf & Hn1 & Hlow & _ & Hdel).
  eexists _, t1. split_and!.
  - unfold Model_InvalidateChildren. rewrite Hv, Hip.
    erewrite bind_run by reflexivity. erewrite bind_run by reflexivity.
    rewrite (bind_run _ _ _ _ _ (on_tree_mk _ b t _ _ _ Hinv)).
    unfold emit. monad_unfold. simpl. reflexivity.
  - done.
  - done.
  - simpl. by rewrite <- !app_assoc.
  - by destruct Hf as [? _].
  - done.
  - done.
  - done.
Qed.

Lemma InvalidateChildren_resets_the_row_witness :
  let nd := mkNode false true ptr_kids PT_Contained (Some 1%nat)
              "Kids"%string [7; 8; 9]%nat in
  ∃ m1 t1,
    Model_InvalidateChildren 10 (label_cell 5%nat)
      (mkModel false (Some sample_tree_kids) []) = Return tt m1 ∧
    m_pTree m1 = Some t1 ∧ m_bDocChanged m1 = false ∧
    emitted m1 =
      [] ++
      [layoutAboutToBeChanged; layoutChanged;
       dataChanged (label_cell 5%nat) (label_cell 5%nat)] ∧
    m_pDoc t1 = m_pDoc sample_tree_kids ∧
    store t1 !! 5%nat = Some (set_loaded false (set_children [] nd)) ∧
    (∀ c, c ∈ m_children nd → store t1 !! c = None) ∧
    (∀ n, (n < 5)%nat → store t1 !! n = store sample_tree_kids !! n).
Proof.
  apply (InvalidateChildren_resets_the_row sample_tokenizer 10
           (label_cell 5%nat) (mkModel false (Some sample_tree_kids) [])
           sample_tree_kids 5%nat
           (mkNode false true ptr_kids PT_Contained (Some 1%nat)
              "Kids"%string [7; 8; 9]%nat)).
  - reflexivity.
  - exact sample_tree_kids_in_use.
  - reflexivity.
  - reflexivity.
  - vm_compute. reflexivity.
  - vm_compute. lia.
Defined.

(** ** insertElement *)

(** In a tree in use the children of a live node on an object that is
    still in the document can be counted. *)
Lemma CountChildren_total tok t this nd obj :
  in_use tok t → store t !! this = Some nd →
  object_at (m_pDoc t) (m_pObject nd) = Some obj →
  ∃ c t1 nd1,
    CountChildren this t = Return c t1 ∧ m_pDoc t1 = m_pDoc t ∧
    store t1 !! this = Some nd1 ∧ m_pObject nd1 = m_pObject nd.
Proof.
  intros Huse Hn Ho.
  destruct (m_bPretendEmpty nd) eqn:Hp.
  { eexists _, t, nd. split_and!; [|done..].
    by apply (CountChildren_pretend t this nd). }
  destruct (m_bChildrenLoaded nd) eqn:Hl.
  { eexists _, t, nd. split_and!; [|done..].
    by apply (CountChildren_loaded t this nd). }
  destruct (first_population tok t this nd obj Huse Hn Hp Hl Ho)
    as (Hc & Hd & _ & _ & Hn1 & _).
  eexists _, _, _. split_and!; [exact Hc|exact Hd|exact Hn1|done].
Qed.

Lemma CanInsertElement_not_array_total tok t this nd obj row :
  in_use tok t → store t !! this = Some nd →
  object_at (m_pDoc t) (m_pObject nd) = Some obj → IsArray obj = false →
  ∃ t1, CanInsertElement this row t = Return false t1 ∧
        m_pDoc t1 = m_pDoc t.
Proof.
  intros Huse Hn Ho Harr. unfold CanInsertElement.
  destruct (negb (0 <? row)); [by exists t|].
  destruct (CountChildren_total tok t this nd obj Huse Hn Ho)
    as (c & t1 & nd1 & Hc & Hd & Hn1 & Ho1).
  rewrite (bind_run _ _ _ _ _ Hc).
  destruct (negb (row <=? c)); [by exists t1|].
  rewrite (bind_run _ _ _ _ _ (node_at_run _ _ _ Hn1)).
  erewrite bind_run; cycle 1.
  { apply object_of_run. by rewrite Hd, Ho1. }
  rewrite Harr. by exists t1.
Qed.

(** [insertElement(row, parent)] does not look at the node of [parent]:
    for a valid index it asks the root of the tree. While the root is
    on an object that is not an array, as it is when the adapter has
    been constructed, it returns false for every row and every valid
    index, tells the view nothing and leaves the document as it is. *)
Theorem insertElement_consults_the_root tok r idx m t root rd obj :
  m_pTree m = Some t → in_use tok t →
  isValid idx = true →
  m_pRoot t = Some root → store t !! root = Some rd →
  object_at (m_pDoc t) (m_pObject rd) = Some obj → IsArray obj = false →
  ∃ m1 t1,
    insertElement r idx m = Return false m1 ∧
    m_pTree m1 = Some t1 ∧ m_pDoc t1 = m_pDoc t ∧
    emitted m1 = emitted m ∧ m_bDocChanged m1 = m_bDocChanged m.
Proof.
  intros Hm Huse Hv Hroot Hrd Ho Harr.
  destruct m as [b mt e]. simpl in Hm. subst mt.
  destruct (CanInsertElement_not_array_total tok t root rd obj r Huse Hrd Ho
              Harr) as (t1 & Hcan & Hd).
  eexists _, t1. split_and!.
  - unfold insertElement. rewrite Hv.
    erewrite bind_run; cycle 1.
    { rewrite (bind_run _ _ _ _ _
                 (on_tree_mk (gets m_pRoot) b t e _ _ eq_refl)).
      rewrite Hroot. reflexivity. }
    by rewrite (bind_run _ _ _ _ _ (on_tree_mk _ b t e _ _ Hcan)).
  - done.
  - done.
  - done.
  - done.
Qed.

Lemma insertElement_consults_the_root_witness :
  ∃ m1 t1,
    insertElement 1 (label_cell 5%nat)
      (mkModel false (Some sample_tree_kids) []) = Return false m1 ∧
    m_pTree m1 = Some t1 ∧ m_pDoc t1 = m_pDoc sample_tree_kids ∧
    emitted m1 = [] ∧ m_bDocChanged m1 = false.
Proof.
  apply (insertElement_consults_the_root sample_tokenizer 1
           (label_cell 5%nat) (mkModel false (Some sample_tree_kids) [])
           sample_tree_kids 1%nat
           (mkNode false true ptr_catalog PT_Root None KeyNull
              [2; 3; 4; 5; 6]%nat)
           sample_catalog).
  - reflexivity.
  - exact sample_tree_kids_in_use.
  - reflexivity.
  - vm_compute. reflexivity.
  - vm_compute. reflexivity.
  - vm_compute. reflexivity.
  - reflexivity.
Defined.

(** ** The adapter after its construction *)

Lemma new_PdfObjectModel_inv doc m :
  new_PdfObjectModel doc = Return tt m →
  ∃ td r d,
    GetTrailer doc = Dictionary td ∧
    GetKey td "Root" = Some (Reference r) ∧
    vec_lookup (GetObjects doc) r = Some (Dictionary d) ∧
    m = mkModel false
          (Some (mkTree doc true [(mkPtr r [], 1%nat)] (Some 1%nat)
                   {[1%nat := mkNode false false (mkPtr r []) PT_Root None
                                KeyNull []]} 2%nat)) [].
Proof.
  unfold new_PdfObjectModel, setupModelData.
  destruct (GetTrailer doc) as [| | | | | | |td| | |] eqn:Htr; try done.
  simpl. erewrite bind_run by reflexivity. unfold HasKey.
  destruct (GetKey td "Root") as [catalogRef|] eqn:Hk; [|done]. simpl.
  destruct catalogRef as [| | | | | | | | |r|]; try done. simpl.
  erewrite bind_run by reflexivity.
  unfold PdfVecObjects_GetObject, object_at. simpl.
  destruct (vec_lookup (GetObjects doc) r) as [v|] eqn:Hv; [|done]. simpl.
  rewrite Hv. simpl. erewrite bind_run by reflexivity.
  destruct v as [| | | | | | |d| | |]; try done. simpl.
  unfold assign_new_tree. rewrite new_tree_run. intros [= <-].
  by exists td, r, d.
Qed.

Section Fresh.

Variable GetDataTypeString : PdfVariant → string.
Variable ToString : PdfVariant → string.

(** What the view finds when the adapter has been constructed: three
    columns; at the top level one row, row 0, and no other; that row is
    the root, labelled [/Root], with the icon of a dictionary, on the
    catalog that the Root entry of the trailer refers to, which is a
    dictionary; its parent is the invalid index. Nothing has been
    announced and the document does not count as changed. *)
Theorem fresh_adapter_top_level doc m :
  new_PdfObjectModel doc = Return tt m →
  ∃ root r d,
    vec_lookup (GetObjects doc) r = Some (Dictionary d) ∧
    columnCount QModelIndex_null = 3 ∧
    rowCount QModelIndex_null m = Return 1 m ∧
    index 0 0 QModelIndex_null m = Return (createIndex 0 0 root) m ∧
    (∀ n c, n ≠ 0 → index n c QModelIndex_null m = Return QModelIndex_null m) ∧
    parent (createIndex 0 0 root) m = Return QModelIndex_null m ∧
    data GetDataTypeString ToString (createIndex 0 0 root) Qt.DisplayRole m =
      Return (QVariant_QString "/Root") m ∧
    data GetDataTypeString ToString (createIndex 0 0 root) Qt.DecorationRole m =
      Return (QVariant_QPixmap ":/icons/dictionary.png") m ∧
    GetObjectForIndex (createIndex 0 0 root) m = Return (Some (mkPtr r [])) m ∧
    IndexIsDictionary (createIndex 0 0 root) m = Return true m ∧
    IndexIsArray (createIndex 0 0 root) m = Return false m ∧
    IndexIsReference (createIndex 0 0 root) m = Return false m ∧
    m_bDocChanged m = false ∧ emitted m = [].
Proof.
  intros Hnew.
  destruct (new_PdfObjectModel_inv doc m Hnew) as (td & r & d & _ & _ & Hv & ->).
  set (rd := mkNode false false (mkPtr r []) PT_Root None KeyNull []).
  set (t := mkTree doc true [(mkPtr r [], 1%nat)] (Some 1%nat)
              {[1%nat := rd]} 2%nat).
  assert (store t !! 1%nat = Some rd) as Hrd by apply lookup_singleton_eq.
  assert (object_at (m_pDoc t) (m_pObject rd) = Some (Dictionary d)) as Ho.
  { unfold object_at. simpl. by rewrite Hv. }
  assert (∀ b, on_tree (object_of_node 1%nat) (mkModel b (Some t) []) =
               Return (Dictionary d) (mkModel b (Some t) [])) as Hobj.
  { intros b. apply on_tree_mk. by apply (object_of_node_run t 1%nat rd). }
  exists 1%nat, r, d. split_and!.
  - done.
  - done.
  - done.
  - done.
  - intros n c Hn. unfold index. simpl.
    by rewrite (proj2 (Z.eqb_neq n 0) Hn).
  - change (createIndex 0 0 1%nat) with (mkIndex true 0 0 (Some 1%nat)).
    unfold parent. cbn [isValid internalPointer negb].
    rewrite (bind_run _ _ _ _ _
               (on_tree_mk _ false t [] _ _ (GetParent_run _ _ _ Hrd))).
    cbn [m_pParent rd].
    rewrite (bind_run _ _ _ _ _
               (on_tree_mk (gets m_pRoot) false t [] _ _ eq_refl)).
    cbn [m_pRoot t]. by rewrite bool_decide_eq_false_2 by (by intros []).
  - rewrite data_label_cell by done. unfold data_label.
    by rewrite (bind_run _ _ _ _ _
                  (on_tree_mk _ false t [] _ _ (GetParent_run _ _ _ Hrd))).
  - unfold data. simpl. erewrite bind_run by reflexivity.
    unfold data_icon. by rewrite (bind_run _ _ _ _ _ (Hobj false)).
  - by rewrite (GetObjectForIndex_run (mkModel false (Some t) []) t 0 0
                  1%nat rd eq_refl Hrd).
  - unfold IndexIsDictionary. simpl. erewrite bind_run by reflexivity.
    by rewrite (bind_run _ _ _ _ _ (Hobj false)).
  - unfold IndexIsArray. simpl. erewrite bind_run by reflexivity.
    by rewrite (bind_run _ _ _ _ _ (Hobj false)).
  - unfold IndexIsReference. simpl. erewrite bind_run by reflexivity.
    by rewrite (bind_run _ _ _ _ _ (Hobj false)).
  - done.
  - done.
Qed.

End Fresh.

Lemma fresh_adapter_top_level_witness :
  let m := mkModel false (Some sample_tree) [] in
  ∃ root r d,
    vec_lookup (GetObjects sample_doc) r = Some (Dictionary d) ∧
    columnCount QModelIndex_null = 3 ∧
    rowCount QModelIndex_null m = Return 1 m ∧
    index 0 0 QModelIndex_null m = Return (createIndex 0 0 root) m ∧
    (∀ n c, n ≠ 0 → index n c QModelIndex_null m = Return QModelIndex_null m) ∧
    parent (createIndex 0 0 root) m = Return QModelIndex_null m ∧
    data sample_GetDataTypeString sample_ToString (createIndex 0 0 root)
      Qt.DisplayRole m = Return (QVariant_QString "/Root") m ∧
    data sample_GetDataTypeString sample_ToString (createIndex 0 0 root)
      Qt.DecorationRole m =
      Return (QVariant_QPixmap ":/icons/dictionary.png") m ∧
    GetObjectForIndex (createIndex 0 0 root) m = Return (Some (mkPtr r [])) m ∧
    IndexIsDictionary (createIndex 0 0 root) m = Return true m ∧
    IndexIsArray (createIndex 0 0 root) m = Return false m ∧
    IndexIsReference (createIndex 0 0 root) m = Return false m ∧
    m_bDocChanged m = false ∧ emitted m = [].
Proof.
  apply (fresh_adapter_top_level sample_GetDataTypeString sample_ToString
           sample_doc (mkModel false (Some sample_tree) [])).
  vm_compute. reflexivity.
Defined.

(** ** The aliases of a node *)

(** Membership in the alias index of a well-formed tree. *)
Lemma alias_index_elem t object n :
  tree_inv t →
  (object, n) ∈ m_nodeAliases t ↔
  ∃ x, store t !! n = Some x ∧ m_pObject x = object.
Proof.
  intros [Ha _]. unfold alias_index_ok, alias_pairs, pairs_of in Ha.
  rewrite Ha, list_elem_of_fmap. split.
  - intros ([k x] & Heq & Hin). simpl in Heq. injection Heq as -> ->.
    apply elem_of_map_to_list in Hin. eauto.
  - intros (x & Hx & <-). exists (n, x). split; [done|].
    by apply elem_of_map_to_list.
Qed.

Lemma alias_index_NoDup t : tree_inv t → NoDup (m_nodeAliases t).*2.
Proof.
  intros [Ha _]. unfold alias_index_ok, alias_pairs, pairs_of in Ha.
  rewrite Ha. rewrite <- list_fmap_compose.
  apply (NoDup_fst_map_to_list (store t)).
Qed.

(** [GetAliases] of a live node, in a tree in use, returns the live
    nodes on the same object: the node itself is among them, none is
    listed twice, a node is listed exactly when it is live and on that
    object, and [CountAliases] is the length of the list. *)
Theorem GetAliases_lists_the_live_nodes tok t this nd :
  in_use tok t → store t !! this = Some nd →
  ∃ aliases,
    GetAliases this t = Return aliases t ∧
    this ∈ aliases ∧ NoDup aliases ∧
    (∀ n, n ∈ aliases ↔
          ∃ x, store t !! n = Some x ∧ m_pObject x = m_pObject nd) ∧
    CountAliases this t = Return (int_of_size (length aliases)) t.
Proof.
  intros Huse Hn. destruct (wf_in_use tok t Huse) as [Hinv _].
  assert (∀ n, n ∈ Tree_GetAliases t (m_pObject nd) ↔
               ∃ x, store t !! n = Some x ∧ m_pObject x = m_pObject nd)
    as Helem.
  { intros n. rewrite <- (alias_index_elem t _ n Hinv).
    unfold Tree_GetAliases. rewrite list_elem_of_fmap. split.
    - intros ([o k] & -> & Hin). apply list_elem_of_filter in Hin as [Ho Hin].
      simpl in *. by subst o.
    - intros Hin. exists (m_pObject nd, n). split; [done|].
      by apply list_elem_of_filter. }
  exists (Tree_GetAliases t (m_pObject nd)). split_and!.
  - by apply GetAliases_run.
  - apply Helem. eauto.
  - unfold Tree_GetAliases.
    apply (sublist_NoDup _ (m_nodeAliases t).*2);
      [|by apply fmap_sublist, sublist_filter].
    by apply alias_index_NoDup.
  - done.
  - unfold CountAliases.
    rewrite (bind_run _ _ _ _ _ (node_at_run _ _ _ Hn)).
    unfold Tree_CountAliases, Tree_GetAliases, multimap_count.
    by rewrite length_fmap.
Qed.

Lemma GetAliases_lists_the_live_nodes_witness :
  ∃ aliases,
    GetAliases 7%nat sample_tree_aliased = Return aliases sample_tree_aliased ∧
    7%nat ∈ aliases ∧ NoDup aliases ∧
    (∀ n, n ∈ aliases ↔
          ∃ x, store sample_tree_aliased !! n = Some x ∧
               m_pObject x = ptr_shared) ∧
    CountAliases 7%nat sample_tree_aliased =
      Return (int_of_size (length aliases)) sample_tree_aliased.
Proof.
  refine (GetAliases_lists_the_live_nodes sample_tokenizer
            sample_tree_aliased 7%nat
            (mkNode false true ptr_shared PT_Referenced (Some 2%nat) KeyNull [])
            _ _).
  - apply (in_use_call sample_tokenizer (call_CountChildren 8%nat)
             (state_after
                ((_ ← CountChildren 2%nat; _ ← CountChildren 3%nat;
                  CountChildren 7%nat) sample_tree_expanded)
                sample_tree_expanded)); [|reflexivity|vm_compute; reflexivity].
    apply (in_use_call sample_tokenizer (call_CountChildren 7%nat)
             (state_after
                ((_ ← CountChildren 2%nat; CountChildren 3%nat)
                   sample_tree_expanded)
                sample_tree_expanded)); [|reflexivity|vm_compute; reflexivity].
    apply (in_use_call sample_tokenizer (call_CountChildren 3%nat)
             (state_after (CountChildren 2%nat sample_tree_expanded)
                sample_tree_expanded)); [|reflexivity|vm_compute; reflexivity].
    apply (in_use_call sample_tokenizer (call_CountChildren 2%nat)
             sample_tree_expanded); [|reflexivity|vm_compute; reflexivity].
    sample_expanded_in_use.
  - vm_compute. reflexivity.
Defined.

(** ** The eager tree of the trunk version *)

Module EagerTree.
Import Trunk.
Local Open Scope nat_scope.

(** *** Objects below objects *)

Lemma GetKey_elem d k v : GetKey d k = Some v → (k, v) ∈ d.
Proof.
  induction d as [|[k' v'] d IH]; simpl; [done|].
  destruct (decide (k' = k)) as [->|].
  - intros [= ->]. left.
  - intros ?. right. auto.
Qed.

Lemma vec_lookup_elem objs r v : vec_lookup objs r = Some v → (r, v) ∈ objs.
Proof.
  induction objs as [|[r' v'] objs IH]; simpl; [done|].
  destruct (decide (r' = r)) as [->|].
  - intros [= ->]. left.
  - intros ?. right. auto.
Qed.

Lemma height_in_array a v : v ∈ a → height v < height (Array a).
Proof.
  intros Hin. cbn [height]. apply Nat.lt_succ_r.
  induction Hin as [v a|v w a _ IH]; cbn [foldr]; lia.
Qed.

Lemma height_in_dictionary d k v :
  (k, v) ∈ d → height v < height (Dictionary d).
Proof.
  intros Hin. cbn [height]. apply Nat.lt_succ_r.
  remember (k, v) as e eqn:He.
  induction Hin as [e d|e w d _ IH]; cbn [foldr]; subst; simpl; [lia|].
  specialize (IH eq_refl). lia.
Qed.

Lemma refs_in_array a v r : v ∈ a → r ∈ refs_in v → r ∈ refs_in (Array a).
Proof.
  intros Hin Hr. cbn [refs_in].
  induction Hin as [v a|v w a _ IH]; cbn [foldr]; rewrite elem_of_app; auto.
Qed.

Lemma refs_in_dictionary d k v r :
  (k, v) ∈ d → r ∈ refs_in v → r ∈ refs_in (Dictionary d).
Proof.
  intros Hin Hr. cbn [refs_in].
  remember (k, v) as e eqn:He.
  induction Hin as [e d|e w d _ IH]; cbn [foldr]; subst; simpl;
    rewrite elem_of_app; auto.
Qed.

Lemma height_in_table doc r v :
  vec_lookup (GetObjects doc) r = Some v → height v ≤ max_height doc.
Proof.
  intros Hin%vec_lookup_elem. unfold max_height.
  remember (r, v) as e eqn:He.
  induction Hin as [e d|e w d _ IH]; cbn [foldr]; subst; simpl; [lia|].
  specialize (IH eq_refl). lia.
Qed.

Lemma refs_in_table doc r v r' :
  vec_lookup (GetObjects doc) r = Some v → r' ∈ refs_in v →
  r' ∈ doc_refs doc.
Proof.
  intros Hin%vec_lookup_elem Hr. unfold doc_refs.
  remember (r, v) as e eqn:He.
  induction Hin as [e d|e w d _ IH]; cbn [foldr]; subst; simpl;
    rewrite elem_of_app; auto.
Qed.

Lemma variant_at_snoc v path s :
  variant_at v (path ++ [s]) = variant_at v path ≫= λ v', variant_at v' [s].
Proof.
  revert v. induction path as [|s' path IH]; intros v.
  - simpl. by destruct s, v.
  - destruct s' as [k|i]; cbn [app variant_at].
    + destruct v; try done. destruct (GetKey d k); [apply IH|done].
    + destruct v; try done. destruct (a !! i); [apply IH|done].
Qed.

Lemma object_at_key doc p d k :
  object_at doc p = Some (Dictionary d) →
  object_at doc (ptr_step p (AtKey k)) = GetKey d k.
Proof.
  unfold object_at, ptr_step. simpl.
  destruct (vec_lookup (GetObjects doc) (ptr_ref p)) as [v|]; [|done].
  intros Hp. rewrite variant_at_snoc, Hp. simpl. by destruct (GetKey d k).
Qed.

Lemma object_at_index doc p a i :
  object_at doc p = Some (Array a) →
  object_at doc (ptr_step p (AtIndex i)) = a !! i.
Proof.
  unfold object_at, ptr_step. simpl.
  destruct (vec_lookup (GetObjects doc) (ptr_ref p)) as [v|]; [|done].
  intros Hp. rewrite variant_at_snoc, Hp. simpl. by destruct (a !! i).
Qed.

Lemma object_at_referee doc r :
  object_at doc (mkPtr r []) = vec_lookup (GetObjects doc) r.
Proof.
  unfold object_at. simpl. by destruct (vec_lookup (GetObjects doc) r).
Qed.

(** References that resolve are not more than the document has
    objects. *)
Lemma seen_bounded doc (seen : list PdfReference) :
  NoDup seen →
  (∀ r, r ∈ seen → is_Some (vec_lookup (GetObjects doc) r)) →
  length seen ≤ length (GetObjects doc).
Proof.
  intros Hnd Hres.
  rewrite <- (length_fmap fst (GetObjects doc)).
  apply submseteq_length, NoDup_submseteq; [done|].
  intros r [v Hv]%Hres. apply vec_lookup_elem in Hv.
  apply list_elem_of_fmap. by exists (r, v).
Qed.

(** *** Running the small steps *)

Lemma eager_node_at_run t n nd :
  store t !! n = Some nd → node_at n t = Return nd t.
Proof. intros H. unfold node_at. monad_unfold. by rewrite H. Qed.

Lemma eager_object_of_run t nd p obj :
  m_pObject nd = Some p → object_at (m_pDoc t) p = Some obj →
  object_of nd t = Return obj t.
Proof. intros H1 H2. unfold object_of. monad_unfold. by rewrite H1, H2. Qed.

Lemma eager_update_node_run t n nd f :
  store t !! n = Some nd →
  update_node n f t = Return tt (set_store (<[n := f nd]> (store t)) t).
Proof. intros H. unfold update_node, node_at. monad_unfold. by rewrite H. Qed.

(** *** The invariant along the construction *)

Lemma child_link_skeleton follow pq oq nd nd' :
  m_pObject nd' = m_pObject nd → m_parentType nd' = m_parentType nd →
  m_parentKey nd' = m_parentKey nd →
  child_link follow pq oq nd → child_link follow pq oq nd'.
Proof.
  intros Ho Hty Hkey. unfold child_link. rewrite Ho, Hty, Hkey. done.
Qed.

(** Old nodes keep their object, parentage, parent and key; what is new
    is in order: then all is in order. *)
Lemma nodes_ok_mono t t' :
  nodes_ok t →
  m_pDoc t' = m_pDoc t → m_bFollowReferences t' = m_bFollowReferences t →
  next_node t ≤ next_node t' →
  (∀ n nd, store t !! n = Some nd →
     ∃ nd', store t' !! n = Some nd' ∧ m_pObject nd' = m_pObject nd ∧
            m_parentType nd' = m_parentType nd ∧
            m_pParent nd' = m_pParent nd ∧ m_parentKey nd' = m_parentKey nd) →
  (∀ n nd', store t' !! n = Some nd' →
     is_Some (store t !! n) ∨ node_ok t' n nd') →
  nodes_ok t'.
Proof.
  intros Hok Hdoc Hfol Hnext Hold Hnew n nd' Hn.
  destruct (Hnew n nd' Hn) as [[nd Hnd]|]; [|done].
  destruct (Hold n nd Hnd) as (nd1 & Hn1 & Ho & Hty & Hpa & Hkey).
  assert (nd1 = nd') as -> by congruence.
  destruct (Hok n nd Hnd) as (Hlt & Hobj & Hpar).
  split; [lia|]. split; [by rewrite Ho, Hdoc|].
  unfold parent_ok in *. rewrite Hpa. destruct (m_pParent nd) as [q|].
  - destruct Hpar as (Hq & qd & pq & oq & Hqd & Hpq & Hoq & Hlink).
    split; [done|].
    destruct (Hold q qd Hqd) as (qd' & Hqd' & Hqo & _).
    exists qd', pq, oq. rewrite Hqo, Hdoc, Hfol. split_and!; try done.
    by apply (child_link_skeleton _ _ _ nd).
  - by rewrite Hty.
Qed.

Lemma nodes_ok_allocate t nd0 :
  nodes_ok t →
  (∃ p obj, m_pObject nd0 = Some p ∧ object_at (m_pDoc t) p = Some obj) →
  parent_ok t (next_node t) nd0 →
  nodes_ok (mkTree (m_pDoc t) (m_bFollowReferences t) (m_nodeAliases t)
              (m_pRoot t) (<[next_node t := nd0]> (store t))
              (S (next_node t))).
Proof.
  intros Hok Hobj Hpar.
  assert (store t !! next_node t = None) as Hfresh.
  { destruct (store t !! next_node t) as [x|] eqn:Hx; [|done].
    destruct (Hok _ _ Hx) as [? _]. lia. }
  apply (nodes_ok_mono t); simpl; try done; [lia| |].
  - intros n nd Hn. exists nd. rewrite lookup_insert_ne; [done|].
    intros <-. congruence.
  - intros n nd' Hn. destruct (decide (n = next_node t)) as [->|Hne].
    + rewrite lookup_insert_eq in Hn. injection Hn as <-. right.
      split; [simpl; lia|]. split; [done|].
      unfold parent_ok in *. destruct (m_pParent nd0) as [q|]; [|done].
      destruct Hpar as (Hq & qd & pq & oq & Hqd & Hrest).
      split; [done|]. exists qd, pq, oq. simpl.
      rewrite lookup_insert_ne by lia. done.
    + rewrite lookup_insert_ne in Hn by done. left. eauto.
Qed.

Lemma nodes_ok_set_aliases t m : nodes_ok t → nodes_ok (set_aliases m t).
Proof.
  intros Hok. apply (nodes_ok_mono t); simpl; try done.
  - intros n nd Hn. by exists nd.
  - intros n nd Hn. left. eauto.
Qed.

Lemma nodes_ok_set_children t this nd cs :
  nodes_ok t → store t !! this = Some nd →
  nodes_ok (set_store (<[this := set_children cs nd]> (store t)) t).
Proof.
  intros Hok Hthis. apply (nodes_ok_mono t); simpl; try done.
  - intros n x Hn. destruct (decide (n = this)) as [->|Hne].
    + rewrite lookup_insert_eq. exists (set_children cs nd).
      assert (x = nd) as -> by congruence. by split_and!.
    + rewrite lookup_insert_ne by done. exists x. by split_and!.
  - intros n x Hn. left. destruct (decide (n = this)) as [->|Hne]; [eauto|].
    rewrite lookup_insert_ne in Hn by done. eauto.
Qed.

(** *** The references above a node *)

Lemma refs_above_steps t :
  nodes_ok t →
  ∀ s1 s2 parent,
    (∀ q, parent = Some q → q < s1 ∧ q < s2) →
    refs_above s1 t parent = refs_above s2 t parent.
Proof.
  intros Hok. induction s1 as [|s1 IH]; intros s2 parent Hq.
  - destruct parent as [q|]; [|by destruct s2]. destruct (Hq q eq_refl). lia.
  - destruct parent as [q|]; [|by destruct s2].
    destruct (Hq q eq_refl) as [Hq1 Hq2].
    destruct s2 as [|s2]; [lia|]. cbn [refs_above].
    destruct (store t !! q) as [qd|] eqn:Hqd; [|done].
    f_equal. apply IH. intros q' Hq'.
    destruct (Hok q qd Hqd) as (_ & _ & Hpar). unfold parent_ok in Hpar.
    rewrite Hq' in Hpar. destruct Hpar as [? _]. lia.
Qed.

Lemma refs_above_frame t t' :
  nodes_ok t → m_pDoc t' = m_pDoc t →
  (∀ n nd, store t !! n = Some nd →
     ∃ nd', store t' !! n = Some nd' ∧ m_pObject nd' = m_pObject nd ∧
            m_pParent nd' = m_pParent nd) →
  ∀ steps parent,
    (∀ q, parent = Some q → is_Some (store t !! q)) →
    refs_above steps t' parent = refs_above steps t parent.
Proof.
  intros Hok Hdoc Hold. induction steps as [|steps IH]; intros parent Hlive.
  - by destruct parent.
  - destruct parent as [q|]; [|done]. cbn [refs_above].
    destruct (Hlive q eq_refl) as [qd Hqd].
    destruct (Hold q qd Hqd) as (qd' & Hqd' & Ho & Hp).
    rewrite Hqd, Hqd'. unfold own_ref. rewrite Ho, Hdoc, Hp. f_equal.
    apply IH. intros q' Hq'.
    destruct (Hok q qd Hqd) as (_ & _ & Hpar). unfold parent_ok in Hpar.
    rewrite Hq' in Hpar. destruct Hpar as (_ & x & _ & _ & Hx & _). eauto.
Qed.

(** The walk of [PopulateChildren] finds what is above. *)
Lemma cycle_walk_run t r :
  nodes_ok t →
  ∀ steps parent,
    (∀ q, parent = Some q → q < steps ∧ is_Some (store t !! q)) →
    cycle_walk steps r parent t =
      Return (bool_decide (r ∈ refs_above steps t parent)) t.
Proof.
  intros Hok. induction steps as [|steps IH]; intros parent Hq.
  - destruct parent as [q|]; [|done]. destruct (Hq q eq_refl). lia.
  - destruct parent as [q|]; [|done].
    destruct (Hq q eq_refl) as [Hlt [qd Hqd]].
    cbn [cycle_walk refs_above]. rewrite Hqd.
    rewrite (bind_run _ _ _ _ _ (eager_node_at_run _ _ _ Hqd)).
    destruct (Hok q qd Hqd) as (_ & (pq & oq & Hpq & Hoq) & Hpar).
    rewrite (bind_run _ _ _ _ _ (eager_object_of_run _ _ _ _ Hpq Hoq)).
    assert (∀ q', m_pParent qd = Some q' →
                  q' < steps ∧ is_Some (store t !! q')) as Hup.
    { intros q' Hq'. unfold parent_ok in Hpar. rewrite Hq' in Hpar.
      destruct Hpar as (? & x & _ & _ & Hx & _). split; [lia|eauto]. }
    unfold own_ref. rewrite Hpq. simpl. rewrite Hoq.
    destruct oq as [b|z|x|x|x|x|a|d| |r0|x]; simpl;
      try (monad_unfold; rewrite (IH _ Hup); done).
    monad_unfold. destruct (decide (r0 = r)) as [->|Hne].
    + rewrite bool_decide_eq_true_2 by done.
      rewrite bool_decide_eq_true_2 by (apply elem_of_cons; auto). done.
    + rewrite (bool_decide_eq_false_2 (r0 = r)) by done.
      rewrite (IH _ Hup). f_equal. apply bool_decide_ext.
      rewrite elem_of_cons. split; [auto|]. by intros [->|?].
Qed.

(** *** Finished nodes stay finished *)

Lemma children_built_frame t t' n nd :
  nodes_ok t →
  m_pDoc t' = m_pDoc t → m_bFollowReferences t' = m_bFollowReferences t →
  next_node t ≤ next_node t' →
  (∀ m md, store t !! m = Some md →
     ∃ md', store t' !! m = Some md' ∧ m_pObject md' = m_pObject md ∧
            m_pParent md' = m_pParent md) →
  (∀ m, n < m → m < next_node t → store t' !! m = store t !! m) →
  store t !! n = Some nd →
  children_built t n nd → children_built t' n nd.
Proof.
  intros Hok Hdoc Hfol Hnext Hold Hsame Hn (p & obj & Hp & Ho & Hall).
  exists p, obj. rewrite Hdoc. split_and!; try done.
  destruct (Hok n nd Hn) as (Hlt & _ & Hpar).
  assert (references_above t' nd = references_above t nd) as Href.
  { unfold references_above.
    rewrite (refs_above_frame t t' Hok Hdoc Hold).
    - apply refs_above_steps; [done|]. intros q Hq.
      unfold parent_ok in Hpar. rewrite Hq in Hpar. lia.
    - intros q Hq. unfold parent_ok in Hpar. rewrite Hq in Hpar.
      destruct Hpar as (_ & x & _ & _ & Hx & _). eauto. }
  assert (expected_children t' nd p obj = expected_children t nd p obj)
    as ->.
  { unfold expected_children. by rewrite Hfol, Hdoc, Href. }
  eapply Forall2_impl; [exact Hall|].
  intros c spec (cd & Hc & Hrest). exists cd. split; [|done].
  destruct (Hok c cd Hc) as (Hclt & _ & Hcpar).
  unfold parent_ok in Hcpar.
  destruct Hrest as (_ & _ & _ & Hcp). rewrite Hcp in Hcpar.
  rewrite Hsame; [done|lia|done].
Qed.

Lemma bind_outcome {S A B} (m : M S A) (k : A → M S B) s :
  (x ← m; k x) s =
    match m s with
    | Return a s' => k a s'
    | Throw e s' => Throw e s'
    | AssertFail => AssertFail
    | Undefined => Undefined
    | OutOfFuel => OutOfFuel
    end.
Proof. done. Qed.

Lemma bind_ret_run {S A B} (a : A) (k : A → M S B) s :
  (x ← ret a; k x) s = k a s.
Proof. done. Qed.

Lemma bind_get_run {S B} (k : S → M S B) s : (x ← get; k x) s = k s s.
Proof. done. Qed.

Lemma set_children_same nd : set_children (m_children nd) nd = nd.
Proof. by destruct nd. Qed.

Lemma set_children_twice cs cs' nd :
  set_children cs' (set_children cs nd) = set_children cs' nd.
Proof. done. Qed.

(** A node for a null object: its constructor dereferences the null
    pointer as soon as it looks for children. *)
Lemma new_node_null fuel t parent key pt :
  parent ≠ None →
  new_PdfObjectModelNode (S fuel) None parent key pt t = Undefined.
Proof.
  intros Hpar. cbn [new_PdfObjectModelNode].
  rewrite (bool_decide_eq_false_2 (parent = None)) by done.
  rewrite andb_false_r.
  unfold allocate, constructing, NodeCreated, PopulateChildren_with, node_at,
    object_of.
  monad_unfold. simpl. repeat (rewrite lookup_insert_eq; simpl). done.
Qed.

(** *** Subtrees and their addresses *)

Lemma covers_list_bounds (P : nodeptr → nodeptr → Prop) :
  (∀ c mid, P c mid → c < mid) →
  ∀ cs lo hi, covers_list P lo cs hi → lo ≤ hi.
Proof.
  intros HP. induction cs as [|c cs IH]; intros lo hi; simpl.
  - intros ->. done.
  - intros (-> & mid & Hc & Hcs). apply HP in Hc. apply IH in Hcs. lia.
Qed.

Lemma covers_bounds h t : ∀ n hi, covers h t n hi → n < hi.
Proof.
  induction h as [|h IH]; intros n hi; simpl; [done|].
  intros (nd & _ & Hcs). apply (covers_list_bounds _ IH) in Hcs. lia.
Qed.

Lemma covers_list_frame (P Q : nodeptr → nodeptr → Prop) lo0 hi0 :
  (∀ c mid, P c mid → c < mid) →
  (∀ c mid, lo0 ≤ c → mid ≤ hi0 → P c mid → Q c mid) →
  ∀ cs lo hi, lo0 ≤ lo → hi ≤ hi0 →
    covers_list P lo cs hi → covers_list Q lo cs hi.
Proof.
  intros HP HPQ. induction cs as [|c cs IH]; intros lo hi Hlo Hhi; simpl;
    [done|].
  intros (-> & mid & Hc & Hcs). split; [done|]. exists mid.
  assert (lo < mid) by by apply HP.
  assert (mid ≤ hi) by by apply (covers_list_bounds P HP cs).
  split; [apply HPQ; (done || lia)|]. apply IH; (done || lia).
Qed.

(** A subtree depends on the nodes at its addresses only. *)
Lemma covers_frame h t t' :
  ∀ n hi,
    (∀ m, n ≤ m < hi → store t' !! m = store t !! m) →
    covers h t n hi → covers h t' n hi.
Proof.
  induction h as [|h IH]; intros n hi Hsame; simpl; [done|].
  intros (nd & Hn & Hcs). exists nd.
  assert (S n ≤ hi)
    by by apply (covers_list_bounds _ (covers_bounds h t) _ _ _ Hcs).
  split; [rewrite Hsame; (done || lia)|].
  apply (covers_list_frame (covers h t) (covers h t') (S n) hi
           (covers_bounds h t)); try done.
  intros c mid Hc Hmid. apply IH. intros m Hm. apply Hsame. lia.
Qed.

(** *** Adding the children of a node *)

Lemma add_nodes_end fuel B :
  node_construction_ends fuel →
  ∀ specs t this nd p obj,
    nodes_ok t → store t !! this = Some nd →
    m_pObject nd = Some p → object_at (m_pDoc t) p = Some obj →
    (∀ s, s ∈ specs →
       ∃ ps os, s.1.1 = Some ps ∧ object_at (m_pDoc t) ps = Some os ∧
         (∀ r, r ∈ refs_in os → r ∈ doc_refs (m_pDoc t)) ∧
         child_link (m_bFollowReferences t) p obj
           (mkNode s.1.1 s.1.2 (Some this) s.2 []) ∧
         fuel_needed (m_pDoc t)
           (length (refs_above (next_node t) t (Some this))) (height os)
           ≤ B) →
    NoDup (refs_above (next_node t) t (Some this)) →
    (∀ r, r ∈ refs_above (next_node t) t (Some this) →
          is_Some (vec_lookup (GetObjects (m_pDoc t)) r)) →
    (∀ n, this < n < next_node t →
          ∃ x, store t !! n = Some x ∧ children_built t n x) →
    ends_well
      (for_each
         (λ s, AddNode_with (new_PdfObjectModelNode fuel) this
                 s.1.1 s.1.2 s.2) specs t)
      (λ _ t', nodes_added t t' this nd specs ∧
               children_cover fuel t t' this nd)
      (m_bFollowReferences t = true ∧ ¬ closed (m_pDoc t))
      (fuel < B).
Proof.
  intros Hnode. induction specs as [|s specs IH];
    intros t this nd p obj Hok Hthis Hp Hobj Hspecs Hnd Hres Hdone.
  - simpl. split; [split_and!; try done|].
    + exists []. rewrite app_nil_r, set_children_same.
      split; [done|constructor].
    + intros cs Hcs. rewrite Hthis in Hcs. injection Hcs as Hcs.
      apply (f_equal m_children) in Hcs. simpl in Hcs.
      rewrite <- (app_nil_r (m_children nd)) in Hcs at 1.
      apply app_inv_head in Hcs as <-. done.
  - cbn [for_each]. rewrite bind_outcome. unfold AddNode_with at 1.
    rewrite bind_outcome.
    destruct (Hspecs s) as (ps & os & Hps & Hos & Hrefs & Hlink & HB);
      [left|].
    destruct (Hok this nd Hthis) as (Hlt & _ & Hthispar).
    rewrite Hps.
    assert (parent_ok t (next_node t)
              (mkNode (Some ps) s.1.2 (Some this) s.2 [])) as Hparent.
    { split; [done|]. exists nd, p, obj. rewrite <- Hps. done. }
    assert (Hends := Hnode t ps os (Some this) s.2 s.1.2 Hok Hos Hrefs
                       Hparent Hnd Hres).
    unfold ends_well in Hends.
    destruct (new_PdfObjectModelNode fuel (Some ps) (Some this) s.2 s.1.2 t)
      as [c t3| | | |] eqn:Hnew; [|done|done|done|].
    2:{ simpl. lia. }
    destruct Hends as (-> & Hbuilt & Hcov3).
    destruct Hbuilt as
      (Hdoc3 & Hfol3 & Hroot3 & Hnext3 & Hold3 & [cs3 Hc3] & Hok3 & Hnew3).
    assert (store t3 !! this = Some nd) as Hthis3 by (by rewrite Hold3).
    rewrite (eager_update_node_run _ _ _ _ Hthis3).
    set (nd4 := set_children (m_children nd ++ [next_node t]) nd).
    set (t4 := set_store (<[this := nd4]> (store t3)) t3).
    assert (nodes_ok t4) as Hok4 by by apply nodes_ok_set_children.
    assert (store t4 !! this = Some nd4) as Hthis4
      by apply lookup_insert_eq.
    assert (∀ m md, store t !! m = Some md →
              ∃ md', store t4 !! m = Some md' ∧
                     m_pObject md' = m_pObject md ∧
                     m_pParent md' = m_pParent md) as Hold4.
    { intros m md Hm. destruct (Hok m md Hm) as (Hmlt & _).
      destruct (decide (m = this)) as [->|Hne].
      - exists nd4. assert (md = nd) as -> by congruence. done.
      - exists md. simpl. rewrite lookup_insert_ne by done.
        by rewrite Hold3. }
    assert (∀ m md, store t3 !! m = Some md →
              ∃ md', store t4 !! m = Some md' ∧
                     m_pObject md' = m_pObject md ∧
                     m_pParent md' = m_pParent md) as Hold34.
    { intros m md Hm. destruct (decide (m = this)) as [->|Hne].
      - exists nd4. assert (md = nd) as -> by congruence. done.
      - exists md. simpl. by rewrite lookup_insert_ne by done. }
    assert (refs_above (next_node t4) t4 (Some this) =
            refs_above (next_node t) t (Some this)) as Hseen.
    { rewrite (refs_above_frame t t4 Hok); [|done|done|].
      - apply refs_above_steps; [done|]. intros q [= <-]. simpl. lia.
      - intros q [= <-]. eauto. }
    assert (ends_well
              (for_each
                 (λ s, AddNode_with (new_PdfObjectModelNode fuel) this
                         s.1.1 s.1.2 s.2) specs t4)
              (λ _ t', nodes_added t4 t' this nd4 specs ∧
                       children_cover fuel t4 t' this nd4)
              (m_bFollowReferences t = true ∧ ¬ closed (m_pDoc t))
              (fuel < B)) as Hrest.
    { rewrite <- Hfol3, <- Hdoc3.
      apply (IH t4 this nd4 p obj Hok4 Hthis4 Hp).
      - simpl. by rewrite Hdoc3.
      - intros s' Hs'.
        destruct (Hspecs s') as (ps' & os' & ? & ? & ? & ? & ?); [by right|].
        exists ps', os'. rewrite Hseen. simpl. rewrite Hdoc3, Hfol3. done.
      - by rewrite Hseen.
      - intros r. rewrite Hseen. simpl. rewrite Hdoc3. apply Hres.
      - intros n Hn. simpl in Hn.
        destruct (decide (n < next_node t)) as [Hlo|Hhi].
        + destruct (Hdone n) as (x & Hx & Hbx); [lia|].
          exists x. assert (store t4 !! n = Some x) as Hx4.
          { simpl. rewrite lookup_insert_ne by lia. by rewrite Hold3. }
          split; [done|].
          apply (children_built_frame t t4); simpl; try done; [lia|].
          intros m Hm1 Hm2. rewrite lookup_insert_ne by lia.
          by apply Hold3.
        + destruct (Hnew3 n) as (x & Hx & Hbx); [lia|].
          exists x. assert (store t4 !! n = Some x) as Hx4.
          { simpl. by rewrite lookup_insert_ne by lia. }
          split; [done|].
          apply (children_built_frame t3 t4); simpl; try done.
          intros m Hm1 Hm2. by rewrite lookup_insert_ne by lia. }
    unfold ends_well in Hrest |- *.
    destruct (for_each _ specs t4) as [[] t5| | | |]; try done.
    destruct Hrest as
      ((Hdoc5 & Hfol5 & Hroot5 & Hnext5 & Hold5 & (cs5 & Hthis5 & Hcs5)
        & Hok5 & Hnew5) & Hcov5).
    simpl in Hdoc5, Hfol5, Hroot5, Hnext5, Hold5.
    assert (store t5 !! this =
            Some (set_children (m_children nd ++ next_node t :: cs5) nd))
      as Hthis5'.
    { rewrite Hthis5. unfold nd4. rewrite set_children_twice.
      simpl. by rewrite <- app_assoc. }
    split; [split_and!; try congruence; [lia| | |done|done]|].
    + intros n Hn Hne. rewrite Hold5 by (done || lia).
      rewrite lookup_insert_ne by done. by apply Hold3.
    + exists (next_node t :: cs5). split; [done|].
      constructor; [|done].
      exists (mkNode (Some ps) s.1.2 (Some this) s.2 cs3).
      rewrite Hold5 by lia. rewrite lookup_insert_ne by lia.
      rewrite Hc3, Hps. done.
    + intros cs Hcs. rewrite Hthis5' in Hcs. injection Hcs as Hcs.
      apply app_inv_head in Hcs as <-.
      split; [done|]. exists (next_node t3). split.
      * apply (covers_frame fuel t3); [|done].
        intros m Hm. rewrite Hold5 by (simpl; lia).
        simpl. by rewrite lookup_insert_ne by lia.
      * apply Hcov5. by rewrite Hthis5.
Qed.

Lemma GetKey_is_Some d k v : (k, v) ∈ d → is_Some (GetKey d k).
Proof.
  induction d as [|[k' v'] d IH]; [by intros ?%elem_of_nil|].
  intros Hin. simpl. destruct (decide (k' = k)); [eauto|].
  apply IH. apply elem_of_cons in Hin as [[= -> ->]|]; done.
Qed.

Lemma fuel_needed_below doc seen h h' :
  h' < h → fuel_needed doc seen h' ≤ fuel_needed doc seen h - 1.
Proof. unfold fuel_needed. lia. Qed.

Lemma fuel_needed_pos doc seen h : 1 < fuel_needed doc seen h.
Proof.
  unfold fuel_needed.
  generalize ((length (GetObjects doc) - seen) * (max_height doc + 1)).
  lia.
Qed.

Lemma fuel_needed_one_more doc seen h fuel :
  fuel < fuel_needed doc seen h - 1 → S fuel < fuel_needed doc seen h.
Proof. unfold fuel_needed. lia. Qed.

Lemma fuel_needed_followed doc seen h' :
  S seen ≤ length (GetObjects doc) → h' ≤ max_height doc →
  fuel_needed doc (S seen) h' ≤ fuel_needed doc seen 0 - 1.
Proof.
  unfold fuel_needed. intros Hs Hh.
  replace (length (GetObjects doc) - seen)
    with (S (length (GetObjects doc) - S seen)) by lia.
  rewrite Nat.mul_succ_l. lia.
Qed.

Lemma refs_above_later t t' parent :
  nodes_ok t → m_pDoc t' = m_pDoc t →
  (∀ n nd, store t !! n = Some nd →
     ∃ nd', store t' !! n = Some nd' ∧ m_pObject nd' = m_pObject nd ∧
            m_pParent nd' = m_pParent nd) →
  (∀ q, parent = Some q →
        q < next_node t ∧ q < next_node t' ∧ is_Some (store t !! q)) →
  refs_above (next_node t') t' parent = refs_above (next_node t) t parent.
Proof.
  intros Hok Hdoc Hold Hq.
  rewrite (refs_above_frame t t' Hok Hdoc Hold).
  - apply refs_above_steps; [done|]. intros q ?. destruct (Hq q) as (?&?&?); done.
  - intros q ?. destruct (Hq q) as (?&?&?); done.
Qed.

Lemma nodes_added_none fuel t this nd :
  nodes_ok t → store t !! this = Some nd → next_node t = S this →
  nodes_added t t this nd [] ∧ children_cover fuel t t this nd.
Proof.
  intros Hok Hthis Hnext. split; [split_and!; try done|].
  - exists []. rewrite app_nil_r, set_children_same. split; [done|constructor].
  - intros n Hn. lia.
  - intros cs Hcs. rewrite Hthis in Hcs. injection Hcs as Hcs.
    apply (f_equal m_children) in Hcs. simpl in Hcs.
    rewrite <- (app_nil_r (m_children nd)) in Hcs at 1.
    apply app_inv_head in Hcs as <-. done.
Qed.

(** The references from a node up: its own, then those above it. *)
Lemma refs_above_self t this nd :
  nodes_ok t → store t !! this = Some nd →
  refs_above (next_node t) t (Some this) =
    own_ref t nd ++ references_above t nd.
Proof.
  intros Hok Hthis. destruct (Hok this nd Hthis) as (Hlt & _ & Hpar).
  destruct (next_node t) as [|k] eqn:Hk; [lia|].
  cbn [refs_above]. rewrite Hthis. f_equal. unfold references_above.
  rewrite Hk. apply refs_above_steps; [done|]. intros q Hq.
  unfold parent_ok in Hpar. rewrite Hq in Hpar. lia.
Qed.

(** *** The children of a new node *)

Lemma populate_ends fuel :
  node_construction_ends fuel →
  ∀ t this nd p obj,
    nodes_ok t → store t !! this = Some nd →
    m_pObject nd = Some p → object_at (m_pDoc t) p = Some obj →
    (∀ r, r ∈ refs_in obj → r ∈ doc_refs (m_pDoc t)) →
    next_node t = S this →
    NoDup (references_above t nd) →
    (∀ r, r ∈ references_above t nd →
          is_Some (vec_lookup (GetObjects (m_pDoc t)) r)) →
    ends_well (PopulateChildren_with (new_PdfObjectModelNode fuel) this t)
      (λ _ t', nodes_added t t' this nd (expected_children t nd p obj) ∧
               children_cover fuel t t' this nd)
      (m_bFollowReferences t = true ∧ ¬ closed (m_pDoc t))
      (S fuel < fuel_needed (m_pDoc t) (length (references_above t nd))
                  (height obj)).
Proof.
  intros Hnode t this nd p obj Hok Hthis Hp Hobj Hrefs Hnext Hnd Hres.
  unfold PopulateChildren_with.
  rewrite (bind_run _ _ _ _ _ (eager_node_at_run _ _ _ Hthis)).
  rewrite bind_get_run.
  rewrite (bind_run _ _ _ _ _ (eager_object_of_run _ _ _ _ Hp Hobj)).
  assert (Hself := refs_above_self t this nd Hok Hthis).
  assert (∀ n, this < n < next_node t →
               ∃ x, store t !! n = Some x ∧ children_built t n x) as Hnone
    by (intros n ?; lia).
  assert (Hleaf := nodes_added_none fuel t this nd Hok Hthis Hnext).
  destruct (Hok this nd Hthis) as (Hlt & _ & Hpar).
  assert (∀ q, m_pParent nd = Some q →
               q < next_node t ∧ is_Some (store t !! q)) as Hup.
  { intros q Hq. unfold parent_ok in Hpar. rewrite Hq in Hpar.
    destruct Hpar as (? & x & _ & _ & Hx & _). split; [lia|eauto]. }
  unfold expected_children.
  destruct obj as [b|z|x|x|x|x|a|d| |r|x]; simpl;
    rewrite ?andb_false_r; simpl; try exact Hleaf.
  - (* an array *)
    rewrite Hp. simpl.
    rewrite !bind_ret_run.
    set (f := λ i : nat, (Some (ptr_step p (AtIndex i)), PT_Contained, KeyNull)).
    assert (for_each
              (λ i, AddNode_with (new_PdfObjectModelNode fuel) this
                      (Some (ptr_step p (AtIndex i))) PT_Contained KeyNull)
              (seq 0 (length a)) =
            for_each
              (λ s, AddNode_with (new_PdfObjectModelNode fuel) this
                      s.1.1 s.1.2 s.2) (f <$> seq 0 (length a))) as ->.
    { symmetry. apply (for_each_fmap f). }
    set (B := fuel_needed (m_pDoc t) (length (references_above t nd))
                (height (Array a)) - 1).
    assert (ends_well
              (for_each
                 (λ s, AddNode_with (new_PdfObjectModelNode fuel) this
                         s.1.1 s.1.2 s.2) (f <$> seq 0 (length a)) t)
              (λ _ t', nodes_added t t' this nd (f <$> seq 0 (length a)) ∧
                       children_cover fuel t t' this nd)
              (m_bFollowReferences t = true ∧ ¬ closed (m_pDoc t))
              (fuel < B)) as Hends.
    { apply (add_nodes_end fuel B Hnode _ t this nd p (Array a));
        try done.
      - intros s (i & -> & Hi)%list_elem_of_fmap.
        apply elem_of_seq in Hi.
        destruct (lookup_lt_is_Some_2 a i) as [v Hv]; [lia|].
        exists (ptr_step p (AtIndex i)), v. split_and!; try done.
        + by rewrite (object_at_index _ _ a).
        + intros r Hr. apply Hrefs.
          apply (refs_in_array a v); [|done]. by eapply list_elem_of_lookup_2.
        + exists i. split_and!; try done. lia.
        + rewrite Hself. unfold own_ref. rewrite Hp. simpl. rewrite Hobj.
          simpl. apply fuel_needed_below.
          apply height_in_array. by eapply list_elem_of_lookup_2.
      - rewrite Hself. unfold own_ref. rewrite Hp. simpl. by rewrite Hobj.
      - rewrite Hself. unfold own_ref. rewrite Hp. simpl. by rewrite Hobj. }
    unfold ends_well in *.
    destruct (for_each _ _ t) as [[] t'| | | |];
      [exact Hends|done|done|done|].
    by apply fuel_needed_one_more.
  - (* a dictionary *)
    rewrite Hp. simpl.
    rewrite !bind_ret_run.
    set (f := λ it : PdfName * PdfVariant,
                (Some (ptr_step p (AtKey it.1)), PT_Contained, it.1)).
    assert (for_each
              (λ it : PdfName * PdfVariant,
                 AddNode_with (new_PdfObjectModelNode fuel) this
                   (Some (ptr_step p (AtKey it.1))) PT_Contained it.1) d =
            for_each
              (λ s, AddNode_with (new_PdfObjectModelNode fuel) this
                      s.1.1 s.1.2 s.2) (f <$> d)) as ->.
    { symmetry. apply (for_each_fmap f). }
    set (B := fuel_needed (m_pDoc t) (length (references_above t nd))
                (height (Dictionary d)) - 1).
    assert (ends_well
              (for_each
                 (λ s, AddNode_with (new_PdfObjectModelNode fuel) this
                         s.1.1 s.1.2 s.2) (f <$> d) t)
              (λ _ t', nodes_added t t' this nd (f <$> d) ∧
                       children_cover fuel t t' this nd)
              (m_bFollowReferences t = true ∧ ¬ closed (m_pDoc t))
              (fuel < B)) as Hends.
    { apply (add_nodes_end fuel B Hnode _ t this nd p (Dictionary d));
        try done.
      - intros s ([k v0] & -> & Hin)%list_elem_of_fmap.
        destruct (GetKey_is_Some d k v0 Hin) as [v Hv].
        exists (ptr_step p (AtKey k)), v. simpl. split_and!; try done.
        + by rewrite (object_at_key _ _ d).
        + intros r Hr. apply Hrefs.
          apply (refs_in_dictionary d k v); [|done]. by apply GetKey_elem.
        + exists k. by split_and!.
        + rewrite Hself. unfold own_ref. rewrite Hp. simpl. rewrite Hobj.
          simpl. apply fuel_needed_below.
          apply (height_in_dictionary d k). by apply GetKey_elem.
      - rewrite Hself. unfold own_ref. rewrite Hp. simpl. by rewrite Hobj.
      - rewrite Hself. unfold own_ref. rewrite Hp. simpl. by rewrite Hobj. }
    unfold ends_well in *.
    destruct (for_each _ _ t) as [[] t'| | | |];
      [exact Hends|done|done|done|].
    by apply fuel_needed_one_more.
  - (* a reference *)
    destruct (m_bFollowReferences t) eqn:Hfol; simpl; [|exact Hleaf].
    rewrite bind_ret_run.
    rewrite (bind_run _ _ _ _ _ (cycle_walk_run t r Hok _ _ Hup)).
    fold (references_above t nd).
    destruct (bool_decide (r ∈ references_above t nd)) eqn:Hcut;
      [exact Hleaf|].
    apply bool_decide_eq_false in Hcut.
    rewrite Hp. simpl. rewrite bind_ret_run.
    assert (refs_above (next_node t) t (Some this) =
            r :: references_above t nd) as Hseen.
    { rewrite Hself. unfold own_ref. rewrite Hp. simpl. by rewrite Hobj. }
    unfold PdfVecObjects_GetObject.
    destruct (vec_lookup (GetObjects (m_pDoc t)) r) as [v|] eqn:Hv.
    + pose (s := (Some (mkPtr r []), PT_Referenced, KeyNull)
                 : option PdfObjectPtr * ParentageType * PdfName).
      rewrite <- bind_ret_tt.
      change (ends_well
                (for_each
                   (λ s, AddNode_with (new_PdfObjectModelNode fuel) this
                           s.1.1 s.1.2 s.2) [s] t)
                (λ _ t', nodes_added t t' this nd [s] ∧
                         children_cover fuel t t' this nd)
                (true = true ∧ ¬ closed (m_pDoc t))
                (S fuel < fuel_needed (m_pDoc t)
                            (length (references_above t nd)) 0)).
      rewrite <- Hfol at 1.
      assert (NoDup (r :: references_above t nd)) as Hnd'
        by (by constructor).
      assert (∀ r', r' ∈ r :: references_above t nd →
                is_Some (vec_lookup (GetObjects (m_pDoc t)) r')) as Hres'.
      { intros r' [->|?]%elem_of_cons; [eauto|auto]. }
      set (B := fuel_needed (m_pDoc t) (length (references_above t nd)) 0
                - 1).
      assert (ends_well
                (for_each
                   (λ s, AddNode_with (new_PdfObjectModelNode fuel) this
                           s.1.1 s.1.2 s.2) [s] t)
                (λ _ t', nodes_added t t' this nd [s] ∧
                         children_cover fuel t t' this nd)
                (m_bFollowReferences t = true ∧ ¬ closed (m_pDoc t))
                (fuel < B)) as Hends.
      { apply (add_nodes_end fuel B Hnode _ t this nd p (Reference r));
          try done.
        - intros s' ->%list_elem_of_singleton.
          exists (mkPtr r []), v. simpl. split_and!; try done.
          + by rewrite object_at_referee.
          + intros r' Hr'. by apply (refs_in_table _ r v).
          + rewrite Hseen. simpl. apply fuel_needed_followed.
            * apply (seen_bounded _ (r :: references_above t nd)); done.
            * by apply (height_in_table _ r).
        - by rewrite Hseen.
        - by rewrite Hseen. }
      unfold ends_well in *.
      destruct (for_each _ _ t) as [[] t'| | | |];
        [exact Hends|done|done|done|].
      by apply fuel_needed_one_more.
    + assert (¬ closed (m_pDoc t)) as Hopen.
      { intros Hcl. unfold closed in Hcl. rewrite Forall_forall in Hcl.
        destruct (Hcl r) as [v Hv']; [|congruence].
        apply Hrefs. simpl. left. }
      unfold AddNode_with. rewrite bind_outcome.
      destruct fuel as [|fuel]; [apply fuel_needed_pos|].
      rewrite new_node_null by done. done.
Qed.

(** *** The construction of a node *)

Lemma new_node_ends fuel : node_construction_ends fuel.
Proof.
  induction fuel as [|fuel IH];
    intros t object obj parent key pt Hok Hobj Hrefs Hpar Hnd Hres.
  - unfold ends_well. cbn [new_PdfObjectModelNode]. unfold out_of_fuel.
    etrans; [|apply fuel_needed_pos]. lia.
  - cbn [new_PdfObjectModelNode].
    assert (bool_decide (pt ≠ PT_Root) && bool_decide (parent = None) = false)
      as ->.
    { destruct parent as [q|]; [apply andb_false_r|].
      unfold parent_ok in Hpar. simpl in Hpar. subst pt.
      by rewrite (bool_decide_eq_false_2 (PT_Root ≠ PT_Root)) by auto. }
    set (this := next_node t).
    set (nd0 := mkNode (Some object) pt parent key []).
    rewrite bind_outcome. unfold allocate at 1. cbv beta iota.
    fold this. fold nd0.
    set (t1 := mkTree (m_pDoc t) (m_bFollowReferences t) (m_nodeAliases t)
                 (m_pRoot t) (<[this := nd0]> (store t)) (S this)).
    assert (nodes_ok t1) as Hok1.
    { apply nodes_ok_allocate; [done| |done]. by exists object, obj. }
    assert (store t1 !! this = Some nd0) as Hthis1 by apply lookup_insert_eq.
    rewrite bind_outcome. unfold constructing. rewrite bind_outcome.
    assert (NodeCreated this t1 =
            Return tt (set_aliases (m_nodeAliases t1 ++ [(Some object, this)])
                         t1)) as ->.
    { unfold NodeCreated.
      by rewrite (bind_run _ _ _ _ _ (eager_node_at_run _ _ _ Hthis1)). }
    set (t2 := set_aliases (m_nodeAliases t1 ++ [(Some object, this)]) t1).
    assert (nodes_ok t2) as Hok2 by by apply nodes_ok_set_aliases.
    assert (∀ n nd, store t !! n = Some nd →
              ∃ nd', store t2 !! n = Some nd' ∧
                     m_pObject nd' = m_pObject nd ∧
                     m_pParent nd' = m_pParent nd) as Hold2.
    { intros n nd Hn. exists nd. simpl. destruct (Hok n nd Hn) as [? _].
      rewrite lookup_insert_ne by (unfold this; lia). done. }
    assert (∀ q, parent = Some q →
              q < next_node t ∧ is_Some (store t !! q)) as Hq.
    { intros q ->. unfold parent_ok in Hpar. simpl in Hpar.
      destruct Hpar as (? & x & _ & _ & Hx & _). eauto. }
    assert (references_above t2 nd0 = refs_above (next_node t) t parent)
      as Hseen.
    { unfold references_above. apply refs_above_later; try done.
      intros q Hq'. destruct (Hq q Hq') as [? ?]. simpl.
      split_and!; try done. unfold this. lia. }
    assert (Hpop := populate_ends fuel IH t2 this nd0 object obj Hok2 Hthis1
                      eq_refl Hobj Hrefs eq_refl).
    rewrite Hseen in Hpop. specialize (Hpop Hnd Hres).
    unfold ends_well in Hpop |- *.
    destruct (PopulateChildren_with _ this t2) as [[] t'| | | |];
      [|done|done|done|done].
    destruct Hpop as
      ((Hdoc & Hfol & Hroot & Hnext & Hold & (cs & Hthis' & Hcs) & Hok'
        & Hnew) & Hcov).
    simpl in Hdoc, Hfol, Hroot, Hnext, Hold.
    split; [done|]. split.
    2:{ exists (set_children (m_children nd0 ++ cs) nd0).
        split; [exact Hthis'|]. exact (Hcov cs Hthis'). }
    split_and!; try done.
    + intros n Hn. rewrite Hold by (unfold this; lia).
      rewrite lookup_insert_ne by (unfold this; lia). done.
    + exists cs. exact Hthis'.
    + intros n Hn. destruct (decide (n = this)) as [->|Hne].
      * exists (set_children (m_children nd0 ++ cs) nd0). split; [done|].
        exists object, obj. rewrite Hdoc. split_and!; try done.
        assert (references_above t' (set_children (m_children nd0 ++ cs) nd0)
                = references_above t2 nd0) as Href.
        { unfold references_above.
          apply (refs_above_later t2 t' parent); try done.
          - intros m md Hm. destruct (decide (m = this)) as [->|Hm'].
            + exists (set_children (m_children nd0 ++ cs) nd0).
              change (store t2) with (store t1) in Hm.
              assert (md = nd0) as -> by congruence. done.
            + exists md. destruct (Hok2 m md Hm) as [? _].
              rewrite Hold by done. done.
          - intros q Hq'. destruct (Hq q Hq') as [? [x Hx]]. simpl.
            split_and!; [unfold this; lia|unfold this in *; lia|].
            exists x. rewrite lookup_insert_ne by (unfold this; lia). done. }
        assert (expected_children t'
                  (set_children (m_children nd0 ++ cs) nd0) object obj =
                expected_children t2 nd0 object obj) as ->.
        { unfold expected_children. rewrite Href. simpl.
          by rewrite Hfol, Hdoc. }
        done.
      * apply Hnew. unfold this in *. lia.
Qed.

Lemma refs_in_variant_at v path obj r :
  variant_at v path = Some obj → r ∈ refs_in obj → r ∈ refs_in v.
Proof.
  revert v. induction path as [|s path IH]; intros v; simpl.
  - by intros [= ->].
  - destruct s as [k|i]; destruct v; try done.
    + destruct (GetKey d k) as [v'|] eqn:Hk; [|done]. intros Hv Hr.
      apply (refs_in_dictionary d k v'); [by apply GetKey_elem|]. eauto.
    + destruct (a !! i) as [v'|] eqn:Hi; [|done]. intros Hv Hr.
      apply (refs_in_array a v'); [by eapply list_elem_of_lookup_2|]. eauto.
Qed.

Lemma height_variant_at v path obj :
  variant_at v path = Some obj → height obj ≤ height v.
Proof.
  revert v. induction path as [|s path IH]; intros v; simpl.
  - by intros [= ->].
  - destruct s as [k|i]; destruct v; try done.
    + destruct (GetKey d k) as [v'|] eqn:Hk; [|done]. intros Hv.
      apply IH in Hv.
      assert (height v' < height (Dictionary d))
        by (apply (height_in_dictionary d k); by apply GetKey_elem).
      lia.
    + destruct (a !! i) as [v'|] eqn:Hi; [|done]. intros Hv.
      apply IH in Hv.
      assert (height v' < height (Array a))
        by (apply height_in_array; by eapply list_elem_of_lookup_2).
      lia.
Qed.

Lemma refs_in_object_at doc p obj r :
  object_at doc p = Some obj → r ∈ refs_in obj → r ∈ doc_refs doc.
Proof.
  unfold object_at.
  destruct (vec_lookup (GetObjects doc) (ptr_ref p)) as [v|] eqn:Hv; [|done].
  intros Hat Hr. apply (refs_in_table doc (ptr_ref p) v); [done|].
  by apply (refs_in_variant_at v (ptr_path p) obj).
Qed.

Lemma height_object_at doc p obj :
  object_at doc p = Some obj → height obj ≤ max_height doc.
Proof.
  unfold object_at.
  destruct (vec_lookup (GetObjects doc) (ptr_ref p)) as [v|] eqn:Hv; [|done].
  intros Hat%height_variant_at. apply height_in_table in Hv. lia.
Qed.

Lemma nodes_ok_empty doc follow : nodes_ok (empty_tree doc follow).
Proof. intros n nd Hn. simpl in Hn. by rewrite lookup_empty in Hn. Qed.

(** The tree constructor, by the constructor of the root node. *)
Lemma new_tree_ends fuel doc root obj follow :
  object_at doc root = Some obj →
  ends_well
    (new_PdfObjectModelNode fuel (Some root) None KeyNull PT_Root
       (empty_tree doc follow))
    (λ this t', this = 1 ∧
       node_built (empty_tree doc follow) t' root PT_Root None KeyNull ∧
       covers fuel t' 1 (next_node t'))
    (follow = true ∧ ¬ closed doc)
    (fuel < depth_bound doc).
Proof.
  intros Hobj.
  assert (Hends := new_node_ends fuel (empty_tree doc follow) root obj None
                     KeyNull PT_Root (nodes_ok_empty doc follow) Hobj).
  simpl in Hends.
  assert (∀ r, r ∈ refs_in obj → r ∈ doc_refs doc) as Hrefs.
  { intros r. by apply (refs_in_object_at _ root obj). }
  specialize (Hends Hrefs eq_refl (NoDup_nil_2 (A:=PdfReference))).
  assert (∀ r : PdfReference, r ∈ [] → is_Some (vec_lookup (GetObjects doc) r))
    as Hnone by (by intros r ?%elem_of_nil).
  specialize (Hends Hnone).
  unfold ends_well in *.
  destruct (new_PdfObjectModelNode fuel (Some root) None KeyNull PT_Root
              (empty_tree doc follow)) as [this t'| | | |]; try done.
  { by destruct Hends as (-> & ? & ?). }
  apply height_object_at in Hobj.
  assert (fuel_needed doc 0 (height obj) ≤ depth_bound doc); [|lia].
  unfold fuel_needed, depth_bound. rewrite Nat.sub_0_r.
  rewrite Nat.mul_add_distr_r. lia.
Qed.

Lemma children_built_set_root t r n nd :
  nodes_ok t → store t !! n = Some nd →
  children_built t n nd → children_built (set_root r t) n nd.
Proof.
  intros Hok Hn. apply children_built_frame; try done. intros m md ?.
  by exists md.
Qed.

Lemma nodes_ok_set_root t r : nodes_ok t → nodes_ok (set_root r t).
Proof.
  intros Hok. apply (nodes_ok_mono t); simpl; try done.
  - intros n nd Hn. by exists nd.
  - intros n nd Hn. left. eauto.
Qed.

(** What a returned tree is like. *)
Lemma returned_tree fuel doc root obj follow t :
  object_at doc root = Some obj →
  new_PdfObjectModelTree fuel doc (Some root) follow = Return tt t →
  nodes_ok t ∧ m_pDoc t = doc ∧ m_bFollowReferences t = follow ∧
  m_pRoot t = Some 1 ∧
  (∃ cs, store t !! 1 = Some (mkNode (Some root) PT_Root None KeyNull cs)) ∧
  (∀ n, is_Some (store t !! n) ↔ 1 ≤ n < next_node t) ∧
  (∀ n nd, store t !! n = Some nd → children_built t n nd) ∧
  covers fuel t 1 (next_node t).
Proof.
  intros Hobj Hrun. unfold new_PdfObjectModelTree in Hrun.
  rewrite bind_outcome in Hrun.
  assert (Hends := new_tree_ends fuel doc root obj follow Hobj).
  unfold ends_well in Hends.
  destruct (new_PdfObjectModelNode fuel (Some root) None KeyNull PT_Root
              (empty_tree doc follow)) as [this t'| | | |]; try done.
  destruct Hends as
    (-> & (Hdoc & Hfol & Hroot & Hnext & Hold & Hthis & Hok & Hnew) & Hcov).
  injection Hrun as <-. simpl in *.
  assert (∀ n, is_Some (store t' !! n) ↔ 1 ≤ n < next_node t') as Hlive.
  { intros n. split.
    - intros [nd Hn]. destruct (Hok n nd Hn) as [? _]. split; [|done].
      destruct n; [|lia]. rewrite Hold in Hn by lia.
      by rewrite lookup_empty in Hn.
    - intros Hn. destruct (Hnew n Hn) as (x & Hx & _). eauto. }
  split_and!; try done.
  - intros n nd Hn. apply children_built_set_root; [done..|].
    destruct (Hnew n) as (x & Hx & Hb).
    + apply Hlive. eauto.
    + by assert (x = nd) as <- by congruence.
  - by apply (covers_frame fuel t').
Qed.

(** The references above a node are those of the nodes above it. *)
Lemma refs_above_on_cycle t r :
  nodes_ok t →
  ∀ steps parent,
    (∀ q, parent = Some q → q < steps ∧ is_Some (store t !! q)) →
    r ∈ refs_above steps t parent ↔
    ∃ a ad pa, above t parent a ∧ store t !! a = Some ad ∧
               m_pObject ad = Some pa ∧
               object_at (m_pDoc t) pa = Some (Reference r).
Proof.
  intros Hok steps parent Hq. split.
  - revert parent Hq. induction steps as [|steps IH]; intros parent Hq.
    + destruct parent; by intros ?%elem_of_nil.
    + destruct parent as [q|]; [|by intros ?%elem_of_nil].
      destruct (Hq q eq_refl) as [Hlt [qd Hqd]].
      cbn [refs_above]. rewrite Hqd.
      destruct (Hok q qd Hqd) as (_ & (pq & oq & Hpq & Hoq) & Hpar).
      intros [Hown|Hup]%elem_of_app.
      * unfold own_ref in Hown. rewrite Hpq in Hown. simpl in Hown.
        rewrite Hoq in Hown.
        destruct oq; try by apply elem_of_nil in Hown.
        apply list_elem_of_singleton in Hown as ->.
        exists q, qd, pq. split_and!; try done. constructor.
      * destruct (IH (m_pParent qd)) as (a & ad & pa & Ha & Hrest); [|done|].
        { intros q' Hq'. unfold parent_ok in Hpar. rewrite Hq' in Hpar.
          destruct Hpar as (? & x & _ & _ & Hx & _). split; [lia|eauto]. }
        exists a, ad, pa. split; [|done]. by apply (above_up t q qd).
  - intros (a & ad & pa & Ha & Had & Hpa & Hoa).
    revert steps Hq. induction Ha as [p|p pd a Hpd Ha IH]; intros steps Hq.
    + destruct (Hq p eq_refl) as [Hlt _]. destruct steps as [|steps]; [lia|].
      cbn [refs_above]. rewrite Had. apply elem_of_app. left.
      unfold own_ref. rewrite Hpa. simpl. rewrite Hoa.
      by apply list_elem_of_singleton.
    + destruct (Hq p eq_refl) as [Hlt _]. destruct steps as [|steps]; [lia|].
      cbn [refs_above]. rewrite Hpd. apply elem_of_app. right.
      apply IH; [done|]. intros q' Hq'.
      destruct (Hok p pd Hpd) as (_ & _ & Hpar).
      unfold parent_ok in Hpar. rewrite Hq' in Hpar.
      destruct Hpar as (? & x & _ & _ & Hx & _). split; [lia|eauto].
Qed.

Lemma references_above_on_cycle t n nd r :
  nodes_ok t → store t !! n = Some nd →
  r ∈ references_above t nd ↔ on_cycle t nd r.
Proof.
  intros Hok Hn. apply refs_above_on_cycle; [done|].
  intros q Hq. destruct (Hok n nd Hn) as (? & _ & Hpar).
  unfold parent_ok in Hpar. rewrite Hq in Hpar.
  destruct Hpar as (? & x & _ & _ & Hx & _). split; [lia|eauto].
Qed.

(** A reference that a node above is on resolves: the node below that
    one is on its object. *)
Lemma refs_above_resolve t r :
  nodes_ok t →
  ∀ steps n nd,
    store t !! n = Some nd → r ∈ refs_above steps t (m_pParent nd) →
    is_Some (vec_lookup (GetObjects (m_pDoc t)) r).
Proof.
  intros Hok. induction steps as [|steps IH]; intros n nd Hn.
  - destruct (m_pParent nd); by intros ?%elem_of_nil.
  - destruct (Hok n nd Hn) as (_ & (p & obj & Hp & Hobj) & Hpar).
    unfold parent_ok in Hpar.
    destruct (m_pParent nd) as [q|]; [|by intros ?%elem_of_nil].
    destruct Hpar as (_ & qd & pq & oq & Hqd & Hpq & Hoq & Hlink).
    cbn [refs_above]. rewrite Hqd. intros [Hown|Hup]%elem_of_app.
    + unfold own_ref in Hown. rewrite Hpq in Hown. simpl in Hown.
      rewrite Hoq in Hown.
      destruct oq; try by apply elem_of_nil in Hown.
      apply list_elem_of_singleton in Hown as ->.
      destruct Hlink as (_ & Hnd & _). rewrite Hnd in Hp.
      injection Hp as <-. rewrite object_at_referee in Hobj. eauto.
    + by apply (IH q qd).
Qed.

(** With a budget of [depth_bound doc] the construction of the tree on
    an object of the document ends, cyclic references or not: with a
    tree, or, only when references are followed and a reference of the
    document dangles, in the dereference of a null pointer. It does not
    throw, no assertion fails and the recursion does not run on. In the
    tree the root is node 1, on the object given; the nodes are at the
    addresses from 1; and every node has the children that its object
    calls for: one per key of a dictionary, one per element of an
    array, one for the object of a reference that is followed, none
    otherwise. *)
Theorem eager_construction_ends doc root obj follow fuel :
  object_at doc root = Some obj → depth_bound doc ≤ fuel →
  (∃ t, new_PdfObjectModelTree fuel doc (Some root) follow = Return tt t ∧
        m_pDoc t = doc ∧ m_pRoot t = Some 1 ∧
        (∃ cs, store t !! 1 =
                 Some (mkNode (Some root) PT_Root None KeyNull cs)) ∧
        (∀ n, is_Some (store t !! n) ↔ 1 ≤ n < next_node t) ∧
        (∀ n nd, store t !! n = Some nd → children_built t n nd)) ∨
  (new_PdfObjectModelTree fuel doc (Some root) follow = Undefined ∧
   follow = true ∧ ¬ closed doc).
Proof.
  intros Hobj Hfuel.
  assert (Hends := new_tree_ends fuel doc root obj follow Hobj).
  destruct (new_PdfObjectModelTree fuel doc (Some root) follow)
    as [[] t| | | |] eqn:Hrun.
  - left. exists t.
    destruct (returned_tree fuel doc root obj follow t Hobj Hrun)
      as (_ & ? & _ & ? & ? & ? & ? & _). done.
  - unfold new_PdfObjectModelTree in Hrun. rewrite bind_outcome in Hrun.
    unfold ends_well in Hends.
    by destruct (new_PdfObjectModelNode fuel (Some root) None KeyNull PT_Root
                   (empty_tree doc follow)).
  - unfold new_PdfObjectModelTree in Hrun. rewrite bind_outcome in Hrun.
    unfold ends_well in Hends.
    by destruct (new_PdfObjectModelNode fuel (Some root) None KeyNull PT_Root
                   (empty_tree doc follow)).
  - right. split; [done|].
    unfold new_PdfObjectModelTree in Hrun. rewrite bind_outcome in Hrun.
    unfold ends_well in Hends.
    by destruct (new_PdfObjectModelNode fuel (Some root) None KeyNull PT_Root
                   (empty_tree doc follow)).
  - unfold new_PdfObjectModelTree in Hrun. rewrite bind_outcome in Hrun.
    unfold ends_well in Hends.
    destruct (new_PdfObjectModelNode fuel (Some root) None KeyNull PT_Root
                (empty_tree doc follow)); try done.
    lia.
Qed.

Lemma eager_construction_ends_witness :
  (∃ t, new_PdfObjectModelTree 10 cyclic_doc (Some ptr_cyclic_catalog) true =
          Return tt t ∧
        m_pDoc t = cyclic_doc ∧ m_pRoot t = Some 1 ∧
        (∃ cs, store t !! 1 =
                 Some (mkNode (Some ptr_cyclic_catalog) PT_Root None KeyNull
                         cs)) ∧
        (∀ n, is_Some (store t !! n) ↔ 1 ≤ n < next_node t) ∧
        (∀ n nd, store t !! n = Some nd → children_built t n nd)) ∨
  (new_PdfObjectModelTree 10 cyclic_doc (Some ptr_cyclic_catalog) true =
     Undefined ∧
   true = true ∧ ¬ closed cyclic_doc).
Proof.
  apply (eager_construction_ends cyclic_doc ptr_cyclic_catalog
           (Dictionary [("Pages"%string, Reference (mkPdfReference 2 0));
                        ("Type"%string, Name "Catalog")])).
  - reflexivity.
  - vm_compute. lia.
Defined.

(** The children of a node on a reference, in a tree that the
    constructor returned with references followed. *)
Lemma reference_children fuel doc root obj t n nd p r :
  object_at doc root = Some obj →
  new_PdfObjectModelTree fuel doc (Some root) true = Return tt t →
  store t !! n = Some nd → m_pObject nd = Some p →
  object_at doc p = Some (Reference r) →
  is_Some (vec_lookup (GetObjects doc) r) ∧
  (on_cycle t nd r → m_children nd = []) ∧
  (¬ on_cycle t nd r →
   ∃ c cd, m_children nd = [c] ∧ store t !! c = Some cd ∧
           m_pObject cd = Some (mkPtr r []) ∧
           m_parentType cd = PT_Referenced ∧ m_pParent cd = Some n).
Proof.
  intros Hobj Hrun Hn Hp Hr.
  destruct (returned_tree fuel doc root obj true t Hobj Hrun)
    as (Hok & Hdoc & Hfol & _ & _ & _ & Hbuilt & _).
  destruct (Hbuilt n nd Hn) as (p' & obj' & Hp' & Hobj' & Hall).
  rewrite Hp in Hp'. injection Hp' as <-. rewrite Hdoc, Hr in Hobj'.
  injection Hobj' as <-.
  unfold expected_children in Hall. rewrite Hfol, Hdoc in Hall.
  simpl in Hall.
  assert (Hiff := references_above_on_cycle t n nd r Hok Hn).
  destruct (bool_decide (r ∈ references_above t nd)) eqn:Hcut.
  - apply bool_decide_eq_true in Hcut.
    apply Forall2_nil_inv_r in Hall. split_and!; [|done|].
    + rewrite <- Hdoc.
      exact (refs_above_resolve t r Hok (next_node t) n nd Hn Hcut).
    + intros Hno. destruct Hno. by apply Hiff.
  - apply bool_decide_eq_false in Hcut.
    apply Forall2_cons_inv_r in Hall as (c & cs & Hc & Hcs & Heq).
    apply Forall2_nil_inv_r in Hcs as ->.
    destruct Hc as (cd & Hcd & Hco & Hcty & _ & Hcp). simpl in *.
    destruct (Hok c cd Hcd) as (_ & (pc & oc & Hpc & _) & _).
    unfold PdfVecObjects_GetObject in Hco.
    destruct (vec_lookup (GetObjects doc) r) as [v|] eqn:Hv;
      [|congruence].
    split_and!; [eauto| |].
    + intros Hcyc. destruct Hcut. by apply Hiff.
    + intros _. exists c, cd. done.
Qed.

(** In a tree that the constructor returned with references followed, a
    node on a reference that a node above it is on has no children:
    the cycle is cut there. A node on a reference that no node above it
    is on has one child, of kind [PT_Referenced], on the object that
    the reference resolves to. In both cases the reference resolves. *)
Theorem reference_cycle_is_cut fuel doc root obj t n nd p r :
  object_at doc root = Some obj →
  new_PdfObjectModelTree fuel doc (Some root) true = Return tt t →
  store t !! n = Some nd → m_pObject nd = Some p →
  object_at doc p = Some (Reference r) →
  is_Some (vec_lookup (GetObjects doc) r) ∧
  (on_cycle t nd r → m_children nd = []) ∧
  (¬ on_cycle t nd r →
   ∃ c cd, m_children nd = [c] ∧ store t !! c = Some cd ∧
           m_pObject cd = Some (mkPtr r []) ∧
           m_parentType cd = PT_Referenced ∧ m_pParent cd = Some n).
Proof. apply reference_children. Qed.

Lemma cyclic_tree_returned :
  new_PdfObjectModelTree 10 cyclic_doc (Some ptr_cyclic_catalog) true =
    Return tt cyclic_tree.
Proof. vm_compute. reflexivity. Qed.

Lemma reference_cycle_is_cut_witness :
  let nd := mkNode (Some (mkPtr (mkPdfReference 1 0) [AtKey "Pages"%string]))
              PT_Contained (Some 6) "Pages" [] in
  is_Some (vec_lookup (GetObjects cyclic_doc) (mkPdfReference 2 0)) ∧
  (on_cycle cyclic_tree nd (mkPdfReference 2 0) → m_children nd = []) ∧
  (¬ on_cycle cyclic_tree nd (mkPdfReference 2 0) →
   ∃ c cd, m_children nd = [c] ∧ store cyclic_tree !! c = Some cd ∧
           m_pObject cd = Some (mkPtr (mkPdfReference 2 0) []) ∧
           m_parentType cd = PT_Referenced ∧ m_pParent cd = Some 7).
Proof.
  intros nd.
  apply (reference_cycle_is_cut 10 cyclic_doc ptr_cyclic_catalog
           (Dictionary [("Pages"%string, Reference (mkPdfReference 2 0));
                        ("Type"%string, Name "Catalog")])
           cyclic_tree 7 nd
           (mkPtr (mkPdfReference 1 0) [AtKey "Pages"%string])).
  - reflexivity.
  - exact cyclic_tree_returned.
  - vm_compute. reflexivity.
  - reflexivity.
  - reflexivity.
Defined.

(** A dangling reference is not handled: when references are followed
    and a node is on a reference that the document has no object for,
    looking for its children makes a child for the null pointer, whose
    constructor dereferences it. (No node above can be on that
    reference, so the walk up the parents does not stop this.) *)
Theorem dangling_reference_is_undefined fuel t this nd p r :
  nodes_ok t → store t !! this = Some nd → m_pObject nd = Some p →
  object_at (m_pDoc t) p = Some (Reference r) →
  m_bFollowReferences t = true →
  vec_lookup (GetObjects (m_pDoc t)) r = None →
  PopulateChildren (S fuel) this t = Undefined.
Proof.
  intros Hok Hthis Hp Hobj Hfol Hnone.
  unfold PopulateChildren, PopulateChildren_with.
  rewrite (bind_run _ _ _ _ _ (eager_node_at_run _ _ _ Hthis)).
  rewrite bind_get_run.
  rewrite (bind_run _ _ _ _ _ (eager_object_of_run _ _ _ _ Hp Hobj)).
  rewrite Hfol. cbn [andb IsReference GetReference]. rewrite bind_ret_run.
  destruct (Hok this nd Hthis) as (Hlt & _ & Hpar).
  assert (∀ q, m_pParent nd = Some q →
               q < next_node t ∧ is_Some (store t !! q)) as Hup.
  { intros q Hq. unfold parent_ok in Hpar. rewrite Hq in Hpar.
    destruct Hpar as (? & x & _ & _ & Hx & _). split; [lia|eauto]. }
  rewrite (bind_run _ _ _ _ _ (cycle_walk_run t r Hok _ _ Hup)).
  rewrite bool_decide_eq_false_2.
  - rewrite Hp. rewrite (bool_decide_eq_true_2 (is_Some (Some p))) by eauto.
    unfold assert. rewrite bind_ret_run.
    unfold PdfVecObjects_GetObject. rewrite Hnone.
    unfold AddNode_with. rewrite bind_outcome.
    by rewrite new_node_null.
  - intros Hin. apply (refs_above_resolve t r Hok _ this nd Hthis) in Hin.
    rewrite Hnone in Hin. by destruct Hin.
Qed.

Lemma dangling_reference_is_undefined_witness :
  PopulateChildren 1 2 dangling_tree_at_reference = Undefined.
Proof.
  apply (dangling_reference_is_undefined 0 dangling_tree_at_reference 2
           (mkNode (Some (ptr_step ptr_cyclic_catalog (AtKey "Lost")))
              PT_Contained (Some 1) "Lost" [])
           (ptr_step ptr_cyclic_catalog (AtKey "Lost"))
           (mkPdfReference 9 0)).
  - pose (t0 := empty_tree dangling_doc true).
    pose (nd1 := mkNode (Some ptr_cyclic_catalog) PT_Root None KeyNull []).
    pose (t1 := mkTree (m_pDoc t0) (m_bFollowReferences t0)
                  (m_nodeAliases t0) (m_pRoot t0)
                  (<[next_node t0 := nd1]> (store t0)) (S (next_node t0))).
    pose (t1' := set_aliases [(Some ptr_cyclic_catalog, 1)] t1).
    pose (nd2 := mkNode (Some (ptr_step ptr_cyclic_catalog (AtKey "Lost")))
                   PT_Contained (Some 1) "Lost" []).
    pose (t2 := mkTree (m_pDoc t1') (m_bFollowReferences t1')
                  (m_nodeAliases t1') (m_pRoot t1')
                  (<[next_node t1' := nd2]> (store t1')) (S (next_node t1'))).
    change (nodes_ok
              (set_aliases
                 [(Some ptr_cyclic_catalog, 1);
                  (Some (ptr_step ptr_cyclic_catalog (AtKey "Lost")), 2)]
                 t2)).
    apply nodes_ok_set_aliases, nodes_ok_allocate.
    + apply nodes_ok_set_aliases, nodes_ok_allocate.
      * apply nodes_ok_empty.
      * eexists _, _. split; reflexivity.
      * reflexivity.
    + eexists _, _. split; reflexivity.
    + split; [simpl; lia|]. exists nd1. eexists _, _.
      split_and!; try reflexivity.
      exists "Lost"%string. split_and!; try reflexivity. vm_compute. eauto.
  - vm_compute. reflexivity.
  - reflexivity.
  - reflexivity.
  - reflexivity.
  - reflexivity.
Defined.

(** [GetContainer] on a node of a returned tree dereferences no null
    pointer. It returns null for the root; the parent, which is on a
    dictionary or an array, for a node of kind [PT_Contained]; and for
    a node of kind [PT_Referenced], whose parent is the node on the
    reference, the parent of that node. *)
Theorem GetContainer_skips_the_reference fuel doc root obj follow t n nd :
  object_at doc root = Some obj →
  new_PdfObjectModelTree fuel doc (Some root) follow = Return tt t →
  store t !! n = Some nd →
  match m_parentType nd with
  | PT_Root => m_pParent nd = None ∧ GetContainer n t = Return None t
  | PT_Contained =>
      ∃ q qd pq oq,
        m_pParent nd = Some q ∧ store t !! q = Some qd ∧
        m_pObject qd = Some pq ∧ object_at doc pq = Some oq ∧
        IsDictionary oq || IsArray oq = true ∧
        GetContainer n t = Return (Some q) t
  | PT_Referenced =>
      ∃ q qd pq r,
        m_pParent nd = Some q ∧ store t !! q = Some qd ∧
        m_pObject qd = Some pq ∧ object_at doc pq = Some (Reference r) ∧
        m_pObject nd = Some (mkPtr r []) ∧
        GetContainer n t = Return (m_pParent qd) t
  end.
Proof.
  intros Hobj Hrun Hn.
  destruct (returned_tree fuel doc root obj follow t Hobj Hrun)
    as (Hok & Hdoc & _).
  destruct (Hok n nd Hn) as (_ & _ & Hpar). unfold parent_ok in Hpar.
  unfold GetContainer.
  rewrite (bind_run _ _ _ _ _ (eager_node_at_run _ _ _ Hn)).
  destruct (m_pParent nd) as [q|] eqn:Hq.
  - destruct Hpar as (_ & qd & pq & oq & Hqd & Hpq & Hoq & Hlink).
    rewrite Hdoc in Hoq. unfold child_link in Hlink.
    destruct oq as [b|z|x|x|x|x|a|d| |r|x]; try done.
    + destruct Hlink as (i & _ & _ & -> & _).
      by exists q, qd, pq, (Array a).
    + destruct Hlink as (k & _ & _ & -> & _).
      by exists q, qd, pq, (Dictionary d).
    + destruct Hlink as (_ & Ho & -> & _).
      exists q, qd, pq, r. simpl. rewrite bind_ret_run.
      by rewrite (bind_run _ _ _ _ _ (eager_node_at_run _ _ _ Hqd)).
  - by rewrite Hpar.
Qed.

Lemma GetContainer_skips_the_reference_witness :
  ∃ q qd pq r,
    Some 5 = Some q ∧ store cyclic_tree !! q = Some qd ∧
    m_pObject qd = Some pq ∧
    object_at cyclic_doc pq = Some (Reference r) ∧
    Some ptr_cyclic_catalog = Some (mkPtr r []) ∧
    GetContainer 6 cyclic_tree = Return (m_pParent qd) cyclic_tree.
Proof.
  apply (GetContainer_skips_the_reference 10 cyclic_doc ptr_cyclic_catalog
           (Dictionary [("Pages"%string, Reference (mkPdfReference 2 0));
                        ("Type"%string, Name "Catalog")])
           true cyclic_tree 6
           (mkNode (Some ptr_cyclic_catalog) PT_Referenced (Some 5) KeyNull
              [7; 8])).
  - reflexivity.
  - exact cyclic_tree_returned.
  - vm_compute. reflexivity.
Defined.

(** *** The alias index of the eager tree *)

Lemma registers_bind {A B} (m : TreeM A) (k : A → TreeM B) :
  registers m → (∀ a, registers (k a)) → registers (x ← m; k x).
Proof. intros Hm Hk. by apply (triple_bind alias_inv m k (λ _, alias_inv)). Qed.

Lemma registers_ret {A} (a : A) : registers (ret a).
Proof. by intros s Hs. Qed.

Lemma registers_get : registers get.
Proof. by intros s Hs. Qed.

Lemma registers_deref {A} (o : option A) : registers (deref o).
Proof. intros s Hs. by destruct o. Qed.

Lemma registers_assert b : registers (assert b).
Proof. intros s Hs. by destruct b. Qed.

Lemma registers_node_at n : registers (node_at n).
Proof.
  apply registers_bind; [apply registers_get|]. intros t.
  apply registers_deref.
Qed.

Lemma registers_object_of nd : registers (object_of nd).
Proof.
  apply registers_bind; [apply registers_get|]. intros t.
  apply registers_bind; [apply registers_deref|]. intros p.
  apply registers_deref.
Qed.

Lemma registers_cycle_walk steps r parent :
  registers (cycle_walk steps r parent).
Proof.
  revert parent. induction steps as [|steps IH]; intros [q|];
    cbn [cycle_walk]; try apply registers_ret; [by intros s Hs|].
  apply registers_bind; [apply registers_node_at|]. intros pd.
  apply registers_bind; [apply registers_object_of|]. intros obj.
  apply registers_bind.
  - destruct obj; simpl; apply registers_ret.
  - intros [|]; [apply registers_ret|apply IH].
Qed.

Lemma pairs_of_fresh s n nd :
  s !! n = None → pairs_of (<[n := nd]> s) ≡ₚ (m_pObject nd, n) :: pairs_of s.
Proof.
  intros Hn. unfold pairs_of. by rewrite (map_to_list_insert s n nd Hn).
Qed.

Lemma pairs_of_set_children s n nd cs :
  s !! n = Some nd → pairs_of (<[n := set_children cs nd]> s) ≡ₚ pairs_of s.
Proof.
  intros Hn. rewrite <- (insert_delete_eq s n (set_children cs nd)).
  rewrite pairs_of_fresh by apply lookup_delete_eq. simpl.
  unfold pairs_of. by rewrite <- (map_to_list_delete s n nd Hn).
Qed.

Lemma registers_set_children this f :
  (∀ nd, ∃ cs, f nd = set_children cs nd) → registers (update_node this f).
Proof.
  intros Hf s [Hperm Hb]. unfold update_node, node_at. monad_unfold.
  destruct (store s !! this) as [nd|] eqn:Hthis; [|done].
  destruct (Hf nd) as [cs ->]. split; simpl.
  - by rewrite pairs_of_set_children.
  - apply map_Forall_insert_2; [|done]. by apply (Hb this nd).
Qed.

Section Registers.

Variable new_node :
  option PdfObjectPtr → option nodeptr → PdfName → ParentageType →
  TreeM nodeptr.
Hypothesis new_node_registers :
  ∀ object this key pt, registers (new_node object (Some this) key pt).

Lemma registers_AddNode this object pt key :
  registers (AddNode_with new_node this object pt key).
Proof.
  apply registers_bind; [apply new_node_registers|]. intros child.
  apply registers_set_children. intros nd. eauto.
Qed.

Lemma registers_PopulateChildren this :
  registers (PopulateChildren_with new_node this).
Proof.
  apply registers_bind; [apply registers_node_at|]. intros nd.
  apply registers_bind; [apply registers_get|]. intros t.
  apply registers_bind; [apply registers_object_of|]. intros obj.
  destruct (m_bFollowReferences t && IsReference obj).
  - apply registers_bind; [destruct obj; by intros ? ?|]. intros r.
    apply registers_bind; [apply registers_cycle_walk|]. intros [|].
    + apply registers_ret.
    + apply registers_bind; [apply registers_assert|]. intros _.
      apply registers_AddNode.
  - destruct (IsDictionary obj).
    + apply registers_bind; [destruct obj; by intros ? ?|]. intros keys.
      apply registers_bind; [apply registers_deref|]. intros p.
      apply triple_for_each. intros it. apply registers_AddNode.
    + destruct (IsArray obj); [|apply registers_ret].
      apply registers_bind; [destruct obj; by intros ? ?|]. intros a.
      apply registers_bind; [apply registers_deref|]. intros p.
      apply triple_for_each. intros i. apply registers_AddNode.
Qed.

End Registers.

Lemma registers_new_node fuel :
  ∀ object parent key pt,
    pt = PT_Root ∨ parent ≠ None →
    registers (new_PdfObjectModelNode fuel object parent key pt).
Proof.
  induction fuel as [|fuel IH]; intros object parent key pt Hpar;
    [by intros s Hs|].
  intros s [Hperm Hb]. cbn [new_PdfObjectModelNode].
  assert (bool_decide (pt ≠ PT_Root) && bool_decide (parent = None) = false)
    as ->.
  { destruct Hpar as [->|Hp].
    - by rewrite (bool_decide_eq_false_2 (PT_Root ≠ PT_Root)) by auto.
    - rewrite (bool_decide_eq_false_2 (parent = None)) by done.
      apply andb_false_r. }
  set (nd0 := mkNode object pt parent key []).
  rewrite bind_outcome. unfold allocate at 1. cbv beta iota.
  set (this := next_node s).
  set (s1 := mkTree (m_pDoc s) (m_bFollowReferences s) (m_nodeAliases s)
               (m_pRoot s) (<[this := nd0]> (store s)) (S this)).
  assert (store s !! this = None) as Hfresh.
  { destruct (store s !! this) as [x|] eqn:Hx; [|done].
    apply Hb in Hx. unfold this in Hx. lia. }
  rewrite bind_outcome. unfold constructing. rewrite bind_outcome.
  assert (NodeCreated this s1 =
          Return tt (set_aliases (m_nodeAliases s1 ++ [(object, this)]) s1))
    as ->.
  { unfold NodeCreated.
    rewrite (bind_run _ _ _ _ _
               (eager_node_at_run s1 this nd0 (lookup_insert_eq _ _ _))).
    done. }
  set (s2 := set_aliases (m_nodeAliases s1 ++ [(object, this)]) s1).
  assert (alias_inv s2) as Hs2.
  { split; simpl.
    - rewrite pairs_of_fresh by done. simpl. rewrite Hperm.
      by rewrite Permutation_app_comm.
    - apply map_Forall_insert_2; [lia|].
      eapply map_Forall_impl; [exact Hb|]. simpl. intros. lia. }
  assert (∀ o q k p,
            registers (new_PdfObjectModelNode fuel o (Some q) k p)) as Hnew
    by (intros; apply IH; by right).
  assert (Hpop := registers_PopulateChildren (new_PdfObjectModelNode fuel)
                    Hnew this s2 Hs2).
  destruct (PopulateChildren_with (new_PdfObjectModelNode fuel) this s2)
    as [[] s3| | | |]; done.
Qed.

(** The alias index registers every node of the eager tree, once: the
    index of a returned tree holds, in some order, one pair for each
    live node, of the node and its object; and [CountAliases] of a node
    is the number of live nodes on the same object, the node itself
    among them. *)
Theorem eager_alias_index_is_complete fuel doc root follow t n nd :
  new_PdfObjectModelTree fuel doc root follow = Return tt t →
  store t !! n = Some nd →
  m_nodeAliases t ≡ₚ pairs_of (store t) ∧
  n ∈ live_nodes_on t (m_pObject nd) ∧
  CountAliases n t =
    Return (int_of_size (length (live_nodes_on t (m_pObject nd)))) t.
Proof.
  intros Hrun Hn. unfold new_PdfObjectModelTree in Hrun.
  rewrite bind_outcome in Hrun.
  assert (alias_inv (empty_tree doc follow)) as H0.
  { split; [done|]. simpl. apply map_Forall_empty. }
  assert (Hnew := registers_new_node fuel root None KeyNull PT_Root
                    (or_introl eq_refl) _ H0).
  destruct (new_PdfObjectModelNode fuel root None KeyNull PT_Root
              (empty_tree doc follow)) as [r t'| | | |]; try done.
  injection Hrun as <-.
  assert (alias_inv (set_root (Some r) t')) as [Hperm Hb] by exact Hnew.
  set (t := set_root (Some r) t') in *.
  split_and!; [done| |].
  - unfold live_nodes_on. apply list_elem_of_fmap. exists (n, nd).
    split; [done|]. apply list_elem_of_filter. split; [done|].
    by apply elem_of_map_to_list.
  - unfold CountAliases.
    rewrite (bind_run _ _ _ _ _ (eager_node_at_run _ _ _ Hn)).
    rewrite bind_get_run. unfold ret. f_equal.
    unfold Tree_CountAliases, multimap_count, live_nodes_on.
    f_equal. rewrite Hperm, length_fmap. unfold pairs_of.
    generalize (map_to_list (store t)). intros l.
    induction l as [|[m md] l IHl]; [done|].
    rewrite fmap_cons, !filter_cons. simpl.
    destruct (decide (m_pObject md = m_pObject nd)); simpl; by rewrite IHl.
Qed.

Lemma eager_alias_index_is_complete_witness :
  m_nodeAliases cyclic_tree ≡ₚ pairs_of (store cyclic_tree) ∧
  6 ∈ live_nodes_on cyclic_tree (Some ptr_cyclic_catalog) ∧
  CountAliases 6 cyclic_tree =
    Return (int_of_size
              (length (live_nodes_on cyclic_tree (Some ptr_cyclic_catalog))))
      cyclic_tree.
Proof.
  apply (eager_alias_index_is_complete 10 cyclic_doc (Some ptr_cyclic_catalog)
           true cyclic_tree 6
           (mkNode (Some ptr_cyclic_catalog) PT_Referenced (Some 5) KeyNull
              [7; 8])).
  - exact cyclic_tree_returned.
  - vm_compute. reflexivity.
Defined.

(** *** Tearing the tree down *)

Lemma freed_nothing t lo : freed t lo lo t.
Proof.
  split_and!; try done. intros m.
  rewrite bool_decide_eq_false_2 by lia. done.
Qed.

Lemma freed_join t t1 t2 lo mid hi :
  lo ≤ mid → mid ≤ hi → freed t lo mid t1 → freed t1 mid hi t2 →
  freed t lo hi t2.
Proof.
  intros Hlo Hhi (Hd1 & Hr1 & Ha1 & Hn1 & Hs1) (Hd2 & Hr2 & Ha2 & Hn2 & Hs2).
  split_and!; try congruence. intros m. rewrite Hs2, Hs1.
  repeat case_bool_decide; try done; lia.
Qed.

Lemma delete_covered h :
  ∀ t n hi, covers h t n hi →
    ∀ fuel, h ≤ fuel →
      ∃ t', delete_PdfObjectModelNode fuel n t = Return tt t' ∧
            freed t n hi t'.
Proof.
  induction h as [|h IH]; intros t n hi Hcov fuel Hfuel; [done|].
  destruct fuel as [|fuel]; [lia|].
  destruct Hcov as (nd & Hn & Hcs). cbn [delete_PdfObjectModelNode].
  rewrite (bind_run _ _ _ _ _ (eager_node_at_run _ _ _ Hn)).
  assert (S n ≤ hi) as Hhi
    by by apply (covers_list_bounds _ (covers_bounds h t) _ _ _ Hcs).
  assert (∀ cs t1 lo,
            covers_list (covers h t1) lo cs hi →
            ∃ t2, for_each (delete_PdfObjectModelNode fuel) cs t1 =
                    Return tt t2 ∧ freed t1 lo hi t2) as Hloop.
  { clear nd Hn Hcs. induction cs as [|c cs IHcs]; intros t1 lo; simpl.
    - intros ->. exists t1. split; [done|apply freed_nothing].
    - intros (-> & mid & Hc & Hrest).
      destruct (IH t1 lo mid Hc fuel) as (t1' & Hdel & Hfreed); [lia|].
      assert (lo < mid) by by apply (covers_bounds h t1).
      assert (mid ≤ hi)
        by by apply (covers_list_bounds _ (covers_bounds h t1) _ _ _ Hrest).
      destruct (IHcs t1' mid) as (t2 & Hdel2 & Hfreed2).
      { apply (covers_list_frame (covers h t1) (covers h t1') mid hi
                 (covers_bounds h t1)); try done.
        intros c' mid' Hc' Hmid'. apply covers_frame. intros m Hm.
        destruct Hfreed as (_ & _ & _ & _ & Hs). rewrite Hs.
        rewrite bool_decide_eq_false_2 by lia. done. }
      exists t2. rewrite (bind_run _ _ _ _ _ Hdel). split; [done|].
      apply (freed_join t1 t1' t2 lo mid hi); (done || lia). }
  destruct (Hloop (m_children nd) t (S n) Hcs) as (t2 & Hdel & Hfreed).
  rewrite (bind_run _ _ _ _ _ Hdel).
  exists (set_store (delete n (store t2)) t2). split; [done|].
  destruct Hfreed as (Hd & Hr & Ha & Hnx & Hs).
  split_and!; try done. intros m. simpl.
  destruct (decide (m = n)) as [->|Hne].
  - rewrite lookup_delete_eq. rewrite bool_decide_eq_true_2 by lia. done.
  - rewrite lookup_delete_ne by done. rewrite Hs.
    repeat case_bool_decide; try done; lia.
Qed.

(** What the constructor has built the destructor takes down: deleting
    a tree that the constructor returned, with the budget of the
    construction or more, returns; every node has been deleted, each
    once, and the document is as it was. *)
Theorem eager_tree_is_torn_down fuel fuel' doc root obj follow t :
  object_at doc root = Some obj →
  new_PdfObjectModelTree fuel doc (Some root) follow = Return tt t →
  fuel ≤ fuel' →
  ∃ t', delete_PdfObjectModelTree fuel' t = Return tt t' ∧
        store t' = ∅ ∧ m_pDoc t' = doc.
Proof.
  intros Hobj Hrun Hfuel.
  destruct (returned_tree fuel doc root obj follow t Hobj Hrun)
    as (_ & Hdoc & _ & Hroot & _ & Hlive & _ & Hcov).
  destruct (delete_covered fuel t 1 (next_node t) Hcov fuel' Hfuel)
    as (t' & Hdel & Hd & _ & _ & _ & Hs).
  exists t'. unfold delete_PdfObjectModelTree. rewrite bind_get_run, Hroot.
  split_and!; [done| |congruence].
  apply map_eq. intros m. rewrite Hs, lookup_empty.
  case_bool_decide as Hm; [done|].
  destruct (store t !! m) as [x|] eqn:Hx; [|done].
  destruct Hm. apply Hlive. eauto.
Qed.

Lemma eager_tree_is_torn_down_witness :
  ∃ t', delete_PdfObjectModelTree 10 cyclic_tree = Return tt t' ∧
        store t' = ∅ ∧ m_pDoc t' = cyclic_doc.
Proof.
  apply (eager_tree_is_torn_down 10 10 cyclic_doc ptr_cyclic_catalog
           (Dictionary [("Pages"%string, Reference (mkPdfReference 2 0));
                        ("Type"%string, Name "Catalog")])
           true cyclic_tree).
  - reflexivity.
  - exact cyclic_tree_returned.
  - lia.
Defined.

End EagerTree.

(** ** The children of a reference, in both versions *)

(** Claim C4, as the code has it. With follow-references enabled, a
    node that wraps a reference is populated as follows. In the version
    that loads children on demand, population returns normally, with
    exactly one child of kind [PT_Referenced] on the object the
    reference resolves to, and with no child when it resolves to
    nothing. In the trunk version, where the constructor populates, in
    a tree that the constructor returned the reference of such a node
    resolves, and the node has exactly one child of kind
    [PT_Referenced] on the object it resolves to, unless a node above it
    wraps the same reference: then it has no child. *)
Theorem reference_node_population :
  (∀ tok t this nd r,
     in_use tok t →
     store t !! this = Some nd →
     m_bChildrenLoaded nd = false →
     m_bFollowReferences t = true →
     object_at (m_pDoc t) (m_pObject nd) = Some (Reference r) →
     ∃ t' nd',
       PopulateChildren this t = Return tt t' ∧
       store t' !! this = Some nd' ∧
       m_bChildrenLoaded nd' = true ∧
       match PdfVecObjects_GetObject (GetObjects (m_pDoc t)) r with
       | Some referee =>
           ∃ child,
             m_children nd' = [child] ∧
             store t !! child = None ∧
             store t' !! child =
               Some (mkNode false false referee PT_Referenced (Some this)
                       KeyNull []) ∧
             (m_bPretendEmpty nd = false →
              CountChildren this t = Return 1 t')
       | None =>
           m_children nd' = [] ∧
           (m_bPretendEmpty nd = false → CountChildren this t = Return 0 t')
       end) ∧
  (∀ fuel doc root obj t n nd p r,
     object_at doc root = Some obj →
     Trunk.new_PdfObjectModelTree fuel doc (Some root) true = Return tt t →
     Trunk.store t !! n = Some nd → Trunk.m_pObject nd = Some p →
     object_at doc p = Some (Reference r) →
     PdfVecObjects_GetObject (GetObjects doc) r = Some (mkPtr r []) ∧
     (Trunk.on_cycle t nd r → Trunk.m_children nd = []) ∧
     (¬ Trunk.on_cycle t nd r →
      ∃ c cd,
        Trunk.m_children nd = [c] ∧ Trunk.store t !! c = Some cd ∧
        Trunk.m_pObject cd = Some (mkPtr r []) ∧
        Trunk.m_parentType cd = PT_Referenced ∧
        Trunk.m_pParent cd = Some n)).
Proof.
  split.
  - exact PopulateChildren_reference.
  - intros fuel doc root obj t n nd p r Hobj Hrun Hn Hp Hr.
    destruct (EagerTree.reference_children fuel doc root obj t n nd p r
                Hobj Hrun Hn Hp Hr) as ([v Hv] & Hcut & Hone).
    split_and!; [|done..].
    unfold PdfVecObjects_GetObject. by rewrite Hv.
Qed.

(** Node 7 of the trunk's tree on the cyclic document wraps the
    reference under key Pages of the catalog, which the tree has
    reached a second time. References are followed and the reference
    resolves, to object 2 0, but the node has no child: node 2, above
    it, wraps the same reference. *)
Lemma reference_node_population_counterexample :
  Trunk.new_PdfObjectModelTree 10 Trunk.cyclic_doc
    (Some Trunk.ptr_cyclic_catalog) true = Return tt Trunk.cyclic_tree ∧
  Trunk.m_bFollowReferences Trunk.cyclic_tree = true ∧
  ∃ nd p,
    Trunk.store Trunk.cyclic_tree !! 7%nat = Some nd ∧
    Trunk.m_pObject nd = Some p ∧
    object_at Trunk.cyclic_doc p = Some (Reference (mkPdfReference 2 0)) ∧
    PdfVecObjects_GetObject (GetObjects Trunk.cyclic_doc)
      (mkPdfReference 2 0) = Some (mkPtr (mkPdfReference 2 0) []) ∧
    Trunk.m_children nd = [] ∧
    Trunk.CountChildren 7%nat Trunk.cyclic_tree =
      Return 0 Trunk.cyclic_tree.
Proof.
  split; [vm_compute; reflexivity|]. split; [reflexivity|].
  eexists _, _. split; [vm_compute; reflexivity|].
  split; [reflexivity|]. split; [reflexivity|]. split; [reflexivity|].
  split; [reflexivity|]. vm_compute. reflexivity.
Qed.

(** Node 2 of the sample tree wraps the reference under key A, which
    resolves to the shared object; its one child is node 7. In the
    trunk's tree on the cyclic document node 2 wraps the reference to
    object 2 0 and no node above it does: its one child, node 3, is on
    that object. *)
Lemma reference_node_population_witness :
  (∃ t' nd',
     PopulateChildren 2%nat sample_tree_expanded = Return tt t' ∧
     store t' !! 2%nat = Some nd' ∧
     m_bChildrenLoaded nd' = true ∧
     ∃ child,
       m_children nd' = [child] ∧
       store sample_tree_expanded !! child = None ∧
       store t' !! child =
         Some (mkNode false false ptr_shared PT_Referenced (Some 2%nat)
                 KeyNull []) ∧
       (false = false →
        CountChildren 2%nat sample_tree_expanded = Return 1 t')) ∧
  ∃ c cd,
    Trunk.store Trunk.cyclic_tree !! 2%nat =
      Some (Trunk.mkNode
              (Some (mkPtr (mkPdfReference 1 0) [AtKey "Pages"%string]))
              PT_Contained (Some 1%nat) "Pages" [c]) ∧
    Trunk.store Trunk.cyclic_tree !! c = Some cd ∧
    Trunk.m_pObject cd = Some (mkPtr (mkPdfReference 2 0) []) ∧
    Trunk.m_parentType cd = PT_Referenced ∧
    Trunk.m_pParent cd = Some 2%nat.
Proof.
  destruct reference_node_population as [Hlazy Htrunk]. split.
  - refine (Hlazy sample_tokenizer sample_tree_expanded 2%nat
              (mkNode false false (mkPtr ref_catalog [AtKey "A"%string])
                 PT_Contained (Some 1%nat) "A"%string [])
              ref_shared _ _ _ _ _).
    + apply (in_use_call sample_tokenizer (call_CountChildren 1%nat)
               sample_tree).
      * by apply (in_use_new sample_tokenizer sample_doc ptr_catalog true).
      * reflexivity.
      * by vm_compute.
    + reflexivity.
    + reflexivity.
    + reflexivity.
    + reflexivity.
  - destruct (Htrunk 10%nat Trunk.cyclic_doc Trunk.ptr_cyclic_catalog
                (Dictionary [("Pages"%string, Reference (mkPdfReference 2 0));
                             ("Type"%string, Name "Catalog")])
                Trunk.cyclic_tree 2%nat
                (Trunk.mkNode
                   (Some (mkPtr (mkPdfReference 1 0) [AtKey "Pages"%string]))
                   PT_Contained (Some 1%nat) "Pages" [3%nat])
                (mkPtr (mkPdfReference 1 0) [AtKey "Pages"%string])
                (mkPdfReference 2 0))
      as (_ & _ & Hone).
    + reflexivity.
    + exact EagerTree.cyclic_tree_returned.
    + vm_compute. reflexivity.
    + reflexivity.
    + reflexivity.
    + destruct Hone as (c & cd & Hc & Hcd & Hrest).
      * intros (a & ad & pa & Habove & Had & Hpa & Hat).
        inversion Habove as [q Hq|q pd a' Hpd Hup Hq]; subst.
        -- vm_compute in Had. injection Had as <-.
           injection Hpa as <-. vm_compute in Hat. discriminate.
        -- vm_compute in Hpd. injection Hpd as <-.
           inversion Hup.
      * exists c, cd. injection Hc as <-. split; [vm_compute; reflexivity|].
        split; [exact Hcd|exact Hrest].
Defined.

(** ** The order of the list view *)

Section ListOrder.

Variable base :
  ListView.PdfListViewItem → ListView.QListViewItem → Z → bool → Z.

(** In column 0 two items of the list are ordered by the numbers of
    their objects: [compare] is 0 exactly for equal numbers, positive
    in ascending order exactly when this item has the greater number,
    and changes its sign when the two items change places and when the
    order changes from ascending to descending; the base class is not
    asked. The order is transitive. *)
Theorem compare_orders_by_object_number a b c ia ib ic ascending :
  ListView.dynamic_cast ia = Some a → ListView.dynamic_cast ib = Some b →
  ListView.dynamic_cast ic = Some c →
  (ListView.compare base a ib 0 ascending = 0 ↔
   ListView.ObjectNumber a = ListView.ObjectNumber b) ∧
  (0 < ListView.compare base a ib 0 true ↔
   (ListView.ObjectNumber b < ListView.ObjectNumber a)%nat) ∧
  ListView.compare base b ia 0 ascending =
    - ListView.compare base a ib 0 ascending ∧
  ListView.compare base a ib 0 (negb ascending) =
    - ListView.compare base a ib 0 ascending ∧
  (0 < ListView.compare base a ib 0 ascending →
   0 < ListView.compare base b ic 0 ascending →
   0 < ListView.compare base a ic 0 ascending).
Proof.
  intros Ha Hb Hc. unfold ListView.compare. rewrite Ha, Hb, Hc. simpl.
  destruct a as [na], b as [nb], c as [nc]. simpl.
  repeat match goal with
         | |- context [(?x =? ?y)%nat] => destruct (Nat.eqb_spec x y)
         | |- context [(?x <? ?y)%nat] => destruct (Nat.ltb_spec x y)
         end;
    destruct ascending; simpl; split_and!; try split; try lia.
Qed.

End ListOrder.

Lemma compare_orders_by_object_number_witness :
  let base := λ _ _ _ _, 0 in
  let a := ListView.mkPdfListViewItem 7 in
  let b := ListView.mkPdfListViewItem 3 in
  let c := ListView.mkPdfListViewItem 1 in
  let ia := ListView.mkQListViewItem "7 0 R  " (Some a) in
  let ib := ListView.mkQListViewItem "3 0 R  " (Some b) in
  let ic := ListView.mkQListViewItem "1 0 R  " (Some c) in
  (ListView.compare base a ib 0 true = 0 ↔
   ListView.ObjectNumber a = ListView.ObjectNumber b) ∧
  (0 < ListView.compare base a ib 0 true ↔
   (ListView.ObjectNumber b < ListView.ObjectNumber a)%nat) ∧
  ListView.compare base b ia 0 true = - ListView.compare base a ib 0 true ∧
  ListView.compare base a ib 0 (negb true) =
    - ListView.compare base a ib 0 true ∧
  (0 < ListView.compare base a ib 0 true →
   0 < ListView.compare base b ic 0 true →
   0 < ListView.compare base a ic 0 true).
Proof.
  intros base a b c ia ib ic.
  apply (compare_orders_by_object_number base a b c ia ib ic true);
    reflexivity.
Defined.
